(** * Pebble: batch wire format, WAL replay, compaction and block iteration

    A shallow embedding of the parts of the Pebble storage engine that its
    specification makes claims about, and the proofs that settle them.

    Conventions.  Unsigned machine integers are [N] with the wrap-around
    written out ([mod 2^32], [mod 2^64]); signed ones and comparison results
    are [Z]; [[]byte] is [list byte]; a nil slice returned where Go
    distinguishes nil from empty is [None].  A Go call either returns or
    panics: that is the [outcome] monad. *)

From Stdlib Require Import ZArith NArith Lia List String Bool.
From Stdlib.Strings Require Import Byte.
From stdpp Require Import base option list sorting gmap.
Import ListNotations.

Local Open Scope N_scope.

Abbreviation bytes := (list byte).

(* ===================================================================== *)
(** * Part I: the model *)
(* ===================================================================== *)

(** ** Go calls: return or panic *)

Inductive outcome (A : Type) : Type :=
| Ret (a : A)
| Panic (msg : string).
Arguments Ret {A} a.
Arguments Panic {A} msg.

#[global] Instance outcome_ret : MRet outcome := fun A a => Ret a.
#[global] Instance outcome_bind : MBind outcome := fun A B f m =>
  match m with
  | Ret a => f a
  | Panic msg => Panic msg
  end.

(** The errors the modelled code returns. *)
Inductive error : Type :=
| ErrNotIndexed
| ErrInvalidBatch
| ErrNotFound
| ErrArenaFull
| Errorf (msg : string).

(** [byte(x)]: conversion of an unsigned integer to a byte keeps the low
    eight bits. *)
Definition byte_of_N (n : N) : byte :=
  match Byte.of_N (n mod 256) with
  | Some b => b
  | None => x00
  end.

(** [s[lo:]] on a slice: panics when [lo] is past the end. *)
Definition slice_from (s : bytes) (lo : nat) : outcome bytes :=
  if (lo <=? length s)%nat then Ret (drop lo s)
  else Panic "slice bounds out of range".

(** ** encoding/binary *)
Module binary.

Definition MaxVarintLen64 : nat := 10.

(** [PutUvarint]: seven bits per byte, least significant group first, the
    high bit marking continuation.  For a [uint64] the loop body runs at
    most nine times, so ten units of fuel always reach the final byte. *)
Fixpoint PutUvarint_loop (fuel : nat) (x : N) : bytes :=
  match fuel with
  | O => []
  | S fuel' =>
      if 0x80 <=? x
      then byte_of_N (N.lor x 0x80) :: PutUvarint_loop fuel' (N.shiftr x 7)
      else [byte_of_N x]
  end.

Definition PutUvarint (x : N) : bytes :=
  PutUvarint_loop MaxVarintLen64 (x mod 2^64).

(** [Uvarint buf] returns the decoded value and the number of bytes read;
    [n = 0] when the buffer is too small and [n < 0] on overflow. *)
Fixpoint Uvarint_loop (buf : bytes) (i : nat) (x s : N) : N * Z :=
  match buf with
  | [] => (0, 0%Z)
  | b :: buf' =>
      if (i =? MaxVarintLen64)%nat then (0, (- (Z.of_nat i + 1))%Z)
      else if Byte.to_N b <? 0x80 then
        if (i =? MaxVarintLen64 - 1)%nat && (1 <? Byte.to_N b)
        then (0, (- (Z.of_nat i + 1))%Z)
        else (N.lor x (N.shiftl (Byte.to_N b) s mod 2^64), (Z.of_nat i + 1)%Z)
      else
        Uvarint_loop buf' (S i)
          (N.lor x (N.shiftl (N.land (Byte.to_N b) 0x7f) s mod 2^64))
          (s + 7)
  end.

Definition Uvarint (buf : bytes) : N * Z := Uvarint_loop buf 0 0 0.

(** [LittleEndian.Uint32] and [LittleEndian.Uint64] of the first bytes of
    a slice; an index out of range panics. *)
Fixpoint le_value (p : bytes) : N :=
  match p with
  | [] => 0
  | b :: p' => Byte.to_N b + 256 * le_value p'
  end.

Definition Uint32 (p : bytes) : outcome N :=
  if (4 <=? length p)%nat then Ret (le_value (take 4 p))
  else Panic "index out of range".

Definition Uint64 (p : bytes) : outcome N :=
  if (8 <=? length p)%nat then Ret (le_value (take 8 p))
  else Panic "index out of range".

(** The bytes that [LittleEndian.PutUint32] and [LittleEndian.PutUint64]
    write: [n] bytes of [v], least significant first. *)
Fixpoint le_bytes (n : nat) (v : N) : bytes :=
  match n with
  | O => []
  | S n' => byte_of_N v :: le_bytes n' (v / 256)
  end.

End binary.

(** ** Internal keys (package db) *)
Module db.

(** Modelled from the spec: the kinds of an internal key,
    [kind ∈ {DELETE=0, SET=1, MERGE=2, RANGE_DELETE=15}]; the largest of
    them bounds the kind byte of a batch entry. *)
Definition InternalKeyKindDelete : N := 0.
Definition InternalKeyKindSet : N := 1.
Definition InternalKeyKindMerge : N := 2.
Definition InternalKeyKindRangeDelete : N := 15.
Definition InternalKeyKindMax : N := 15.

(** Modelled from the spec: the sequence-number bit that marks a key of
    an unapplied indexed batch, whose sequence number is an offset. *)
Definition InternalKeySeqNumBatch : N := 2^55.

(** Modelled from the spec: an internal key is a user key and the
    trailer [(seq_num << 8) | kind]. *)
Record InternalKey : Type := { UserKey : bytes; Trailer : N }.

Definition MakeInternalKey (userKey : bytes) (seqNum kind : N) : InternalKey :=
  {| UserKey := userKey;
     Trailer := N.lor (N.shiftl seqNum 8 mod 2^64) kind |}.

Definition Kind (k : InternalKey) : N := N.land (Trailer k) 0xff.

Definition SeqNum (k : InternalKey) : N := N.shiftr (Trailer k) 8.

Definition SetKind (k : InternalKey) (kind : N) : InternalKey :=
  {| UserKey := UserKey k;
     Trailer := N.lor (N.shiftl (N.shiftr (Trailer k) 8) 8) kind |}.

(** [db.Compare]: negative, zero or positive. *)
Definition Compare : Type := bytes -> bytes -> Z.

(** [db.Merge] as the compaction iterator calls it: key, accumulated
    value, older value. *)
Definition Merge : Type := bytes -> bytes -> bytes -> bytes.

(** Modelled from the spec: the order of internal keys, "user_key
    ascending by user comparator; ties broken by seq_num descending then
    kind descending", that is by descending trailer. *)
Definition InternalCompare (cmp : Compare) (a b : InternalKey) : Z :=
  let c := cmp (UserKey a) (UserKey b) in
  if (c =? 0)%Z then
    if Trailer b <? Trailer a then (-1)%Z
    else if Trailer a <? Trailer b then 1%Z else 0%Z
  else c.

End db.

(** ** Batches (batch.go) *)
Module Batch.
Import db.

Definition batchHeaderLen : nat := 12.
Definition invalidBatchCount : N := 2^32 - 1.

(** Modelled from the spec: [batchskl.Skiplist], "an offset-keyed skiplist
    whose comparator resolves an offset to its user key via the shared
    buffer; duplicate user-keys are ordered by insertion, newer-first".
    The list holds the entry offsets in iteration order; an iterator is
    the suffix that starts at its position (the empty suffix is an
    invalid iterator).  The comparator [C key e] is the storage's
    [Compare]; [G] is the storage's [Get]. *)
Definition Skiplist : Type := list N.

Fixpoint skl_SeekGE (C : bytes -> N -> outcome Z) (key : bytes)
    (l : Skiplist) : outcome Skiplist :=
  match l with
  | [] => Ret []
  | e :: l' =>
      c ← C key e;
      if (c <=? 0)%Z then Ret l else skl_SeekGE C key l'
  end.

Fixpoint skl_insert (C : bytes -> N -> outcome Z) (key : bytes) (off : N)
    (l : Skiplist) : outcome (Skiplist + error) :=
  match l with
  | [] => Ret (inl [off])
  | e :: l' =>
      c ← C key e;
      if (c =? 0)%Z then Ret (inr (Errorf "record with this key already exists"))
      else if (c <? 0)%Z then Ret (inl (off :: l))
      else
        r ← skl_insert C key off l';
        match r with
        | inl l'' => Ret (inl (e :: l''))
        | inr err => Ret (inr err)
        end
  end.

Definition skl_Add (G : N -> outcome InternalKey)
    (C : bytes -> N -> outcome Z) (off : N) (l : Skiplist)
    : outcome (Skiplist + error) :=
  k ← G off;
  skl_insert C (UserKey k) off l.

(** The batch: [data] and [cmp] are the embedded [batchStorage]; [cmp] is
    nil unless the batch was made by [newIndexedBatch]; [index] is the
    optional skiplist. *)
Record Batch : Type := {
  data : bytes;
  cmp : option Compare;
  memTableSize : N;
  index : option Skiplist
}.

Definition with_data (b : Batch) (d : bytes) : Batch :=
  {| data := d; cmp := cmp b; memTableSize := memTableSize b; index := index b |}.

Definition newBatch : Batch :=
  {| data := []; cmp := None; memTableSize := 0; index := None |}.

Definition newIndexedBatch (comparer : Compare) : Batch :=
  {| data := []; cmp := Some comparer; memTableSize := 0; index := Some [] |}.

(** Calling the comparer field; calling a nil func panics. *)
Definition call_cmp (b : Batch) (x y : bytes) : outcome Z :=
  match cmp b with
  | Some f => Ret (f x y)
  | None => Panic "nil func"
  end.

Definition batchDecodeStr (d : bytes) : option (bytes * bytes) :=
  let '(v, n) := binary.Uvarint d in
  if (n <=? 0)%Z then None
  else
    let d' := drop (Z.to_nat n) d in
    if N.of_nat (length d') <? v then None
    else Some (drop (N.to_nat v) d', take (N.to_nat v) d').

(** [batchStorage.Get] *)
Definition batchStorage_Get (b : Batch) (offset : N) : outcome InternalKey :=
  match data b !! N.to_nat offset with
  | None => Panic "index out of range"
  | Some k =>
      p ← slice_from (data b) (N.to_nat ((offset + 1) mod 2^32));
      match batchDecodeStr p with
      | None => Panic "corrupted batch entry"
      | Some (_, key) =>
          Ret (MakeInternalKey key (N.lor offset InternalKeySeqNumBatch) (Byte.to_N k))
      end
  end.

(** [batchStorage.Compare]: an equal key counts as smaller, so that the
    newer of two equal keys sorts first. *)
Definition batchStorage_Compare (b : Batch) (a : bytes) (off : N) : outcome Z :=
  k ← batchStorage_Get b off;
  c ← call_cmp b a (UserKey k);
  if (c <=? 0)%Z then Ret (-1)%Z else Ret 1%Z.

(** [init]: [make([]byte, batchHeaderLen, n)], twelve zero bytes; the
    capacity [n] that [cap] asks for does not show in the contents. *)
Definition init (cap : nat) (b : Batch) : Batch :=
  with_data b (repeat x00 batchHeaderLen).

(** [countData]: [b.data[8:12]]. *)
Definition countData (b : Batch) : outcome bytes :=
  if (batchHeaderLen <=? length (data b))%nat
  then Ret (take 4 (drop 8 (data b)))
  else Panic "slice bounds out of range".

Definition set_countData (b : Batch) (p : bytes) : Batch :=
  with_data b (take 8 (data b) ++ p ++ drop 12 (data b)).

Definition count (b : Batch) : outcome N :=
  p ← countData b; binary.Uint32 p.

(** The loop of [increment]: [Some p'] when some byte did not wrap to
    zero (the loop returned true), [None] when every byte wrapped. *)
Fixpoint increment_loop (p : bytes) : option bytes :=
  match p with
  | [] => None
  | x :: p' =>
      let x' := byte_of_N (Byte.to_N x + 1) in
      if negb (Byte.to_N x' =? 0) then Some (x' :: p')
      else option_map (cons x') (increment_loop p')
  end.

Definition increment (b : Batch) : outcome (Batch * bool) :=
  p ← countData b;
  match increment_loop p with
  | Some p' => Ret (set_countData b p', true)
  | None => Ret (set_countData b [xff; xff; xff; xff], false)
  end.

Definition appendStr (b : Batch) (s : bytes) : Batch :=
  with_data b
    (data b ++ binary.PutUvarint (N.of_nat (length s) mod 2^64) ++ s).

Section Mutators.
(** [memTableEntrySize] belongs to the memtable, which is not part of
    the sources at hand. *)
Variable memTableEntrySize : nat -> nat -> N.

(** [b.index.Add(offset)] when the batch is indexed; an error of [Add]
    is turned into a panic by the caller. *)
Definition index_Add (b : Batch) (offset : N) : outcome Batch :=
  match index b with
  | None => Ret b
  | Some l =>
      r ← skl_Add (batchStorage_Get b) (batchStorage_Compare b) offset l;
      match r with
      | inl l' =>
          Ret {| data := data b; cmp := cmp b;
                 memTableSize := memTableSize b; index := Some l' |}
      | inr _ => Panic "record with this key already exists"
      end
  end.

Definition add_memTableSize (b : Batch) (klen vlen : nat) : Batch :=
  {| data := data b; cmp := cmp b;
     memTableSize := (memTableSize b + memTableEntrySize klen vlen) mod 2^32;
     index := index b |}.

(** The four mutators have one shape: initialise the header lazily,
    increment the count, append the kind byte, the key and (except for
    a deletion) the value, add the entry's offset to the index, and
    account for its memtable size.  [value = None] is the deletion,
    which appends no value and counts a value length of zero. *)
Definition mutate (kind : N) (key : bytes) (value : option bytes)
    (b : Batch) : outcome (Batch * option error) :=
  let vlen := from_option length 0%nat value in
  let cap := match value with
             | Some v => length key + length v + 2 * binary.MaxVarintLen64 + batchHeaderLen
             | None => length key + binary.MaxVarintLen64 + batchHeaderLen
             end%nat in
  let b := if (length (data b) =? 0)%nat then init cap b else b in
  '(b, ok) ← increment b;
  if negb ok then Ret (b, Some ErrInvalidBatch)
  else
    let offset := N.of_nat (length (data b)) mod 2^32 in
    let b := with_data b (data b ++ [byte_of_N kind]) in
    let b := appendStr b key in
    let b := match value with
             | Some v => appendStr b v
             | None => b
             end in
    b ← index_Add b offset;
    Ret (add_memTableSize b (length key) vlen, None).

Definition Set_ (key value : bytes) : Batch -> outcome (Batch * option error) :=
  mutate InternalKeyKindSet key (Some value).

Definition Merge (key value : bytes) : Batch -> outcome (Batch * option error) :=
  mutate InternalKeyKindMerge key (Some value).

Definition Delete (key : bytes) : Batch -> outcome (Batch * option error) :=
  mutate InternalKeyKindDelete key None.

Definition DeleteRange (start end_ : bytes) : Batch -> outcome (Batch * option error) :=
  mutate InternalKeyKindRangeDelete start (Some end_).
End Mutators.

Definition Repr (b : Batch) : bytes := data b.

(** [decode]: the entry at an offset. [Ret None] is [ok = false]. *)
Definition decode (b : Batch) (offset : N)
    : outcome (option (N * bytes * option bytes)) :=
  p ← slice_from (data b) (N.to_nat offset);
  match p with
  | [] => Ret None
  | k :: p =>
      let kind := Byte.to_N k in
      if InternalKeyKindMax <? kind then Ret None
      else
        match batchDecodeStr p with
        | None => Ret None
        | Some (p, ukey) =>
            if (kind =? InternalKeyKindSet) || (kind =? InternalKeyKindMerge)
               || (kind =? InternalKeyKindRangeDelete)
            then
              match batchDecodeStr p with
              | None => Ret None
              | Some (_, value) => Ret (Some (kind, ukey, Some value))
              end
            else Ret (Some (kind, ukey, None))
        end
  end.

(** [Batch.Get].  The loop over the index leaves on its first pass,
    whichever branch is taken. *)
Definition Get (b : Batch) (key : bytes) : outcome (option bytes * option error) :=
  match index b with
  | None => Ret (None, Some ErrNotIndexed)
  | Some l =>
      it ← skl_SeekGE (batchStorage_Compare b) key l;
      match it with
      | [] => Ret (None, Some ErrNotFound)
      | keyOffset :: _ =>
          d ← decode b keyOffset;
          match d with
          | None => Ret (None, Some (Errorf "corrupted batch"))
          | Some (_, ekey, value) =>
              c ← call_cmp b key ekey;
              if (0 <? c)%Z then Ret (None, Some ErrNotFound)
              else Ret (value, None)
          end
      end
  end.

(** *** batchReader *)

(** [nextStr]: the string and the advanced reader, or [None] (the reader
    is left as it was). *)
Definition nextStr (r : bytes) : option (bytes * bytes) :=
  let '(u, numBytes) := binary.Uvarint r in
  if (numBytes <=? 0)%Z then None
  else
    let p := drop (Z.to_nat numBytes) r in
    if N.of_nat (length p) <? u then None
    else Some (take (N.to_nat u) p, drop (N.to_nat u) p).

(** [next]: the decoded entry ([None] is [ok = false]) and the reader
    after the call.  The value is read for SET and RANGE_DELETE. *)
Definition next (r : bytes) : option (N * bytes * option bytes) * bytes :=
  match r with
  | [] => (None, r)
  | k :: r1 =>
      let kind := Byte.to_N k in
      if InternalKeyKindMax <? kind then (None, r1)
      else
        match nextStr r1 with
        | None => (None, r1)
        | Some (ukey, r2) =>
            if (kind =? InternalKeyKindSet) || (kind =? InternalKeyKindRangeDelete)
            then
              match nextStr r2 with
              | None => (None, r2)
              | Some (value, r3) => (Some (kind, ukey, Some value), r3)
              end
            else (Some (kind, ukey, None), r2)
        end
  end.

(** [b.iter()]: the reader over the entries after the header. *)
Definition iter (b : Batch) : outcome bytes :=
  slice_from (data b) batchHeaderLen.

(** Iterating a reader until [next] reports [ok = false], as
    [refreshMemTableSize] and [Apply] do.  Every successful [next]
    consumes at least two bytes, so the length of the reader is fuel
    enough. *)
Fixpoint read_all (fuel : nat) (r : bytes) : list (N * bytes * option bytes) :=
  match fuel with
  | O => []
  | S fuel' =>
      match next r with
      | (Some e, r') => e :: read_all fuel' r'
      | (None, _) => []
      end
  end.

Definition entries (b : Batch) : outcome (list (N * bytes * option bytes)) :=
  r ← iter b; Ret (read_all (length r) r).

(** *** The header fields *)

(** [seqNumData]: [b.data[:8]]. *)
Definition seqNumData (b : Batch) : outcome bytes :=
  if (8 <=? length (data b))%nat then Ret (take 8 (data b))
  else Panic "slice bounds out of range".

(** [setSeqNum]: [PutUint64] writes through the slice into the buffer. *)
Definition setSeqNum (b : Batch) (seqNum : N) : outcome Batch :=
  _ ← seqNumData b;
  Ret (with_data b (binary.le_bytes 8 (seqNum mod 2^64) ++ drop 8 (data b))).

Definition seqNum (b : Batch) : outcome N :=
  p ← seqNumData b; binary.Uint64 p.

Definition setCount (b : Batch) (v : N) : outcome Batch :=
  _ ← countData b;
  Ret (set_countData b (binary.le_bytes 4 (v mod 2^32))).

Definition Indexed (b : Batch) : bool :=
  match index b with
  | Some _ => true
  | None => false
  end.

(** *** Apply *)

Section Apply.
Variable memTableEntrySize : nat -> nat -> N.

(** The loop of [Apply] over the entries it has appended.  [start] is
    the reader at the first of them and [iter] the reader as it
    stands; both are slices of the buffer, so the difference of
    their addresses is that of their lengths.  The address of
    [iter[0]] is taken after [next] has advanced the reader: on an
    empty reader the index expression panics.  The length of the
    reader bounds the rounds. *)
Fixpoint Apply_loop (fuel : nat) (start iter : bytes) (b : Batch) : outcome Batch :=
  match fuel with
  | O => Ret b
  | S fuel' =>
      match next iter with
      | (None, _) => Ret b
      | (Some (_, key, value), iter') =>
          b ← match index b with
              | None => Ret b
              | Some _ =>
                  match iter' with
                  | [] => Panic "index out of range"
                  | _ :: _ =>
                      index_Add b (N.of_nat (length start - length iter') mod 2^32)
                  end
              end;
          Apply_loop fuel' start iter'
            (add_memTableSize memTableEntrySize b (length key)
               (from_option length 0%nat value))
      end
  end.

(** [Apply] *)
Definition Apply (b batch : Batch) : outcome (Batch * option error) :=
  if (length (data batch) =? 0)%nat then Ret (b, None)
  else if (length (data batch) <? batchHeaderLen)%nat
  then Ret (b, Some (Errorf "pebble: invalid batch"))
  else
    let offset := length (data b) in
    let '(b, offset) :=
      if (offset =? 0)%nat then (init offset b, batchHeaderLen) else (b, offset) in
    let b := with_data b (data b ++ drop batchHeaderLen (data batch)) in
    count_ ← binary.Uint32 (take 4 (drop 8 (data batch)));
    c0 ← count b;
    b ← setCount b ((c0 + count_) mod 2^32);
    start ← slice_from (data b) offset;
    b ← Apply_loop (S (length start)) start start b;
    Ret (b, None).
End Apply.

End Batch.

(** ** The memtable, as far as WAL replay uses it *)
Module memTable.
Import db.

(** Modelled from the spec: the memtable is missing from the sources at
    hand.  "A reference-counted arena-backed sorted map from internal keys
    to values, plus ... a bounded reservation counter.  [prepare(batch)]
    reserves arena space for all entries or returns [ArenaFull];
    [apply(batch, base_seq)] inserts each entry at [base_seq + i] using
    the in-batch kind/key/value.  [unref] returns whether the last writer
    has left."  Its entries are an "internal-key-ordered skiplist", an
    "ordered multimap": [contents] holds them in the order of their
    internal keys under the comparer [cmp] of the options, which is the
    order in which [NewIter] visits them. *)
Record memTable : Type := {
  cmp : Compare;
  capacity : N;
  reserved : N;
  refs : Z;
  contents : list (InternalKey * option bytes)
}.

Definition newMemTable (c : Compare) (arenaCapacity : N) : memTable :=
  {| cmp := c; capacity := arenaCapacity; reserved := 0; refs := 1; contents := [] |}.

Definition prepare (m : memTable) (b : Batch.Batch) : memTable * option error :=
  if capacity m - reserved m <? Batch.memTableSize b
  then (m, Some ErrArenaFull)
  else ({| cmp := cmp m; capacity := capacity m;
           reserved := reserved m + Batch.memTableSize b;
           refs := refs m + 1;
           contents := contents m |}, None).

Fixpoint stamp (seqNum : N) (es : list (N * bytes * option bytes))
    : list (InternalKey * option bytes) :=
  match es with
  | [] => []
  | (kind, ukey, value) :: es' =>
      (MakeInternalKey ukey seqNum kind, value) :: stamp ((seqNum + 1) mod 2^64) es'
  end.

(** The insertion of one entry into the ordered entries: before the
    first entry with a larger internal key. *)
Fixpoint insert (c : Compare) (e : InternalKey * option bytes)
    (l : list (InternalKey * option bytes)) : list (InternalKey * option bytes) :=
  match l with
  | [] => [e]
  | x :: l' =>
      if (InternalCompare c (fst e) (fst x) <? 0)%Z then e :: x :: l'
      else x :: insert c e l'
  end.

Definition apply (m : memTable) (b : Batch.Batch) (seqNum : N)
    : outcome (memTable * option error) :=
  es ← Batch.entries b;
  Ret ({| cmp := cmp m; capacity := capacity m; reserved := reserved m; refs := refs m;
          contents := fold_left (fun l e => insert (cmp m) e l) (stamp seqNum es)
                        (contents m) |}, None).

Definition unref (m : memTable) : memTable * bool :=
  ({| cmp := cmp m; capacity := capacity m; reserved := reserved m; refs := refs m - 1;
      contents := contents m |}, (refs m - 1 =? 0)%Z).

Definition Empty (m : memTable) : bool :=
  match contents m with
  | [] => true
  | _ => false
  end.

(** [NewIter]: the entries in the order of the skiplist. *)
Definition NewIter (m : memTable) : list (InternalKey * option bytes) := contents m.

End memTable.

(** ** Open and WAL replay (open.go) *)
Module Replay.
Import db memTable.

(** What replay leaves behind: the level-0 tables it wrote, oldest
    first, each with the entries that the iterator of the memtable it
    came from has given to [writeLevel0Table]. *)
Record replayed : Type := {
  maxSeqNum : N;
  err : option error;
  level0 : list (list (InternalKey * option bytes))
}.

Section replayWAL.
Variable memTableEntrySize : nat -> nat -> N.
(** The arena capacity and the comparer that [newMemTable(d.opts)]
    gives a memtable. *)
Variable arenaCapacity : N.
Variable cmp : Compare.

(** [refreshMemTableSize] *)
Definition refreshMemTableSize (b : Batch.Batch) : outcome Batch.Batch :=
  es ← Batch.entries b;
  Ret {| Batch.data := Batch.data b; Batch.cmp := Batch.cmp b;
         Batch.memTableSize :=
           fold_left (fun acc '(_, key, value) =>
                        (acc + memTableEntrySize (length key)
                                 (from_option length 0%nat value)) mod 2^32)
                     es 0;
         Batch.index := Batch.index b |}.

Definition seqNum (b : Batch.Batch) : outcome N :=
  binary.Uint64 (take 8 (Batch.data b)).

(** The body of the [for] loop of [replayWAL] over the records of the
    log: a record is either its payload or a read error; the end of
    the list is [io.EOF].  The state is the memtable being filled and
    the largest sequence number seen.  The flush that the source may
    schedule after [unref] runs in another goroutine and is left
    out. *)
Fixpoint replay_records (records : list (bytes + error))
    (mem : option memTable) (maxSeq : N)
    : outcome (option memTable * N * option error) :=
  match records with
  | [] => Ret (mem, maxSeq, None)
  | inr e :: _ => Ret (mem, 0, Some e)
  | inl buf :: records' =>
      if (length buf <? Batch.batchHeaderLen)%nat
      then Ret (mem, 0, Some (Errorf "pebble: corrupt log file"))
      else
        let b := {| Batch.data := buf; Batch.cmp := None;
                    Batch.memTableSize := 0; Batch.index := None |} in
        b ← refreshMemTableSize b;
        sn ← seqNum b;
        cnt ← Batch.count b;
        let maxSeq := (sn + cnt) mod 2^64 in
        let mem := match mem with
                   | Some m => m
                   | None => newMemTable cmp arenaCapacity
                   end in
        match prepare mem b with
        | (_, Some ErrArenaFull) => Panic "arenaskl: arena is full"
        | (_, Some e) => Ret (Some mem, 0, Some e)
        | (mem, None) =>
            r ← apply mem b sn;
            match r with
            | (mem, Some e) => Ret (Some mem, 0, Some e)
            | (mem, None) =>
                let '(mem, _) := unref mem in
                replay_records records' (Some mem) maxSeq
            end
        end
  end.

(** [replayWAL]: opening the file and writing the level-0 table are
    taken to succeed. *)
Definition replayWAL (records : list (bytes + error)) : outcome replayed :=
  r ← replay_records records None 0;
  match r with
  | (_, _, Some e) => Ret {| maxSeqNum := 0; err := Some e; level0 := [] |}
  | (mem, maxSeq, None) =>
      match mem with
      | Some m =>
          if negb (Empty m)
          then Ret {| maxSeqNum := maxSeq; err := None; level0 := [NewIter m] |}
          else Ret {| maxSeqNum := maxSeq; err := None; level0 := [] |}
      | None => Ret {| maxSeqNum := maxSeq; err := None; level0 := [] |}
      end
  end.
End replayWAL.

End Replay.

(** ** The compaction iterator (compaction_iter.go) *)
Module compactionIter.
Import db.

(** Modelled from the spec: the merging iterator over the compaction
    inputs is missing from the sources at hand; it is "a k-way merge over
    child iterators ordered by internal key", and its [NextUserKey]
    serves to "advance past all older entries for the same user key".
    The iterator is the sequence it ranges over and the suffix that
    starts at its position; the empty suffix is the invalid iterator. *)
Record InternalIterator : Type := {
  all : list (InternalKey * bytes);
  rest : list (InternalKey * bytes)
}.

Definition iter_Valid (it : InternalIterator) : bool :=
  match rest it with
  | [] => false
  | _ => true
  end.

Definition iter_First (it : InternalIterator) : InternalIterator :=
  {| all := all it; rest := all it |}.

Definition iter_Next (it : InternalIterator) : InternalIterator :=
  {| all := all it; rest := tail (rest it) |}.

Fixpoint skip_ukey (cmp : Compare) (ukey : bytes)
    (l : list (InternalKey * bytes)) : list (InternalKey * bytes) :=
  match l with
  | [] => []
  | e :: l' =>
      if (cmp ukey (UserKey (fst e)) =? 0)%Z then skip_ukey cmp ukey l' else l
  end.

Definition iter_NextUserKey (cmp : Compare) (it : InternalIterator)
    : InternalIterator :=
  match rest it with
  | [] => it
  | (k, _) :: l => {| all := all it; rest := skip_ukey cmp (UserKey k) l |}
  end.

Inductive compactionIterPos : Type :=
| compactionIterCur
| compactionIterNext.

Record compactionIter : Type := {
  iter : InternalIterator;
  err : option error;
  key : InternalKey;
  keyBuf : bytes;
  value : bytes;
  valueBuf : bytes;
  valid : bool;
  pos : compactionIterPos
}.

Definition newCompactionIter (input : list (InternalKey * bytes)) : compactionIter :=
  {| iter := {| all := input; rest := [] |};
     err := None;
     key := {| UserKey := []; Trailer := 0 |};
     keyBuf := []; value := []; valueBuf := [];
     valid := false; pos := compactionIterCur |}.

Section Iter.
Variable cmp : Compare.
Variable merge : Merge.

(** The loop of [mergeNext].  [l] is the suffix the underlying iterator
    stands on when the loop body starts; the body first advances it. *)
Fixpoint mergeNext_loop (i : compactionIter) (l : list (InternalKey * bytes))
    : compactionIter * bool :=
  let all_ := all (iter i) in
  match l with
  | [] =>
      ({| iter := {| all := all_; rest := [] |}; err := err i; key := key i;
          keyBuf := keyBuf i; value := value i; valueBuf := valueBuf i;
          valid := valid i; pos := compactionIterNext |}, true)
  | _ :: l' =>
      let it := {| all := all_; rest := l' |} in
      match l' with
      | [] =>
          ({| iter := it; err := err i; key := key i;
              keyBuf := keyBuf i; value := value i; valueBuf := valueBuf i;
              valid := valid i; pos := compactionIterNext |}, true)
      | (k, v) :: _ =>
          if negb (cmp (UserKey (key i)) (UserKey k) =? 0)%Z then
            ({| iter := it; err := err i; key := key i;
                keyBuf := keyBuf i; value := value i; valueBuf := valueBuf i;
                valid := valid i; pos := compactionIterNext |}, true)
          else if Kind k =? InternalKeyKindDelete then
            ({| iter := it; err := err i; key := key i;
                keyBuf := keyBuf i; value := value i; valueBuf := valueBuf i;
                valid := valid i; pos := pos i |}, true)
          else if Kind k =? InternalKeyKindSet then
            ({| iter := it; err := err i;
                key := SetKind (key i) InternalKeyKindSet;
                keyBuf := keyBuf i;
                value := merge (UserKey (key i)) (value i) v;
                valueBuf := valueBuf i;
                valid := valid i; pos := pos i |}, true)
          else if Kind k =? InternalKeyKindMerge then
            mergeNext_loop
              {| iter := it; err := err i; key := key i;
                 keyBuf := keyBuf i;
                 value := merge (UserKey (key i)) (value i) v;
                 valueBuf := valueBuf i;
                 valid := valid i; pos := pos i |} l'
          else
            ({| iter := it;
                err := Some (Errorf "invalid internal key kind");
                key := key i;
                keyBuf := keyBuf i; value := value i; valueBuf := valueBuf i;
                valid := valid i; pos := pos i |}, false)
      end
  end.

(** [mergeNext]: called with the underlying iterator on a MERGE. *)
Definition mergeNext (i : compactionIter) : compactionIter * bool :=
  match rest (iter i) with
  | [] => (i, false)
  | (k, v) :: _ =>
      mergeNext_loop
        {| iter := iter i; err := err i;
           key := {| UserKey := UserKey k; Trailer := Trailer (key i) |};
           keyBuf := UserKey k; value := v; valueBuf := v;
           valid := true; pos := pos i |}
        (rest (iter i))
  end.

(** [findNextEntry].  Every branch of its loop returns. *)
Definition findNextEntry (i : compactionIter) : compactionIter * bool :=
  let i := {| iter := iter i; err := err i; key := key i;
              keyBuf := keyBuf i; value := value i; valueBuf := valueBuf i;
              valid := false; pos := compactionIterCur |} in
  match rest (iter i) with
  | [] => (i, false)
  | (k, v) :: _ =>
      let i := {| iter := iter i; err := err i; key := k;
                  keyBuf := keyBuf i; value := value i; valueBuf := valueBuf i;
                  valid := valid i; pos := pos i |} in
      if (Kind k =? InternalKeyKindDelete) || (Kind k =? InternalKeyKindSet) then
        ({| iter := iter i; err := err i; key := k;
            keyBuf := keyBuf i; value := v; valueBuf := valueBuf i;
            valid := true; pos := pos i |}, true)
      else if Kind k =? InternalKeyKindMerge then mergeNext i
      else
        ({| iter := iter i;
            err := Some (Errorf "invalid internal key kind");
            key := k;
            keyBuf := keyBuf i; value := value i; valueBuf := valueBuf i;
            valid := valid i; pos := pos i |}, false)
  end.

Definition with_iter (i : compactionIter) (it : InternalIterator) : compactionIter :=
  {| iter := it; err := err i; key := key i;
     keyBuf := keyBuf i; value := value i; valueBuf := valueBuf i;
     valid := valid i; pos := pos i |}.

Definition First (i : compactionIter) : compactionIter :=
  match err i with
  | Some _ => i
  | None => fst (findNextEntry (with_iter i (iter_First (iter i))))
  end.

Definition Next (i : compactionIter) : compactionIter * bool :=
  match err i with
  | Some _ => (i, false)
  | None =>
      match pos i with
      | compactionIterCur =>
          findNextEntry (with_iter i (iter_NextUserKey cmp (iter i)))
      | compactionIterNext => findNextEntry i
      end
  end.

Definition Key (i : compactionIter) : InternalKey := key i.
Definition Value (i : compactionIter) : bytes := value i.
Definition Valid (i : compactionIter) : bool := valid i.

(** The rounds of [for iter.First(); iter.Valid(); iter.Next()]: the
    entries it visits and the error the iterator ends with.  A round
    on an iterator without error moves the underlying iterator
    forward, so its length bounds the number of rounds; [None] says
    that the loop has not ended within the bound (which is what
    happens once [mergeNext] has met an invalid kind: the iterator
    stays valid and [Next] no longer moves it). *)
Fixpoint visit (fuel : nat) (i : compactionIter)
    : option (list (InternalKey * bytes) * option error) :=
  match fuel with
  | O => None
  | S fuel' =>
      if Valid i then
        match visit fuel' (fst (Next i)) with
        | Some (es, e) => Some ((Key i, Value i) :: es, e)
        | None => None
        end
      else Some ([], err i)
  end.

Definition emitted (input : list (InternalKey * bytes))
    : option (list (InternalKey * bytes) * option error) :=
  visit (S (length input)) (First (newCompactionIter input)).
End Iter.

End compactionIter.

(** ** The filesystem abstraction, as far as compaction uses it *)
Module storage.

(** Modelled from the spec: the filesystem abstraction is an interface
    the core consumes ("open/create/list/lock/stat/read-at/write").  A
    directory is the list of the names in it; [List] may fail as a
    whole and [Remove] may fail per name. *)
Record Storage : Type := {
  names : list string;
  ListErr : option error;
  RemoveOk : string -> bool
}.

Definition List_ (fs : Storage) : list string + error :=
  match ListErr fs with
  | Some e => inr e
  | None => inl (names fs)
  end.

Definition Remove (fs : Storage) (name : string) : Storage :=
  if RemoveOk fs name
  then {| names := filter (fun n => n ≠ name) (names fs);
          ListErr := ListErr fs; RemoveOk := RemoveOk fs |}
  else fs.

Definition Create (fs : Storage) (name : string) : Storage :=
  {| names := names fs ++ [name]; ListErr := ListErr fs; RemoveOk := RemoveOk fs |}.

End storage.

(** ** Flush and compaction (compaction.go) *)
Module compaction.
Import db storage.

Record fileMetadata : Type := {
  fileNum : N;
  size : N;
  smallest : InternalKey;
  largest : InternalKey
}.

(** A version has one list of files per level; levels are [0] to
    [numLevels - 1]. *)
Record version : Type := {
  files : nat -> list fileMetadata
}.

Record compaction : Type := {
  c_version : version;
  level : nat;
  inputs0 : list fileMetadata;
  inputs1 : list fileMetadata;
  inputs2 : list fileMetadata
}.

Record versionEdit : Type := {
  deletedFiles : gset (nat * N);
  newFiles : list (nat * fileMetadata)
}.

(** [db.Options]: the per-level options, of which the target file size
    (an [int64]) is read. *)
Record Options : Type := {
  TargetFileSize : nat -> Z
}.

Inductive fileType : Type :=
| fileTypeLog
| fileTypeLock
| fileTypeTable
| fileTypeManifest
| fileTypeCurrent.

Record versionSet : Type := {
  versions : list version;
  logNumber : N;
  manifestFileNumber : N;
  nextFileNumber : N
}.

(** The part of [DB] that flush and compaction work on: [written] are the
    tables created, by file number, with the entries added to each. *)
Record DB : Type := {
  vs : versionSet;
  pendingOutputs : gset N;
  fs : Storage;
  written : list (N * list (InternalKey * bytes));
  evicted : list N
}.

(** [uint64(25 * opts.Level(level).TargetFileSize)]: the product wraps as
    an [int64], the conversion reinterprets it. *)
Definition expandedCompactionByteSizeLimit (opts : Options) (level : nat) : N :=
  Z.to_N ((25 * TargetFileSize opts level) mod 2^64).

Definition maxGrandparentOverlapBytes (opts : Options) (level : nat) : N :=
  Z.to_N ((10 * TargetFileSize opts level) mod 2^64).

(** Modelled from the spec: [totalSize], the sum of the sizes of a list
    of files, is missing from the sources at hand; it is a [uint64]. *)
Definition totalSize (f : list fileMetadata) : N :=
  fold_left (fun acc m => (acc + size m) mod 2^64) f 0.

(** Modelled from the spec: [ikeyRange], the smallest and largest
    internal keys of two lists of files, and [version.overlaps], "all
    L+1 files overlapping inputs[0]'s range", are missing from the sources
    at hand.  [grow] and its callers take them as parameters; these
    instances serve to run them on concrete versions. *)
Definition ikeyRange_spec (cmp : Compare) (f0 f1 : list fileMetadata)
    : InternalKey * InternalKey :=
  match f0 ++ f1 with
  | [] => ({| UserKey := []; Trailer := 0 |}, {| UserKey := []; Trailer := 0 |})
  | m :: ms =>
      fold_left
        (fun '(sm, la) f =>
           ((if (InternalCompare cmp (smallest f) sm <? 0)%Z then smallest f else sm),
            (if (0 <? InternalCompare cmp (largest f) la)%Z then largest f else la)))
        ms (smallest m, largest m)
  end.

Definition overlaps_spec (v : version) (level : nat) (cmp : Compare)
    (ukey0 ukey1 : bytes) : list fileMetadata :=
  filter (fun m => ¬ (cmp (UserKey (largest m)) ukey0 < 0)%Z
                   ∧ ¬ (0 < cmp (UserKey (smallest m)) ukey1)%Z)
         (files v level).

Section Compaction.
Variable numLevels : nat.
Variable opts : Options.
Variable cmp : Compare.
Variable merge : Merge.
Variable overlaps : version -> nat -> Compare -> bytes -> bytes -> list fileMetadata.
Variable ikeyRange :
  Compare -> list fileMetadata -> list fileMetadata -> InternalKey * InternalKey.

(** [grow] *)
Definition grow (c : compaction) (sm la : InternalKey) : compaction * bool :=
  if (length (inputs1 c) =? 0)%nat then (c, false)
  else
    let grow0 := overlaps (c_version c) (level c) cmp (UserKey sm) (UserKey la) in
    if (length grow0 <=? length (inputs0 c))%nat then (c, false)
    else if expandedCompactionByteSizeLimit opts (level c + 1)
              <=? (totalSize grow0 + totalSize (inputs1 c)) mod 2^64
    then (c, false)
    else
      let '(sm1, la1) := ikeyRange cmp grow0 [] in
      let grow1 := overlaps (c_version c) (level c + 1) cmp (UserKey sm1) (UserKey la1) in
      if negb (length grow1 =? length (inputs1 c))%nat then (c, false)
      else
        ({| c_version := c_version c; level := level c;
            inputs0 := grow0; inputs1 := grow1; inputs2 := inputs2 c |}, true).

(** [setupOtherInputs] *)
Definition setupOtherInputs (c : compaction) : compaction :=
  let '(smallest0, largest0) := ikeyRange cmp (inputs0 c) [] in
  let c := {| c_version := c_version c; level := level c;
              inputs0 := inputs0 c;
              inputs1 := overlaps (c_version c) (level c + 1) cmp
                           (UserKey smallest0) (UserKey largest0);
              inputs2 := inputs2 c |} in
  let '(smallest01, largest01) := ikeyRange cmp (inputs0 c) (inputs1 c) in
  let '(c, grown) := grow c smallest01 largest01 in
  let '(smallest01, largest01) :=
    if grown then ikeyRange cmp (inputs0 c) (inputs1 c)
    else (smallest01, largest01) in
  if (level c + 2 <? numLevels)%nat then
    {| c_version := c_version c; level := level c;
       inputs0 := inputs0 c; inputs1 := inputs1 c;
       inputs2 := overlaps (c_version c) (level c + 2) cmp
                    (UserKey smallest01) (UserKey largest01) |}
  else c.

(** [pickCompaction], from the current version of the version set.
    The version carries a compaction score and the level it was
    computed for; [scored] is the test [cur.compactionScore >= 1] and
    [compactionLevel] that level.  The files of a version are an
    array of [numLevels] slices. *)
Definition pickCompaction (cur : version) (scored : bool) (compactionLevel : nat)
    : outcome (option compaction) :=
  if scored then
    if (numLevels <=? compactionLevel)%nat then Panic "index out of range"
    else
      match files cur compactionLevel with
      | [] => Panic "index out of range"
      | f :: _ =>
          let c := {| c_version := cur; level := compactionLevel;
                      inputs0 := [f]; inputs1 := []; inputs2 := [] |} in
          let c :=
            if (level c =? 0)%nat then
              let '(smallest, largest) := ikeyRange cmp (inputs0 c) [] in
              {| c_version := cur; level := compactionLevel;
                 inputs0 := overlaps cur 0 cmp (UserKey smallest) (UserKey largest);
                 inputs1 := []; inputs2 := [] |}
            else c in
          Ret (Some (setupOtherInputs c))
      end
  else Ret None.

(** The inner loop of [isBaseLevelForUkey] over the files of one level:
    [true] when it finds a file that holds the key ([return false] in
    the source), [false] when it falls through or breaks. *)
Fixpoint level_holds_ukey (userCmp : Compare) (ukey : bytes)
    (fs : list fileMetadata) : bool :=
  match fs with
  | [] => false
  | f :: fs' =>
      if (userCmp ukey (UserKey (largest f)) <=? 0)%Z then
        if (0 <=? userCmp ukey (UserKey (smallest f)))%Z then true
        else false
      else level_holds_ukey userCmp ukey fs'
  end.

(** [isBaseLevelForUkey]: the levels [c.level + 2] to [numLevels - 1]. *)
Definition isBaseLevelForUkey (c : compaction) (userCmp : Compare)
    (ukey : bytes) : bool :=
  forallb (fun lvl => negb (level_holds_ukey userCmp ukey (files (c_version c) lvl)))
          (seq (level c + 2) (numLevels - (level c + 2))).
End Compaction.

Section DB.
Variable numLevels : nat.
Variable opts : Options.
Variable cmp : Compare.
Variable merge : Merge.
(** Helpers of the repository that the sources at hand only call:
    the file-name scheme, the MANIFEST update, the merged iterator over
    the inputs of a compaction, and the size of a finished table. *)
Variable parseDBFilename : string -> option (fileType * N).
Variable dbFilename : fileType -> N -> string.
Variable logAndApply : versionEdit -> versionSet -> versionSet * option error.
Variable compactionIterator : compaction -> list (InternalKey * bytes) + error.
Variable tableSize : list (InternalKey * bytes) -> N.

(** Modelled from the spec: [addLiveFileNums] is missing from the
    sources at hand; it adds "every file_num appearing in any live
    Version". *)
Definition addLiveFileNums (v : versionSet) (m : gset N) : gset N :=
  m ∪ list_to_set
        (flat_map (fun ver => flat_map (fun lvl => map fileNum (files ver lvl))
                                       (seq 0 numLevels))
                  (versions v)).

Definition with_fs (d : DB) (f : Storage) : DB :=
  {| vs := vs d; pendingOutputs := pendingOutputs d; fs := f;
     written := written d; evicted := evicted d |}.

Definition evict (d : DB) (fn : N) : DB :=
  {| vs := vs d; pendingOutputs := pendingOutputs d; fs := fs d;
     written := written d; evicted := evicted d ++ [fn] |}.

(** The loop of [deleteObsoleteFiles] over the directory listing.  A
    name that does not parse ends the whole call. *)
Fixpoint deleteObsoleteFiles_loop (liveFileNums : gset N)
    (logNumber manifestFileNumber : N) (list : list string) (d : DB) : DB :=
  match list with
  | [] => d
  | filename :: list' =>
      match parseDBFilename filename with
      | None => d
      | Some (ft, fn) =>
          let keep :=
            match ft with
            | fileTypeLog => logNumber <=? fn
            | fileTypeManifest => manifestFileNumber <=? fn
            | fileTypeTable => bool_decide (fn ∈ liveFileNums)
            | _ => true
            end in
          if keep
          then deleteObsoleteFiles_loop liveFileNums logNumber manifestFileNumber list' d
          else
            let d := match ft with
                     | fileTypeTable => evict d fn
                     | _ => d
                     end in
            deleteObsoleteFiles_loop liveFileNums logNumber manifestFileNumber list'
              (with_fs d (Remove (fs d) filename))
      end
  end.

(** [deleteObsoleteFiles] *)
Definition deleteObsoleteFiles (d : DB) : DB :=
  let liveFileNums := addLiveFileNums (vs d) (pendingOutputs d) in
  match List_ (fs d) with
  | inr _ => d
  | inl list =>
      deleteObsoleteFiles_loop liveFileNums (logNumber (vs d))
        (manifestFileNumber (vs d)) list d
  end.

(** [deleteObsoleteFiles] beside the other goroutines.  The live file
    numbers and the numbers of the log and the manifest are read while
    [d.mu] is held; the mutex is released before the directory is
    listed ("Release the d.mu lock while doing I/O"), and [meanwhile]
    is what another goroutine has done to the database by then.  With
    nothing done meanwhile this is [deleteObsoleteFiles]. *)
Definition deleteObsoleteFiles_unlocked (meanwhile : DB -> DB) (d : DB) : DB :=
  let liveFileNums := addLiveFileNums (vs d) (pendingOutputs d) in
  let logNumber_ := logNumber (vs d) in
  let manifestFileNumber_ := manifestFileNumber (vs d) in
  let d := meanwhile d in
  match List_ (fs d) with
  | inr _ => d
  | inl list =>
      deleteObsoleteFiles_loop liveFileNums logNumber_ manifestFileNumber_ list d
  end.

(** The state of the output loop of [compactDiskTables]: the open
    table writer, if any, with the entries added so far. *)
Record output : Type := {
  o_db : DB;
  o_pendingOutputs : list N;
  o_tw : option (N * list (InternalKey * bytes));
  o_smallest : InternalKey;
  o_largest : InternalKey
}.

(** Reserving a file number and creating the table file, on the first
    entry that is written. *)
Definition open_table (ikey : InternalKey) (st : output) : output :=
  match o_tw st with
  | Some _ => st
  | None =>
      let d := o_db st in
      let fn := nextFileNumber (vs d) in
      {| o_db :=
           {| vs := {| versions := versions (vs d); logNumber := logNumber (vs d);
                       manifestFileNumber := manifestFileNumber (vs d);
                       nextFileNumber := (fn + 1) mod 2^64 |};
              pendingOutputs := pendingOutputs d ∪ {[fn]};
              fs := Create (fs d) (dbFilename fileTypeTable fn);
              written := written d; evicted := evicted d |};
         o_pendingOutputs := o_pendingOutputs st ++ [fn];
         o_tw := Some (fn, []);
         o_smallest := ikey;
         o_largest := o_largest st |}
  end.

(** The body of [for iter.First(); iter.Valid(); iter.Next()], over the
    entries the compaction iterator yields. *)
Fixpoint compactDiskTables_loop (c : compaction)
    (es : list (InternalKey * bytes)) (st : output) : output :=
  match es with
  | [] => st
  | (ikey, v) :: es' =>
      if (Kind ikey =? InternalKeyKindDelete)
         && isBaseLevelForUkey numLevels c cmp (UserKey ikey)
      then compactDiskTables_loop c es' st
      else
        let st := open_table ikey st in
        compactDiskTables_loop c es'
          {| o_db := o_db st;
             o_pendingOutputs := o_pendingOutputs st;
             o_tw := option_map (fun '(fn, added) => (fn, added ++ [(ikey, v)])) (o_tw st);
             o_smallest := o_smallest st;
             o_largest := ikey |}
  end.

(** [compactDiskTables]: the calls into the storage and the table
    writer are taken to succeed.  [None] says that the loop over the
    compaction iterator does not end.  When the loop has written
    nothing the writer is still nil and the source calls [Close] on
    it.  When the iterator ends with an error, the deferred calls
    remove the table file and give up its file number. *)
Definition compactDiskTables (c : compaction) (d : DB)
    : option (outcome (DB * option versionEdit * list N * option error)) :=
  match compactionIterator c with
  | inr e => Some (Ret (d, None, [], Some e))
  | inl input =>
      match compactionIter.emitted cmp merge input with
      | None => None
      | Some (es, iter_err) =>
          let st := compactDiskTables_loop c es
                      {| o_db := d; o_pendingOutputs := []; o_tw := None;
                         o_smallest := {| UserKey := []; Trailer := 0 |};
                         o_largest := {| UserKey := []; Trailer := 0 |} |} in
          match o_tw st with
          | None => Some (Panic "invalid memory address or nil pointer dereference")
          | Some (fn, added) =>
              let d := o_db st in
              let ve :=
                {| deletedFiles :=
                     list_to_set (map (fun f => (level c, fileNum f)) (inputs0 c))
                     ∪ list_to_set (map (fun f => (level c + 1, fileNum f))%nat (inputs1 c));
                   newFiles :=
                     [((level c + 1)%nat,
                       {| fileNum := fn; size := tableSize added;
                          smallest := o_smallest st; largest := o_largest st |})] |} in
              match iter_err with
              | Some e =>
                  Some (Ret ({| vs := vs d;
                                pendingOutputs :=
                                  pendingOutputs d ∖ list_to_set (o_pendingOutputs st);
                                fs := Remove (fs d) (dbFilename fileTypeTable fn);
                                written := written d; evicted := evicted d |},
                             Some ve, [], Some e))
              | None =>
                  Some (Ret ({| vs := vs d; pendingOutputs := pendingOutputs d;
                                fs := fs d;
                                written := written d ++ [(fn, added)];
                                evicted := evicted d |},
                             Some ve, o_pendingOutputs st, None))
              end
          end
      end
  end.

Definition with_vs (d : DB) (v : versionSet) : DB :=
  {| vs := v; pendingOutputs := pendingOutputs d; fs := fs d;
     written := written d; evicted := evicted d |}.

(** [compact1], from the compaction that [pickCompaction] returned
    ([None] is the nil compaction). *)
Definition compact1 (picked : option compaction) (d : DB)
    : option (outcome (DB * option error)) :=
  match picked with
  | None => Some (Ret (d, None))
  | Some c =>
      if (length (inputs0 c) =? 1)%nat && (length (inputs1 c) =? 0)%nat
         && (totalSize (inputs2 c) <=? maxGrandparentOverlapBytes opts (level c + 1))
      then
        match inputs0 c with
        | meta :: _ =>
            let '(v, err) :=
              logAndApply
                {| deletedFiles := {[ (level c, fileNum meta) ]};
                   newFiles := [((level c + 1)%nat, meta)] |}
                (vs d) in
            Some (Ret (with_vs d v, err))
        | [] => Some (Panic "index out of range")
        end
      else
        match compactDiskTables c d with
        | None => None
        | Some (Panic msg) => Some (Panic msg)
        | Some (Ret (d, Some ve, pending, None)) =>
            let '(v, err) := logAndApply ve (vs d) in
            let d := {| vs := v;
                        pendingOutputs := pendingOutputs d ∖ list_to_set pending;
                        fs := fs d; written := written d; evicted := evicted d |} in
            match err with
            | Some e => Some (Ret (d, Some e))
            | None => Some (Ret (deleteObsoleteFiles d, None))
            end
        | Some (Ret (d, _, _, err)) => Some (Ret (d, err))
        end
  end.
End DB.

End compaction.

(** ** The raw block iterator (sstable/raw_block.go) *)
Module rawBlockIter.
Import db.

Record blockEntry : Type := {
  e_offset : Z;
  e_key : bytes;
  e_val : bytes
}.

Record rawBlockIter : Type := {
  cmp : Compare;
  offset : Z;
  nextOffset : Z;
  restarts : Z;
  numRestarts : Z;
  data : bytes;
  key : bytes;
  val : bytes;
  ikey : InternalKey;
  cached : list blockEntry;
  err : option error
}.

(** The byte at an address of the block.  The source reads through an
    unsafe pointer; an address outside the block is read here as zero. *)
Definition byte_at (d : bytes) (p : Z) : N :=
  if (p <? 0)%Z then 0
  else match d !! Z.to_nat p with
       | Some b => Byte.to_N b
       | None => 0
       end.

(** Modelled from the spec: [decodeVarint] is missing from the sources at
    hand; it decodes one of the "[(shared, unshared, vlen)] varints" of a
    block entry, a [uint32] in at most five bytes, and returns the
    address after it. *)
Fixpoint decodeVarint_loop (fuel : nat) (d : bytes) (p : Z) (s : N) : N * Z :=
  match fuel with
  | O => (0, p)
  | S fuel' =>
      let a := byte_at d p in
      if (a <? 128) || (fuel' =? 0)%nat then (N.shiftl a s mod 2^32, (p + 1)%Z)
      else
        let '(v, p') := decodeVarint_loop fuel' d (p + 1)%Z (s + 7) in
        (N.lor (N.shiftl (N.land a 0x7f) s) v mod 2^32, p')
  end.

Definition decodeVarint (d : bytes) (p : Z) : N * Z := decodeVarint_loop 5 d p 0.

(** [getBytes(ptr, n)] *)
Definition getBytes (d : bytes) (p : Z) (n : N) : bytes :=
  take (N.to_nat n) (drop (Z.to_nat p) d).

(** The restart offset [binary.LittleEndian.Uint32(i.data[i.restarts+4*j:])]. *)
Definition restart_at (i : rawBlockIter) (j : Z) : Z :=
  Z.of_N (binary.le_value (take 4 (drop (Z.to_nat (restarts i + 4 * j)) (data i)))).

Definition init (c : Compare) (block : bytes) : rawBlockIter + error :=
  let n := Z.of_N (binary.le_value (take 4 (drop (length block - 4) block))) in
  if (n =? 0)%Z
  then inr (Errorf "pebble/table: invalid table (block has no restart points)")
  else inl {| cmp := c; offset := 0; nextOffset := 0;
              restarts := (Z.of_nat (length block) - 4 * (1 + n))%Z;
              numRestarts := n; data := block;
              key := []; val := [];
              ikey := {| UserKey := []; Trailer := 0 |};
              cached := []; err := None |}.

Definition readEntry (i : rawBlockIter) : rawBlockIter :=
  let '(shared, p) := decodeVarint (data i) (offset i) in
  let '(unshared, p) := decodeVarint (data i) p in
  let '(value, p) := decodeVarint (data i) p in
  let k := take (N.to_nat shared) (key i) ++ getBytes (data i) p unshared in
  let p := (p + Z.of_N unshared)%Z in
  {| cmp := cmp i; offset := offset i;
     nextOffset := (p + Z.of_N value)%Z;
     restarts := restarts i; numRestarts := numRestarts i; data := data i;
     key := k; val := getBytes (data i) p value;
     ikey := ikey i; cached := cached i; err := err i |}.

Definition loadEntry (i : rawBlockIter) : rawBlockIter :=
  let i := readEntry i in
  {| cmp := cmp i; offset := offset i; nextOffset := nextOffset i;
     restarts := restarts i; numRestarts := numRestarts i; data := data i;
     key := key i; val := val i;
     ikey := {| UserKey := key i; Trailer := Trailer (ikey i) |};
     cached := cached i; err := err i |}.

Definition with_offset (i : rawBlockIter) (o : Z) : rawBlockIter :=
  {| cmp := cmp i; offset := o; nextOffset := nextOffset i;
     restarts := restarts i; numRestarts := numRestarts i; data := data i;
     key := key i; val := val i; ikey := ikey i;
     cached := cached i; err := err i |}.

Definition Valid (i : rawBlockIter) : bool :=
  (0 <=? offset i)%Z && (offset i <? restarts i)%Z.

Definition Next (i : rawBlockIter) : rawBlockIter * bool :=
  let i := with_offset i (nextOffset i) in
  if negb (Valid i) then (i, false) else (loadEntry i, true).

(** [sort.Search(n, f)]: the smallest index in [[0, n)] at which [f] is
    true, by bisection; the interval halves on every round. *)
Fixpoint search_loop (fuel : nat) (f : Z -> bool) (lo hi : Z) : Z :=
  match fuel with
  | O => lo
  | S fuel' =>
      if (lo <? hi)%Z then
        let h := ((lo + hi) / 2)%Z in
        if negb (f h) then search_loop fuel' f (h + 1)%Z hi
        else search_loop fuel' f lo h
      else lo
  end.

Definition sort_Search (n : Z) (f : Z -> bool) : Z :=
  search_loop (S (Z.to_nat n)) f 0 n.

(** The scan of [SeekGE] from a restart point: every [Next] moves the
    offset forward, so the length of the block bounds the rounds. *)
Fixpoint scan (fuel : nat) (k : bytes) (i : rawBlockIter) : rawBlockIter :=
  match fuel with
  | O => i
  | S fuel' =>
      if Valid i then
        if (cmp i k (key i) <=? 0)%Z then i
        else scan fuel' k (fst (Next i))
      else i
  end.

(** [SeekGE] *)
Definition SeekGE (i : rawBlockIter) (k : bytes) : rawBlockIter :=
  let i := with_offset i 0 in
  let index :=
    sort_Search (numRestarts i)
      (fun j =>
         let off := restart_at i j in
         let '(v1, p) := decodeVarint (data i) (off + 1)%Z in
         let '(_, p) := decodeVarint (data i) p in
         let s := getBytes (data i) p v1 in
         (cmp i k s <? 0)%Z) in
  let i := if (0 <? index)%Z then with_offset i (restart_at i (index - 1)) else i in
  let i := loadEntry i in
  scan (S (length (data i))) k i.

(** [SeekLT] *)
Definition SeekLT (i : rawBlockIter) (k : bytes) : outcome rawBlockIter :=
  Panic "pebble/table: SeekLT unimplemented".

Definition First (i : rawBlockIter) : rawBlockIter :=
  loadEntry (with_offset i 0).

Definition Key (i : rawBlockIter) : InternalKey := ikey i.
Definition Value (i : rawBlockIter) : bytes := val i.

(** [clearCache] *)
Definition clearCache (i : rawBlockIter) : rawBlockIter :=
  {| cmp := cmp i; offset := offset i; nextOffset := nextOffset i;
     restarts := restarts i; numRestarts := numRestarts i; data := data i;
     key := key i; val := val i; ikey := ikey i;
     cached := []; err := err i |}.

(** [cacheEntry]: the key is copied to the end of [cachedBuf], and the
    entry holds that copy. *)
Definition cacheEntry (i : rawBlockIter) : rawBlockIter :=
  {| cmp := cmp i; offset := offset i; nextOffset := nextOffset i;
     restarts := restarts i; numRestarts := numRestarts i; data := data i;
     key := key i; val := val i; ikey := ikey i;
     cached := cached i ++ [{| e_offset := offset i; e_key := key i; e_val := val i |}];
     err := err i |}.

(** The loop [for i.nextOffset < bound] of [Last] and [Prev].  An entry
    takes three bytes at least, so [nextOffset] grows with every round
    and [bound] rounds are enough. *)
Fixpoint read_until (fuel : nat) (bound : Z) (i : rawBlockIter) : rawBlockIter :=
  match fuel with
  | O => i
  | S fuel' =>
      if (nextOffset i <? bound)%Z
      then read_until fuel' bound (cacheEntry (readEntry (with_offset i (nextOffset i))))
      else i
  end.

(** [i.ikey.UserKey = k] *)
Definition with_UserKey (i : rawBlockIter) (k : bytes) : rawBlockIter :=
  {| cmp := cmp i; offset := offset i; nextOffset := nextOffset i;
     restarts := restarts i; numRestarts := numRestarts i; data := data i;
     key := key i; val := val i;
     ikey := {| UserKey := k; Trailer := Trailer (ikey i) |};
     cached := cached i; err := err i |}.

(** [Last] *)
Definition Last (i : rawBlockIter) : rawBlockIter :=
  let i := with_offset i (restart_at i (numRestarts i - 1)) in
  let i := cacheEntry (clearCache (readEntry i)) in
  let i := read_until (Z.to_nat (restarts i)) (restarts i) i in
  with_UserKey i (key i).

(** [Prev]: the step back within the cache, which leaves [i.key] as it
    is; the step off the first entry; and the search from the restart
    point before the entry. *)
Definition Prev (i : rawBlockIter) : rawBlockIter * bool :=
  let n := (Z.of_nat (length (cached i)) - 1)%Z in
  let top := cached i !! Z.to_nat n in
  if (0 <? n)%Z && from_option (fun e => (e_offset e =? offset i)%Z) false top then
    match cached i !! Z.to_nat (n - 1) with
    | Some e =>
        ({| cmp := cmp i; offset := e_offset e; nextOffset := offset i;
            restarts := restarts i; numRestarts := numRestarts i; data := data i;
            key := key i; val := e_val e;
            ikey := {| UserKey := e_key e; Trailer := Trailer (ikey i) |};
            cached := take (Z.to_nat n) (cached i); err := err i |}, true)
    | None => (i, true)
    end
  else if (offset i =? 0)%Z then
    ({| cmp := cmp i; offset := -1; nextOffset := 0;
        restarts := restarts i; numRestarts := numRestarts i; data := data i;
        key := key i; val := val i; ikey := ikey i;
        cached := cached i; err := err i |}, false)
  else
    let targetOffset := offset i in
    let index :=
      sort_Search (numRestarts i) (fun j => (targetOffset <=? restart_at i j)%Z) in
    let i := with_offset i 0 in
    let i := if (0 <? index)%Z then with_offset i (restart_at i (index - 1)) else i in
    let i := cacheEntry (clearCache (readEntry i)) in
    let i := read_until (Z.to_nat targetOffset) targetOffset i in
    (with_UserKey i (key i), true).

End rawBlockIter.

(** ** Block handles and the table reader (sstable/reader.go) *)
Module sstable.

(** [blockHandle]: the file offset and the length of a block, both
    [uint64]. *)
Record blockHandle : Type := { bh_offset : N; bh_length : N }.

(** [decodeBlockHandle]: the handle at the start of [src] and the number
    of bytes it takes.  [src[n:]] is evaluated before [n] is looked at,
    and panics for the negative [n] that [Uvarint] returns on
    overflow. *)
Definition decodeBlockHandle (src : bytes) : outcome (blockHandle * Z) :=
  let '(offset, n) := binary.Uvarint src in
  if (n <? 0)%Z then Panic "slice bounds out of range"
  else
    let '(length_, m) := binary.Uvarint (drop (Z.to_nat n) src) in
    if (n =? 0)%Z || (m =? 0)%Z then Ret ({| bh_offset := 0; bh_length := 0 |}, 0%Z)
    else Ret ({| bh_offset := offset; bh_length := length_ |}, (n + m)%Z).

(** [encodeBlockHandle]: the buffer after the call and the number of
    bytes written; [PutUvarint] panics on a buffer that is too short. *)
Definition encodeBlockHandle (dst : bytes) (b : blockHandle) : outcome (bytes * Z) :=
  let enc := binary.PutUvarint (bh_offset b) ++ binary.PutUvarint (bh_length b) in
  if (length enc <=? length dst)%nat
  then Ret (enc ++ drop (length enc) dst, Z.of_nat (length enc))
  else Panic "index out of range".

(** The table reader, as far as [Close] goes: the file, if the reader
    still holds one, and the error the reader is in.  Of a file only
    the error that closing it returns matters here. *)
Record File : Type := { closeErr : option error }.

Record Reader : Type := { file : option File; r_err : option error }.

(** [Reader.Close] returns the reader after the call, the file that the
    call has closed, if any, and the error. *)
Definition Close (r : Reader) : Reader * option File * option error :=
  match r_err r with
  | Some e =>
      match file r with
      | Some f => ({| file := None; r_err := Some e |}, Some f, Some e)
      | None => (r, None, Some e)
      end
  | None =>
      match file r with
      | Some f =>
          match closeErr f with
          | Some e => ({| file := None; r_err := Some e |}, Some f, Some e)
          | None =>
              ({| file := None; r_err := Some (Errorf "pebble/table: reader is closed") |},
               Some f, None)
          end
      | None =>
          ({| file := None; r_err := Some (Errorf "pebble/table: reader is closed") |},
           None, None)
      end
  end.

End sstable.

(* ===================================================================== *)
(** * Part II: what the claims speak of *)
(* ===================================================================== *)

(** ** Comparers *)

(** [bytes.Compare], the default comparer: lexicographic order. *)
Fixpoint bytes_Compare (a b : bytes) : Z :=
  match a, b with
  | [], [] => 0
  | [], _ :: _ => -1
  | _ :: _, [] => 1
  | x :: a', y :: b' =>
      if Byte.to_N x <? Byte.to_N y then -1
      else if Byte.to_N y <? Byte.to_N x then 1
      else bytes_Compare a' b'
  end.

(** A comparer is expected to be a total preorder: swapping the arguments
    flips the sign of the result, and "not greater" is transitive. *)
Class CompareOrder (c : db.Compare) : Prop := {
  cmp_flip : forall a b, Z.sgn (c b a) = (- Z.sgn (c a b))%Z;
  cmp_trans : forall a b d, (c a b <= 0)%Z -> (c b d <= 0)%Z -> (c a d <= 0)%Z
}.

(** ** Batch operations and the wire format *)

Inductive op : Type :=
| OpSet (key value : bytes)
| OpMerge (key value : bytes)
| OpDelete (key : bytes)
| OpDeleteRange (start end_ : bytes).

Definition op_kind (o : op) : N :=
  match o with
  | OpSet _ _ => db.InternalKeyKindSet
  | OpMerge _ _ => db.InternalKeyKindMerge
  | OpDelete _ => db.InternalKeyKindDelete
  | OpDeleteRange _ _ => db.InternalKeyKindRangeDelete
  end.

Definition op_key (o : op) : bytes :=
  match o with
  | OpSet k _ | OpMerge k _ | OpDelete k | OpDeleteRange k _ => k
  end.

(** The value stored with the entry; a deletion stores none. *)
Definition op_value (o : op) : option bytes :=
  match o with
  | OpSet _ v | OpMerge _ v | OpDeleteRange _ v => Some v
  | OpDelete _ => None
  end.

(** The entry [(kind, user key, value)] an operation appends. *)
Definition op_entry (o : op) : N * bytes * option bytes :=
  (op_kind o, op_key o, op_value o).

(** Calling the mutator of an operation. *)
Definition apply_op (memTableEntrySize : nat -> nat -> N) (o : op)
    : Batch.Batch -> outcome (Batch.Batch * option error) :=
  match o with
  | OpSet k v => Batch.Set_ memTableEntrySize k v
  | OpMerge k v => Batch.Merge memTableEntrySize k v
  | OpDelete k => Batch.Delete memTableEntrySize k
  | OpDeleteRange s e => Batch.DeleteRange memTableEntrySize s e
  end.

(** Calling the mutators of a sequence of operations, stopping at the
    first that fails or panics. *)
Fixpoint apply_ops (memTableEntrySize : nat -> nat -> N) (ops : list op)
    (b : Batch.Batch) : outcome (Batch.Batch * option error) :=
  match ops with
  | [] => Ret (b, None)
  | o :: ops' =>
      r ← apply_op memTableEntrySize o b;
      match r with
      | (b', None) => apply_ops memTableEntrySize ops' b'
      | (b', Some e) => Ret (b', Some e)
      end
  end.

(** The wire format of a string and of an entry: "[(kind:u8, varint len_k,
    k bytes, [varint len_v, v bytes])]". *)
Definition wire_str (s : bytes) : bytes :=
  binary.PutUvarint (N.of_nat (length s)) ++ s.

Definition wire_entry (e : N * bytes * option bytes) : bytes :=
  let '(kind, key, value) := e in
  byte_of_N kind :: wire_str key ++ from_option wire_str [] value.

(** The batch as the mutators see it: an empty buffer gets its header
    first. *)
Definition with_header (b : Batch.Batch) : Batch.Batch :=
  if (length (Batch.data b) =? 0)%nat then Batch.init 0 b else b.

(** What a mutator needs of the batch it is called on.  The buffer is
    either empty or holds a header.  When the batch is indexed, it has a
    comparer, the buffer with the new entry stays within the reach of a
    [uint32] offset, and the offsets already in the index are those of
    entries whose key can be read back. *)
Definition mutable_batch (b : Batch.Batch) (o : op) : Prop :=
  (length (Batch.data b) = 0 \/ Batch.batchHeaderLen <= length (Batch.data b))%nat /\
  match Batch.index b with
  | None => True
  | Some l =>
      is_Some (Batch.cmp b) /\
      N.of_nat (length (Batch.data (with_header b)) + length (wire_entry (op_entry o))) < 2^32 /\
      Forall (fun e => 12 <= e /\ exists k, Batch.batchStorage_Get b e = Ret k) l
  end.

(** The batches an indexed batch goes through: from [newIndexedBatch], by
    mutator calls; [ops] are the operations whose call returned no
    error, oldest first. *)
Inductive built (memTableEntrySize : nat -> nat -> N) (c : db.Compare)
    : list op -> Batch.Batch -> Prop :=
| built_new : built memTableEntrySize c [] (Batch.newIndexedBatch c)
| built_ok ops b o b' :
    built memTableEntrySize c ops b ->
    apply_op memTableEntrySize o b = Ret (b', None) ->
    built memTableEntrySize c (ops ++ [o]) b'
| built_err ops b o b' e :
    built memTableEntrySize c ops b ->
    apply_op memTableEntrySize o b = Ret (b', Some e) ->
    built memTableEntrySize c ops b'.

(** The most recently applied operation on a user key equal to [key]. *)
Definition latest (c : db.Compare) (key : bytes) (ops : list op) : option op :=
  head (filter (fun o => c key (op_key o) = 0%Z) (reverse ops)).

(** The user key that the storage reads at an offset of the batch. *)
Definition key_at (b : Batch.Batch) (e : N) : bytes :=
  match Batch.batchStorage_Get b e with
  | Ret k => db.UserKey k
  | Panic _ => []
  end.

(** Insertion of an offset into an index ordered by [c] on the keys that
    [keyf] gives the offsets: before the first offset whose key is not
    smaller than [key]. *)
Fixpoint ins_sorted (c : db.Compare) (keyf : N -> bytes) (key : bytes) (off : N)
    (l : list N) : list N :=
  match l with
  | [] => [off]
  | e :: l' =>
      if (c key (keyf e) <=? 0)%Z then off :: l
      else e :: ins_sorted c keyf key off l'
  end.

(** The suffix of an ordered index at the first offset whose key is not
    smaller than [key]. *)
Fixpoint seek_sorted (c : db.Compare) (keyf : N -> bytes) (key : bytes)
    (l : list N) : list N :=
  match l with
  | [] => []
  | e :: l' =>
      if (c key (keyf e) <=? 0)%Z then l
      else seek_sorted c keyf key l'
  end.

(** A stand-in for [memTableEntrySize], to run the mutators on concrete
    batches: the sizes of the key and the value and a fixed overhead. *)
Definition entrySize (klen vlen : nat) : N := N.of_nat (klen + vlen + 8).

(** The entry of [o] is written in the buffer [d] at offset [e]. *)
Definition entry_at (d : bytes) (e : N) (o : op) : Prop :=
  12 <= e /\ exists rest, drop (N.to_nat e) d = wire_entry (op_entry o) ++ rest.

(** The order of the index: by user key, and for equal user keys the
    larger offset, that of the newer entry, first. *)
Definition index_before (c : db.Compare) (keyf : N -> bytes) (e1 e2 : N) : Prop :=
  (c (keyf e1) (keyf e2) < 0)%Z \/ (c (keyf e1) (keyf e2) = 0%Z /\ e2 < e1).

(** The shape of an indexed batch to which the operations [ops] have been
    applied, oldest first: their entries stand in the buffer at
    increasing offsets, and the index holds these offsets in its order. *)
Record indexed (c : db.Compare) (ops : list op) (b : Batch.Batch) : Prop := {
  indexed_cmp : Batch.cmp b = Some c;
  indexed_hdr : (length (Batch.data b) = 0 \/ 12 <= length (Batch.data b))%nat;
  indexed_entries :
    exists (offs l : list N),
      Forall2 (entry_at (Batch.data b)) offs ops /\
      StronglySorted N.lt offs /\
      Batch.index b = Some l /\
      (forall e, e ∈ l <-> e ∈ offs) /\
      StronglySorted (index_before c (key_at b)) l
}.

(** A batch without entries whose count field holds [2^32 - 2]. *)
Definition batch_count_fffffffe : Batch.Batch :=
  {| Batch.data := [x00; x00; x00; x00; x00; x00; x00; x00; xfe; xff; xff; xff];
     Batch.cmp := None; Batch.memTableSize := 0; Batch.index := None |}.

(** An indexed batch after [Set("k", "v")] and [Delete("k")]. *)
Definition batch_set_delete : Batch.Batch :=
  {| Batch.data :=
       [x00; x00; x00; x00; x00; x00; x00; x00; x02; x00; x00; x00;
        x01; x01; "k"; x01; "v"; x00; x01; "k"]%byte;
     Batch.cmp := Some bytes_Compare;
     Batch.memTableSize := 19;
     Batch.index := Some [17; 12] |}.

(** ** WAL replay *)

(** The batch that [replayWAL] makes of a record of the log. *)
Definition record_batch (buf : bytes) : Batch.Batch :=
  {| Batch.data := buf; Batch.cmp := None;
     Batch.memTableSize := 0; Batch.index := None |}.

(** The memtable that replay fills next: the current one, or a fresh one
    when there is none yet. *)
Definition replay_mem (c : db.Compare) (arenaCapacity : N)
    (mem : option memTable.memTable) : memTable.memTable :=
  match mem with
  | Some m => m
  | None => memTable.newMemTable c arenaCapacity
  end.

(** The log record of a batch with the single entry [Set("k", "v")] and
    sequence number 0. *)
Definition record_set_k_v : bytes :=
  [x00; x00; x00; x00; x00; x00; x00; x00; x01; x00; x00; x00;
   x01; x01; "k"; x01; "v"]%byte.

(** ** Compaction *)

(** The value accumulated over a run of older MERGE entries. *)
Definition fold_merge (merge : db.Merge) (ukey : bytes) (v0 : bytes)
    (run : list (db.InternalKey * bytes)) : bytes :=
  fold_left (fun acc e => merge ukey acc (snd e)) run v0.

(** A run of MERGE entries for the user key of [k0]. *)
Definition merge_run (cmp : db.Compare) (k0 : db.InternalKey)
    (run : list (db.InternalKey * bytes)) : Prop :=
  Forall (fun e => cmp (db.UserKey k0) (db.UserKey (fst e)) = 0%Z
                   /\ db.Kind (fst e) = db.InternalKeyKindMerge) run.

(** A merge operator and entries to run the compaction iterator on:
    concatenation, older value first. *)
Definition concat_merge : db.Merge := fun _ newer older => older ++ newer.

Definition ikey (k : byte) (seqNum kind : N) : db.InternalKey :=
  db.MakeInternalKey [k] seqNum kind.

(** The input of the compaction iterator, as the merging iterator yields
    it: in the order of the user keys, with the kinds the iterator
    knows. *)
Definition sorted_by_ukey (cmp : db.Compare) (input : list (db.InternalKey * bytes)) : Prop :=
  StronglySorted (fun a b => (cmp (db.UserKey (fst a)) (db.UserKey (fst b)) <= 0)%Z) input.

Definition valid_kinds (input : list (db.InternalKey * bytes)) : Prop :=
  Forall (fun e => db.Kind (fst e) = db.InternalKeyKindDelete
                   \/ db.Kind (fst e) = db.InternalKeyKindSet
                   \/ db.Kind (fst e) = db.InternalKeyKindMerge) input.

(** The entries strictly ascending by user key: one entry per user key. *)
Definition one_per_ukey (cmp : db.Compare) (es : list (db.InternalKey * bytes)) : Prop :=
  StronglySorted (fun a b => (cmp (db.UserKey (fst a)) (db.UserKey (fst b)) < 0)%Z) es.

(** What the next call of [findNextEntry] will start from: the underlying
    iterator as it stands, or moved past the current user key. *)
Definition pending (cmp : db.Compare) (i : compactionIter.compactionIter)
    : list (db.InternalKey * bytes) :=
  match compactionIter.pos i with
  | compactionIter.compactionIterCur =>
      compactionIter.rest (compactionIter.iter_NextUserKey cmp (compactionIter.iter i))
  | compactionIter.compactionIterNext => compactionIter.rest (compactionIter.iter i)
  end.

(** A file holds a user key: [smallest <= ukey <= largest]. *)
Definition file_holds (cmp : db.Compare) (ukey : bytes) (f : compaction.fileMetadata) : Prop :=
  (cmp ukey (db.UserKey (compaction.largest f)) <= 0)%Z
  /\ (0 <= cmp ukey (db.UserKey (compaction.smallest f)))%Z.

(** The files of a level at or above 1 are in the order of their
    smallest keys. *)
Definition level_sorted (cmp : db.Compare) (fs : list compaction.fileMetadata) : Prop :=
  StronglySorted
    (fun f g => (cmp (db.UserKey (compaction.smallest f))
                     (db.UserKey (compaction.smallest g)) <= 0)%Z) fs.

(** The entry is written by [compactDiskTables]: it is not a DELETE at
    the base level of its user key. *)
Definition kept (numLevels : nat) (cmp : db.Compare) (c : compaction.compaction)
    (e : db.InternalKey * bytes) : Prop :=
  ((db.Kind (fst e) =? db.InternalKeyKindDelete)
   && compaction.isBaseLevelForUkey numLevels c cmp (db.UserKey (fst e))) = false.

#[global] Instance kept_dec numLevels cmp c e : Decision (kept numLevels cmp c e).
Proof. unfold kept. apply _. Defined.

(** A compaction from level 0 in a version without files, a database
    without tables, and a compaction input in which the newest entry of
    ["a"] is a DELETE. *)
Definition empty_version : compaction.version :=
  {| compaction.files := fun _ => [] |}.

Definition level0_compaction : compaction.compaction :=
  {| compaction.c_version := empty_version; compaction.level := 0;
     compaction.inputs0 := []; compaction.inputs1 := []; compaction.inputs2 := [] |}.

Definition empty_db : compaction.DB :=
  {| compaction.vs :=
       {| compaction.versions := [empty_version]; compaction.logNumber := 0;
          compaction.manifestFileNumber := 0; compaction.nextFileNumber := 5 |};
     compaction.pendingOutputs := ∅;
     compaction.fs :=
       {| storage.names := []; storage.ListErr := None;
          storage.RemoveOk := fun _ => true |};
     compaction.written := [];
     compaction.evicted := [] |}.

Definition input_delete_a : list (db.InternalKey * bytes) :=
  [(ikey "a" 2 0, []); (ikey "a" 1 1, ["x"%byte]); (ikey "b" 3 1, ["y"%byte])].

(** Files and a version to run [compact1] and [grow] on.  Level 1 holds
    [a..b] (10 bytes) and [c..d] (40 bytes), level 2 holds [b..c] (50
    bytes); the target file size is 4 at every level, so that the size
    limit of an expanded compaction is 100. *)
Definition file (num size : N) (lo hi : byte) : compaction.fileMetadata :=
  {| compaction.fileNum := num; compaction.size := size;
     compaction.smallest := ikey lo 1 1; compaction.largest := ikey hi 1 1 |}.

Definition small_opts : compaction.Options :=
  {| compaction.TargetFileSize := fun _ => 4%Z |}.

Definition two_level_version : compaction.version :=
  {| compaction.files := fun lvl =>
       match lvl with
       | 1%nat => [file 1 10 "a" "b"; file 2 40 "c" "d"]
       | 2%nat => [file 3 50 "b" "c"]
       | _ => []
       end |}.

(** The compaction of the file [a..b] of level 1 with the one file of
    level 2 that overlaps it. *)
Definition level1_compaction : compaction.compaction :=
  {| compaction.c_version := two_level_version; compaction.level := 1;
     compaction.inputs0 := [file 1 10 "a" "b"];
     compaction.inputs1 := [file 3 50 "b" "c"];
     compaction.inputs2 := [] |}.

(** A compaction of a single file of level 1 that overlaps nothing. *)
Definition lone_file_compaction : compaction.compaction :=
  {| compaction.c_version := {| compaction.files := fun lvl =>
                                  match lvl with
                                  | 1%nat => [file 1 10 "a" "b"]
                                  | _ => []
                                  end |};
     compaction.level := 1;
     compaction.inputs0 := [file 1 10 "a" "b"];
     compaction.inputs1 := [];
     compaction.inputs2 := [] |}.

(** A stand-in for [logAndApply] that installs nothing and fails never. *)
Definition logAndApply_id (ve : compaction.versionEdit) (v : compaction.versionSet)
    : compaction.versionSet * option error := (v, None).

(** Modelled from the spec: the version that [logAndApply] computes, "a
    new Version by cloning the current and applying [edit.deleted_files]
    then [edit.new_files] per level; re-sort non-zero levels by
    [smallest]". *)
Fixpoint insert_file (c : db.Compare) (f : compaction.fileMetadata)
    (l : list compaction.fileMetadata) : list compaction.fileMetadata :=
  match l with
  | [] => [f]
  | g :: l' =>
      if (db.InternalCompare c (compaction.smallest f) (compaction.smallest g) <? 0)%Z
      then f :: g :: l'
      else g :: insert_file c f l'
  end.

Definition apply_edit (c : db.Compare) (ve : compaction.versionEdit)
    (v : compaction.version) : compaction.version :=
  {| compaction.files := fun lvl =>
       let kept := filter (fun f => (lvl, compaction.fileNum f) ∉ compaction.deletedFiles ve)
                          (compaction.files v lvl) in
       let added := map snd (filter (fun p => fst p = lvl) (compaction.newFiles ve)) in
       match lvl with
       | O => kept ++ added
       | S _ => fold_left (fun l f => insert_file c f l) added kept
       end |}.

(** A [logAndApply] that writes no MANIFEST and never fails: it installs
    the new version as the current one, the last of the live versions. *)
Definition logAndApply_spec (c : db.Compare) (ve : compaction.versionEdit)
    (v : compaction.versionSet) : compaction.versionSet * option error :=
  ({| compaction.versions :=
        compaction.versions v
        ++ [apply_edit c ve (default {| compaction.files := fun _ => [] |}
                               (last (compaction.versions v)))];
      compaction.logNumber := compaction.logNumber v;
      compaction.manifestFileNumber := compaction.manifestFileNumber v;
      compaction.nextFileNumber := compaction.nextFileNumber v |}, None).

(** A database whose one version holds the file of [lone_file_compaction]
    at level 1. *)
Definition db_lone_file : compaction.DB :=
  {| compaction.vs :=
       {| compaction.versions := [compaction.c_version lone_file_compaction];
          compaction.logNumber := 0;
          compaction.manifestFileNumber := 0; compaction.nextFileNumber := 5 |};
     compaction.pendingOutputs := ∅;
     compaction.fs :=
       {| storage.names := ["000001.sst"%string]; storage.ListErr := None;
          storage.RemoveOk := fun _ => true |};
     compaction.written := [];
     compaction.evicted := [] |}.

(** The file number is live: it is a pending output or belongs to a file
    of a live version. *)
Definition live (numLevels : nat) (d : compaction.DB) (fn : N) : Prop :=
  fn ∈ compaction.pendingOutputs d \/
  exists v lvl f,
    v ∈ compaction.versions (compaction.vs d) /\ (lvl < numLevels)%nat /\
    f ∈ compaction.files v lvl /\ compaction.fileNum f = fn.

(** The name is one that [deleteObsoleteFiles] may remove: a table that
    is not live, a log below the log number, a manifest below the
    manifest file number. *)
Definition obsolete (numLevels : nat)
    (parseDBFilename : string -> option (compaction.fileType * N))
    (d : compaction.DB) (name : string) : Prop :=
  exists fn,
    (parseDBFilename name = Some (compaction.fileTypeTable, fn) /\ ~ live numLevels d fn) \/
    (parseDBFilename name = Some (compaction.fileTypeLog, fn)
     /\ fn < compaction.logNumber (compaction.vs d)) \/
    (parseDBFilename name = Some (compaction.fileTypeManifest, fn)
     /\ fn < compaction.manifestFileNumber (compaction.vs d)).

(** ** Blocks *)

(** A block with the entries ["a" -> "1"] and ["c" -> "2"] and one restart
    point. *)
Definition block_a_c : bytes :=
  [x00; x01; x01; "a"; "1"; x00; x01; x01; "c"; "2";
   x00; x00; x00; x00; x01; x00; x00; x00]%byte.

Definition iter_a_c : rawBlockIter.rawBlockIter :=
  {| rawBlockIter.cmp := bytes_Compare; rawBlockIter.offset := 0;
     rawBlockIter.nextOffset := 0; rawBlockIter.restarts := 10;
     rawBlockIter.numRestarts := 1; rawBlockIter.data := block_a_c;
     rawBlockIter.key := []; rawBlockIter.val := [];
     rawBlockIter.ikey := {| db.UserKey := []; db.Trailer := 0 |};
     rawBlockIter.cached := []; rawBlockIter.err := None |}.

(** The compaction iterator after the loop of [mergeNext] has merged the
    value [v] of the older MERGE entry [k] into the accumulated value. *)
Definition merged (merge : db.Merge) (i : compactionIter.compactionIter)
    (k : db.InternalKey) (v : bytes) (l : list (db.InternalKey * bytes))
    : compactionIter.compactionIter :=
  {| compactionIter.iter :=
       {| compactionIter.all := compactionIter.all (compactionIter.iter i);
          compactionIter.rest := (k, v) :: l |};
     compactionIter.err := compactionIter.err i;
     compactionIter.key := compactionIter.key i;
     compactionIter.keyBuf := compactionIter.keyBuf i;
     compactionIter.value :=
       merge (db.UserKey (compactionIter.key i)) (compactionIter.value i) v;
     compactionIter.valueBuf := compactionIter.valueBuf i;
     compactionIter.valid := compactionIter.valid i;
     compactionIter.pos := compactionIter.pos i |}.

(** A block with two restart points and prefix compression: ["ab" -> "1"]
    and ["ac" -> "2"] after the first, ["b" -> "3"] and ["bd" -> "4"]
    after the second. *)
Definition block_two_restarts : bytes :=
  [x00; x02; x01; "a"; "b"; "1";
   x01; x01; x01; "c"; "2";
   x00; x01; x01; "b"; "3";
   x01; x01; x01; "d"; "4";
   x00; x00; x00; x00; x0b; x00; x00; x00;
   x02; x00; x00; x00]%byte.

Definition iter_two_restarts : rawBlockIter.rawBlockIter :=
  {| rawBlockIter.cmp := bytes_Compare; rawBlockIter.offset := 0;
     rawBlockIter.nextOffset := 0; rawBlockIter.restarts := 21;
     rawBlockIter.numRestarts := 2; rawBlockIter.data := block_two_restarts;
     rawBlockIter.key := []; rawBlockIter.val := [];
     rawBlockIter.ikey := {| db.UserKey := []; db.Trailer := 0 |};
     rawBlockIter.cached := []; rawBlockIter.err := None |}.

(** Where [SeekGE] leaves the iterator: the key and the value it stands
    on, or [None] when it is invalid. *)
Definition landing (i : rawBlockIter.rawBlockIter) : option (bytes * bytes) :=
  if rawBlockIter.Valid i
  then Some (db.UserKey (rawBlockIter.Key i), rawBlockIter.Value i)
  else None.

(** ** Further definitions that the properties of Part IV speak of *)

(** The step of the loops that add up memtable sizes: the size of one
    entry, added modulo [2^32]. *)
Definition size_step (memTableEntrySize : nat -> nat -> N) (acc : N)
    (e : N * bytes * option bytes) : N :=
  let '(_, key, value) := e in
  (acc + memTableEntrySize (length key) (from_option length 0%nat value)) mod 2^32.

(** ** What a compaction makes of the history of a user key *)

(** The MERGE entries for the user key [uk] that a list starts with. *)
Fixpoint merge_run_of (cmp : db.Compare) (uk : bytes)
    (l : list (db.InternalKey * bytes)) : list (db.InternalKey * bytes) :=
  match l with
  | [] => []
  | e :: l' =>
      if (cmp uk (db.UserKey (fst e)) =? 0)%Z && (db.Kind (fst e) =? db.InternalKeyKindMerge)
      then e :: merge_run_of cmp uk l'
      else []
  end.

(** The entry that stands for a user key in the output: [e] is the newest
    entry of the key and [older] what follows it in the input.  A SET or
    a DELETE stands for itself.  A MERGE takes in the values of the MERGE
    entries that follow it for the same user key, and the value of a SET
    for that key that ends the run, which makes it a SET. *)
Definition collapse (cmp : db.Compare) (merge : db.Merge)
    (e : db.InternalKey * bytes) (older : list (db.InternalKey * bytes))
    : db.InternalKey * bytes :=
  if db.Kind (fst e) =? db.InternalKeyKindMerge then
    let uk := db.UserKey (fst e) in
    let run := merge_run_of cmp uk older in
    let acc := fold_merge merge uk (snd e) run in
    match drop (length run) older with
    | stop :: _ =>
        if (cmp uk (db.UserKey (fst stop)) =? 0)%Z
           && (db.Kind (fst stop) =? db.InternalKeyKindSet)
        then (db.SetKind (fst e) db.InternalKeyKindSet, merge uk acc (snd stop))
        else (fst e, acc)
    | [] => (fst e, acc)
    end
  else e.

(** The output for a whole input: one entry for each run of entries with
    the user key of its first; the length of the input bounds the number
    of runs. *)
Fixpoint compacted (cmp : db.Compare) (merge : db.Merge) (fuel : nat)
    (l : list (db.InternalKey * bytes)) : list (db.InternalKey * bytes) :=
  match fuel, l with
  | S fuel', e :: l' =>
      collapse cmp merge e l'
      :: compacted cmp merge fuel' (compactionIter.skip_ukey cmp (db.UserKey (fst e)) l')
  | _, _ => []
  end.

(** The kinds the compaction iterator knows. *)
Definition valid_kind (k : db.InternalKey) : Prop :=
  db.Kind k = db.InternalKeyKindDelete \/ db.Kind k = db.InternalKeyKindSet
  \/ db.Kind k = db.InternalKeyKindMerge.

(** ** The output of a compaction *)

(** The key of the last entry of a list, or [d] for the empty list. *)
Definition last_key (d : db.InternalKey) (l : list (db.InternalKey * bytes)) : db.InternalKey :=
  match last l with
  | Some e => fst e
  | None => d
  end.

(** The database after [compactDiskTables] has taken the next file number
    for its table: the number is used up and pending, and the file of the
    table exists. *)
Definition reserved_table (dbFilename : compaction.fileType -> N -> string)
    (d : compaction.DB) : compaction.DB :=
  let fn := compaction.nextFileNumber (compaction.vs d) in
  {| compaction.vs :=
       {| compaction.versions := compaction.versions (compaction.vs d);
          compaction.logNumber := compaction.logNumber (compaction.vs d);
          compaction.manifestFileNumber := compaction.manifestFileNumber (compaction.vs d);
          compaction.nextFileNumber := (fn + 1) mod 2^64 |};
     compaction.pendingOutputs := compaction.pendingOutputs d ∪ {[fn]};
     compaction.fs := storage.Create (compaction.fs d) (dbFilename compaction.fileTypeTable fn);
     compaction.written := compaction.written d;
     compaction.evicted := compaction.evicted d |}.

(** ** Obsolete files *)

(** The test that [deleteObsoleteFiles] makes of a name, from the live
    file numbers and the numbers of the current log and manifest. *)
Definition obsoleteb (parseDBFilename : string -> option (compaction.fileType * N))
    (liveFileNums : gset N) (logNumber manifestFileNumber : N) (name : string) : bool :=
  match parseDBFilename name with
  | Some (compaction.fileTypeLog, fn) => fn <? logNumber
  | Some (compaction.fileTypeManifest, fn) => fn <? manifestFileNumber
  | Some (compaction.fileTypeTable, fn) => bool_decide (fn ∉ liveFileNums)
  | _ => false
  end.

(** The file number that goes from the table cache with a name. *)
Definition evicted_of (parseDBFilename : string -> option (compaction.fileType * N))
    (liveFileNums : gset N) (name : string) : option N :=
  match parseDBFilename name with
  | Some (compaction.fileTypeTable, fn) =>
      if bool_decide (fn ∈ liveFileNums) then None else Some fn
  | _ => None
  end.

(** A directory to run [deleteObsoleteFiles] on: table 1 belongs to the
    version, table 2 to none, the log is older than the current one. *)
Definition parse_example (name : string) : option (compaction.fileType * N) :=
  if String.eqb name "000001.sst" then Some (compaction.fileTypeTable, 1)
  else if String.eqb name "000002.sst" then Some (compaction.fileTypeTable, 2)
  else if String.eqb name "000003.log" then Some (compaction.fileTypeLog, 3)
  else if String.eqb name "LOCK" then Some (compaction.fileTypeLock, 0)
  else None.

Definition db_example : compaction.DB :=
  {| compaction.vs :=
       {| compaction.versions := [compaction.c_version lone_file_compaction];
          compaction.logNumber := 4;
          compaction.manifestFileNumber := 0; compaction.nextFileNumber := 5 |};
     compaction.pendingOutputs := ∅;
     compaction.fs :=
       {| storage.names := ["000001.sst"; "000002.sst"; "000003.log"; "LOCK"]%string;
          storage.ListErr := None;
          storage.RemoveOk := fun _ => true |};
     compaction.written := [];
     compaction.evicted := [] |}.

(** A file-name scheme for the tables 1, 2 and 5, the log 3 and the lock
    file. *)
Definition parse_example5 (name : string) : option (compaction.fileType * N) :=
  if String.eqb name "000005.sst" then Some (compaction.fileTypeTable, 5)
  else parse_example name.

Definition name_example5 (ft : compaction.fileType) (fn : N) : string :=
  match ft, fn with
  | compaction.fileTypeTable, 5 => "000005.sst"
  | _, _ => ""
  end.

(** ** Replaying a log *)

(** What [replayWAL] reads from the record [buf] of a log: the entries
    that the batch reader finds after the header, the memtable size they
    add up to, and the sequence number and the count of the header. *)
Definition record_entries (buf : bytes) : list (N * bytes * option bytes) :=
  Batch.read_all (length (drop 12 buf)) (drop 12 buf).


Definition record_seqNum (buf : bytes) : N := binary.le_value (take 8 buf).


(** The entries of the records of a log as the memtable gets them: those
    of a record with consecutive sequence numbers from the sequence number
    of the record, the records in the order of the log. *)
Definition replayed_entries (bufs : list bytes) : list (db.InternalKey * option bytes) :=
  concat (map (fun buf => memTable.stamp (record_seqNum buf) (record_entries buf)) bufs).


(** The entries [es], put one after the other into an empty memtable. *)
Definition key_ordered (c : db.Compare) (es : list (db.InternalKey * option bytes))
    : list (db.InternalKey * option bytes) :=
  fold_left (fun l e => memTable.insert c e l) es [].


(** The log record of a batch with the single entry [Delete("j")] and
    sequence number 1. *)
Definition record_delete_j : bytes :=
  [x01; x00; x00; x00; x00; x00; x00; x00; x01; x00; x00; x00;
   x00; x01; "j"]%byte.

(** ** The layout of a block *)

(** An entry of a block: its key, its value, and the number of bytes of
    the key that it shares with the key before it and does not store. *)
Record bentry : Type := { be_shared : nat; be_key : bytes; be_val : bytes }.

(** The bytes of an entry: the three lengths as varints, the rest of the
    key, the value. *)
Definition enc_bentry (e : bentry) : bytes :=
  binary.PutUvarint (N.of_nat (be_shared e))
  ++ binary.PutUvarint (N.of_nat (length (be_key e) - be_shared e))
  ++ binary.PutUvarint (N.of_nat (length (be_val e)))
  ++ drop (be_shared e) (be_key e) ++ be_val e.

Definition entries_bytes (es : list bentry) : bytes := concat (map enc_bentry es).

(** A block: the entries, the offsets of the restart points as
    little-endian [uint32]s, and their number. *)
Definition block_of (es : list bentry) (rs : list nat) : bytes :=
  entries_bytes es
  ++ concat (map (fun r => binary.le_bytes 4 (N.of_nat r)) rs)
  ++ binary.le_bytes 4 (N.of_nat (length rs)).

(** The entries fit their encoding: an entry shares with the key before
    it, [prev], what it says it shares, and the lengths fit a [uint32]. *)
Fixpoint wf_entries (prev : bytes) (es : list bentry) : Prop :=
  match es with
  | [] => True
  | e :: es' =>
      (be_shared e <= length prev)%nat /\ (be_shared e <= length (be_key e))%nat /\
      take (be_shared e) (be_key e) = take (be_shared e) prev /\
      N.of_nat (length (be_key e)) < 2^32 /\ N.of_nat (length (be_val e)) < 2^32 /\
      wf_entries (be_key e) es'
  end.

(** The iterator [i] moved to the entry at [off]: [k] and [v] are the key
    and the value read there, [next] the offset after the entry and [uk]
    the user key that [Key] returns. *)
Definition moved (i : rawBlockIter.rawBlockIter) (off next : Z) (k v uk : bytes)
    : rawBlockIter.rawBlockIter :=
  {| rawBlockIter.cmp := rawBlockIter.cmp i;
     rawBlockIter.offset := off; rawBlockIter.nextOffset := next;
     rawBlockIter.restarts := rawBlockIter.restarts i;
     rawBlockIter.numRestarts := rawBlockIter.numRestarts i;
     rawBlockIter.data := rawBlockIter.data i;
     rawBlockIter.key := k; rawBlockIter.val := v;
     rawBlockIter.ikey := {| db.UserKey := uk;
                             db.Trailer := db.Trailer (rawBlockIter.ikey i) |};
     rawBlockIter.cached := rawBlockIter.cached i;
     rawBlockIter.err := rawBlockIter.err i |}.

(** What a loop [for ...; i.Valid(); i.Next()] visits from where the
    iterator stands: the keys and the values. *)
Fixpoint walk (fuel : nat) (i : rawBlockIter.rawBlockIter) : list (bytes * bytes) :=
  match fuel with
  | O => []
  | S fuel' =>
      if rawBlockIter.Valid i
      then (db.UserKey (rawBlockIter.Key i), rawBlockIter.Value i)
           :: walk fuel' (fst (rawBlockIter.Next i))
      else []
  end.

(** The iterator that [init] makes of a block with the entries [es] and
    the restart points [rs]. *)
Definition iter_of (c : db.Compare) (es : list bentry) (rs : list nat)
    : rawBlockIter.rawBlockIter :=
  {| rawBlockIter.cmp := c; rawBlockIter.offset := 0; rawBlockIter.nextOffset := 0;
     rawBlockIter.restarts := Z.of_nat (length (entries_bytes es));
     rawBlockIter.numRestarts := Z.of_nat (length rs);
     rawBlockIter.data := block_of es rs;
     rawBlockIter.key := []; rawBlockIter.val := [];
     rawBlockIter.ikey := {| db.UserKey := []; db.Trailer := 0 |};
     rawBlockIter.cached := []; rawBlockIter.err := None |}.

(** The offset of the entry [j] of a block with the entries [es]. *)
Definition offset_of (es : list bentry) (j : nat) : nat :=
  length (entries_bytes (take j es)).

(** The restart points of a block, given by the numbers [ris] of their
    entries: they ascend, and an entry at a restart point shares nothing
    with the key before it. *)
Definition restarts_ok (es : list bentry) (ris : list nat) : Prop :=
  StronglySorted lt ris /\
  Forall (fun j => exists e, es !! j = Some e /\ be_shared e = 0%nat) ris.

(** The keys of a block ascend strictly. *)
Definition keys_ascend (c : db.Compare) (es : list bentry) : Prop :=
  StronglySorted (fun e1 e2 => (c (be_key e1) (be_key e2) < 0)%Z) es.

(** The iterator [i], wherever it stands, is one over the block with the
    entries [es] and the restart offsets [rs], with the comparer [c]. *)
Definition iter_over (c : db.Compare) (es : list bentry) (rs : list nat)
    (i : rawBlockIter.rawBlockIter) : Prop :=
  rawBlockIter.cmp i = c /\
  rawBlockIter.data i = block_of es rs /\
  rawBlockIter.restarts i = Z.of_nat (length (entries_bytes es)) /\
  rawBlockIter.numRestarts i = Z.of_nat (length rs).

Definition key_val (e : bentry) : bytes * bytes := (be_key e, be_val e).

(** The entries ["ab" -> "1"], ["ac" -> "2"], ["b" -> "3"] and
    ["bd" -> "4"]; the second and the fourth share a byte with the key
    before them. *)
Definition entries_example : list bentry :=
  [ {| be_shared := 0; be_key := ["a"; "b"]%byte; be_val := ["1"%byte] |};
    {| be_shared := 1; be_key := ["a"; "c"]%byte; be_val := ["2"%byte] |};
    {| be_shared := 0; be_key := ["b"%byte]; be_val := ["3"%byte] |};
    {| be_shared := 1; be_key := ["b"; "d"]%byte; be_val := ["4"%byte] |} ].

(** ** Reading a block backwards *)

(** The entry [t] of the block as the cache of [Last] and [Prev] holds
    it. *)
Definition bentry_at (es : list bentry) (t : nat) : rawBlockIter.blockEntry :=
  {| rawBlockIter.e_offset := Z.of_nat (offset_of es t);
     rawBlockIter.e_key := from_option be_key [] (es !! t);
     rawBlockIter.e_val := from_option be_val [] (es !! t) |}.

(** The cache that holds the entries [a] to [j]. *)
Definition cache_run (es : list bentry) (a j : nat) : list rawBlockIter.blockEntry :=
  map (bentry_at es) (seq a (S j - a)).

(** The iterator [i0] after [Last] or [Prev] has read the entries [a] to
    [j]: it stands on the entry [j], the cache holds the entries read,
    [k] is the key that [i.key] holds and [uk] the one that [Key]
    returns. *)
Definition bstate (i0 : rawBlockIter.rawBlockIter) (es : list bentry) (a j : nat)
    (k uk : bytes) : rawBlockIter.rawBlockIter :=
  {| rawBlockIter.cmp := rawBlockIter.cmp i0;
     rawBlockIter.offset := Z.of_nat (offset_of es j);
     rawBlockIter.nextOffset := Z.of_nat (offset_of es (S j));
     rawBlockIter.restarts := rawBlockIter.restarts i0;
     rawBlockIter.numRestarts := rawBlockIter.numRestarts i0;
     rawBlockIter.data := rawBlockIter.data i0;
     rawBlockIter.key := k;
     rawBlockIter.val := from_option be_val [] (es !! j);
     rawBlockIter.ikey := {| db.UserKey := uk;
                             db.Trailer := db.Trailer (rawBlockIter.ikey i0) |};
     rawBlockIter.cached := cache_run es a j;
     rawBlockIter.err := rawBlockIter.err i0 |}.

(** The key of the entry [j]. *)
Definition bkey_at (es : list bentry) (j : nat) : bytes := from_option be_key [] (es !! j).

(** What a loop [for ...; i.Valid(); i.Prev()] visits from where the
    iterator stands. *)
Fixpoint walk_back (fuel : nat) (i : rawBlockIter.rawBlockIter) : list (bytes * bytes) :=
  match fuel with
  | O => []
  | S fuel' =>
      if rawBlockIter.Valid i
      then (db.UserKey (rawBlockIter.Key i), rawBlockIter.Value i)
           :: walk_back fuel' (fst (rawBlockIter.Prev i))
      else []
  end.

(** The iterator [i0] after [First] and [Next] have brought it to the
    entry [j]; they leave the cache alone. *)
Definition fstate (i0 : rawBlockIter.rawBlockIter) (es : list bentry) (j : nat)
    : rawBlockIter.rawBlockIter :=
  {| rawBlockIter.cmp := rawBlockIter.cmp i0;
     rawBlockIter.offset := Z.of_nat (offset_of es j);
     rawBlockIter.nextOffset := Z.of_nat (offset_of es (S j));
     rawBlockIter.restarts := rawBlockIter.restarts i0;
     rawBlockIter.numRestarts := rawBlockIter.numRestarts i0;
     rawBlockIter.data := rawBlockIter.data i0;
     rawBlockIter.key := bkey_at es j;
     rawBlockIter.val := from_option be_val [] (es !! j);
     rawBlockIter.ikey := {| db.UserKey := bkey_at es j;
                             db.Trailer := db.Trailer (rawBlockIter.ikey i0) |};
     rawBlockIter.cached := rawBlockIter.cached i0;
     rawBlockIter.err := rawBlockIter.err i0 |}.

(** [m] calls of [Next]. *)
Definition Nexts (m : nat) (i : rawBlockIter.rawBlockIter) : rawBlockIter.rawBlockIter :=
  Nat.iter m (fun i => fst (rawBlockIter.Next i)) i.

(** The entries ["aa" -> "1"], ["ab" -> "2"] and ["b" -> "3"]; the second
    shares a byte with the first, the third shares nothing. *)
Definition entries_aa_ab_b : list bentry :=
  [ {| be_shared := 0; be_key := ["a"; "a"]%byte; be_val := ["1"%byte] |};
    {| be_shared := 1; be_key := ["a"; "b"]%byte; be_val := ["2"%byte] |};
    {| be_shared := 0; be_key := ["b"%byte]; be_val := ["3"%byte] |} ].

(* ===================================================================== *)
(** * Part III: the proofs *)
(* ===================================================================== *)

(** ** Bytes and varints *)

Lemma to_N_byte_of_N (n : N) : Byte.to_N (byte_of_N n) = n mod 256.
Proof.
  unfold byte_of_N.
  destruct (Byte.of_N (n mod 256)) as [b|] eqn:E.
  - by apply Byte.to_of_N.
  - apply Byte.of_N_None_iff in E.
    pose proof (N.mod_upper_bound n 256). lia.
Qed.

Lemma to_N_lt_256 (b : byte) : Byte.to_N b < 256.
Proof. pose proof (Byte.to_N_bounded b). lia. Qed.

Lemma byte_of_to_N (b : byte) : byte_of_N (Byte.to_N b) = b.
Proof.
  unfold byte_of_N. rewrite N.mod_small by apply to_N_lt_256.
  by rewrite Byte.of_to_N.
Qed.

(** Splitting off the low seven bits. *)
Lemma low7_split (x : N) : N.lor (N.land x 0x7f) (N.shiftl (N.shiftr x 7) 7) = x.
Proof.
  apply N.bits_inj. intros n.
  rewrite N.lor_spec, N.land_spec.
  destruct (N.lt_ge_cases n 7) as [Hn|Hn].
  - rewrite N.shiftl_spec_low by done.
    change 0x7f with (N.ones 7). rewrite N.ones_spec_low by done.
    by rewrite andb_true_r, orb_false_r.
  - rewrite N.shiftl_spec_high' by done.
    rewrite N.shiftr_spec'.
    change 0x7f with (N.ones 7). rewrite N.ones_spec_high by done.
    rewrite andb_false_r. simpl. f_equal. lia.
Qed.

Lemma cont_byte_high (x : N) : 0x80 <= N.lor x 0x80 mod 256.
Proof.
  change 256 with (2^8). rewrite <- N.land_ones.
  assert (H : N.testbit (N.land (N.lor x 0x80) (N.ones 8)) 7 = true).
  { rewrite N.land_spec, N.lor_spec, N.ones_spec_low by lia.
    change (N.testbit 0x80 7) with true. by rewrite orb_true_r. }
  apply N.testbit_true in H.
  change (2^7) with 128 in H.
  destruct (N.le_gt_cases 0x80 (N.land (N.lor x 0x80) (N.ones 8))) as [|Hlt]; [done|].
  rewrite N.div_small in H by lia. done.
Qed.

Lemma cont_byte_low (x : N) : N.land (N.lor x 0x80 mod 256) 0x7f = N.land x 0x7f.
Proof.
  change 256 with (2^8). rewrite <- N.land_ones.
  apply N.bits_inj. intros n.
  rewrite !N.land_spec, N.lor_spec.
  change 0x7f with (N.ones 7).
  destruct (N.lt_ge_cases n 7) as [Hn|Hn].
  - rewrite !N.ones_spec_low by lia.
    change 0x80 with (2^7). rewrite N.pow2_bits_false by lia.
    by rewrite !andb_true_r, orb_false_r.
  - rewrite (N.ones_spec_high 7) by lia. by rewrite !andb_false_r.
Qed.

Lemma PutUvarint_loop_Uvarint (fuel : nat) : forall (i : nat) (x acc s : N) (rest : bytes),
  (i + fuel = 10)%nat -> (1 <= fuel)%nat -> s = 7 * N.of_nat i ->
  x < 2 ^ (64 - s) -> 
  binary.Uvarint_loop (binary.PutUvarint_loop fuel x ++ rest) i acc s =
    (N.lor acc (N.shiftl x s),
     (Z.of_nat i + Z.of_nat (length (binary.PutUvarint_loop fuel x)))%Z).
Proof.
  induction fuel as [|fuel IH]; intros i x acc s rest Hi Hf Hs Hx; [lia|].
  cbn [binary.PutUvarint_loop].
  destruct (N.leb_spec 0x80 x) as [Hge|Hlt].
  - (* a continuation byte *)
    cbn [app binary.Uvarint_loop length].
    assert (Hi9 : (i < 9)%nat).
    { destruct (decide (i < 9)%nat) as [|Hn]; [done|].
      assert (i = 9)%nat by lia. subst i s.
      change (2 ^ (64 - 7 * N.of_nat 9)) with 2 in Hx. lia. }
    replace (i =? binary.MaxVarintLen64)%nat with false
      by (symmetry; apply Nat.eqb_neq; unfold binary.MaxVarintLen64; lia).
    rewrite to_N_byte_of_N.
    pose proof (cont_byte_high x) as Hh.
    replace (N.lor x 128 mod 256 <? 128) with false
      by (symmetry; apply N.ltb_ge; exact Hh).
    rewrite cont_byte_low.
    rewrite (N.mod_small (N.shiftl (N.land x 127) s)).
    2:{ rewrite N.shiftl_mul_pow2.
        assert (N.land x 127 < 2^7).
        { change 127 with (N.ones 7). rewrite N.land_ones. by apply N.mod_upper_bound. }
        assert (2^7 * 2^s <= 2^64).
        { rewrite <- N.pow_add_r. apply N.pow_le_mono_r; lia. }
        assert (0 < 2^s) by (apply N.neq_0_lt_0, N.pow_nonzero; lia). nia. }
    rewrite IH; try lia.
    + f_equal; [|lia].
      rewrite <- N.lor_assoc. f_equal.
      replace (s + 7) with (7 + s) by lia.
      rewrite <- N.shiftl_shiftl, <- N.shiftl_lor.
      by rewrite low7_split.
    + rewrite N.shiftr_div_pow2.
      apply N.Div0.div_lt_upper_bound.
      rewrite <- N.pow_add_r.
      replace (7 + (64 - (s + 7))) with (64 - s) by lia. done.
  - (* the final byte *)
    cbn [app binary.Uvarint_loop length].
    assert (Hi9 : (i <= 9)%nat) by lia.
    replace (i =? binary.MaxVarintLen64)%nat with false
      by (symmetry; apply Nat.eqb_neq; unfold binary.MaxVarintLen64; lia).
    rewrite to_N_byte_of_N, (N.mod_small x 256) by lia.
    replace (x <? 128) with true by (symmetry; apply N.ltb_lt; done).
    replace ((i =? binary.MaxVarintLen64 - 1)%nat && (1 <? x)) with false.
    2:{ symmetry. apply andb_false_iff.
        destruct (decide (i = 9)%nat) as [->|Hne].
        - right. apply N.ltb_ge. subst s.
          change (2 ^ (64 - 7 * N.of_nat 9)) with 2 in Hx. lia.
        - left. apply Nat.eqb_neq. unfold binary.MaxVarintLen64. lia. }
    f_equal; try lia. f_equal.
    apply N.mod_small. rewrite N.shiftl_mul_pow2.
    assert (2^(64 - s) * 2^s <= 2^64).
    { rewrite <- N.pow_add_r. apply N.pow_le_mono_r; lia. }
    assert (0 < 2^s) by (apply N.neq_0_lt_0, N.pow_nonzero; lia). nia.
Qed.

Lemma PutUvarint_loop_length (fuel : nat) (x : N) :
  (1 <= fuel)%nat ->
  (1 <= length (binary.PutUvarint_loop fuel x) <= fuel)%nat.
Proof.
  revert x. induction fuel as [|fuel IH]; intros x Hf; [lia|].
  cbn [binary.PutUvarint_loop]. destruct (0x80 <=? x); cbn [length]; [|lia].
  destruct fuel as [|fuel']; [cbn; lia|].
  specialize (IH (N.shiftr x 7)). lia.
Qed.

Lemma PutUvarint_length (x : N) :
  (1 <= length (binary.PutUvarint x) <= 10)%nat.
Proof. apply PutUvarint_loop_length. unfold binary.MaxVarintLen64. lia. Qed.

(** A varint that was written is read back, whatever follows it. *)
Lemma Uvarint_PutUvarint (x : N) (rest : bytes) :
  x < 2^64 ->
  binary.Uvarint (binary.PutUvarint x ++ rest)
  = (x, Z.of_nat (length (binary.PutUvarint x))).
Proof.
  intros Hx. unfold binary.Uvarint, binary.PutUvarint, binary.MaxVarintLen64.
  rewrite (N.mod_small x) by done.
  rewrite (PutUvarint_loop_Uvarint 10 0 x 0 0 rest); try done; try lia.
  by rewrite N.shiftl_0_r, N.lor_0_l.
Qed.

(** Reading a varint looks at no byte beyond it. *)
Lemma Uvarint_loop_app (buf ext : bytes) : forall (i : nat) (x s v : N) (n : Z),
  binary.Uvarint_loop buf i x s = (v, n) -> (0 < n)%Z ->
  binary.Uvarint_loop (buf ++ ext) i x s = (v, n).
Proof.
  induction buf as [|b buf IH]; intros i x s v n H Hn.
  - cbn in H. injection H as <- <-. lia.
  - cbn [app binary.Uvarint_loop] in *.
    destruct (i =? binary.MaxVarintLen64)%nat; [done|].
    destruct (Byte.to_N b <? 0x80); [done|].
    by apply IH.
Qed.

Lemma Uvarint_loop_bound (buf : bytes) : forall (i : nat) (x s : N),
  (snd (binary.Uvarint_loop buf i x s) <= Z.of_nat i + Z.of_nat (length buf))%Z.
Proof.
  induction buf as [|b buf IH]; intros i x s; cbn [binary.Uvarint_loop length].
  - cbn. lia.
  - destruct (i =? binary.MaxVarintLen64)%nat; [cbn; lia|].
    destruct (Byte.to_N b <? 0x80).
    + destruct ((i =? binary.MaxVarintLen64 - 1)%nat && (1 <? Byte.to_N b)); cbn; lia.
    + specialize (IH (S i) (N.lor x (N.shiftl (N.land (Byte.to_N b) 0x7f) s mod 2^64)) (s + 7)).
      lia.
Qed.


(** ** The count of a batch *)

Lemma le_value_bound (p : bytes) : binary.le_value p < 256 ^ N.of_nat (length p).
Proof.
  induction p as [|b p IH]; cbn [binary.le_value length]; [done|].
  rewrite Nat2N.inj_succ, N.pow_succ_r'.
  pose proof (to_N_lt_256 b). lia.
Qed.

(** The loop of [increment] adds one to the little-endian number, unless
    every byte wraps around. *)
Lemma increment_loop_Some (p p' : bytes) :
  Batch.increment_loop p = Some p' ->
  length p' = length p /\ binary.le_value p' = binary.le_value p + 1.
Proof.
  revert p'. induction p as [|x p IH]; intros p' H; [done|].
  cbn [Batch.increment_loop] in H.
  rewrite to_N_byte_of_N in H.
  pose proof (to_N_lt_256 x) as Hx.
  destruct (N.eqb_spec ((Byte.to_N x + 1) mod 256) 0) as [E|E]; cbn [negb] in H.
  - destruct (Batch.increment_loop p) as [p''|] eqn:Hp; [|done].
    injection H as <-. destruct (IH _ eq_refl) as [Hl Hv].
    cbn [length binary.le_value]. rewrite Hl, Hv, to_N_byte_of_N, E.
    split; [done|].
    assert (Byte.to_N x = 255).
    { destruct (decide (Byte.to_N x = 255)) as [|Hne]; [done|].
      rewrite N.mod_small in E by lia. lia. }
    lia.
  - injection H as <-. cbn [length binary.le_value]. split; [done|].
    rewrite to_N_byte_of_N.
    assert (Byte.to_N x <> 255).
    { intros Hx'. rewrite Hx' in E. by apply E. }
    rewrite N.mod_small by lia. lia.
Qed.

Lemma increment_loop_None (p : bytes) :
  Batch.increment_loop p = None ->
  binary.le_value p + 1 = 256 ^ N.of_nat (length p).
Proof.
  induction p as [|x p IH]; intros H; [done|].
  cbn [Batch.increment_loop] in H.
  rewrite to_N_byte_of_N in H.
  pose proof (to_N_lt_256 x) as Hx.
  destruct (N.eqb_spec ((Byte.to_N x + 1) mod 256) 0) as [E|E]; cbn [negb] in H; [|done].
  destruct (Batch.increment_loop p) as [p''|] eqn:Hp; [done|].
  specialize (IH eq_refl).
  cbn [length binary.le_value]. rewrite Nat2N.inj_succ, N.pow_succ_r'.
  assert (Byte.to_N x = 255).
  { destruct (decide (Byte.to_N x = 255)) as [|Hne]; [done|].
    rewrite N.mod_small in E by lia. lia. }
  lia.
Qed.

Lemma countData_Ret (b : Batch.Batch) :
  (12 <= length (Batch.data b))%nat ->
  Batch.countData b = Ret (take 4 (drop 8 (Batch.data b))).
Proof.
  intros H. unfold Batch.countData, Batch.batchHeaderLen.
  by rewrite (proj2 (Nat.leb_le _ _) H).
Qed.

Lemma count_Ret (b : Batch.Batch) :
  (12 <= length (Batch.data b))%nat ->
  Batch.count b = Ret (binary.le_value (take 4 (drop 8 (Batch.data b)))).
Proof.
  intros H. unfold Batch.count. rewrite countData_Ret by done.
  cbn. unfold binary.Uint32.
  rewrite length_take, length_drop.
  replace (4 <=? 4 `min` (length (Batch.data b) - 8))%nat with true
    by (symmetry; apply Nat.leb_le; lia).
  by rewrite take_take.
Qed.

(** The count bytes of a buffer whose bytes 8 to 11 are [p]. *)
Lemma count_bytes_replaced (d p ext : bytes) :
  (12 <= length d)%nat -> length p = 4%nat ->
  take 4 (drop 8 (take 8 d ++ p ++ drop 12 d ++ ext)) = p.
Proof.
  intros Hd Hp.
  rewrite drop_app_length' by (rewrite length_take; lia).
  by rewrite take_app_length'.
Qed.

Lemma entries_kept (d p ext : bytes) :
  (12 <= length d)%nat -> length p = 4%nat ->
  drop 12 (take 8 d ++ p ++ drop 12 d ++ ext) = drop 12 d ++ ext.
Proof.
  intros Hd Hp.
  replace 12%nat with (8 + 4)%nat at 1 by done.
  rewrite <- drop_drop.
  rewrite drop_app_length' by (rewrite length_take; lia).
  by rewrite drop_app_length'.
Qed.

Lemma with_header_length (b : Batch.Batch) :
  (length (Batch.data b) = 0 \/ 12 <= length (Batch.data b))%nat ->
  (12 <= length (Batch.data (with_header b)))%nat.
Proof.
  intros H. unfold with_header.
  destruct (Nat.eqb_spec (length (Batch.data b)) 0) as [E|E]; cbn; lia.
Qed.

(** ** Strings and entries of the wire format *)

Lemma PutUvarint_mod (x : N) : binary.PutUvarint (x mod 2^64) = binary.PutUvarint x.
Proof. unfold binary.PutUvarint. by rewrite N.Div0.mod_mod. Qed.

Lemma batchDecodeStr_wire (s rest : bytes) :
  N.of_nat (length s) < 2^64 ->
  Batch.batchDecodeStr (wire_str s ++ rest) = Some (rest, s).
Proof.
  intros Hs. unfold Batch.batchDecodeStr, wire_str.
  rewrite <- app_assoc, Uvarint_PutUvarint by done.
  pose proof (PutUvarint_length (N.of_nat (length s))) as Hl.
  replace (Z.of_nat (length (binary.PutUvarint (N.of_nat (length s)))) <=? 0)%Z
    with false by (symmetry; apply Z.leb_gt; lia).
  rewrite Nat2Z.id, drop_app_length.
  replace (N.of_nat (length (s ++ rest)) <? N.of_nat (length s)) with false
    by (symmetry; apply N.ltb_ge; rewrite length_app; lia).
  rewrite Nat2N.id. by rewrite drop_app_length, take_app_length.
Qed.

Lemma batchDecodeStr_app (d ext rest s : bytes) :
  Batch.batchDecodeStr d = Some (rest, s) ->
  Batch.batchDecodeStr (d ++ ext) = Some (rest ++ ext, s).
Proof.
  unfold Batch.batchDecodeStr, binary.Uvarint.
  destruct (binary.Uvarint_loop d 0 0 0) as [v n] eqn:E.
  destruct (Z.leb_spec n 0) as [|Hn]; [done|].
  pose proof (Uvarint_loop_bound d 0 0 0) as Hb. rewrite E in Hb. cbn in Hb.
  rewrite (Uvarint_loop_app d ext 0 0 0 v n E Hn).
  replace (n <=? 0)%Z with false by (symmetry; apply Z.leb_gt; lia).
  destruct (N.ltb_spec (N.of_nat (length (drop (Z.to_nat n) d))) v) as [|Hv]; [done|].
  intros [= <- <-].
  rewrite drop_app_le by lia.
  replace (N.of_nat (length (drop (Z.to_nat n) d ++ ext)) <? v) with false
    by (symmetry; apply N.ltb_ge; rewrite length_app; lia).
  rewrite drop_app_le, take_app_le by lia. done.
Qed.

Lemma nextStr_batchDecodeStr (r : bytes) :
  Batch.nextStr r
  = match Batch.batchDecodeStr r with
    | Some (rest, s) => Some (s, rest)
    | None => None
    end.
Proof.
  unfold Batch.nextStr, Batch.batchDecodeStr.
  destruct (binary.Uvarint r) as [u n].
  destruct (n <=? 0)%Z; [done|].
  by destruct (N.of_nat (length (drop (Z.to_nat n) r)) <? u).
Qed.

Lemma wire_str_length (s : bytes) : (1 + length s <= length (wire_str s))%nat.
Proof.
  unfold wire_str. rewrite length_app.
  pose proof (PutUvarint_length (N.of_nat (length s))). lia.
Qed.

Lemma wire_entry_length (o : op) :
  (2 + length (op_key o) + from_option length 0%nat (op_value o)
   <= length (wire_entry (op_entry o)))%nat.
Proof.
  unfold wire_entry, op_entry. cbn [length]. rewrite length_app.
  pose proof (wire_str_length (op_key o)).
  destruct (op_value o) as [v|]; cbn [from_option length].
  - pose proof (wire_str_length v). lia.
  - lia.
Qed.

Lemma op_kind_byte (o : op) : Byte.to_N (byte_of_N (op_kind o)) = op_kind o.
Proof. by destruct o. Qed.

(** ** Reading an entry back at its offset *)

Lemma drop_from_12 (d : bytes) (e : nat) :
  (12 <= e)%nat -> drop e d = drop (e - 12) (drop 12 d).
Proof. intros H. rewrite drop_drop. f_equal. lia. Qed.

Lemma lookup_from_12 (d : bytes) (e : nat) :
  (12 <= e)%nat -> d !! e = drop 12 d !! (e - 12)%nat.
Proof. intros H. rewrite lookup_drop. f_equal. lia. Qed.

(** The storage reads the same key at an offset when the entries that
    were there are kept and others are appended. *)
Lemma batchStorage_Get_stable (b b' : Batch.Batch) (ext : bytes) (e : N) (k : db.InternalKey) :
  12 <= e -> e + 1 < 2^32 ->
  drop 12 (Batch.data b') = drop 12 (Batch.data b) ++ ext ->
  Batch.batchStorage_Get b e = Ret k ->
  Batch.batchStorage_Get b' e = Ret k.
Proof.
  intros He He' Hd. unfold Batch.batchStorage_Get.
  rewrite (N.mod_small (e + 1)) by done.
  destruct (Batch.data b !! N.to_nat e) as [kb|] eqn:Hkb; [|done].
  assert (Hlen : (N.to_nat e < length (Batch.data b))%nat)
    by (apply lookup_lt_is_Some; eauto).
  assert (Hlen' : (length (Batch.data b) + length ext <= length (Batch.data b'))%nat).
  { apply (f_equal length) in Hd. rewrite length_app, !length_drop in Hd. lia. }
  rewrite (lookup_from_12 (Batch.data b')), Hd by lia.
  rewrite lookup_app_l by (rewrite length_drop; lia).
  rewrite <- lookup_from_12, Hkb by lia.
  unfold slice_from.
  replace (N.to_nat (e + 1) <=? length (Batch.data b))%nat with true
    by (symmetry; apply Nat.leb_le; lia).
  replace (N.to_nat (e + 1) <=? length (Batch.data b'))%nat with true
    by (symmetry; apply Nat.leb_le; lia).
  cbn.
  destruct (Batch.batchDecodeStr (drop (N.to_nat (e + 1)) (Batch.data b)))
    as [[rest key]|] eqn:Hs; [|done].
  intros [= <-].
  rewrite (drop_from_12 (Batch.data b')), Hd by lia.
  rewrite drop_app_le by (rewrite length_drop; lia).
  rewrite <- drop_from_12 by lia.
  by rewrite (batchDecodeStr_app _ ext _ _ Hs).
Qed.

(** The storage reads the key of an entry at the offset where its wire
    format starts. *)
Lemma batchStorage_Get_entry (b : Batch.Batch) (e : N) (o : op) (rest : bytes) :
  e + 1 < 2^32 ->
  N.of_nat (length (op_key o)) < 2^64 ->
  (N.to_nat e <= length (Batch.data b))%nat ->
  drop (N.to_nat e) (Batch.data b) = wire_entry (op_entry o) ++ rest ->
  Batch.batchStorage_Get b e
  = Ret (db.MakeInternalKey (op_key o) (N.lor e db.InternalKeySeqNumBatch) (op_kind o)).
Proof.
  intros He Hk Hle Hd. unfold Batch.batchStorage_Get.
  rewrite (N.mod_small (e + 1)) by done.
  assert (Hkb : Batch.data b !! N.to_nat e = Some (byte_of_N (op_kind o))).
  { rewrite <- (Nat.add_0_r (N.to_nat e)), <- lookup_drop, Hd. done. }
  rewrite Hkb.
  assert (Hlen : (N.to_nat e < length (Batch.data b))%nat)
    by (apply lookup_lt_is_Some; eauto).
  unfold slice_from.
  replace (N.to_nat (e + 1) <=? length (Batch.data b))%nat with true
    by (symmetry; apply Nat.leb_le; lia).
  cbn.
  replace (N.to_nat (e + 1)) with (N.to_nat e + 1)%nat by lia.
  rewrite <- drop_drop, Hd.
  unfold wire_entry, op_entry. cbn [drop app].
  rewrite drop_0, <- app_assoc, batchDecodeStr_wire by done.
  by rewrite op_kind_byte.
Qed.

(** ** The index under a mutator *)

Lemma batchStorage_Compare_Ret (b : Batch.Batch) (c : db.Compare) (a : bytes) (e : N)
    (k : db.InternalKey) :
  Batch.cmp b = Some c ->
  Batch.batchStorage_Get b e = Ret k ->
  Batch.batchStorage_Compare b a e
  = Ret (if (c a (key_at b e) <=? 0)%Z then (-1)%Z else 1%Z).
Proof.
  intros Hc Hk. unfold Batch.batchStorage_Compare, key_at, Batch.call_cmp.
  rewrite Hk, Hc. cbn. by destruct (c a (db.UserKey k) <=? 0)%Z.
Qed.

Lemma skl_insert_pure (b : Batch.Batch) (c : db.Compare) (key : bytes) (off : N)
    (l : list N) :
  Batch.cmp b = Some c ->
  Forall (fun e => exists k, Batch.batchStorage_Get b e = Ret k) l ->
  Batch.skl_insert (Batch.batchStorage_Compare b) key off l
  = Ret (inl (ins_sorted c (key_at b) key off l)).
Proof.
  intros Hc. induction 1 as [|e l [k Hk] _ IH]; [done|].
  cbn [Batch.skl_insert ins_sorted].
  rewrite (batchStorage_Compare_Ret b c key e k Hc Hk). cbn.
  destruct (c key (key_at b e) <=? 0)%Z; cbn; [done|].
  by rewrite IH.
Qed.

Lemma skl_SeekGE_pure (b : Batch.Batch) (c : db.Compare) (key : bytes) (l : list N) :
  Batch.cmp b = Some c ->
  Forall (fun e => exists k, Batch.batchStorage_Get b e = Ret k) l ->
  Batch.skl_SeekGE (Batch.batchStorage_Compare b) key l
  = Ret (seek_sorted c (key_at b) key l).
Proof.
  intros Hc. induction 1 as [|e l [k Hk] _ IH]; [done|].
  cbn [Batch.skl_SeekGE seek_sorted].
  rewrite (batchStorage_Compare_Ret b c key e k Hc Hk). cbn.
  by destruct (c key (key_at b e) <=? 0)%Z; cbn.
Qed.

Lemma ins_sorted_ext (c : db.Compare) (f g : N -> bytes) (key : bytes) (off : N)
    (l : list N) :
  Forall (fun e => f e = g e) l ->
  ins_sorted c f key off l = ins_sorted c g key off l.
Proof.
  induction 1 as [|e l He _ IH]; [done|].
  cbn [ins_sorted]. by rewrite He, IH.
Qed.

Lemma apply_op_mutate (mtes : nat -> nat -> N) (o : op) (b : Batch.Batch) :
  apply_op mtes o b = Batch.mutate mtes (op_kind o) (op_key o) (op_value o) b.
Proof. by destruct o. Qed.

Lemma header_replaced_length (d p : bytes) :
  (12 <= length d)%nat -> length p = 4%nat ->
  length (take 8 d ++ p ++ drop 12 d) = length d.
Proof.
  intros Hd Hp. rewrite !length_app, length_take, length_drop. lia.
Qed.

(** The buffer after the count is set and the entry of [o] appended. *)
Lemma appended_data (d p : bytes) (o : op) :
  let b1 := Batch.with_data Batch.newBatch ((take 8 d ++ p ++ drop 12 d) ++ [byte_of_N (op_kind o)]) in
  let b2 := Batch.appendStr b1 (op_key o) in
  Batch.data match op_value o with
             | Some v => Batch.appendStr b2 v
             | None => b2
             end
  = take 8 d ++ p ++ drop 12 d ++ wire_entry (op_entry o).
Proof.
  unfold wire_entry, op_entry, wire_str.
  destruct (op_value o) as [v|]; cbn [Batch.appendStr Batch.with_data Batch.data from_option];
    rewrite !PutUvarint_mod, <- !app_assoc; cbn [app]; [done|].
  by rewrite app_nil_r.
Qed.

(** A mutator on a batch whose count is below [2^32 - 1]: the count
    bytes are advanced by one, the entry is appended, and its offset goes
    into the index. *)
Lemma mutate_ok (mtes : nat -> nat -> N) (o : op) (b : Batch.Batch) (n : N) :
  mutable_batch b o ->
  Batch.count (with_header b) = Ret n ->
  n < 2^32 - 1 ->
  let d0 := Batch.data (with_header b) in
  exists p' b',
    apply_op mtes o b = Ret (b', None) /\
    length p' = 4%nat /\ binary.le_value p' = n + 1 /\
    Batch.data b' = take 8 d0 ++ p' ++ drop 12 d0 ++ wire_entry (op_entry o) /\
    Batch.cmp b' = Batch.cmp b /\
    Batch.index b'
    = match Batch.index b, Batch.cmp b with
      | Some l, Some c =>
          Some (ins_sorted c (key_at b) (op_key o) (N.of_nat (length d0)) l)
      | _, _ => None
      end.
Proof.
  intros [Hhdr Hidx] Hn Hlt d0.
  pose proof (with_header_length b Hhdr) as Hd0. fold d0 in Hd0.
  rewrite count_Ret in Hn by done. injection Hn as Hn. fold d0 in Hn.
  rewrite apply_op_mutate. unfold Batch.mutate.
  change (if (length (Batch.data b) =? 0)%nat then Batch.init _ b else b)
    with (with_header b).
  unfold Batch.increment. rewrite countData_Ret by done. fold d0. cbn [mbind outcome_bind].
  destruct (Batch.increment_loop (take 4 (drop 8 d0))) as [p'|] eqn:Hp.
  2:{ apply increment_loop_None in Hp.
      rewrite length_take, length_drop in Hp.
      replace (4 `min` (length d0 - 8))%nat with 4%nat in Hp by lia.
      change (256 ^ N.of_nat 4) with (2^32) in Hp. lia. }
  apply increment_loop_Some in Hp as [Hl Hv].
  rewrite length_take, length_drop in Hl.
  replace (4 `min` (length d0 - 8))%nat with 4%nat in Hl by lia.
  cbn [mbind outcome_bind negb].
  assert (Hcmp : Batch.cmp (with_header b) = Batch.cmp b)
    by (unfold with_header; by destruct (length (Batch.data b) =? 0)%nat).
  assert (Hix : Batch.index (with_header b) = Batch.index b)
    by (unfold with_header; by destruct (length (Batch.data b) =? 0)%nat).
  set (b0 := with_header b) in *.
  set (b1 := Batch.set_countData b0 p').
  set (b2 := Batch.appendStr
               (Batch.with_data b1 (Batch.data b1 ++ [byte_of_N (op_kind o)]))
               (op_key o)).
  set (b3 := match op_value o with
             | Some v => Batch.appendStr b2 v
             | None => b2
             end).
  assert (Hdata : Batch.data b3 = take 8 d0 ++ p' ++ drop 12 d0 ++ wire_entry (op_entry o)).
  { rewrite <- (appended_data d0 p' o). subst b3.
    by destruct (op_value o). }
  assert (Hcmp3 : Batch.cmp b3 = Batch.cmp b)
    by (subst b3; by destruct (op_value o)).
  assert (Hix3 : Batch.index b3 = Batch.index b)
    by (subst b3; by destruct (op_value o)).
  clearbody b3.
  unfold Batch.index_Add. rewrite Hix3.
  destruct (Batch.index b) as [l|] eqn:Hl0.
  2:{ eexists p', _. split; [reflexivity|].
      cbn [Batch.add_memTableSize Batch.data Batch.cmp Batch.index].
      rewrite Hdata, Hcmp3, Hix3. repeat split; try done. lia. }
  destruct Hidx as ([c Hc] & Hroom & Hall). fold b0 d0 in Hroom.
  rewrite Hc.
  set (off := N.of_nat (length (Batch.data b1)) mod 2^32).
  assert (Hoff : off = N.of_nat (length d0)).
  { subst off b1. cbn [Batch.set_countData Batch.with_data Batch.data]. fold d0.
    rewrite header_replaced_length by done.
    apply N.mod_small. lia. }
  clearbody off. subst off.
  pose proof (wire_entry_length o) as Hwl.
  unfold Batch.skl_Add.
  rewrite (batchStorage_Get_entry b3 (N.of_nat (length d0)) o []); first last.
  { rewrite Hdata, Nat2N.id, app_nil_r.
    rewrite !app_assoc, <- (app_assoc (take 8 d0)).
    apply drop_app_length'. symmetry. by apply header_replaced_length. }
  { rewrite Hdata, Nat2N.id, !length_app, length_take, length_drop. lia. }
  { lia. }
  { lia. }
  cbn [mbind outcome_bind db.UserKey db.MakeInternalKey].
  assert (Hall3 : Forall (fun e => Batch.batchStorage_Get b3 e = Batch.batchStorage_Get b e
                                   /\ exists k, Batch.batchStorage_Get b e = Ret k) l).
  { destruct l as [|e0 l0]; [done|].
    assert (Hne : (12 <= length (Batch.data b))%nat).
    { destruct Hhdr as [H0|]; [|done].
      apply Forall_inv in Hall as [_ [k Hk]].
      unfold Batch.batchStorage_Get in Hk.
      destruct (Batch.data b) eqn:E; [|done].
      by rewrite lookup_nil in Hk. }
    assert (Hb0 : b0 = b).
    { subst b0. unfold with_header.
      destruct (Nat.eqb_spec (length (Batch.data b)) 0); [lia|done]. }
    eapply Forall_impl; [exact Hall|].
    intros e [He [k Hk]]. split; [|by eexists].
    rewrite Hk.
    assert (N.to_nat e < length (Batch.data b))%nat.
    { unfold Batch.batchStorage_Get in Hk.
      destruct (Batch.data b !! N.to_nat e) eqn:E; [|done].
      apply lookup_lt_is_Some; eauto. }
    apply (batchStorage_Get_stable b b3 (wire_entry (op_entry o))); try done.
    - subst d0. rewrite Hb0 in *. lia.
    - rewrite Hdata. subst d0. rewrite Hb0. by apply entries_kept. }
  rewrite (skl_insert_pure b3 c); first last.
  { eapply Forall_impl; [exact Hall3|]. by intros e [-> ?]. }
  { by rewrite Hcmp3. }
  cbn [mbind outcome_bind].
  eexists p', _. split; [reflexivity|].
  cbn [Batch.add_memTableSize Batch.data Batch.cmp Batch.index].
  rewrite Hdata, Hcmp3. repeat split; try done; [lia|].
  f_equal. apply ins_sorted_ext.
  eapply Forall_impl; [exact Hall3|].
  intros e [He _]. unfold key_at. by rewrite He.
Qed.


(** ** The count under a mutator *)

Lemma le_value_max (p : bytes) :
  length p = 4%nat -> binary.le_value p = 2^32 - 1 -> p = [xff; xff; xff; xff].
Proof.
  destruct p as [|b0 [|b1 [|b2 [|b3 [|]]]]]; try done. intros _.
  cbn [binary.le_value].
  pose proof (to_N_lt_256 b0). pose proof (to_N_lt_256 b1).
  pose proof (to_N_lt_256 b2). pose proof (to_N_lt_256 b3).
  intros Hv.
  assert (E : Byte.to_N b0 = 255 /\ Byte.to_N b1 = 255
              /\ Byte.to_N b2 = 255 /\ Byte.to_N b3 = 255) by lia.
  destruct E as (E0 & E1 & E2 & E3).
  rewrite <- (byte_of_to_N b0), <- (byte_of_to_N b1),
          <- (byte_of_to_N b2), <- (byte_of_to_N b3), E0, E1, E2, E3.
  done.
Qed.

Lemma header_restored (d : bytes) :
  (12 <= length d)%nat ->
  take 8 d ++ take 4 (drop 8 d) ++ drop 12 d = d.
Proof.
  intros Hd.
  rewrite <- (take_drop 8 d) at 4. f_equal.
  rewrite <- (take_drop 4 (drop 8 d)) at 2. f_equal.
  by rewrite drop_drop.
Qed.

(** A mutator on a batch whose count is [2^32 - 1]: the batch is left as
    it was and [ErrInvalidBatch] is returned. *)
Lemma mutate_invalid (mtes : nat -> nat -> N) (o : op) (b : Batch.Batch) :
  (length (Batch.data b) = 0 \/ 12 <= length (Batch.data b))%nat ->
  Batch.count (with_header b) = Ret (2^32 - 1) ->
  apply_op mtes o b = Ret (b, Some ErrInvalidBatch).
Proof.
  intros Hhdr Hn.
  pose proof (with_header_length b Hhdr) as Hd0.
  rewrite count_Ret in Hn by done. injection Hn as Hn.
  assert (Hb0 : with_header b = b).
  { unfold with_header in *.
    destruct (Nat.eqb_spec (length (Batch.data b)) 0) as [E|E]; [|done].
    by vm_compute in Hn. }
  rewrite Hb0 in *.
  rewrite apply_op_mutate. unfold Batch.mutate.
  change (if (length (Batch.data b) =? 0)%nat then Batch.init _ b else b)
    with (with_header b).
  rewrite Hb0. unfold Batch.increment. rewrite countData_Ret by done.
  cbn [mbind outcome_bind].
  assert (Hp : take 4 (drop 8 (Batch.data b)) = [xff; xff; xff; xff]).
  { apply le_value_max; [|done]. rewrite length_take, length_drop. lia. }
  rewrite Hp. cbn [Batch.increment_loop]. vm_compute (Batch.increment_loop _).
  cbn [mbind outcome_bind negb]. do 2 f_equal.
  unfold Batch.set_countData, Batch.with_data.
  rewrite <- Hp, header_restored by done. by destruct b.
Qed.

(** C3 as the specification states it fails at the count [2^32 - 2]: the
    byte-wise increment turns it into [2^32 - 1], no byte wraps to zero,
    and [Set] returns no error. *)
Lemma Set_at_count_fffffffe_returns_no_error :
  Batch.count batch_count_fffffffe = Ret (2^32 - 2) /\
  exists b',
    Batch.Set_ entrySize ["k"%byte] ["v"%byte] batch_count_fffffffe = Ret (b', None) /\
    Batch.count b' = Ret (2^32 - 1).
Proof.
  split; [reflexivity|]. eexists. split; vm_compute; reflexivity.
Qed.

(** C3, amended.  For every batch and each of the mutators [Set],
    [Merge], [Delete] and [DeleteRange]: the call returns
    [ErrInvalidBatch] exactly when the count of the batch already is
    [2^32 - 1], and then leaves the count as it is; for every smaller
    count, [2^32 - 2] included, the call returns no error and the count
    is one more than before. *)
Theorem mutator_increments_count (mtes : nat -> nat -> N) (o : op)
    (b : Batch.Batch) (n : N) :
  mutable_batch b o ->
  Batch.count (with_header b) = Ret n ->
  exists b',
    apply_op mtes o b
    = Ret (b', if n =? 2^32 - 1 then Some ErrInvalidBatch else None) /\
    Batch.count b' = Ret (if n =? 2^32 - 1 then n else n + 1).
Proof.
  intros Hm Hn.
  assert (Hhdr := proj1 Hm).
  pose proof (with_header_length b Hhdr) as Hd0.
  assert (Hle : n <= 2^32 - 1).
  { rewrite count_Ret in Hn by done. injection Hn as <-.
    pose proof (le_value_bound (take 4 (drop 8 (Batch.data (with_header b))))) as Hb.
    rewrite length_take, length_drop in Hb.
    replace (4 `min` (length (Batch.data (with_header b)) - 8))%nat with 4%nat in Hb by lia.
    change (256 ^ N.of_nat 4) with (2^32) in Hb. lia. }
  destruct (N.eqb_spec n (2^32 - 1)) as [->|Hne].
  - exists b. split; [by apply mutate_invalid|].
    assert (Hb0 : with_header b = b).
    { unfold with_header in *.
      destruct (Nat.eqb_spec (length (Batch.data b)) 0) as [E|E]; [|done].
      by vm_compute in Hn. }
    by rewrite Hb0 in Hn.
  - destruct (mutate_ok mtes o b n Hm Hn) as (p' & b' & Hr & Hl & Hv & Hd & _); [lia|].
    exists b'. split; [done|].
    rewrite count_Ret by (rewrite Hd, !length_app, length_take, length_drop; lia).
    rewrite Hd, count_bytes_replaced, Hv by done. done.
Qed.

Lemma mutator_increments_count_witness :
  exists b',
    apply_op entrySize (OpSet ["k"%byte] ["v"%byte]) batch_count_fffffffe
    = Ret (b', if 2^32 - 2 =? 2^32 - 1 then Some ErrInvalidBatch else None) /\
    Batch.count b' = Ret (if 2^32 - 2 =? 2^32 - 1 then 2^32 - 2 else 2^32 - 2 + 1).
Proof.
  apply (mutator_increments_count entrySize (OpSet ["k"%byte] ["v"%byte])
           batch_count_fffffffe (2^32 - 2)).
  - split; [right; vm_compute; lia | exact I].
  - reflexivity.
Defined.


(** ** The order of the index *)

Lemma elem_of_ins_sorted (c : db.Compare) (f : N -> bytes) (key : bytes) (off x : N) (l : list N) :
  x ∈ ins_sorted c f key off l <-> x = off \/ x ∈ l.
Proof.
  induction l as [|e l IH]; cbn [ins_sorted].
  - set_solver.
  - destruct (c key (f e) <=? 0)%Z.
    + by rewrite elem_of_cons.
    + rewrite !elem_of_cons, IH. tauto.
Qed.

Section IndexOrder.
Context (c : db.Compare) `{!CompareOrder c}.

Lemma cmp_cases (a b : bytes) :
  (c a b < 0 /\ 0 < c b a)%Z \/ (c a b = 0 /\ c b a = 0)%Z \/ (0 < c a b /\ c b a < 0)%Z.
Proof.
  pose proof (cmp_flip a b) as H.
  destruct (Z.sgn_spec (c a b)) as [[? E1]|[[? E1]|[? E1]]];
    destruct (Z.sgn_spec (c b a)) as [[? E2]|[[? E2]|[? E2]]]; lia.
Qed.

Lemma cmp_lt_le_trans (a b d : bytes) :
  (c a b < 0)%Z -> (c b d <= 0)%Z -> (c a d < 0)%Z.
Proof.
  intros H1 H2.
  destruct (Z.lt_ge_cases (c a d) 0) as [|H3]; [done|].
  assert (c d a <= 0)%Z by (destruct (cmp_cases a d); lia).
  pose proof (cmp_trans b d a H2 ltac:(done)).
  destruct (cmp_cases a b); lia.
Qed.

Lemma cmp_eq_trans (a b d : bytes) :
  c a b = 0%Z -> c b d = 0%Z -> c a d = 0%Z.
Proof.
  intros H1 H2.
  assert (Hab : (c a b <= 0)%Z) by lia.
  assert (Hbd : (c b d <= 0)%Z) by lia.
  pose proof (cmp_trans a b d Hab Hbd).
  assert (c d b <= 0)%Z by (destruct (cmp_cases b d); lia).
  assert (c b a <= 0)%Z by (destruct (cmp_cases a b); lia).
  pose proof (cmp_trans d b a ltac:(done) ltac:(done)).
  destruct (cmp_cases a d); lia.
Qed.

(** Inserting the offset of a new entry, larger than all the others,
    keeps the index in order. *)
Lemma ins_sorted_sorted (f : N -> bytes) (key : bytes) (off : N) (l : list N) :
  f off = key ->
  Forall (fun e => e < off) l ->
  StronglySorted (index_before c f) l ->
  StronglySorted (index_before c f) (ins_sorted c f key off l).
Proof.
  intros Hoff. induction l as [|e l IH]; intros Hlt Hs; cbn [ins_sorted].
  - repeat constructor.
  - apply StronglySorted_cons in Hs as [Hall Hs].
    apply Forall_cons in Hlt as [He Hlt].
    destruct (Z.leb_spec (c key (f e)) 0) as [Hle|Hgt].
    + apply StronglySorted_cons. split.
      * apply Forall_cons. split.
        -- unfold index_before. rewrite Hoff. lia.
        -- rewrite Forall_forall in Hall, Hlt |- *. intros x Hx.
           specialize (Hall x Hx). specialize (Hlt x Hx).
           unfold index_before in *. rewrite Hoff.
           assert (c (f e) (f x) <= 0)%Z by lia.
           pose proof (cmp_trans key (f e) (f x) Hle ltac:(done)). lia.
      * by apply StronglySorted_cons.
    + apply StronglySorted_cons. split; [|by apply IH].
      rewrite Forall_forall in Hall |- *. intros x Hx.
      apply elem_of_ins_sorted in Hx as [->|Hx]; [|by apply Hall].
      unfold index_before. rewrite Hoff.
      destruct (cmp_cases key (f e)); lia.
Qed.

Lemma index_sorted_ext (f g : N -> bytes) (l : list N) :
  Forall (fun e => f e = g e) l ->
  StronglySorted (index_before c f) l ->
  StronglySorted (index_before c g) l.
Proof.
  induction l as [|e l IH]; intros Hfg Hs; [constructor|].
  apply Forall_cons in Hfg as [He Hfg].
  apply StronglySorted_cons in Hs as [Hall Hs].
  apply StronglySorted_cons. split; [|by apply IH].
  rewrite Forall_forall in Hall, Hfg |- *. intros x Hx.
  specialize (Hall x Hx). unfold index_before in *.
  by rewrite <- He, <- (Hfg x Hx).
Qed.

(** Seeking a key stops at the largest offset among the entries with an
    equal key. *)
Lemma seek_sorted_latest (f : N -> bytes) (key : bytes) (off : N) (l : list N) :
  StronglySorted (index_before c f) l ->
  off ∈ l ->
  c key (f off) = 0%Z ->
  (forall e, e ∈ l -> c key (f e) = 0%Z -> e <= off) ->
  exists tl, seek_sorted c f key l = off :: tl.
Proof.
  intros Hs Hin Hk Hmax. induction l as [|e l IH]; [by apply elem_of_nil in Hin|].
  apply StronglySorted_cons in Hs as [Hall Hs].
  cbn [seek_sorted].
  destruct (Z.leb_spec (c key (f e)) 0) as [Hle|Hgt].
  - apply elem_of_cons in Hin as [->|Hin]; [by eexists|].
    exfalso.
    rewrite Forall_forall in Hall. specialize (Hall off Hin).
    assert (Hke : c key (f e) = 0%Z).
    { assert (c (f e) (f off) <= 0)%Z by (unfold index_before in Hall; lia).
      assert (c (f off) key <= 0)%Z by (destruct (cmp_cases key (f off)); lia).
      pose proof (cmp_trans (f e) (f off) key ltac:(done) ltac:(done)).
      destruct (cmp_cases key (f e)); lia. }
    destruct Hall as [Hlt|[Heq Hlt]].
    + assert (Hok : (c (f off) key <= 0)%Z) by (destruct (cmp_cases key (f off)); lia).
      pose proof (cmp_trans (f off) key (f e) Hok Hle).
      destruct (cmp_cases (f e) (f off)); lia.
    + specialize (Hmax e ltac:(by left) Hke). lia.
  - apply elem_of_cons in Hin as [->|Hin]; [lia|].
    apply IH; [done..|].
    intros x Hx. apply Hmax. by right.
Qed.
End IndexOrder.


(** ** Entries in the buffer of an indexed batch *)

Lemma entry_at_length (d : bytes) (e : N) (o : op) :
  entry_at d e o ->
  (N.to_nat e + length (wire_entry (op_entry o)) <= length d)%nat.
Proof.
  intros [_ [rest Hd]]. apply (f_equal length) in Hd.
  rewrite length_drop, length_app in Hd.
  pose proof (wire_entry_length o). lia.
Qed.

Lemma entry_at_Get (b : Batch.Batch) (e : N) (o : op) :
  entry_at (Batch.data b) e o ->
  N.of_nat (length (Batch.data b)) < 2^32 ->
  Batch.batchStorage_Get b e
  = Ret (db.MakeInternalKey (op_key o) (N.lor e db.InternalKeySeqNumBatch) (op_kind o)).
Proof.
  intros He Hlen. pose proof (entry_at_length _ _ _ He) as Hl.
  pose proof (wire_entry_length o) as Hw.
  destruct He as [_ [rest Hd]].
  apply (batchStorage_Get_entry b e o rest); [lia|lia|lia|done].
Qed.

Lemma entry_at_key (b : Batch.Batch) (e : N) (o : op) :
  entry_at (Batch.data b) e o ->
  N.of_nat (length (Batch.data b)) < 2^32 ->
  key_at b e = op_key o.
Proof.
  intros He Hlen. unfold key_at. by rewrite (entry_at_Get b e o He Hlen).
Qed.

Lemma entry_at_decode (b : Batch.Batch) (e : N) (o : op) :
  entry_at (Batch.data b) e o ->
  N.of_nat (length (Batch.data b)) < 2^32 ->
  Batch.decode b e = Ret (Some (op_entry o)).
Proof.
  intros He Hlen. pose proof (entry_at_length _ _ _ He) as Hl.
  pose proof (wire_entry_length o) as Hw.
  destruct He as [_ [rest Hd]].
  unfold Batch.decode, slice_from.
  replace (N.to_nat e <=? length (Batch.data b))%nat with true
    by (symmetry; apply Nat.leb_le; lia).
  cbn [mbind outcome_bind]. rewrite Hd.
  unfold wire_entry, op_entry. cbn [app].
  rewrite op_kind_byte.
  replace (db.InternalKeyKindMax <? op_kind o) with false by (by destruct o).
  rewrite <- app_assoc, batchDecodeStr_wire by lia.
  assert (Hv : forall v, op_value o = Some v -> N.of_nat (length v) < 2^64).
  { intros v Hv. rewrite Hv in Hw. cbn [from_option] in Hw. lia. }
  destruct o as [k v|k v|k|k v]; cbn [op_kind op_key op_value from_option];
    try (rewrite batchDecodeStr_wire by (by apply Hv)); done.
Qed.

Lemma entry_at_ext (d d' ext : bytes) (e : N) (o : op) :
  entry_at d e o ->
  drop 12 d' = drop 12 d ++ ext ->
  entry_at d' e o.
Proof.
  intros He Hd'. pose proof (entry_at_length _ _ _ He) as Hl.
  destruct He as [He [rest Hd]]. split; [done|].
  exists (rest ++ ext).
  rewrite (drop_from_12 d'), Hd' by lia.
  rewrite drop_app_le by (rewrite length_drop; lia).
  rewrite <- drop_from_12 by lia. by rewrite Hd, app_assoc.
Qed.

Lemma index_Add_data (b b' : Batch.Batch) (off : N) :
  Batch.index_Add b off = Ret b' -> Batch.data b' = Batch.data b.
Proof.
  unfold Batch.index_Add. destruct (Batch.index b) as [l|]; [|by intros [= <-]].
  destruct (Batch.skl_Add _ _ _ _) as [[l'|err]|msg]; cbn; [|done..].
  by intros [= <-].
Qed.

(** The buffer grows by the wire format of the entry when a mutator
    returns no error. *)
Lemma apply_op_length (mtes : nat -> nat -> N) (o : op) (b b' : Batch.Batch) :
  (length (Batch.data b) = 0 \/ 12 <= length (Batch.data b))%nat ->
  apply_op mtes o b = Ret (b', None) ->
  length (Batch.data b')
  = (length (Batch.data (with_header b)) + length (wire_entry (op_entry o)))%nat.
Proof.
  intros Hhdr.
  pose proof (with_header_length b Hhdr) as Hd0.
  rewrite apply_op_mutate. unfold Batch.mutate.
  change (if (length (Batch.data b) =? 0)%nat then Batch.init _ b else b)
    with (with_header b).
  set (b0 := with_header b) in *. set (d0 := Batch.data b0) in *.
  unfold Batch.increment. rewrite countData_Ret by done. fold d0.
  cbn [mbind outcome_bind].
  destruct (Batch.increment_loop (take 4 (drop 8 d0))) as [p'|] eqn:Hp;
    cbn [mbind outcome_bind negb]; [|done].
  apply increment_loop_Some in Hp as [Hl _].
  rewrite length_take, length_drop in Hl.
  replace (4 `min` (length d0 - 8))%nat with 4%nat in Hl by lia.
  set (b1 := Batch.set_countData b0 p').
  set (b2 := Batch.appendStr
               (Batch.with_data b1 (Batch.data b1 ++ [byte_of_N (op_kind o)]))
               (op_key o)).
  set (b3 := match op_value o with
             | Some v => Batch.appendStr b2 v
             | None => b2
             end).
  assert (Hdata : Batch.data b3 = take 8 d0 ++ p' ++ drop 12 d0 ++ wire_entry (op_entry o)).
  { rewrite <- (appended_data d0 p' o). subst b3.
    by destruct (op_value o). }
  destruct (Batch.index_Add b3 _) as [b4|msg] eqn:Hadd; cbn [mbind outcome_bind]; [|done].
  intros [= <-]. cbn [Batch.add_memTableSize Batch.data].
  rewrite (index_Add_data _ _ _ Hadd), Hdata.
  rewrite !app_assoc, length_app, <- !app_assoc.
  by rewrite header_replaced_length.
Qed.

(** A mutator that returns an error leaves the batch as it was. *)
Lemma apply_op_error (mtes : nat -> nat -> N) (o : op) (b b' : Batch.Batch) (e : error) :
  (length (Batch.data b) = 0 \/ 12 <= length (Batch.data b))%nat ->
  apply_op mtes o b = Ret (b', Some e) ->
  b' = b.
Proof.
  intros Hhdr Hr.
  pose proof (with_header_length b Hhdr) as Hd0.
  destruct (Batch.count (with_header b)) as [n|] eqn:Hn;
    [|by rewrite count_Ret in Hn].
  destruct (N.eq_dec n (2^32 - 1)) as [->|Hne].
  - rewrite (mutate_invalid mtes o b Hhdr Hn) in Hr. by injection Hr as <-.
  - exfalso. revert Hr.
    rewrite apply_op_mutate. unfold Batch.mutate.
    change (if (length (Batch.data b) =? 0)%nat then Batch.init _ b else b)
      with (with_header b).
    unfold Batch.increment. rewrite countData_Ret by done.
    cbn [mbind outcome_bind].
    destruct (Batch.increment_loop _) as [p'|] eqn:Hp; cbn [mbind outcome_bind negb].
    + by destruct (Batch.index_Add _ _).
    + apply increment_loop_None in Hp.
      rewrite count_Ret in Hn by done. injection Hn as Hn.
      rewrite length_take, length_drop in Hp.
      replace (4 `min` (length (Batch.data (with_header b)) - 8))%nat with 4%nat in Hp by lia.
      change (256 ^ N.of_nat 4) with (2^32) in Hp. lia.
Qed.

Lemma with_header_nonempty (b : Batch.Batch) :
  (12 <= length (Batch.data b))%nat -> with_header b = b.
Proof.
  intros H. unfold with_header.
  destruct (Nat.eqb_spec (length (Batch.data b)) 0); [lia|done].
Qed.

Lemma with_header_data_length (b : Batch.Batch) :
  (length (Batch.data b) <= length (Batch.data (with_header b)))%nat.
Proof.
  unfold with_header.
  destruct (Nat.eqb_spec (length (Batch.data b)) 0) as [E|E]; [|done].
  rewrite E. lia.
Qed.

Section Indexed.
Context (mtes : nat -> nat -> N) (c : db.Compare) `{!CompareOrder c}.

(** An indexed batch keeps its shape under a mutator, as long as the
    buffer stays within the reach of a [uint32] offset. *)
Lemma indexed_step (ops : list op) (b b' : Batch.Batch) (o : op) :
  indexed c ops b ->
  apply_op mtes o b = Ret (b', None) ->
  N.of_nat (length (Batch.data b')) < 2^32 ->
  indexed c (ops ++ [o]) b'.
Proof.
  intros [Hc Hhdr (offs & l & Hents & Hoffs & Hidx & Hmem & Hsort)] Hr Hlen.
  pose proof (apply_op_length mtes o b b' Hhdr Hr) as Hl'.
  pose proof (with_header_length b Hhdr) as Hd0.
  pose proof (with_header_data_length b) as Hd0'.
  assert (Hlenb : N.of_nat (length (Batch.data b)) < 2^32) by lia.
  assert (Hin : forall e, e ∈ l -> exists o', entry_at (Batch.data b) e o').
  { intros e He. apply Hmem in He.
    apply list_elem_of_lookup in He as [i Hi].
    destruct (Forall2_lookup_l _ _ _ _ _ Hents Hi) as (o' & _ & Ho'). by exists o'. }
  assert (Hm : mutable_batch b o).
  { split; [done|]. rewrite Hidx. split; [by rewrite Hc|]. split; [lia|].
    apply Forall_forall. intros e He. destruct (Hin e He) as [o' Ho'].
    split; [by destruct Ho'|]. eexists. by apply (entry_at_Get b e o'). }
  destruct (Batch.count (with_header b)) as [n|] eqn:Hn;
    [|by rewrite count_Ret in Hn].
  assert (Hne : n <> 2^32 - 1).
  { intros ->. by rewrite (mutate_invalid mtes o b Hhdr Hn) in Hr. }
  assert (Hnle : n < 2^32 - 1).
  { rewrite count_Ret in Hn by done. injection Hn as <-.
    pose proof (le_value_bound (take 4 (drop 8 (Batch.data (with_header b))))) as Hb.
    rewrite length_take, length_drop in Hb.
    replace (4 `min` (length (Batch.data (with_header b)) - 8))%nat with 4%nat in Hb by lia.
    change (256 ^ N.of_nat 4) with (2^32) in Hb. lia. }
  destruct (mutate_ok mtes o b n Hm Hn Hnle) as (p' & b'' & Hr' & Hp & _ & Hd & Hcmp' & Hix').
  rewrite Hr in Hr'. injection Hr' as <-.
  rewrite Hidx, Hc in Hix'.
  set (d0 := Batch.data (with_header b)) in *.
  set (off := N.of_nat (length d0)) in *.
  (* the entries that were there are kept *)
  assert (Hkept : forall e o', entry_at (Batch.data b) e o' -> entry_at (Batch.data b') e o').
  { intros e o' Ho'. pose proof (entry_at_length _ _ _ Ho') as Hlo.
    pose proof (wire_entry_length o').
    assert (Hb0 : with_header b = b) by (apply with_header_nonempty; lia).
    apply (entry_at_ext _ _ (wire_entry (op_entry o)) _ _ Ho').
    rewrite Hd. subst d0. rewrite Hb0. apply entries_kept; [lia|done]. }
  assert (Hnew : entry_at (Batch.data b') off o).
  { split; [subst off; lia|]. exists [].
    rewrite Hd, app_nil_r. subst off. rewrite Nat2N.id.
    rewrite !app_assoc, <- (app_assoc (take 8 d0)).
    apply drop_app_length'. symmetry. by apply header_replaced_length. }
  assert (Hkeys : Forall (fun e => key_at b e = key_at b' e) l).
  { apply Forall_forall. intros e He. destruct (Hin e He) as [o' Ho'].
    rewrite (entry_at_key b e o' Ho' Hlenb).
    by rewrite (entry_at_key b' e o' (Hkept e o' Ho') Hlen). }
  assert (Hbelow : forall e, e ∈ offs -> e < off).
  { intros e He. apply Hmem in He. destruct (Hin e He) as [o' Ho'].
    pose proof (entry_at_length _ _ _ Ho'). pose proof (wire_entry_length o').
    subst off. lia. }
  constructor.
  - by rewrite Hcmp'.
  - right. lia.
  - exists (offs ++ [off]), (ins_sorted c (key_at b) (op_key o) off l).
    split; [|split; [|split; [|split]]].
    + apply Forall2_app; [|apply Forall2_cons; split; [exact Hnew|constructor]].
      eapply Forall2_impl; [exact Hents|]. exact Hkept.
    + apply StronglySorted_app. split; [|split; [done|repeat constructor]].
      intros x1 x2 Hx1 Hx2. apply list_elem_of_singleton in Hx2 as ->. by apply Hbelow.
    + done.
    + intros e. rewrite elem_of_ins_sorted, elem_of_app, list_elem_of_singleton, Hmem.
      tauto.
    + rewrite (ins_sorted_ext c (key_at b) (key_at b')) by done.
      apply ins_sorted_sorted; [done|..].
      * by apply (entry_at_key b' off o).
      * apply Forall_forall. intros e He. apply Hbelow. by apply Hmem.
      * by apply (index_sorted_ext c (key_at b)).
Qed.

Lemma indexed_new : indexed c [] (Batch.newIndexedBatch c).
Proof.
  constructor; [done|by left|].
  exists [], []. repeat split; try done; constructor.
Qed.

Lemma built_header (ops : list op) (b : Batch.Batch) :
  built mtes c ops b ->
  (length (Batch.data b) = 0 \/ 12 <= length (Batch.data b))%nat.
Proof.
  induction 1 as [|ops b o b' Hb IH Hr|ops b o b' e Hb IH Hr].
  - by left.
  - right. rewrite (apply_op_length mtes o b b' IH Hr).
    pose proof (with_header_length b IH). lia.
  - by rewrite (apply_op_error mtes o b b' e IH Hr).
Qed.

(** Every batch built by mutator calls from [newIndexedBatch] has the
    shape of an indexed batch. *)
Lemma built_indexed (ops : list op) (b : Batch.Batch) :
  built mtes c ops b ->
  N.of_nat (length (Batch.data b)) < 2^32 ->
  indexed c ops b.
Proof.
  induction 1 as [|ops b o b' Hb IH Hr|ops b o b' e Hb IH Hr]; intros Hlen.
  - apply indexed_new.
  - pose proof (built_header ops b Hb) as Hhdr.
    pose proof (apply_op_length mtes o b b' Hhdr Hr) as Hl'.
    pose proof (with_header_data_length b).
    apply (indexed_step ops b b' o); [apply IH; lia|done..].
  - pose proof (built_header ops b Hb) as Hhdr.
    rewrite (apply_op_error mtes o b b' e Hhdr Hr) in *. by apply IH.
Qed.

Lemma latest_split (key : bytes) (ops : list op) (o : op) :
  latest c key ops = Some o ->
  exists ops1 ops2,
    ops = ops1 ++ o :: ops2 /\ c key (op_key o) = 0%Z /\
    Forall (fun o2 => c key (op_key o2) ≠ 0%Z) ops2.
Proof.
  unfold latest. induction ops as [|x ops IH] using rev_ind; [done|].
  rewrite reverse_snoc, filter_cons.
  destruct (decide (c key (op_key x) = 0%Z)) as [Hx|Hx]; cbn [head].
  - intros [= <-]. exists ops, []. by repeat split.
  - intros H. destruct (IH H) as (ops1 & ops2 & -> & Ho & Hall).
    exists ops1, (ops2 ++ [x]). rewrite <- app_assoc. repeat split; [done|].
    apply Forall_app. split; [done|]. by repeat constructor.
Qed.

Lemma latest_None (key : bytes) (ops : list op) :
  latest c key ops = None ->
  Forall (fun o => c key (op_key o) ≠ 0%Z) ops.
Proof.
  unfold latest. induction ops as [|x ops IH] using rev_ind; [constructor|].
  rewrite reverse_snoc, filter_cons.
  destruct (decide (c key (op_key x) = 0%Z)) as [Hx|Hx]; cbn [head]; [done|].
  intros H. apply Forall_app. split; [by apply IH|]. by repeat constructor.
Qed.

(** [Get] on an indexed batch returns the value stored with the latest
    entry whose user key equals the key sought. *)
Lemma Get_indexed (ops : list op) (b : Batch.Batch) (key : bytes) (o : op) :
  indexed c ops b ->
  N.of_nat (length (Batch.data b)) < 2^32 ->
  latest c key ops = Some o ->
  Batch.Get b key = Ret (op_value o, None).
Proof.
  intros [Hc Hhdr (offs & l & Hents & Hoffs & Hidx & Hmem & Hsort)] Hlen Hlat.
  destruct (latest_split key ops o Hlat) as (ops1 & ops2 & -> & Hko & Hnone).
  apply Forall2_app_inv_r in Hents as (offs1 & offs' & Hents1 & Hents2 & ->).
  apply Forall2_cons_inv_r in Hents2 as (off & offs2 & Hoff & Hents2 & ->).
  assert (Hin : forall e, e ∈ l -> exists o', entry_at (Batch.data b) e o'
                                       /\ (e ∈ offs2 -> o' ∈ ops2)).
  { intros e He. apply Hmem in He.
    apply elem_of_app in He as [He|He].
    - apply list_elem_of_lookup in He as [i Hi].
      destruct (Forall2_lookup_l _ _ _ _ _ Hents1 Hi) as (o' & _ & Ho').
      exists o'. split; [done|]. intros He2. exfalso.
      apply StronglySorted_app in Hoffs as (Hlt & _ & _).
      apply list_elem_of_lookup_2 in Hi.
      specialize (Hlt e e Hi ltac:(by right)). lia.
    - apply elem_of_cons in He as [->|He].
      + exists o. split; [done|]. intros He2. exfalso.
        apply StronglySorted_app in Hoffs as (_ & _ & Hs).
        apply StronglySorted_cons in Hs as [Hall _].
        rewrite Forall_forall in Hall. specialize (Hall off He2). lia.
      + apply list_elem_of_lookup in He as [i Hi].
        destruct (Forall2_lookup_l _ _ _ _ _ Hents2 Hi) as (o' & Ho'i & Ho').
        exists o'. split; [done|]. intros _. by apply list_elem_of_lookup_2 in Ho'i. }
  assert (Hgets : Forall (fun e => exists k, Batch.batchStorage_Get b e = Ret k) l).
  { apply Forall_forall. intros e He. destruct (Hin e He) as (o' & Ho' & _).
    eexists. by apply (entry_at_Get b e o'). }
  destruct (seek_sorted_latest c (key_at b) key off l Hsort) as [tl Hseek].
  - apply Hmem, elem_of_app. right. by left.
  - by rewrite (entry_at_key b off o).
  - intros e He Hke. destruct (Hin e He) as (o' & Ho' & Ho2).
    rewrite (entry_at_key b e o' Ho' Hlen) in Hke.
    apply Hmem in He. apply elem_of_app in He as [He|He].
    + apply StronglySorted_app in Hoffs as (Hlt & _ & _).
      specialize (Hlt e off He ltac:(by left)). lia.
    + apply elem_of_cons in He as [->|He]; [lia|].
      exfalso. rewrite Forall_forall in Hnone. by apply (Hnone o' (Ho2 He)).
  - unfold Batch.Get. rewrite Hidx.
    rewrite (skl_SeekGE_pure b c key l Hc Hgets), Hseek. cbn [mbind outcome_bind].
    rewrite (entry_at_decode b off o Hoff Hlen). cbn [mbind outcome_bind op_entry].
    unfold Batch.call_cmp. rewrite Hc. cbn [mbind outcome_bind]. by rewrite Hko.
Qed.
End Indexed.


(** ** The default comparer is an order *)

Lemma bytes_Compare_flip (a b : bytes) :
  Z.sgn (bytes_Compare b a) = (- Z.sgn (bytes_Compare a b))%Z.
Proof.
  revert b. induction a as [|x a IH]; intros [|y b]; cbn [bytes_Compare]; try done.
  destruct (N.ltb_spec (Byte.to_N x) (Byte.to_N y)),
           (N.ltb_spec (Byte.to_N y) (Byte.to_N x)); try done; try lia;
    apply IH.
Qed.

Lemma bytes_Compare_trans (a b d : bytes) :
  (bytes_Compare a b <= 0)%Z -> (bytes_Compare b d <= 0)%Z ->
  (bytes_Compare a d <= 0)%Z.
Proof.
  revert b d. induction a as [|x a IH]; intros [|y b] [|z d];
    cbn [bytes_Compare]; try done; try lia.
  destruct (N.ltb_spec (Byte.to_N x) (Byte.to_N y)),
           (N.ltb_spec (Byte.to_N y) (Byte.to_N x)),
           (N.ltb_spec (Byte.to_N y) (Byte.to_N z)),
           (N.ltb_spec (Byte.to_N z) (Byte.to_N y)),
           (N.ltb_spec (Byte.to_N x) (Byte.to_N z)),
           (N.ltb_spec (Byte.to_N z) (Byte.to_N x)); try done; try lia;
    apply IH.
Qed.

#[global] Instance bytes_Compare_order : CompareOrder bytes_Compare.
Proof. split; [apply bytes_Compare_flip|apply bytes_Compare_trans]. Qed.

(** ** [Get] on an indexed batch *)

Lemma Get_NotIndexed (b : Batch.Batch) (key : bytes) (v : option bytes) :
  Batch.Get b key = Ret (v, Some ErrNotIndexed) -> Batch.index b = None.
Proof.
  unfold Batch.Get. destruct (Batch.index b) as [l|]; [|done].
  destruct (Batch.skl_SeekGE _ _ _) as [[|off tl]|]; cbn [mbind outcome_bind]; [done| |done].
  destruct (Batch.decode b off) as [[[[kind ekey] value]|]|]; cbn [mbind outcome_bind]; [|done..].
  destruct (Batch.call_cmp b key ekey) as [r|]; cbn [mbind outcome_bind]; [|done].
  by destruct (0 <? r)%Z.
Qed.

(** What C10 says holds of the indexed batches that the mutators alone
    have built (the buffer within the reach of a [uint32] offset, the
    comparer an order): [Get(key)] returns the value bytes stored with
    the most recently inserted entry whose user key equals [key],
    whatever the kind of that entry; when that entry is a deletion this
    is a nil value with a nil error, not [ErrNotFound]; [ErrNotFound] is
    returned only when no entry has that user key; and [ErrNotIndexed],
    on any batch, only when the batch has no index.  It does not hold of
    a batch that [Apply] has added entries to, see
    [Get_after_Apply_returns_older_value]. *)
Theorem Get_returns_latest_entry (mtes : nat -> nat -> N) (c : db.Compare)
    (ops : list op) (b : Batch.Batch) (key : bytes) :
  CompareOrder c ->
  built mtes c ops b ->
  N.of_nat (length (Batch.data b)) < 2^32 ->
  (forall o, latest c key ops = Some o -> Batch.Get b key = Ret (op_value o, None)) /\
  (forall k, latest c key ops = Some (OpDelete k) -> Batch.Get b key = Ret (None, None)) /\
  (forall v, Batch.Get b key = Ret (v, Some ErrNotFound) ->
             Forall (fun o => c key (op_key o) ≠ 0%Z) ops) /\
  (forall (b0 : Batch.Batch) v,
     Batch.Get b0 key = Ret (v, Some ErrNotIndexed) -> Batch.index b0 = None).
Proof.
  intros Hord Hb Hlen.
  pose proof (built_indexed mtes c ops b Hb Hlen) as Hix.
  assert (H1 : forall o, latest c key ops = Some o ->
                         Batch.Get b key = Ret (op_value o, None))
    by (intros o; by apply Get_indexed).
  split; [exact H1|]. split; [|split].
  - intros k Hk. by rewrite (H1 _ Hk).
  - intros v Hv. apply (latest_None c).
    destruct (latest c key ops) as [o|] eqn:Hl; [|done].
    rewrite (H1 o eq_refl) in Hv. done.
  - intros b0 v. apply Get_NotIndexed.
Qed.

Lemma Get_returns_latest_entry_witness :
  (forall o, latest bytes_Compare ["k"%byte] [OpSet ["k"%byte] ["v"%byte]; OpDelete ["k"%byte]] = Some o ->
             Batch.Get batch_set_delete ["k"%byte] = Ret (op_value o, None)) /\
  (forall k, latest bytes_Compare ["k"%byte] [OpSet ["k"%byte] ["v"%byte]; OpDelete ["k"%byte]] = Some (OpDelete k) ->
             Batch.Get batch_set_delete ["k"%byte] = Ret (None, None)) /\
  (forall v, Batch.Get batch_set_delete ["k"%byte] = Ret (v, Some ErrNotFound) ->
             Forall (fun o => bytes_Compare ["k"%byte] (op_key o) ≠ 0%Z)
                    [OpSet ["k"%byte] ["v"%byte]; OpDelete ["k"%byte]]) /\
  (forall (b0 : Batch.Batch) v,
     Batch.Get b0 ["k"%byte] = Ret (v, Some ErrNotIndexed) -> Batch.index b0 = None).
Proof.
  apply (Get_returns_latest_entry entrySize bytes_Compare
           [OpSet ["k"%byte] ["v"%byte]; OpDelete ["k"%byte]] batch_set_delete ["k"%byte]).
  - exact bytes_Compare_order.
  - apply (built_ok entrySize bytes_Compare [OpSet ["k"%byte] ["v"%byte]] _ (OpDelete ["k"%byte]) _
             (built_ok entrySize bytes_Compare [] _ (OpSet ["k"%byte] ["v"%byte]) _
                (built_new entrySize bytes_Compare) eq_refl)).
    reflexivity.
  - vm_compute. reflexivity.
Defined.

(** ** [Get] after [Apply] *)

(** C10 on the code.  [Apply] on an indexed batch adds to the index, for
    every entry it reads, the offset at which the reader stands after the
    entry, counted from the start of the bytes appended and not from the
    start of the buffer.  Here the indexed batch holds [Set("a", "1")]
    and the batch [Set("a", "2"); Merge("z", "9")] is applied to it: the
    reader stops within the merge, so there is no panic; the index gets
    the offsets 5 and 8, which lie in the header, and none of the
    entries applied; [Get("a")] returns "1" although the entry inserted
    last for "a" stores "2", and [Get("z")] returns [ErrNotFound]
    although the batch holds an entry for "z". *)
Theorem Get_after_Apply_returns_older_value :
  exists b b2 b3 b123,
    apply_ops entrySize [OpSet ["a"%byte] ["1"%byte]] (Batch.newIndexedBatch bytes_Compare)
    = Ret (b, None) /\
    apply_ops entrySize [OpSet ["a"%byte] ["2"%byte]; OpMerge ["z"%byte] ["9"%byte]]
      Batch.newBatch = Ret (b2, None) /\
    Batch.Apply entrySize b b2 = Ret (b3, None) /\
    apply_ops entrySize
      [OpSet ["a"%byte] ["1"%byte]; OpSet ["a"%byte] ["2"%byte]; OpMerge ["z"%byte] ["9"%byte]]
      (Batch.newIndexedBatch bytes_Compare) = Ret (b123, None) /\
    Batch.Repr b3 = Batch.Repr b123 /\
    Batch.index b = Some [12] /\
    Batch.index b3 = Some [8; 5; 12] /\
    Batch.index b123 = Some [17; 12; 22] /\
    Batch.decode b3 17
    = Ret (Some (db.InternalKeyKindSet, ["a"%byte], Some ["2"%byte])) /\
    latest bytes_Compare ["a"%byte]
      [OpSet ["a"%byte] ["1"%byte]; OpSet ["a"%byte] ["2"%byte]; OpMerge ["z"%byte] ["9"%byte]]
    = Some (OpSet ["a"%byte] ["2"%byte]) /\
    Batch.Get b123 ["a"%byte] = Ret (Some ["2"%byte], None) /\
    Batch.Get b3 ["a"%byte] = Ret (Some ["1"%byte], None) /\
    Batch.Get b123 ["z"%byte] = Ret (Some ["9"%byte], None) /\
    Batch.Get b3 ["z"%byte] = Ret (None, Some ErrNotFound).
Proof.
  do 4 eexists.
  split; [vm_compute; reflexivity|].
  split; [vm_compute; reflexivity|].
  split; [vm_compute; reflexivity|].
  split; [vm_compute; reflexivity|].
  repeat split; vm_compute; reflexivity.
Qed.


(** ** Reading a batch back *)

(** C1 on the code: after [Merge("k", "v")] and [Set("a", "b")] the
    reader yields the MERGE entry without its value and nothing after
    it, where the entries appended were [(MERGE, "k", "v")] and
    [(SET, "a", "b")]: [next] does not read the value of a MERGE entry,
    so the bytes of the value are taken for the next entry. *)
Theorem reader_loses_value_of_merge :
  exists b,
    apply_ops entrySize [OpMerge ["k"%byte] ["v"%byte]; OpSet ["a"%byte] ["b"%byte]]
      Batch.newBatch = Ret (b, None) /\
    Batch.entries b = Ret [(db.InternalKeyKindMerge, ["k"%byte], None)] /\
    map op_entry [OpMerge ["k"%byte] ["v"%byte]; OpSet ["a"%byte] ["b"%byte]]
    = [(db.InternalKeyKindMerge, ["k"%byte], Some ["v"%byte]);
       (db.InternalKeyKindSet, ["a"%byte], Some ["b"%byte])].
Proof.
  eexists. split; [vm_compute; reflexivity|]. split; vm_compute; reflexivity.
Qed.


(** ** The reader on batches without MERGE *)

Lemma next_wire_entry (o : op) (rest : bytes) :
  N.of_nat (length (wire_entry (op_entry o))) < 2^64 ->
  Batch.next (wire_entry (op_entry o) ++ rest)
  = match o with
    | OpMerge k v => (Some (db.InternalKeyKindMerge, k, None), wire_str v ++ rest)
    | _ => (Some (op_entry o), rest)
    end.
Proof.
  intros Hlen. pose proof (wire_entry_length o) as Hw.
  assert (Hk : N.of_nat (length (op_key o)) < 2^64) by lia.
  assert (Hv : forall v, op_value o = Some v -> N.of_nat (length v) < 2^64).
  { intros v Hv. rewrite Hv in Hw. cbn [from_option] in Hw. lia. }
  unfold wire_entry, op_entry, Batch.next. cbn [app].
  rewrite op_kind_byte.
  replace (db.InternalKeyKindMax <? op_kind o) with false by (by destruct o).
  rewrite nextStr_batchDecodeStr, <- app_assoc, batchDecodeStr_wire by done.
  destruct o as [k v|k v|k|k v]; cbn [op_kind op_key op_value from_option app];
    rewrite ?nextStr_batchDecodeStr, ?batchDecodeStr_wire by (by apply Hv); done.
Qed.

Lemma read_all_wire (ops : list op) :
  forall fuel : nat,
  Forall (fun o => op_kind o ≠ db.InternalKeyKindMerge) ops ->
  N.of_nat (length (concat (map (fun o => wire_entry (op_entry o)) ops))) < 2^64 ->
  (length ops <= fuel)%nat ->
  Batch.read_all fuel (concat (map (fun o => wire_entry (op_entry o)) ops))
  = map op_entry ops.
Proof.
  induction ops as [|o ops IH]; intros fuel Hnm Hlen Hfuel; cbn [map concat].
  - by destruct fuel.
  - destruct fuel as [|fuel]; [cbn in Hfuel; lia|].
    apply Forall_cons in Hnm as [Ho Hnm].
    cbn [map concat] in Hlen. rewrite length_app in Hlen.
    cbn [Batch.read_all]. rewrite next_wire_entry by lia.
    destruct o as [k v|k v|k|k v]; try done;
      (rewrite IH; [done|done|lia|cbn in Hfuel; lia]).
Qed.

Section RoundTrip.
Context (mtes : nat -> nat -> N).

(** The buffer of a batch without index after a sequence of mutator
    calls: a header and the wire format of the entries. *)
Lemma apply_ops_data (ops : list op) :
  forall b b' : Batch.Batch,
  (length (Batch.data b) = 0 \/ 12 <= length (Batch.data b))%nat ->
  Batch.index b = None ->
  apply_ops mtes ops b = Ret (b', None) ->
  ops ≠ [] ->
  (12 <= length (Batch.data b'))%nat /\
  drop 12 (Batch.data b')
  = drop 12 (Batch.data (with_header b))
    ++ concat (map (fun o => wire_entry (op_entry o)) ops).
Proof.
  induction ops as [|o ops IH]; intros b b' Hhdr Hix Hr Hne; [done|].
  cbn [apply_ops] in Hr.
  destruct (apply_op mtes o b) as [[b1 [e|]]|] eqn:Ho; cbn [mbind outcome_bind] in Hr;
    try done.
  pose proof (with_header_length b Hhdr) as Hd0.
  assert (Hm : mutable_batch b o) by (split; [done|by rewrite Hix]).
  destruct (Batch.count (with_header b)) as [n|] eqn:Hn;
    [|by rewrite count_Ret in Hn].
  assert (Hnle : n < 2^32 - 1).
  { destruct (N.eq_dec n (2^32 - 1)) as [->|Hne'].
    - by rewrite (mutate_invalid mtes o b Hhdr Hn) in Ho.
    - rewrite count_Ret in Hn by done. injection Hn as <-.
      pose proof (le_value_bound (take 4 (drop 8 (Batch.data (with_header b))))) as Hb.
      rewrite length_take, length_drop in Hb.
      replace (4 `min` (length (Batch.data (with_header b)) - 8))%nat with 4%nat in Hb by lia.
      change (256 ^ N.of_nat 4) with (2^32) in Hb. lia. }
  destruct (mutate_ok mtes o b n Hm Hn Hnle) as (p' & b1' & Hr' & Hp & _ & Hd & _ & Hix1).
  rewrite Ho in Hr'. injection Hr' as <-. rewrite Hix in Hix1.
  assert (Hlen1 : (12 <= length (Batch.data b1))%nat).
  { rewrite Hd, !length_app, length_take, length_drop. lia. }
  assert (Hdrop1 : drop 12 (Batch.data b1)
                   = drop 12 (Batch.data (with_header b)) ++ wire_entry (op_entry o))
    by (rewrite Hd; by apply entries_kept).
  cbn [map concat].
  destruct ops as [|o' ops'].
  - cbn [apply_ops] in Hr. injection Hr as <-. cbn [map concat].
    by rewrite app_nil_r.
  - destruct (IH b1 b' ltac:(by right) Hix1 Hr ltac:(done)) as [Hl Hdr].
    split; [done|].
    rewrite Hdr, with_header_nonempty, Hdrop1 by done. by rewrite <- app_assoc.
Qed.

(** The wire format round trip that C1 states holds for the batches that
    [Set], [Delete] and [DeleteRange] build: the reader yields the
    entries appended, with a value exactly for SET and RANGE_DELETE. *)
Lemma entries_without_merge (ops : list op) (b : Batch.Batch) :
  apply_ops mtes ops Batch.newBatch = Ret (b, None) ->
  ops ≠ [] ->
  Forall (fun o => op_kind o ≠ db.InternalKeyKindMerge) ops ->
  N.of_nat (length (Batch.data b)) < 2^64 ->
  Batch.entries b = Ret (map op_entry ops).
Proof.
  intros Hr Hne Hnm Hlen.
  destruct (apply_ops_data ops Batch.newBatch b ltac:(by left) eq_refl Hr Hne)
    as [Hl Hd].
  change (drop 12 (Batch.data (with_header Batch.newBatch))) with (@nil byte) in Hd.
  cbn [app] in Hd.
  unfold Batch.entries, Batch.iter, slice_from, Batch.batchHeaderLen.
  replace (12 <=? length (Batch.data b))%nat with true
    by (symmetry; by apply Nat.leb_le).
  cbn [mbind outcome_bind]. rewrite Hd. f_equal.
  assert (Hcl : length (concat (map (fun o => wire_entry (op_entry o)) ops))
                = (length (Batch.data b) - 12)%nat)
    by (rewrite <- Hd; apply length_drop).
  apply read_all_wire; [done|lia|].
  clear -Hcl. revert Hcl. generalize (length (Batch.data b) - 12)%nat.
  induction ops as [|o ops IH]; intros m Hm; cbn [length]; [lia|].
  cbn [map concat] in *. rewrite length_app in *.
  pose proof (wire_entry_length o).
  specialize (IH (length (concat (map (fun o => wire_entry (op_entry o)) ops))) eq_refl).
  lia.
Qed.
End RoundTrip.


(** ** WAL replay *)

Section ReplayProofs.
Context (mtes : nat -> nat -> N) (arenaCapacity : N) (cmp : db.Compare).

Lemma replay_records_app (before after : list (bytes + error))
    (mem mem' : option memTable.memTable) (s s' : N) :
  Replay.replay_records mtes arenaCapacity cmp before mem s = Ret (mem', s', None) ->
  Replay.replay_records mtes arenaCapacity cmp (before ++ after) mem s
  = Replay.replay_records mtes arenaCapacity cmp after mem' s'.
Proof.
  revert mem s. induction before as [|[buf|e] before IH]; intros mem s; cbn [app].
  - cbn. by intros [= -> ->].
  - cbn [Replay.replay_records].
    destruct (length buf <? Batch.batchHeaderLen)%nat; [done|].
    destruct (Replay.refreshMemTableSize mtes _) as [b|]; cbn [mbind outcome_bind]; [|done].
    destruct (Replay.seqNum b) as [sn|]; cbn [mbind outcome_bind]; [|done].
    destruct (Batch.count b) as [cnt|]; cbn [mbind outcome_bind]; [|done].
    destruct (memTable.prepare _ b) as [m [[]|]]; try done.
    destruct (memTable.apply m b sn) as [[m' [e|]]|]; cbn [mbind outcome_bind]; try done.
    destruct (memTable.unref m') as [m'' last]. apply IH.
  - done.
Qed.

(** C2 on the code: when the memtable that replay is filling cannot
    reserve space for the batch of a record, that is when [prepare]
    returns [ErrArenaFull], [replayWAL] panics; it neither writes the
    memtable to a level-0 table nor goes on with a fresh one. *)
Theorem replayWAL_panics_on_ArenaFull (before after : list (bytes + error))
    (buf : bytes) (mem : option memTable.memTable) (maxSeq : N)
    (b : Batch.Batch) (m : memTable.memTable) :
  Replay.replay_records mtes arenaCapacity cmp before None 0 = Ret (mem, maxSeq, None) ->
  (Batch.batchHeaderLen <= length buf)%nat ->
  Replay.refreshMemTableSize mtes (record_batch buf) = Ret b ->
  memTable.prepare (replay_mem cmp arenaCapacity mem) b = (m, Some ErrArenaFull) ->
  Replay.replayWAL mtes arenaCapacity cmp (before ++ inl buf :: after)
  = Panic "arenaskl: arena is full".
Proof.
  intros Hbefore Hlen Hb Hfull. unfold Replay.replayWAL.
  rewrite (replay_records_app before _ None mem 0 maxSeq Hbefore).
  cbn [Replay.replay_records].
  replace (length buf <? Batch.batchHeaderLen)%nat with false
    by (symmetry; apply Nat.ltb_ge; done).
  fold (record_batch buf). rewrite Hb. cbn [mbind outcome_bind].
  assert (Hd : Batch.data b = buf).
  { unfold Replay.refreshMemTableSize in Hb.
    destruct (Batch.entries _); cbn in Hb; [|done]. by injection Hb as <-. }
  unfold Replay.seqNum, binary.Uint64. rewrite Hd, length_take.
  replace (8 <=? 8 `min` length buf)%nat with true
    by (symmetry; apply Nat.leb_le; unfold Batch.batchHeaderLen in Hlen; lia).
  cbn [mbind outcome_bind].
  rewrite count_Ret by (rewrite Hd; done). cbn [mbind outcome_bind].
  fold (replay_mem cmp arenaCapacity mem). by rewrite Hfull.
Qed.
End ReplayProofs.

Lemma replayWAL_panics_on_ArenaFull_witness :
  Replay.replayWAL entrySize 8 bytes_Compare ([] ++ inl record_set_k_v :: [])
  = Panic "arenaskl: arena is full".
Proof.
  apply (replayWAL_panics_on_ArenaFull entrySize 8 bytes_Compare [] [] record_set_k_v None 0
           {| Batch.data := record_set_k_v; Batch.cmp := None;
              Batch.memTableSize := 10; Batch.index := None |}
           (memTable.newMemTable bytes_Compare 8)).
  - reflexivity.
  - vm_compute. lia.
  - reflexivity.
  - reflexivity.
Defined.


(** ** The compaction iterator *)

Lemma testbit_above (a n : N) : a < 2^8 -> 8 <= n -> N.testbit a n = false.
Proof.
  intros Ha Hn. destruct (N.eq_dec a 0) as [->|Hne]; [apply N.bits_0|].
  apply N.bits_above_log2.
  assert (N.log2 a < 8) by (apply N.log2_lt_pow2; lia). lia.
Qed.

Lemma Kind_SetKind (k : db.InternalKey) (kind : N) :
  kind < 256 -> db.Kind (db.SetKind k kind) = kind.
Proof.
  intros Hk. unfold db.Kind, db.SetKind. cbn [db.Trailer].
  apply N.bits_inj. intros n.
  rewrite N.land_spec, N.lor_spec. change 0xff with (N.ones 8).
  destruct (N.lt_ge_cases n 8) as [Hn|Hn].
  - rewrite N.shiftl_spec_low, N.ones_spec_low by done.
    by rewrite andb_true_r.
  - rewrite N.ones_spec_high, andb_false_r by done.
    symmetry. by apply testbit_above.
Qed.

Lemma SeqNum_SetKind (k : db.InternalKey) (kind : N) :
  kind < 256 -> db.SeqNum (db.SetKind k kind) = db.SeqNum k.
Proof.
  intros Hk. unfold db.SeqNum, db.SetKind. cbn [db.Trailer].
  apply N.bits_inj. intros n.
  rewrite !N.shiftr_spec', N.lor_spec.
  rewrite N.shiftl_spec_high' by lia.
  rewrite N.shiftr_spec', (testbit_above kind (n + 8)) by lia.
  rewrite orb_false_r. f_equal. lia.
Qed.

Section CompactionIter.
Import compactionIter.
Context (cmp : db.Compare) (merge : db.Merge).

(** The loop of [mergeNext] over a run of MERGE entries that ends at a
    SET for the same user key. *)
Lemma mergeNext_loop_set (run : list (db.InternalKey * bytes)) :
  forall (i : compactionIter) (e0 stop : db.InternalKey * bytes)
         (tl : list (db.InternalKey * bytes)),
  merge_run cmp (key i) run ->
  cmp (db.UserKey (key i)) (db.UserKey (fst stop)) = 0%Z ->
  db.Kind (fst stop) = db.InternalKeyKindSet ->
  mergeNext_loop cmp merge i (e0 :: run ++ stop :: tl)
  = ({| iter := {| all := all (iter i); rest := stop :: tl |};
        err := err i;
        key := db.SetKind (key i) db.InternalKeyKindSet;
        keyBuf := keyBuf i;
        value := merge (db.UserKey (key i))
                       (fold_merge merge (db.UserKey (key i)) (value i) run)
                       (snd stop);
        valueBuf := valueBuf i;
        valid := valid i; pos := pos i |}, true).
Proof.
  induction run as [|[kr vr] run IH]; intros i e0 [ks vs] tl Hrun Hk Hs;
    cbn [mergeNext_loop app fst snd] in *.
  - rewrite Hk, Hs. done.
  - apply Forall_cons in Hrun as [[Hkr Hmr] Hrun]. cbn [fst] in Hkr, Hmr.
    rewrite Hkr, Hmr. cbn [negb Z.eqb N.eqb].
    change (db.InternalKeyKindMerge =? db.InternalKeyKindDelete) with false.
    change (db.InternalKeyKindMerge =? db.InternalKeyKindSet) with false.
    change (db.InternalKeyKindMerge =? db.InternalKeyKindMerge) with true.
    cbv iota.
    rewrite (IH _ (kr, vr) (ks, vs) tl); try done.
Qed.

(** The same run ending at a DELETE. *)
Lemma mergeNext_loop_delete (run : list (db.InternalKey * bytes)) :
  forall (i : compactionIter) (e0 stop : db.InternalKey * bytes)
         (tl : list (db.InternalKey * bytes)),
  merge_run cmp (key i) run ->
  cmp (db.UserKey (key i)) (db.UserKey (fst stop)) = 0%Z ->
  db.Kind (fst stop) = db.InternalKeyKindDelete ->
  mergeNext_loop cmp merge i (e0 :: run ++ stop :: tl)
  = ({| iter := {| all := all (iter i); rest := stop :: tl |};
        err := err i;
        key := key i;
        keyBuf := keyBuf i;
        value := fold_merge merge (db.UserKey (key i)) (value i) run;
        valueBuf := valueBuf i;
        valid := valid i; pos := pos i |}, true).
Proof.
  induction run as [|[kr vr] run IH]; intros i e0 [ks vs] tl Hrun Hk Hs;
    cbn [mergeNext_loop app fst snd] in *.
  - rewrite Hk, Hs. done.
  - apply Forall_cons in Hrun as [[Hkr Hmr] Hrun]. cbn [fst] in Hkr, Hmr.
    rewrite Hkr, Hmr. cbn [negb Z.eqb N.eqb].
    change (db.InternalKeyKindMerge =? db.InternalKeyKindDelete) with false.
    change (db.InternalKeyKindMerge =? db.InternalKeyKindSet) with false.
    change (db.InternalKeyKindMerge =? db.InternalKeyKindMerge) with true.
    cbv iota.
    rewrite (IH _ (kr, vr) (ks, vs) tl); try done.
Qed.

(** C5.  The iterator stands on a MERGE [k0] that is followed by a run
    of older MERGE entries and then by [stop], all for the user key of
    [k0].  If [stop] is a SET, its value is merged into the accumulated
    value, the emitted key takes the kind SET, and the underlying
    iterator stays on [stop]: nothing older is consumed.  If [stop] is
    a DELETE, the fold stops there and the accumulated value is emitted
    under the key [k0], of kind MERGE. *)
Theorem merge_run_stops_at_set_or_delete (i : compactionIter)
    (k0 : db.InternalKey) (v0 : bytes)
    (run : list (db.InternalKey * bytes)) (stop : db.InternalKey * bytes)
    (tl : list (db.InternalKey * bytes)) :
  rest (iter i) = (k0, v0) :: run ++ stop :: tl ->
  db.Kind k0 = db.InternalKeyKindMerge ->
  merge_run cmp k0 run ->
  cmp (db.UserKey k0) (db.UserKey (fst stop)) = 0%Z ->
  let r := findNextEntry cmp merge i in
  let acc := fold_merge merge (db.UserKey k0) v0 run in
  (db.Kind (fst stop) = db.InternalKeyKindSet ->
     snd r = true /\ Valid (fst r) = true /\
     Key (fst r) = db.SetKind k0 db.InternalKeyKindSet /\
     db.Kind (Key (fst r)) = db.InternalKeyKindSet /\
     Value (fst r) = merge (db.UserKey k0) acc (snd stop) /\
     rest (iter (fst r)) = stop :: tl /\
     pos (fst r) = compactionIterCur) /\
  (db.Kind (fst stop) = db.InternalKeyKindDelete ->
     snd r = true /\ Valid (fst r) = true /\
     Key (fst r) = k0 /\
     db.Kind (Key (fst r)) = db.InternalKeyKindMerge /\
     Value (fst r) = acc /\
     rest (iter (fst r)) = stop :: tl /\
     pos (fst r) = compactionIterCur).
Proof.
  intros Hrest Hk0 Hrun Hstop r acc. subst r acc.
  unfold findNextEntry. cbn [iter]. rewrite Hrest, Hk0.
  change (db.InternalKeyKindMerge =? db.InternalKeyKindDelete) with false.
  change (db.InternalKeyKindMerge =? db.InternalKeyKindSet) with false.
  change (db.InternalKeyKindMerge =? db.InternalKeyKindMerge) with true.
  cbn [orb]. cbv iota.
  unfold mergeNext. cbn [iter rest key err keyBuf value valueBuf valid pos]. rewrite Hrest.
  cbn [db.UserKey db.Trailer].
  replace {| db.UserKey := db.UserKey k0; db.Trailer := db.Trailer k0 |} with k0
    by (by destruct k0).
  split; intros Hs.
  - rewrite mergeNext_loop_set by done.
    cbn [fst snd Valid Key Value valid key value iter rest pos].
    repeat split; try done. by apply Kind_SetKind.
  - rewrite mergeNext_loop_delete by done.
    cbn [fst snd Valid Key Value valid key value iter rest pos].
    repeat split; try done.
Qed.
End CompactionIter.

Lemma merge_run_stops_at_set_or_delete_witness :
  let i := compactionIter.iter_First
             {| compactionIter.all :=
                  [(ikey "k" 4 2, ["d"%byte]); (ikey "k" 3 2, ["c"%byte]);
                   (ikey "k" 2 1, ["b"%byte]); (ikey "k" 1 1, ["a"%byte])];
                compactionIter.rest := [] |} in
  let ci := compactionIter.with_iter (compactionIter.newCompactionIter []) i in
  let r := compactionIter.findNextEntry bytes_Compare concat_merge ci in
  let acc := fold_merge concat_merge (db.UserKey (ikey "k" 4 2)) ["d"%byte]
               [(ikey "k" 3 2, ["c"%byte])] in
  (db.Kind (fst (ikey "k" 2 1, ["b"%byte])) = db.InternalKeyKindSet ->
     snd r = true /\ compactionIter.Valid (fst r) = true /\
     compactionIter.Key (fst r) = db.SetKind (ikey "k" 4 2) db.InternalKeyKindSet /\
     db.Kind (compactionIter.Key (fst r)) = db.InternalKeyKindSet /\
     compactionIter.Value (fst r)
     = concat_merge (db.UserKey (ikey "k" 4 2)) acc (snd (ikey "k" 2 1, ["b"%byte])) /\
     compactionIter.rest (compactionIter.iter (fst r))
     = (ikey "k" 2 1, ["b"%byte]) :: [(ikey "k" 1 1, ["a"%byte])] /\
     compactionIter.pos (fst r) = compactionIter.compactionIterCur) /\
  (db.Kind (fst (ikey "k" 2 1, ["b"%byte])) = db.InternalKeyKindDelete ->
     snd r = true /\ compactionIter.Valid (fst r) = true /\
     compactionIter.Key (fst r) = ikey "k" 4 2 /\
     db.Kind (compactionIter.Key (fst r)) = db.InternalKeyKindMerge /\
     compactionIter.Value (fst r) = acc /\
     compactionIter.rest (compactionIter.iter (fst r))
     = (ikey "k" 2 1, ["b"%byte]) :: [(ikey "k" 1 1, ["a"%byte])] /\
     compactionIter.pos (fst r) = compactionIter.compactionIterCur).
Proof.
  apply (merge_run_stops_at_set_or_delete bytes_Compare concat_merge _
           (ikey "k" 4 2) ["d"%byte] [(ikey "k" 3 2, ["c"%byte])]
           (ikey "k" 2 1, ["b"%byte]) [(ikey "k" 1 1, ["a"%byte])]).
  - reflexivity.
  - reflexivity.
  - repeat constructor.
  - reflexivity.
Defined.

(** ** One entry per user key *)

Section Emitted.
Import compactionIter.
Context (cmp : db.Compare) `{!CompareOrder cmp} (merge : db.Merge).

Lemma skip_ukey_split (uk : bytes) (l : list (db.InternalKey * bytes)) :
  exists pre,
    l = pre ++ skip_ukey cmp uk l /\
    Forall (fun e => cmp uk (db.UserKey (fst e)) = 0%Z) pre /\
    match skip_ukey cmp uk l with
    | [] => True
    | e :: _ => cmp uk (db.UserKey (fst e)) ≠ 0%Z
    end.
Proof.
  induction l as [|e l (pre & Hl & Hpre & Hhd)]; cbn [skip_ukey].
  - by exists [].
  - destruct (Z.eqb_spec (cmp uk (db.UserKey (fst e))) 0) as [E|E].
    + exists (e :: pre). cbn [app]. rewrite <- Hl. repeat split; [|done].
      by apply Forall_cons.
    + by exists [].
Qed.

(** One round of the loop of [mergeNext] on a MERGE for the same user
    key. *)
Lemma mergeNext_loop_merge (i : compactionIter) (e0 : db.InternalKey * bytes)
    (k : db.InternalKey) (v : bytes) (l : list (db.InternalKey * bytes)) :
  cmp (db.UserKey (key i)) (db.UserKey k) = 0%Z ->
  db.Kind k = db.InternalKeyKindMerge ->
  mergeNext_loop cmp merge i (e0 :: (k, v) :: l)
  = mergeNext_loop cmp merge (merged merge i k v l) ((k, v) :: l).
Proof.
  intros E Hk. cbn [mergeNext_loop]. rewrite E, Hk.
  change (db.InternalKeyKindMerge =? db.InternalKeyKindDelete) with false.
  change (db.InternalKeyKindMerge =? db.InternalKeyKindSet) with false.
  change (db.InternalKeyKindMerge =? db.InternalKeyKindMerge) with true.
  reflexivity.
Qed.

(** The loop of [mergeNext] on entries of valid kinds: it returns
    without error, under the user key it started with, and what it
    leaves pending starts at another user key. *)
Lemma mergeNext_loop_pending (l : list (db.InternalKey * bytes)) :
  forall (i : compactionIter) (e0 : db.InternalKey * bytes),
  valid_kinds l ->
  pos i = compactionIterCur ->
  let r := mergeNext_loop cmp merge i (e0 :: l) in
  snd r = true /\ err (fst r) = err i /\ valid (fst r) = valid i /\
  db.UserKey (key (fst r)) = db.UserKey (key i) /\
  all (iter (fst r)) = all (iter i) /\
  exists pre,
    l = pre ++ pending cmp (fst r) /\
    Forall (fun e => cmp (db.UserKey (key i)) (db.UserKey (fst e)) = 0%Z) pre /\
    match pending cmp (fst r) with
    | [] => True
    | e :: _ => cmp (db.UserKey (key i)) (db.UserKey (fst e)) ≠ 0%Z
    end.
Proof.
  induction l as [|[k v] l IH]; intros i e0 Hkinds Hpos.
  - cbn. repeat split; try done. by exists [].
  - apply Forall_cons in Hkinds as [Hk Hkinds]. cbn [fst] in Hk.
    destruct (Z.eqb_spec (cmp (db.UserKey (key i)) (db.UserKey k)) 0) as [E|E].
    2:{ cbn [mergeNext_loop].
        replace (cmp (db.UserKey (key i)) (db.UserKey k) =? 0)%Z with false
          by (symmetry; by apply Z.eqb_neq).
        cbn. repeat split; try done. by exists []. }
    (* the same user key: the entry goes, and with a DELETE or a SET
       so do the older entries of that key *)
    assert (Hstop : forall i',
               pos i' = compactionIterCur ->
               rest (iter i') = (k, v) :: l ->
               exists pre,
                 (k, v) :: l = pre ++ pending cmp i' /\
                 Forall (fun e => cmp (db.UserKey (key i)) (db.UserKey (fst e)) = 0%Z) pre /\
                 match pending cmp i' with
                 | [] => True
                 | e :: _ => cmp (db.UserKey (key i)) (db.UserKey (fst e)) ≠ 0%Z
                 end).
    { intros i' Hp Hr. unfold pending, iter_NextUserKey. rewrite Hp, Hr. cbn [rest].
      destruct (skip_ukey_split (db.UserKey k) l) as (pre & Hl & Hpre & Hhd).
      exists ((k, v) :: pre). cbn [app]. rewrite <- Hl. split; [done|]. split.
      - apply Forall_cons. split; [done|].
        eapply Forall_impl; [exact Hpre|]. intros e He. cbn beta in He.
        by apply (cmp_eq_trans cmp _ (db.UserKey k)).
      - destruct (skip_ukey cmp (db.UserKey k) l) as [|e tl]; [done|].
        intros He. apply Hhd.
        apply (cmp_eq_trans cmp _ (db.UserKey (key i))); [|done].
        destruct (cmp_cases cmp (db.UserKey (key i)) (db.UserKey k)); lia. }
    destruct Hk as [Hk|[Hk|Hk]].
    + cbn [mergeNext_loop]. rewrite E, Hk.
      change (db.InternalKeyKindDelete =? db.InternalKeyKindDelete) with true.
      cbv iota. cbn [negb Z.eqb fst snd err valid key iter all].
      repeat split; try done. by apply Hstop.
    + cbn [mergeNext_loop]. rewrite E, Hk.
      change (db.InternalKeyKindSet =? db.InternalKeyKindDelete) with false.
      change (db.InternalKeyKindSet =? db.InternalKeyKindSet) with true.
      cbv iota. cbn [negb Z.eqb fst snd err valid key iter all].
      repeat split; try done. by apply Hstop.
    + rewrite (mergeNext_loop_merge i e0 k v l E Hk).
      destruct (IH (merged merge i k v l) (k, v) Hkinds Hpos)
        as (H1 & H2 & H3 & H4 & H5 & pre & Hl & Hpre & Hhd).
      cbn [merged err valid key iter all] in H2, H3, H4, H5, Hpre, Hhd.
      cbv zeta. repeat split; try done.
      exists ((k, v) :: pre). cbn [app]. rewrite <- Hl. split; [done|]. split; [|done].
      by apply Forall_cons.
Qed.

(** [findNextEntry] on an iterator that stands on an entry. *)
Lemma findNextEntry_step (i : compactionIter) (k1 : db.InternalKey) (v1 : bytes)
    (l : list (db.InternalKey * bytes)) :
  rest (iter i) = (k1, v1) :: l ->
  valid_kinds ((k1, v1) :: l) ->
  let r := findNextEntry cmp merge i in
  valid (fst r) = true /\ err (fst r) = err i /\
  db.UserKey (key (fst r)) = db.UserKey k1 /\
  all (iter (fst r)) = all (iter i) /\
  exists pre,
    l = pre ++ pending cmp (fst r) /\
    Forall (fun e => cmp (db.UserKey k1) (db.UserKey (fst e)) = 0%Z) pre /\
    match pending cmp (fst r) with
    | [] => True
    | e :: _ => cmp (db.UserKey k1) (db.UserKey (fst e)) ≠ 0%Z
    end.
Proof.
  intros Hrest Hkinds. apply Forall_cons in Hkinds as [Hk Hkinds]. cbn [fst] in Hk.
  unfold findNextEntry. cbn [iter]. rewrite Hrest.
  assert (Hsimple :
    (db.Kind k1 =? db.InternalKeyKindDelete) || (db.Kind k1 =? db.InternalKeyKindSet) = true ->
    exists pre,
      l = pre ++ skip_ukey cmp (db.UserKey k1) l /\
      Forall (fun e => cmp (db.UserKey k1) (db.UserKey (fst e)) = 0%Z) pre /\
      match skip_ukey cmp (db.UserKey k1) l with
      | [] => True
      | e :: _ => cmp (db.UserKey k1) (db.UserKey (fst e)) ≠ 0%Z
      end) by (intros _; apply skip_ukey_split).
  destruct Hk as [Hk|[Hk|Hk]]; rewrite Hk in *.
  - change ((db.InternalKeyKindDelete =? db.InternalKeyKindDelete) || _) with true.
    cbv iota zeta. cbn [fst valid err key iter all].
    repeat split; try done.
    unfold pending, iter_NextUserKey. cbn [pos iter]. rewrite Hrest. cbn [rest].
    by apply Hsimple.
  - change ((db.InternalKeyKindSet =? db.InternalKeyKindDelete)
            || (db.InternalKeyKindSet =? db.InternalKeyKindSet)) with true.
    cbv iota zeta. cbn [fst valid err key iter all].
    repeat split; try done.
    unfold pending, iter_NextUserKey. cbn [pos iter]. rewrite Hrest. cbn [rest].
    by apply Hsimple.
  - change ((db.InternalKeyKindMerge =? db.InternalKeyKindDelete)
            || (db.InternalKeyKindMerge =? db.InternalKeyKindSet)) with false.
    change (db.InternalKeyKindMerge =? db.InternalKeyKindMerge) with true.
    cbv iota zeta. unfold mergeNext. cbn [iter rest]. rewrite Hrest.
    match goal with
    | |- context [mergeNext_loop cmp merge ?i2 ((k1, v1) :: l)] =>
        destruct (mergeNext_loop_pending l i2 (k1, v1) Hkinds eq_refl)
          as (H1 & H2 & H3 & H4 & H5 & Hpre)
    end.
    cbn [err valid key iter all db.UserKey] in H2, H3, H4, H5, Hpre.
    by repeat split.
Qed.

Lemma findNextEntry_end (i : compactionIter) :
  rest (iter i) = [] ->
  valid (fst (findNextEntry cmp merge i)) = false /\
  err (fst (findNextEntry cmp merge i)) = err i.
Proof. intros Hrest. unfold findNextEntry. cbn [iter]. by rewrite Hrest. Qed.

Lemma Next_pending (i : compactionIter) :
  err i = None ->
  Next cmp merge i
  = findNextEntry cmp merge
      (with_iter i {| all := all (iter i); rest := pending cmp i |}).
Proof.
  intros Herr. unfold Next, pending. rewrite Herr.
  destruct i as [[a r] e k kb v vb vd p]; cbn in *.
  destruct p; [|done].
  unfold iter_NextUserKey; cbn. by destruct r as [|[k0 v0] r].
Qed.

(** Above a user key: what is pending after it in a sorted input. *)
Lemma pending_above (k1 : db.InternalKey) (v1 : bytes)
    (pre p : list (db.InternalKey * bytes)) :
  sorted_by_ukey cmp ((k1, v1) :: pre ++ p) ->
  match p with
  | [] => True
  | e :: _ => cmp (db.UserKey k1) (db.UserKey (fst e)) ≠ 0%Z
  end ->
  Forall (fun x => (cmp (db.UserKey k1) (db.UserKey (fst x)) < 0)%Z) p.
Proof.
  intros Hs Hhd. destruct p as [|h p]; [constructor|].
  apply StronglySorted_cons in Hs as [Hall Hs]. cbn [fst] in Hall.
  apply Forall_app in Hall as [_ Hall].
  apply StronglySorted_app in Hs as (_ & _ & Hs).
  apply StronglySorted_cons in Hs as [Hh _].
  apply Forall_cons in Hall as [Hk1h _].
  assert (Hlt : (cmp (db.UserKey k1) (db.UserKey (fst h)) < 0)%Z) by lia.
  apply Forall_cons. split; [done|].
  eapply Forall_impl; [exact Hh|]. intros x Hx. cbn beta in Hx.
  by apply (cmp_lt_le_trans cmp _ (db.UserKey (fst h))).
Qed.

(** The rounds of the compaction loop end, without error, and visit one
    entry per user key of the input. *)
Lemma visit_one_per_ukey (n : nat) :
  forall (l : list (db.InternalKey * bytes)) (i : compactionIter),
  (length l <= n)%nat ->
  rest (iter i) = l -> err i = None ->
  valid_kinds l -> sorted_by_ukey cmp l ->
  exists es,
    visit cmp merge (S n) (fst (findNextEntry cmp merge i)) = Some (es, None) /\
    one_per_ukey cmp es /\
    Forall (fun e => exists x, x ∈ l /\ db.UserKey (fst e) = db.UserKey (fst x)) es.
Proof.
  induction n as [|n IH]; intros l i Hlen Hrest Herr Hkinds Hsorted.
  - destruct l; [|cbn in Hlen; lia].
    destruct (findNextEntry_end i Hrest) as [Hv He].
    exists []. cbn [visit]. unfold Valid. rewrite Hv, He, Herr.
    repeat split; constructor.
  - destruct l as [|[k1 v1] l].
    { destruct (findNextEntry_end i Hrest) as [Hv He].
      exists []. cbn [visit]. unfold Valid. rewrite Hv, He, Herr.
      repeat split; constructor. }
    destruct (findNextEntry_step i k1 v1 l Hrest Hkinds)
      as (Hv & He & Hk & Hall & pre & Hl & Hpre & Hhd).
    set (i' := fst (findNextEntry cmp merge i)) in *.
    rewrite Herr in He.
    assert (Hkinds' : valid_kinds (pending cmp i')).
    { apply Forall_cons in Hkinds as [_ Hkinds]. rewrite Hl in Hkinds.
      by apply Forall_app in Hkinds as [_ ?]. }
    assert (Hsorted' : sorted_by_ukey cmp (pending cmp i')).
    { apply StronglySorted_cons in Hsorted as [_ Hs]. rewrite Hl in Hs.
      by apply StronglySorted_app in Hs as (_ & _ & ?). }
    destruct (IH (pending cmp i')
                 (with_iter i' {| all := all (iter i'); rest := pending cmp i' |}))
      as (es & Hes & Hone & Hin); try done.
    { cbn in Hlen. rewrite Hl, length_app in Hlen. lia. }
    rewrite <- Next_pending in Hes by done.
    exists ((Key i', Value i') :: es).
    remember (S n) as m. cbn [visit]. subst m. unfold Valid at 1. rewrite Hv, Hes.
    split; [done|]. split.
    + apply StronglySorted_cons. split; [|done].
      rewrite Hl in Hsorted.
      pose proof (pending_above k1 v1 pre (pending cmp i') Hsorted Hhd) as Habove.
      rewrite Forall_forall in Habove, Hin |- *.
      intros e Hein. destruct (Hin e Hein) as (x & Hx & Hex).
      unfold Key. cbn [fst]. rewrite Hk, Hex. by apply Habove.
    + apply Forall_cons. split.
      * exists (k1, v1). split; [by left|]. done.
      * eapply Forall_impl; [exact Hin|]. intros e (x & Hx & Hex).
        exists x. split; [|done]. right. rewrite Hl. apply elem_of_app. by right.
Qed.

Lemma emitted_one_per_ukey (input : list (db.InternalKey * bytes)) :
  valid_kinds input -> sorted_by_ukey cmp input ->
  exists es,
    emitted cmp merge input = Some (es, None) /\
    one_per_ukey cmp es /\
    Forall (fun e => exists x, x ∈ input /\ db.UserKey (fst e) = db.UserKey (fst x)) es.
Proof.
  intros Hkinds Hsorted. unfold emitted, First. cbn [err newCompactionIter].
  by apply visit_one_per_ukey.
Qed.
End Emitted.


(** ** Dropping deletions at the base level *)

Section BaseLevel.
Import compaction.
Context (cmp : db.Compare) `{!CompareOrder cmp}.

(** The inner loop of [isBaseLevelForUkey], which stops at the first
    file that ends at or after the key, finds a file that holds the key
    whenever the sorted level has one. *)
Lemma level_holds_ukey_spec (ukey : bytes) (fs : list fileMetadata) :
  level_sorted cmp fs ->
  level_holds_ukey cmp ukey fs = true <-> exists f, f ∈ fs /\ file_holds cmp ukey f.
Proof.
  induction fs as [|g fs IH]; intros Hs; cbn [level_holds_ukey].
  - split; [done|]. intros (f & Hf & _). by apply elem_of_nil in Hf.
  - apply StronglySorted_cons in Hs as [Hall Hs].
    destruct (Z.leb_spec (cmp ukey (db.UserKey (largest g))) 0) as [Hle|Hgt].
    + destruct (Z.leb_spec 0 (cmp ukey (db.UserKey (smallest g)))) as [Hge|Hlt].
      * split; [|done]. intros _. exists g. split; [by left|]. by split.
      * split; [done|]. intros (f & Hf & Hl & Hsm). exfalso.
        apply elem_of_cons in Hf as [->|Hf]; [lia|].
        rewrite Forall_forall in Hall. specialize (Hall f Hf).
        pose proof (cmp_lt_le_trans cmp ukey _ _ Hlt Hall). lia.
    + rewrite (IH Hs). split.
      * intros (f & Hf & Hh). exists f. split; [by right|done].
      * intros (f & Hf & Hh). exists f. split; [|done].
        apply elem_of_cons in Hf as [->|Hf]; [|done].
        destruct Hh. lia.
Qed.

Lemma isBaseLevelForUkey_spec (numLevels : nat) (c : compaction) (ukey : bytes) :
  (forall lvl, (level c + 2 <= lvl < numLevels)%nat ->
               level_sorted cmp (files (c_version c) lvl)) ->
  isBaseLevelForUkey numLevels c cmp ukey = true <->
  forall lvl f, (level c + 2 <= lvl < numLevels)%nat ->
                f ∈ files (c_version c) lvl -> ~ file_holds cmp ukey f.
Proof.
  intros Hsorted. unfold isBaseLevelForUkey.
  rewrite forallb_forall. split.
  - intros H lvl f Hlvl Hf Hh.
    specialize (H lvl). rewrite negb_true_iff in H.
    assert (Hin : In lvl (seq (level c + 2) (numLevels - (level c + 2))))
      by (apply in_seq; lia).
    specialize (H Hin).
    assert (level_holds_ukey cmp ukey (files (c_version c) lvl) = true)
      by (apply level_holds_ukey_spec; [by apply Hsorted|by exists f]).
    congruence.
  - intros H lvl Hin. apply in_seq in Hin. rewrite negb_true_iff.
    destruct (level_holds_ukey cmp ukey (files (c_version c) lvl)) eqn:E; [|done].
    apply level_holds_ukey_spec in E as (f & Hf & Hh); [|apply Hsorted; lia].
    exfalso. apply (H lvl f); [lia|done..].
Qed.
End BaseLevel.

Section Output.
Import compaction.
Context (numLevels : nat) (cmp : db.Compare) (dbFilename : fileType -> N -> string).

(** The output loop of [compactDiskTables] adds the entries that are
    kept, in their order, to one table. *)
Lemma compactDiskTables_loop_tw (c : compaction) (es : list (db.InternalKey * bytes)) :
  forall st : output,
  o_tw (compactDiskTables_loop numLevels cmp dbFilename c es st)
  = match o_tw st with
    | Some (fn, added) => Some (fn, added ++ filter (kept numLevels cmp c) es)
    | None =>
        match filter (kept numLevels cmp c) es with
        | [] => None
        | out => Some (nextFileNumber (vs (o_db st)), out)
        end
    end.
Proof.
  induction es as [|[ik v] es IH]; intros st; cbn [compactDiskTables_loop].
  - destruct (o_tw st) as [[fn added]|]; [|done]. by rewrite app_nil_r.
  - rewrite filter_cons.
    destruct (decide (kept numLevels cmp c (ik, v))) as [E|E];
      unfold kept in E; cbn [fst] in E.
    + rewrite E, IH. cbn [o_tw o_db].
      unfold open_table.
      destruct (o_tw st) as [[fn added]|] eqn:Htw;
        cbn [o_tw o_db vs nextFileNumber]; rewrite ?Htw; cbn [option_map app].
      * by rewrite <- app_assoc.
      * done.
    + apply not_false_is_true in E. rewrite E. apply IH.
Qed.
End Output.

Lemma one_per_ukey_eq (cmp : db.Compare) `{!CompareOrder cmp}
    (es : list (db.InternalKey * bytes)) (e e' : db.InternalKey * bytes) :
  one_per_ukey cmp es -> e ∈ es -> e' ∈ es ->
  cmp (db.UserKey (fst e)) (db.UserKey (fst e')) = 0%Z -> e = e'.
Proof.
  intros Hs He He' Hc.
  apply list_elem_of_split in He as (l1 & l2 & ->).
  apply elem_of_app in He' as [He'|He'].
  - pose proof (StronglySorted_app_1_elem_of _ _ _ e' e Hs He' ltac:(by left)) as Hlt.
    cbn beta in Hlt.
    destruct (cmp_cases cmp (db.UserKey (fst e)) (db.UserKey (fst e'))); lia.
  - apply elem_of_cons in He' as [->|He']; [done|].
    apply StronglySorted_app_1_r, StronglySorted_cons in Hs as [Hall _].
    rewrite Forall_forall in Hall. specialize (Hall e' He'). cbn beta in Hall. lia.
Qed.

Section DropDeletes.
Import compaction.
Context (numLevels : nat) (cmp : db.Compare) `{!CompareOrder cmp} (merge : db.Merge).
Context (dbFilename : fileType -> N -> string).
Context (compactionIterator : compaction -> list (db.InternalKey * bytes) + error).
Context (tableSize : list (db.InternalKey * bytes) -> N).

Lemma compactDiskTables_loop_written (c : compaction)
    (es : list (db.InternalKey * bytes)) :
  forall st : output,
  written (o_db (compactDiskTables_loop numLevels cmp dbFilename c es st))
  = written (o_db st).
Proof.
  induction es as [|[ik v] es IH]; intros st; cbn [compactDiskTables_loop]; [done|].
  destruct ((db.Kind ik =? db.InternalKeyKindDelete)
            && isBaseLevelForUkey numLevels c cmp (db.UserKey ik)); [apply IH|].
  rewrite IH. cbn [o_db]. unfold open_table. by destruct (o_tw st).
Qed.

(** C4.  The levels from [c.level + 2] on are sorted, the input of the
    compaction iterator is in the order of the user keys.  Then the
    compaction loop ends, its output table holds the entries the
    iterator yields except the DELETE entries for which
    [isBaseLevelForUkey] is true, and for a DELETE entry the iterator
    yields: it is left out exactly when [isBaseLevelForUkey] is true;
    that is true exactly when no file at a level from [c.level + 2] on
    has smallest <= user key <= largest; and when it is left out, no
    entry for its user key is in the output. *)
Theorem delete_dropped_exactly_at_base_level (c : compaction) (d : DB)
    (input : list (db.InternalKey * bytes)) :
  (forall lvl, (level c + 2 <= lvl < numLevels)%nat ->
               level_sorted cmp (files (c_version c) lvl)) ->
  compactionIterator c = inl input ->
  valid_kinds input -> sorted_by_ukey cmp input ->
  exists es,
    compactionIter.emitted cmp merge input = Some (es, None) /\
    let out := filter (kept numLevels cmp c) es in
    (out ≠ [] ->
     exists d' ve pending,
       compactDiskTables numLevels cmp merge dbFilename compactionIterator tableSize c d
       = Some (Ret (d', Some ve, pending, None)) /\
       written d' = written d ++ [(nextFileNumber (vs d), out)]) /\
    forall e, e ∈ es -> db.Kind (fst e) = db.InternalKeyKindDelete ->
      (e ∉ out <-> isBaseLevelForUkey numLevels c cmp (db.UserKey (fst e)) = true) /\
      (isBaseLevelForUkey numLevels c cmp (db.UserKey (fst e)) = true <->
       forall lvl f, (level c + 2 <= lvl < numLevels)%nat ->
                     f ∈ files (c_version c) lvl ->
                     ~ file_holds cmp (db.UserKey (fst e)) f) /\
      (isBaseLevelForUkey numLevels c cmp (db.UserKey (fst e)) = true ->
       forall e', e' ∈ out ->
                  cmp (db.UserKey (fst e)) (db.UserKey (fst e')) ≠ 0%Z).
Proof.
  intros Hlevels Hiter Hkinds Hsorted.
  destruct (emitted_one_per_ukey cmp merge input Hkinds Hsorted) as (es & Hes & Hone & _).
  exists es. split; [done|]. cbv zeta. split.
  - intros Hout. unfold compactDiskTables. rewrite Hiter, Hes.
    set (st0 := {| o_db := d; o_pendingOutputs := []; o_tw := None;
                   o_smallest := _; o_largest := _ |}).
    pose proof (compactDiskTables_loop_tw numLevels cmp dbFilename c es st0) as Htw.
    pose proof (compactDiskTables_loop_written c es st0) as Hw.
    cbn [o_tw o_db st0] in Htw, Hw.
    destruct (filter (kept numLevels cmp c) es) as [|e0 out] eqn:Ef; [done|].
    rewrite Htw. eexists _, _, _. split; [reflexivity|].
    cbn [written]. by rewrite Hw.
  - intros e He Hk.
    assert (Hkept : kept numLevels cmp c e
                    <-> isBaseLevelForUkey numLevels c cmp (db.UserKey (fst e)) = false).
    { unfold kept. rewrite Hk.
      change (db.InternalKeyKindDelete =? db.InternalKeyKindDelete) with true.
      done. }
    split; [|split].
    + rewrite list_elem_of_filter, Hkept.
      destruct (isBaseLevelForUkey numLevels c cmp (db.UserKey (fst e))).
      * split; [done|]. by intros _ [? _].
      * split; [|done]. intros H. exfalso. apply H. by split.
    + by apply isBaseLevelForUkey_spec.
    + intros Hbase e' He' Hc.
      apply list_elem_of_filter in He' as [Hk' He'].
      rewrite <- (one_per_ukey_eq cmp es e e' Hone He He' Hc) in Hk'.
      apply Hkept in Hk'. congruence.
Qed.
End DropDeletes.

Lemma delete_dropped_exactly_at_base_level_witness :
  exists es,
    compactionIter.emitted bytes_Compare concat_merge input_delete_a = Some (es, None) /\
    let out := filter (kept 7 bytes_Compare level0_compaction) es in
    (out ≠ [] ->
     exists d' ve pending,
       compaction.compactDiskTables 7 bytes_Compare concat_merge (fun _ _ => ""%string)
         (fun _ => inl input_delete_a) (fun _ => 0) level0_compaction empty_db
       = Some (Ret (d', Some ve, pending, None)) /\
       compaction.written d'
       = compaction.written empty_db
         ++ [(compaction.nextFileNumber (compaction.vs empty_db), out)]) /\
    forall e, e ∈ es -> db.Kind (fst e) = db.InternalKeyKindDelete ->
      (e ∉ out <->
       compaction.isBaseLevelForUkey 7 level0_compaction bytes_Compare (db.UserKey (fst e)) = true) /\
      (compaction.isBaseLevelForUkey 7 level0_compaction bytes_Compare (db.UserKey (fst e)) = true <->
       forall lvl f, (compaction.level level0_compaction + 2 <= lvl < 7)%nat ->
                     f ∈ compaction.files (compaction.c_version level0_compaction) lvl ->
                     ~ file_holds bytes_Compare (db.UserKey (fst e)) f) /\
      (compaction.isBaseLevelForUkey 7 level0_compaction bytes_Compare (db.UserKey (fst e)) = true ->
       forall e', e' ∈ out ->
                  bytes_Compare (db.UserKey (fst e)) (db.UserKey (fst e')) ≠ 0%Z).
Proof.
  apply (delete_dropped_exactly_at_base_level 7 bytes_Compare concat_merge
           (fun _ _ => ""%string) (fun _ => inl input_delete_a) (fun _ => 0)
           level0_compaction empty_db input_delete_a).
  - intros lvl _. apply SSorted_nil.
  - reflexivity.
  - unfold valid_kinds, input_delete_a.
    repeat (apply Forall_cons; split; [vm_compute; auto|]). constructor.
  - unfold sorted_by_ukey, input_delete_a.
    repeat constructor; vm_compute; discriminate.
Defined.


(** ** Trivial moves *)

Section TrivialMove.
Import compaction.
Context (numLevels : nat) (opts : Options) (cmp : db.Compare) (merge : db.Merge).
Context (parseDBFilename : string -> option (fileType * N)).
Context (dbFilename : fileType -> N -> string).
Context (logAndApply : versionEdit -> versionSet -> versionSet * option error).
Context (compactionIterator : compaction -> list (db.InternalKey * bytes) + error).
Context (tableSize : list (db.InternalKey * bytes) -> N).

(** C6.  A picked compaction with exactly one input file [meta] at its
    level, no overlapping file at the next level, and grandparent inputs
    of a total size of at most ten times the target file size of the
    next level (a size whose tenfold fits an [int64]): [compact1] logs
    and applies the edit that deletes [meta] from the level and adds the
    same metadata at the next level.  The version set of the database
    is then the one that [logAndApply] has made of the edit, the error
    returned is the one of [logAndApply], and the storage, the tables
    written, the pending outputs and the table cache are as before: no
    file is created and no table written. *)
Theorem compact1_trivial_move (c : compaction) (d : DB) (meta : fileMetadata) :
  inputs0 c = [meta] ->
  inputs1 c = [] ->
  (0 <= 10 * TargetFileSize opts (level c + 1) < 2^63)%Z ->
  (Z.of_N (totalSize (inputs2 c)) <= 10 * TargetFileSize opts (level c + 1))%Z ->
  let r := logAndApply {| deletedFiles := {[ (level c, fileNum meta) ]};
                          newFiles := [((level c + 1)%nat, meta)] |} (vs d) in
  compact1 numLevels opts cmp merge parseDBFilename dbFilename logAndApply
    compactionIterator tableSize (Some c) d
  = Some (Ret ({| vs := fst r; pendingOutputs := pendingOutputs d; fs := fs d;
                  written := written d; evicted := evicted d |}, snd r)).
Proof.
  intros H0 H1 Htfs Hsize r.
  unfold compact1. rewrite H0, H1. cbn [length Nat.eqb andb].
  unfold maxGrandparentOverlapBytes.
  rewrite Z.mod_small by lia.
  replace (totalSize (inputs2 c) <=? Z.to_N (10 * TargetFileSize opts (level c + 1)))
    with true by (symmetry; apply N.leb_le; lia).
  fold r. by destruct r.
Qed.
End TrivialMove.

Lemma compact1_trivial_move_witness :
  let r := logAndApply_spec bytes_Compare
             {| compaction.deletedFiles :=
                  {[ (compaction.level lone_file_compaction,
                      compaction.fileNum (file 1 10 "a" "b")) ]};
                compaction.newFiles :=
                  [((compaction.level lone_file_compaction + 1)%nat, file 1 10 "a" "b")] |}
             (compaction.vs db_lone_file) in
  compaction.compact1 7 small_opts bytes_Compare concat_merge (fun _ => None)
    (fun _ _ => ""%string) (logAndApply_spec bytes_Compare) (fun _ => inl []) (fun _ => 0)
    (Some lone_file_compaction) db_lone_file
  = Some (Ret ({| compaction.vs := fst r;
                  compaction.pendingOutputs := compaction.pendingOutputs db_lone_file;
                  compaction.fs := compaction.fs db_lone_file;
                  compaction.written := compaction.written db_lone_file;
                  compaction.evicted := compaction.evicted db_lone_file |}, snd r)).
Proof.
  apply (compact1_trivial_move 7 small_opts bytes_Compare concat_merge (fun _ => None)
           (fun _ _ => ""%string) (logAndApply_spec bytes_Compare) (fun _ => inl [])
           (fun _ => 0) lone_file_compaction db_lone_file (file 1 10 "a" "b")).
  - reflexivity.
  - reflexivity.
  - vm_compute. split; [discriminate|reflexivity].
  - vm_compute. discriminate.
Defined.

(** The trivial move on [db_lone_file]: in the version that is current
    afterwards the file is gone from level 1 and stands at level 2 with
    the same metadata; the version before stays live; the directory is as
    it was. *)
Example trivial_move_on_db_lone_file :
  exists d' cur,
    compaction.compact1 7 small_opts bytes_Compare concat_merge (fun _ => None)
      (fun _ _ => ""%string) (logAndApply_spec bytes_Compare) (fun _ => inl []) (fun _ => 0)
      (Some lone_file_compaction) db_lone_file
    = Some (Ret (d', None)) /\
    last (compaction.versions (compaction.vs d')) = Some cur /\
    compaction.files cur 1 = [] /\
    compaction.files cur 2 = [file 1 10 "a" "b"] /\
    length (compaction.versions (compaction.vs d')) = 2%nat /\
    compaction.fs d' = compaction.fs db_lone_file /\
    compaction.written d' = [].
Proof.
  eexists _, _. split; [vm_compute; reflexivity|].
  split; [reflexivity|]. repeat split; vm_compute; reflexivity.
Qed.

(** ** Growing the inputs of a compaction *)

Section Grow.
Import compaction.
Context (opts : Options) (cmp : db.Compare).
Context (overlaps : version -> nat -> db.Compare -> bytes -> bytes -> list fileMetadata).
Context (ikeyRange : db.Compare -> list fileMetadata -> list fileMetadata
                     -> db.InternalKey * db.InternalKey).

(** C7, amended.  [grow] replaces [inputs[0]] by the files of the level
    that overlap the given key range, and [inputs[1]] by the files of
    the next level that overlap the grown [inputs[0]], if and only if
    [inputs[1]] is not empty, the grown set has more files than
    [inputs[0]], the total size of the grown [inputs[0]] and
    [inputs[1]] is strictly below 25 times the target file size of the
    next level, and the number of overlapping files of the next level
    stays the same; otherwise the compaction is left as it is. *)
Theorem grow_iff (c : compaction) (sm la : db.InternalKey) :
  let grow0 := overlaps (c_version c) (level c) cmp (db.UserKey sm) (db.UserKey la) in
  let r1 := ikeyRange cmp grow0 [] in
  let grow1 := overlaps (c_version c) (level c + 1) cmp
                 (db.UserKey (fst r1)) (db.UserKey (snd r1)) in
  let grows :=
    inputs1 c ≠ [] /\
    (length (inputs0 c) < length grow0)%nat /\
    (totalSize grow0 + totalSize (inputs1 c)) mod 2^64
      < expandedCompactionByteSizeLimit opts (level c + 1) /\
    length grow1 = length (inputs1 c) in
  (grows ->
   grow opts cmp overlaps ikeyRange c sm la
   = ({| c_version := c_version c; level := level c;
         inputs0 := grow0; inputs1 := grow1; inputs2 := inputs2 c |}, true)) /\
  (~ grows -> grow opts cmp overlaps ikeyRange c sm la = (c, false)).
Proof.
  intros grow0 r1 grow1 grows. subst grows. unfold grow.
  fold grow0. destruct (ikeyRange cmp grow0 []) as [sm1 la1] eqn:Er.
  subst r1. cbn [fst snd] in grow1. fold grow1.
  destruct (Nat.eqb_spec (length (inputs1 c)) 0) as [E1|E1].
  { split; [|done]. intros [H _]. by destruct (inputs1 c). }
  destruct (Nat.leb_spec (length grow0) (length (inputs0 c))) as [E2|E2].
  { split; [|done]. intros (_ & H & _). lia. }
  destruct (N.leb_spec (expandedCompactionByteSizeLimit opts (level c + 1))
              ((totalSize grow0 + totalSize (inputs1 c)) mod 2^64)) as [E3|E3].
  { split; [|done]. intros (_ & _ & H & _). lia. }
  destruct (Nat.eqb_spec (length grow1) (length (inputs1 c))) as [E4|E4]; cbn [negb].
  - split; [done|]. intros H. exfalso. apply H. repeat split; try done.
    intros Hnil. by rewrite Hnil in E1.
  - split; [|done]. by intros (_ & _ & _ & H).
Qed.
End Grow.

(** C7 as the specification states it fails when the total size equals
    the limit: growing the compaction of [a..b] at level 1 to the files
    of level 1 in the joint range [a..c] would add the file [c..d],
    leave the one overlapping file of level 2, and make a total of 100
    bytes, which is at most 25 times the target file size 4; yet [grow]
    leaves the inputs as they are. *)
Lemma grow_refuses_at_the_size_limit :
  let c := level1_compaction in
  let r := compaction.ikeyRange_spec bytes_Compare
             (compaction.inputs0 c) (compaction.inputs1 c) in
  let grow0 := compaction.overlaps_spec (compaction.c_version c) (compaction.level c)
                 bytes_Compare (db.UserKey (fst r)) (db.UserKey (snd r)) in
  let r1 := compaction.ikeyRange_spec bytes_Compare grow0 [] in
  let grow1 := compaction.overlaps_spec (compaction.c_version c) (compaction.level c + 1)
                 bytes_Compare (db.UserKey (fst r1)) (db.UserKey (snd r1)) in
  grow0 = [file 1 10 "a" "b"; file 2 40 "c" "d"] /\
  length grow1 = length (compaction.inputs1 c) /\
  (compaction.totalSize grow0 + compaction.totalSize (compaction.inputs1 c)) mod 2^64
    <= 25 * 4 /\
  compaction.expandedCompactionByteSizeLimit small_opts (compaction.level c + 1) = 25 * 4 /\
  compaction.grow small_opts bytes_Compare compaction.overlaps_spec
    compaction.ikeyRange_spec c (fst r) (snd r) = (c, false).
Proof.
  cbv zeta. repeat split; vm_compute; try reflexivity; discriminate.
Qed.


(** ** Deleting obsolete files *)

Section Obsolete.
Import compaction storage.
Context (numLevels : nat) (parseDBFilename : string -> option (fileType * N)).

Lemma elem_of_addLiveFileNums (d : DB) (fn : N) :
  fn ∈ addLiveFileNums numLevels (vs d) (pendingOutputs d) <-> live numLevels d fn.
Proof.
  unfold addLiveFileNums, live.
  rewrite elem_of_union, elem_of_list_to_set, list_elem_of_In, in_flat_map.
  split; (intros [H|H]; [by left|right]).
  - destruct H as (v & Hv & H). apply in_flat_map in H as (lvl & Hlvl & H).
    apply in_seq in Hlvl. apply in_map_iff in H as (f & Hf & Hin).
    exists v, lvl, f. rewrite !list_elem_of_In. repeat split; try done. lia.
  - destruct H as (v & lvl & f & Hv & Hlvl & Hf & Hfn).
    exists v. rewrite <- list_elem_of_In. split; [done|].
    apply in_flat_map. exists lvl. split; [apply in_seq; lia|].
    apply in_map_iff. exists f. by rewrite <- list_elem_of_In.
Qed.

Lemma Remove_names (s : Storage) (name x : string) :
  x ∈ names (Remove s name) -> x ∈ names s.
Proof.
  unfold Remove. destruct (RemoveOk s name); [|done]. cbn [names].
  rewrite list_elem_of_filter. tauto.
Qed.

Lemma Remove_other (s : Storage) (name x : string) :
  x ∈ names s -> x ≠ name -> x ∈ names (Remove s name).
Proof.
  intros Hx Hne. unfold Remove. destruct (RemoveOk s name); [|done]. cbn [names].
  by apply list_elem_of_filter.
Qed.

(** The loop of [deleteObsoleteFiles] adds no name, removes only names
    that are obsolete with respect to the numbers it was given, and
    touches the storage and the table cache only. *)
Lemma deleteObsoleteFiles_loop_spec (liveFileNums : gset N) (ln mn : N)
    (list : list string) :
  forall d : DB,
  let d' := deleteObsoleteFiles_loop parseDBFilename liveFileNums ln mn list d in
  (forall x, x ∈ names (fs d') -> x ∈ names (fs d)) /\
  (forall x, x ∈ names (fs d) -> x ∉ names (fs d') ->
     exists fn,
       (parseDBFilename x = Some (fileTypeTable, fn) /\ fn ∉ liveFileNums) \/
       (parseDBFilename x = Some (fileTypeLog, fn) /\ fn < ln) \/
       (parseDBFilename x = Some (fileTypeManifest, fn) /\ fn < mn)) /\
  vs d' = vs d /\ pendingOutputs d' = pendingOutputs d /\ written d' = written d.
Proof.
  induction list as [|filename list IH]; intros d; cbn [deleteObsoleteFiles_loop].
  - cbv zeta. repeat split; try done.
  - destruct (parseDBFilename filename) as [[ft fn]|] eqn:Hp.
    2:{ cbv zeta. repeat split; try done. }
    set (keep := match ft with
                 | fileTypeLog => ln <=? fn
                 | fileTypeManifest => mn <=? fn
                 | fileTypeTable => bool_decide (fn ∈ liveFileNums)
                 | _ => true
                 end).
    destruct keep eqn:Hkeep; [apply IH|].
    set (d1 := with_fs _ _).
    destruct (IH d1) as (Hsub & Hrem & Hvs & Hpo & Hw). cbv zeta.
    assert (Hfs1 : fs d1 = Remove (fs d) filename)
      by (subst d1; by destruct ft).
    assert (Hd1 : vs d1 = vs d /\ pendingOutputs d1 = pendingOutputs d
                  /\ written d1 = written d)
      by (subst d1; by destruct ft).
    destruct Hd1 as (Hvs1 & Hpo1 & Hw1).
    split; [|split; [|by rewrite Hvs, Hpo, Hw]].
    + intros x Hx. apply (Remove_names (fs d) filename). rewrite <- Hfs1. by apply Hsub.
    + intros x Hx Hnx.
      destruct (decide (x = filename)) as [->|Hne].
      * exists fn. subst keep.
        destruct ft; try done.
        -- right. left. split; [done|]. by apply N.leb_gt.
        -- left. split; [done|]. by apply bool_decide_eq_false in Hkeep.
        -- right. right. split; [done|]. by apply N.leb_gt.
      * apply Hrem; [|done]. rewrite Hfs1. by apply Remove_other.
Qed.

(** What C9 says holds of a call of [deleteObsoleteFiles] during which
    no other goroutine touches the database: every name of the
    directory that is the table of a live file number (one in
    [pendingOutputs] or in a live version) is still there; a name that
    is gone was the table of a file number that is not live, a log
    below [logNumber] or a manifest below [manifestFileNumber]; and no
    name is added.  It does not hold of a call beside a compaction, see
    [deleteObsoleteFiles_removes_table_created_meanwhile]. *)
Theorem deleteObsoleteFiles_keeps_live_tables (d : DB) :
  let d' := deleteObsoleteFiles numLevels parseDBFilename d in
  (forall x fn, x ∈ names (fs d) ->
                parseDBFilename x = Some (fileTypeTable, fn) ->
                live numLevels d fn -> x ∈ names (fs d')) /\
  (forall x, x ∈ names (fs d) -> x ∉ names (fs d') ->
             obsolete numLevels parseDBFilename d x) /\
  (forall x, x ∈ names (fs d') -> x ∈ names (fs d)).
Proof.
  cbv zeta. unfold deleteObsoleteFiles.
  destruct (List_ (fs d)) as [list|e]; [|by repeat split].
  destruct (deleteObsoleteFiles_loop_spec
              (addLiveFileNums numLevels (vs d) (pendingOutputs d))
              (logNumber (vs d)) (manifestFileNumber (vs d)) list d)
    as (Hsub & Hrem & _).
  assert (Hobs : forall x, x ∈ names (fs d) ->
            x ∉ names (fs (deleteObsoleteFiles_loop parseDBFilename
                             (addLiveFileNums numLevels (vs d) (pendingOutputs d))
                             (logNumber (vs d)) (manifestFileNumber (vs d)) list d)) ->
            obsolete numLevels parseDBFilename d x).
  { intros x Hx Hnx. destruct (Hrem x Hx Hnx) as [fn H]. exists fn.
    by rewrite <- elem_of_addLiveFileNums. }
  split; [|by split].
  intros x fn Hx Hp Hlive.
  match goal with |- x ∈ names (fs ?d1) => destruct (decide (x ∈ names (fs d1))) as [|Hnx] end;
    [done|].
  exfalso. destruct (Hobs x Hx Hnx) as [fn' [[Hp' Hn]|[[Hp' _]|[Hp' _]]]];
    rewrite Hp in Hp'; try done.
  injection Hp' as <-. done.
Qed.
End Obsolete.

(** ** The raw block iterator *)

(** On these blocks [SeekGE] does what C8 says of it. *)
Lemma SeekGE_on_block_a_c :
  rawBlockIter.init bytes_Compare block_a_c = inl iter_a_c /\
  landing (rawBlockIter.SeekGE iter_a_c []) = Some (["a"%byte], ["1"%byte]) /\
  landing (rawBlockIter.SeekGE iter_a_c ["a"%byte]) = Some (["a"%byte], ["1"%byte]) /\
  landing (rawBlockIter.SeekGE iter_a_c ["b"%byte]) = Some (["c"%byte], ["2"%byte]) /\
  landing (rawBlockIter.SeekGE iter_a_c ["c"%byte]) = Some (["c"%byte], ["2"%byte]) /\
  landing (rawBlockIter.SeekGE iter_a_c ["d"%byte]) = None.
Proof. repeat split; vm_compute; reflexivity. Qed.

Lemma SeekGE_on_block_two_restarts :
  rawBlockIter.init bytes_Compare block_two_restarts = inl iter_two_restarts /\
  landing (rawBlockIter.SeekGE iter_two_restarts ["a"%byte])
  = Some (["a"; "b"]%byte, ["1"%byte]) /\
  landing (rawBlockIter.SeekGE iter_two_restarts ["a"; "b"; "c"]%byte)
  = Some (["a"; "c"]%byte, ["2"%byte]) /\
  landing (rawBlockIter.SeekGE iter_two_restarts ["a"; "c"]%byte)
  = Some (["a"; "c"]%byte, ["2"%byte]) /\
  landing (rawBlockIter.SeekGE iter_two_restarts ["a"; "d"]%byte)
  = Some (["b"%byte], ["3"%byte]) /\
  landing (rawBlockIter.SeekGE iter_two_restarts ["b"%byte])
  = Some (["b"%byte], ["3"%byte]) /\
  landing (rawBlockIter.SeekGE iter_two_restarts ["b"; "b"]%byte)
  = Some (["b"; "d"]%byte, ["4"%byte]) /\
  landing (rawBlockIter.SeekGE iter_two_restarts ["c"%byte]) = None.
Proof. repeat split; vm_compute; reflexivity. Qed.

(** C8 on the code: [SeekLT] of the raw block iterator, whatever the
    block and the key, panics instead of positioning the iterator; on the
    block above, [SeekLT("b")] should land on ["a"]. *)
Theorem SeekLT_panics (i : rawBlockIter.rawBlockIter) (k : bytes) :
  rawBlockIter.SeekLT i k = Panic "pebble/table: SeekLT unimplemented".
Proof. reflexivity. Qed.

(* ===================================================================== *)
(** * Part IV: further properties of the code *)
(* ===================================================================== *)

(** ** Batches: the wire format, the reader, [Get] and [Apply] *)

Lemma le_bytes_le_value (p : bytes) : binary.le_bytes (length p) (binary.le_value p) = p.
Proof.
  induction p as [|b p IH]; [done|].
  cbn [length binary.le_bytes binary.le_value].
  pose proof (to_N_lt_256 b) as Hb.
  f_equal.
  - rewrite <- (byte_of_to_N b) at 2. unfold byte_of_N.
    replace ((Byte.to_N b + 256 * binary.le_value p) mod 256) with (Byte.to_N b mod 256); [done|].
    rewrite (N.mul_comm 256), N.Div0.mod_add. done.
  - replace ((Byte.to_N b + 256 * binary.le_value p) / 256) with (binary.le_value p);
      [exact IH|].
    rewrite (N.add_comm (Byte.to_N b)), (N.mul_comm 256), N.div_add_l by done.
    rewrite N.div_small by lia. lia.
Qed.

Lemma le_bytes_length (n : nat) (v : N) : length (binary.le_bytes n v) = n.
Proof. revert v. induction n as [|n IH]; intros v; cbn; [done|by rewrite IH]. Qed.

Lemma le_value_le_bytes (n : nat) : forall v : N,
  binary.le_value (binary.le_bytes n v) = v mod 256 ^ N.of_nat n.
Proof.
  induction n as [|n IH]; intros v.
  - cbn. by rewrite N.mod_1_r.
  - cbn [binary.le_bytes binary.le_value]. rewrite IH, to_N_byte_of_N.
    rewrite Nat2N.inj_succ, N.pow_succ_r'.
    rewrite N.Div0.mod_mul_r. lia.
Qed.

Section Wire.
Context (mtes : nat -> nat -> N).

Lemma apply_ops_repr (ops : list op) : forall (b : Batch.Batch) (n : N),
  Batch.index b = None ->
  (12 <= length (Batch.data b))%nat ->
  Batch.count b = Ret n ->
  n + N.of_nat (length ops) < 2^32 ->
  exists b',
    apply_ops mtes ops b = Ret (b', None) /\
    Batch.data b'
    = take 8 (Batch.data b) ++ binary.le_bytes 4 (n + N.of_nat (length ops))
      ++ drop 12 (Batch.data b)
      ++ concat (map (fun o => wire_entry (op_entry o)) ops) /\
    Batch.index b' = None /\ Batch.cmp b' = Batch.cmp b.
Proof.
  induction ops as [|o ops IH]; intros b n Hix Hlen Hn Hsum.
  - exists b. split; [done|]. split; [|done].
    cbn [length map concat]. rewrite N.add_0_r, app_nil_r.
    rewrite count_Ret in Hn by done. injection Hn as <-.
    pose proof (le_bytes_le_value (take 4 (drop 8 (Batch.data b)))) as E.
    rewrite length_take, length_drop in E.
    replace (4 `min` (length (Batch.data b) - 8))%nat with 4%nat in E by lia.
    rewrite E. symmetry. by apply header_restored.
  - cbn [length] in Hsum.
    assert (Hm : mutable_batch b o) by (split; [by right|by rewrite Hix]).
    rewrite <- (with_header_nonempty b Hlen) in Hn.
    destruct (mutate_ok mtes o b n Hm Hn ltac:(lia)) as (p' & b1 & Hr & Hp & Hv & Hd & Hc & Hix1).
    rewrite with_header_nonempty in Hd by done. rewrite Hix in Hix1.
    assert (Hlen1 : (12 <= length (Batch.data b1))%nat).
    { rewrite Hd, !length_app, length_take, length_drop. lia. }
    assert (Hn1 : Batch.count b1 = Ret (n + 1)).
    { rewrite count_Ret by done. rewrite Hd.
      rewrite count_bytes_replaced by done. by rewrite Hv. }
    destruct (IH b1 (n + 1) Hix1 Hlen1 Hn1 ltac:(lia)) as (b' & Hr' & Hd' & Hix' & Hc').
    exists b'. split; [|split; [|split; [done|congruence]]].
    + cbn [apply_ops]. rewrite Hr. cbn [mbind outcome_bind]. done.
    + rewrite Hd'. rewrite Hd at 1 2.
      rewrite entries_kept by done.
      rewrite take_app_length' by (rewrite length_take; lia).
      cbn [map concat length]. rewrite <- !app_assoc.
      do 3 f_equal. lia.
Qed.

(** X2: the wire format.  The mutators called on a new batch, in any
    number below [2^32], all succeed and leave the buffer holding eight
    zero bytes (the sequence number), the number of calls as a
    little-endian [uint32], and the entries in the order of the calls;
    without a call the buffer stays empty. *)
Theorem Repr_wire_format (ops : list op) :
  N.of_nat (length ops) < 2^32 ->
  exists b,
    apply_ops mtes ops Batch.newBatch = Ret (b, None) /\
    Batch.Repr b
    = match ops with
      | [] => []
      | _ :: _ =>
          repeat x00 8 ++ binary.le_bytes 4 (N.of_nat (length ops))
          ++ concat (map (fun o => wire_entry (op_entry o)) ops)
      end.
Proof.
  intros Hlen. destruct ops as [|o ops]; [by exists Batch.newBatch|].
  cbn [length] in Hlen.
  assert (Hm : mutable_batch Batch.newBatch o) by (split; [by left|done]).
  destruct (mutate_ok mtes o Batch.newBatch 0 Hm eq_refl ltac:(lia))
    as (p' & b1 & Hr & Hp & Hv & Hd & Hc & Hix1).
  cbn [Batch.index Batch.newBatch] in Hix1.
  change (Batch.data (with_header Batch.newBatch)) with (repeat x00 12) in Hd.
  assert (Hlen1 : (12 <= length (Batch.data b1))%nat).
  { rewrite Hd, !length_app, length_take. cbn. lia. }
  assert (Hn1 : Batch.count b1 = Ret 1).
  { rewrite count_Ret by done. rewrite Hd.
    rewrite count_bytes_replaced by done. by rewrite Hv. }
  destruct (apply_ops_repr ops b1 1 Hix1 Hlen1 Hn1 ltac:(lia)) as (b' & Hr' & Hd' & _).
  exists b'. split.
  - cbn [apply_ops]. rewrite Hr. cbn [mbind outcome_bind]. done.
  - unfold Batch.Repr. rewrite Hd'. rewrite Hd at 1 2.
    rewrite entries_kept by done.
    rewrite take_app_length' by (rewrite length_take; cbn; lia).
    cbn [map concat length]. change (take 8 (repeat x00 12)) with (repeat x00 8).
    change (drop 12 (repeat x00 12)) with (@nil byte). cbn [app].
    do 2 f_equal. f_equal. lia.
Qed.
End Wire.

Lemma Repr_wire_format_witness :
  exists b,
    apply_ops entrySize [OpSet ["k"%byte] ["v"%byte]; OpDelete ["k"%byte]] Batch.newBatch
    = Ret (b, None) /\
    Batch.Repr b
    = repeat x00 8 ++ binary.le_bytes 4 2
      ++ concat (map (fun o => wire_entry (op_entry o))
                     [OpSet ["k"%byte] ["v"%byte]; OpDelete ["k"%byte]]).
Proof.
  apply (Repr_wire_format entrySize [OpSet ["k"%byte] ["v"%byte]; OpDelete ["k"%byte]]).
  vm_compute. reflexivity.
Defined.

Lemma PutUvarint_loop_cont (fuel : nat) : forall (x : N) (n : nat),
  (S n < length (binary.PutUvarint_loop fuel x))%nat ->
  forall b, binary.PutUvarint_loop fuel x !! n = Some b -> 0x80 <= Byte.to_N b.
Proof.
  induction fuel as [|fuel IH]; intros x n Hn b Hb; cbn in *; [lia|].
  destruct (128 <=? x) eqn:Hx.
  - destruct n as [|n]; cbn in *.
    + injection Hb as <-. rewrite to_N_byte_of_N. apply cont_byte_high.
    + eapply IH; [|done]. lia.
  - cbn in Hn. lia.
Qed.

Lemma Uvarint_loop_truncated (buf : bytes) : forall (i : nat) (x s : N),
  (i + length buf <= 10)%nat ->
  Forall (fun b => 0x80 <= Byte.to_N b) buf ->
  binary.Uvarint_loop buf i x s = (0, 0%Z).
Proof.
  induction buf as [|b buf IH]; intros i x s Hi Hall; [done|].
  apply Forall_cons in Hall as [Hb Hall]. cbn [binary.Uvarint_loop length] in *.
  replace (i =? binary.MaxVarintLen64)%nat with false
    by (symmetry; apply Nat.eqb_neq; unfold binary.MaxVarintLen64; lia).
  replace (Byte.to_N b <? 128) with false by (symmetry; apply N.ltb_ge; done).
  apply IH; [lia|done].
Qed.

Lemma Uvarint_truncated (x : N) (n : nat) :
  (n < length (binary.PutUvarint x))%nat ->
  binary.Uvarint (take n (binary.PutUvarint x)) = (0, 0%Z).
Proof.
  intros Hn. apply Uvarint_loop_truncated.
  - rewrite length_take. pose proof (PutUvarint_length x). lia.
  - apply Forall_lookup_2. intros j b Hb.
    rewrite lookup_take_Some in Hb. destruct Hb as [Hb Hj].
    eapply (PutUvarint_loop_cont _ _ j); [|exact Hb].
    fold (binary.PutUvarint x). lia.
Qed.

Lemma batchDecodeStr_truncated (s : bytes) (n : nat) :
  N.of_nat (length s) < 2^64 ->
  (n < length (wire_str s))%nat ->
  Batch.batchDecodeStr (take n (wire_str s)) = None.
Proof.
  intros Hs Hn. unfold wire_str in *. rewrite length_app in Hn.
  set (put := binary.PutUvarint (N.of_nat (length s))) in *.
  destruct (decide (n < length put)%nat) as [Hlt|Hge].
  - rewrite take_app_le by lia. unfold Batch.batchDecodeStr.
    subst put. rewrite Uvarint_truncated by done. done.
  - rewrite take_app_ge by lia. unfold Batch.batchDecodeStr.
    subst put. rewrite Uvarint_PutUvarint by done.
    set (put := binary.PutUvarint (N.of_nat (length s))) in *.
    pose proof (PutUvarint_length (N.of_nat (length s))) as Hp. fold put in Hp.
    replace (Z.of_nat (length put) <=? 0)%Z with false by (symmetry; apply Z.leb_gt; lia).
    rewrite Nat2Z.id, drop_app_length.
    replace (N.of_nat (length (take (n - length put) s)) <? N.of_nat (length s)) with true; [done|].
    symmetry. apply N.ltb_lt. rewrite length_take. lia.
Qed.

(** X1: what [appendStr] appends to the buffer, [batchDecodeStr] and
    [nextStr] read back as the string and the bytes that follow it; cut
    short anywhere, it is rejected. *)
Theorem appendStr_round_trip (b : Batch.Batch) (s rest : bytes) :
  N.of_nat (length s) < 2^64 ->
  exists enc,
    Batch.data (Batch.appendStr b s) = Batch.data b ++ enc /\
    Batch.batchDecodeStr (enc ++ rest) = Some (rest, s) /\
    Batch.nextStr (enc ++ rest) = Some (s, rest) /\
    forall n, (n < length enc)%nat ->
      Batch.batchDecodeStr (take n enc) = None /\ Batch.nextStr (take n enc) = None.
Proof.
  intros Hs. exists (wire_str s). split; [|split; [|split]].
  - unfold Batch.appendStr, Batch.with_data, wire_str. cbn [Batch.data].
    by rewrite PutUvarint_mod.
  - by apply batchDecodeStr_wire.
  - by rewrite nextStr_batchDecodeStr, batchDecodeStr_wire.
  - intros n Hn. rewrite nextStr_batchDecodeStr, batchDecodeStr_truncated by done. done.
Qed.

Lemma appendStr_round_trip_witness :
  exists enc,
    Batch.data (Batch.appendStr Batch.newBatch ["k"%byte; "e"%byte; "y"%byte])
    = Batch.data Batch.newBatch ++ enc /\
    Batch.batchDecodeStr (enc ++ [x01]) = Some ([x01], ["k"%byte; "e"%byte; "y"%byte]) /\
    Batch.nextStr (enc ++ [x01]) = Some (["k"%byte; "e"%byte; "y"%byte], [x01]) /\
    forall n, (n < length enc)%nat ->
      Batch.batchDecodeStr (take n enc) = None /\ Batch.nextStr (take n enc) = None.
Proof.
  apply (appendStr_round_trip Batch.newBatch ["k"%byte; "e"%byte; "y"%byte] [x01]).
  vm_compute. reflexivity.
Defined.

Lemma decode_app (b b' : Batch.Batch) (ext : bytes) (e : N)
    (r : N * bytes * option bytes) :
  12 <= e ->
  (12 <= length (Batch.data b))%nat ->
  (12 <= length (Batch.data b'))%nat ->
  drop 12 (Batch.data b') = drop 12 (Batch.data b) ++ ext ->
  Batch.decode b e = Ret (Some r) ->
  Batch.decode b' e = Ret (Some r).
Proof.
  intros He Hl Hl' Hd Hr. unfold Batch.decode, slice_from in *.
  destruct (N.to_nat e <=? length (Batch.data b))%nat eqn:Hle; [|done].
  apply Nat.leb_le in Hle. cbn [mbind outcome_bind] in Hr.
  assert (Hdrop : drop (N.to_nat e) (Batch.data b') = drop (N.to_nat e) (Batch.data b) ++ ext).
  { rewrite (drop_from_12 (Batch.data b')), (drop_from_12 (Batch.data b)) by lia.
    rewrite Hd. apply drop_app_le. rewrite length_drop. lia. }
  assert (Hlen' : length (Batch.data b') = (length (Batch.data b) + length ext)%nat).
  { rewrite <- (take_drop 12 (Batch.data b')), <- (take_drop 12 (Batch.data b)).
    rewrite Hd, !length_app, !length_take. lia. }
  replace (N.to_nat e <=? length (Batch.data b'))%nat with true
    by (symmetry; apply Nat.leb_le; lia).
  cbn [mbind outcome_bind]. rewrite Hdrop.
  destruct (drop (N.to_nat e) (Batch.data b)) as [|k p]; [done|].
  cbn [app].
  destruct (db.InternalKeyKindMax <? Byte.to_N k); [done|].
  destruct (Batch.batchDecodeStr p) as [[p1 ukey]|] eqn:H1; [|done].
  rewrite (batchDecodeStr_app _ ext _ _ H1).
  destruct ((Byte.to_N k =? db.InternalKeyKindSet) || (Byte.to_N k =? db.InternalKeyKindMerge)
            || (Byte.to_N k =? db.InternalKeyKindRangeDelete)); [|done].
  destruct (Batch.batchDecodeStr p1) as [[p2 v]|] eqn:H2; [|done].
  by rewrite (batchDecodeStr_app _ ext _ _ H2).
Qed.

(** X3: [decode] reads back what a mutator has appended.  At the offset
    where the call started to write, it returns the kind, the key and the
    value of the call (the value also for MERGE); at the offsets of
    earlier entries it returns what it returned before the call. *)
Theorem decode_appended_entry (mtes : nat -> nat -> N) (o : op) (b : Batch.Batch) (n : N) :
  mutable_batch b o ->
  Batch.count (with_header b) = Ret n ->
  n < 2^32 - 1 ->
  N.of_nat (length (Batch.data (with_header b)) + length (wire_entry (op_entry o))) < 2^32 ->
  exists b',
    apply_op mtes o b = Ret (b', None) /\
    Batch.decode b' (N.of_nat (length (Batch.data (with_header b))))
    = Ret (Some (op_entry o)) /\
    forall e r, 12 <= e -> Batch.decode (with_header b) e = Ret (Some r) ->
                Batch.decode b' e = Ret (Some r).
Proof.
  intros Hm Hn Hlt Hsz.
  destruct (mutate_ok mtes o b n Hm Hn Hlt) as (p' & b' & Hr & Hp & Hv & Hd & Hc & Hix).
  pose proof (with_header_length b (proj1 Hm)) as Hl0.
  set (d0 := Batch.data (with_header b)) in *.
  assert (Hlen : length (Batch.data b') = (length d0 + length (wire_entry (op_entry o)))%nat).
  { rewrite Hd, !length_app, length_take, length_drop. lia. }
  assert (Hdrop : drop 12 (Batch.data b') = drop 12 d0 ++ wire_entry (op_entry o))
    by (rewrite Hd; by apply entries_kept).
  exists b'. split; [done|]. split.
  - apply entry_at_decode; [|rewrite Hlen; lia].
    split; [lia|]. exists []. rewrite Nat2N.id, app_nil_r.
    rewrite (drop_from_12 _ (length d0)) by lia.
    rewrite Hdrop. rewrite drop_app_length'; [done|].
    rewrite length_drop. lia.
  - intros e r He Hdec.
    eapply decode_app; [done| |rewrite Hlen; lia|exact Hdrop|exact Hdec]. done.
Qed.

Lemma decode_appended_entry_witness :
  exists b',
    apply_op entrySize (OpMerge ["k"%byte] ["w"%byte]) batch_set_delete = Ret (b', None) /\
    Batch.decode b' (N.of_nat (length (Batch.data (with_header batch_set_delete))))
    = Ret (Some (op_entry (OpMerge ["k"%byte] ["w"%byte]))) /\
    forall e r, 12 <= e -> Batch.decode (with_header batch_set_delete) e = Ret (Some r) ->
                Batch.decode b' e = Ret (Some r).
Proof.
  apply (decode_appended_entry entrySize (OpMerge ["k"%byte] ["w"%byte]) batch_set_delete 2).
  - split; [right; vm_compute; lia|].
    split; [by eexists|]. split; [vm_compute; reflexivity|].
    repeat (apply Forall_cons; split; [split; [vm_compute; congruence|by eexists]|]).
    apply Forall_nil_2.
  - reflexivity.
  - vm_compute. reflexivity.
  - vm_compute. reflexivity.
Defined.

Lemma Uvarint_read (r : bytes) (u : N) (n : Z) :
  binary.Uvarint r = (u, n) -> (n <= Z.of_nat (length r))%Z.
Proof.
  intros H. pose proof (Uvarint_loop_bound r 0 0 0) as Hb.
  unfold binary.Uvarint in H. rewrite H in Hb. cbn in Hb. lia.
Qed.

Lemma nextStr_suffix (r s r' : bytes) :
  Batch.nextStr r = Some (s, r') ->
  exists pre, r = pre ++ s ++ r' /\ (1 <= length pre)%nat.
Proof.
  unfold Batch.nextStr. destruct (binary.Uvarint r) as [u n] eqn:Hu.
  destruct (n <=? 0)%Z eqn:Hn; [done|]. apply Z.leb_gt in Hn.
  destruct (N.of_nat (length (drop (Z.to_nat n) r)) <? u) eqn:Hlt; [done|].
  intros [= <- <-]. exists (take (Z.to_nat n) r).
  rewrite take_drop, take_drop. split; [done|].
  apply Uvarint_read in Hu. rewrite length_take. lia.
Qed.

(** X5: a successful [next] takes the entry off the front of the reader:
    what is left is a proper suffix, at least two bytes shorter.  So the
    loops that call [next] until it fails end, within as many rounds as
    the reader has bytes. *)
Theorem next_consumes (r : bytes) :
  (forall e r', Batch.next r = (Some e, r') ->
     exists pre, r = pre ++ r' /\ (2 <= length pre)%nat) /\
  (forall fuel, (length r <= fuel)%nat ->
     Batch.read_all fuel r = Batch.read_all (length r) r).
Proof.
  assert (Hnext : forall (r : bytes) e r', Batch.next r = (Some e, r') ->
            exists pre, r = pre ++ r' /\ (2 <= length pre)%nat).
  { clear r. intros r e r' H. unfold Batch.next in H.
    destruct r as [|k r1]; [done|].
    destruct (db.InternalKeyKindMax <? Byte.to_N k); [done|].
    destruct (Batch.nextStr r1) as [[ukey r2]|] eqn:H1; [|done].
    destruct (nextStr_suffix _ _ _ H1) as (pre1 & -> & Hp1).
    destruct ((Byte.to_N k =? db.InternalKeyKindSet)
              || (Byte.to_N k =? db.InternalKeyKindRangeDelete)).
    - destruct (Batch.nextStr r2) as [[v r3]|] eqn:H2; [|done].
      destruct (nextStr_suffix _ _ _ H2) as (pre2 & -> & Hp2).
      injection H as _ <-. exists (k :: pre1 ++ ukey ++ pre2 ++ v).
      split; [cbn [app]; by rewrite <- ?app_assoc|]. cbn. rewrite length_app. lia.
    - injection H as _ <-. exists (k :: pre1 ++ ukey).
      split; [cbn [app]; by rewrite <- ?app_assoc|]. cbn. rewrite length_app. lia. }
  split; [apply Hnext|].
  assert (Hgen : forall n (r : bytes) fuel, (length r <= n)%nat -> (length r <= fuel)%nat ->
            Batch.read_all fuel r = Batch.read_all (length r) r).
  { clear r. induction n as [|n IH]; intros r fuel Hn Hf.
    - destruct r; [|cbn in Hn; lia]. by destruct fuel.
    - destruct r as [|k r1]; [by destruct fuel|].
      destruct fuel as [|fuel]; [cbn in Hf; lia|].
      cbn [length Batch.read_all].
      destruct (Batch.next (k :: r1)) as [[e|] r'] eqn:Hx; [|done].
      destruct (Hnext _ _ _ Hx) as (pre & Hpre & Hlen).
      assert (Hr' : (length r' + 2 <= length (k :: r1))%nat)
        by (rewrite Hpre, length_app; lia).
      cbn [length] in *. f_equal.
      rewrite (IH r' fuel) by lia. rewrite (IH r' (length r1)) by lia. done. }
  intros fuel Hf. by apply (Hgen (length r)).
Qed.

Lemma index_Add_fields (b b' : Batch.Batch) (off : N) :
  Batch.index_Add b off = Ret b' ->
  Batch.data b' = Batch.data b /\ Batch.cmp b' = Batch.cmp b /\
  Batch.memTableSize b' = Batch.memTableSize b /\
  (is_Some (Batch.index b') <-> is_Some (Batch.index b)).
Proof.
  unfold Batch.index_Add. destruct (Batch.index b) as [l|] eqn:Hl.
  - destruct (Batch.skl_Add _ _ _ _) as [[l'|e]|]; cbn [mbind outcome_bind]; [|done..].
    intros [= <-]. cbn. split_and!; [done..|]. split; eauto.
  - intros [= <-]. rewrite Hl. by split_and!.
Qed.

Lemma apply_op_memTableSize (mtes : nat -> nat -> N) (o : op) (b b' : Batch.Batch) :
  apply_op mtes o b = Ret (b', None) ->
  Batch.memTableSize b'
  = (Batch.memTableSize b
     + mtes (length (op_key o)) (from_option length 0%nat (op_value o))) mod 2^32.
Proof.
  rewrite apply_op_mutate. unfold Batch.mutate.
  set (b0 := if (length (Batch.data b) =? 0)%nat then _ else _).
  assert (Hm0 : Batch.memTableSize b0 = Batch.memTableSize b)
    by (subst b0; by destruct (length (Batch.data b) =? 0)%nat).
  unfold Batch.increment.
  destruct (Batch.countData b0) as [p|]; cbn [mbind outcome_bind]; [|done].
  destruct (Batch.increment_loop p) as [p'|]; cbn [mbind outcome_bind negb]; [|done].
  match goal with |- context [Batch.index_Add ?x ?y] =>
    destruct (Batch.index_Add x y) as [b1|] eqn:Hadd end; cbn [mbind outcome_bind]; [|done].
  intros [= <-]. apply index_Add_fields in Hadd as (_ & _ & Hm & _).
  cbn [Batch.add_memTableSize Batch.memTableSize]. rewrite Hm, <- Hm0.
  by destruct (op_value o).
Qed.

Section Refresh.
Context (mtes : nat -> nat -> N).

Lemma apply_ops_memTableSize (ops : list op) : forall b b' : Batch.Batch,
  apply_ops mtes ops b = Ret (b', None) ->
  Batch.memTableSize b'
  = fold_left (size_step mtes) (map op_entry ops) (Batch.memTableSize b).
Proof.
  induction ops as [|o ops IH]; intros b b' Hr.
  - by injection Hr as <-.
  - cbn [apply_ops] in Hr.
    destruct (apply_op mtes o b) as [[b1 [e|]]|] eqn:Ho; cbn [mbind outcome_bind] in Hr;
      try done.
    rewrite (IH _ _ Hr). cbn [map fold_left]. f_equal.
    by rewrite (apply_op_memTableSize _ _ _ _ Ho).
Qed.
End Refresh.

Section Refresh2.
Context (mtes : nat -> nat -> N).

(** X4: the reader reads back what [Set], [Delete] and [DeleteRange]
    have written: iterating a batch that these calls built from a new
    batch yields their entries in the order of the calls, with the
    value exactly for SET and RANGE_DELETE. *)
Theorem reader_yields_entries (ops : list op) (b : Batch.Batch) :
  apply_ops mtes ops Batch.newBatch = Ret (b, None) ->
  ops ≠ [] ->
  Forall (fun o => op_kind o ≠ db.InternalKeyKindMerge) ops ->
  N.of_nat (length (Batch.data b)) < 2^64 ->
  Batch.entries b = Ret (map op_entry ops).
Proof. apply entries_without_merge. Qed.

(** X7: [refreshMemTableSize] recomputes the size that the mutators
    have accumulated: on a batch that [Set], [Delete] and [DeleteRange]
    built from a new batch it changes nothing. *)
Theorem refreshMemTableSize_agrees (ops : list op) (b : Batch.Batch) :
  apply_ops mtes ops Batch.newBatch = Ret (b, None) ->
  ops ≠ [] ->
  Forall (fun o => op_kind o ≠ db.InternalKeyKindMerge) ops ->
  N.of_nat (length (Batch.data b)) < 2^64 ->
  Replay.refreshMemTableSize mtes b = Ret b.
Proof.
  intros Hr Hne Hnm Hlen. unfold Replay.refreshMemTableSize.
  rewrite (entries_without_merge mtes ops b Hr Hne Hnm Hlen).
  cbn [mbind outcome_bind]. f_equal.
  pose proof (apply_ops_memTableSize mtes ops _ _ Hr) as Hm.
  cbn [Batch.memTableSize Batch.newBatch] in Hm.
  destruct b as [d c m i]. cbn in *. f_equal. by rewrite Hm.
Qed.
End Refresh2.

Lemma reader_yields_entries_witness :
  Batch.entries
    {| Batch.data := repeat x00 8 ++ [x02; x00; x00; x00; x01; x01; "k"; x01; "v"; x00; x01; "k"]%byte;
       Batch.cmp := None; Batch.memTableSize := 19; Batch.index := None |}
  = Ret (map op_entry [OpSet ["k"%byte] ["v"%byte]; OpDelete ["k"%byte]]).
Proof.
  apply (reader_yields_entries entrySize [OpSet ["k"%byte] ["v"%byte]; OpDelete ["k"%byte]]).
  - vm_compute. reflexivity.
  - discriminate.
  - repeat (apply Forall_cons; split; [vm_compute; congruence|]). apply Forall_nil_2.
  - vm_compute. reflexivity.
Defined.

Lemma refreshMemTableSize_agrees_witness :
  let b := {| Batch.data := repeat x00 8 ++ [x02; x00; x00; x00; x01; x01; "k"; x01; "v"; x00; x01; "k"]%byte;
              Batch.cmp := None; Batch.memTableSize := 19; Batch.index := None |} in
  Replay.refreshMemTableSize entrySize b = Ret b.
Proof.
  apply (refreshMemTableSize_agrees entrySize [OpSet ["k"%byte] ["v"%byte]; OpDelete ["k"%byte]]).
  - vm_compute. reflexivity.
  - discriminate.
  - repeat (apply Forall_cons; split; [vm_compute; congruence|]). apply Forall_nil_2.
  - vm_compute. reflexivity.
Defined.

Section Seek.
Context (c : db.Compare) `{!CompareOrder c}.

Lemma cmp_refl (a : bytes) : c a a = 0%Z.
Proof. destruct (cmp_cases c a a); lia. Qed.

Lemma seek_sorted_spec (f : N -> bytes) (key : bytes) (l : list N) :
  StronglySorted (index_before c f) l ->
  match seek_sorted c f key l with
  | [] => Forall (fun e => (0 < c key (f e))%Z) l
  | e :: _ =>
      e ∈ l /\ (c key (f e) <= 0)%Z /\
      forall e', e' ∈ l -> (c key (f e') <= 0)%Z -> (c (f e) (f e') <= 0)%Z
  end.
Proof.
  induction l as [|e l IH]; intros Hs; [by apply Forall_nil_2|].
  apply StronglySorted_cons in Hs as [Hall Hs]. cbn [seek_sorted].
  destruct (Z.leb_spec (c key (f e)) 0) as [Hle|Hgt].
  - split; [by left|]. split; [done|].
    intros e' He' _. apply elem_of_cons in He' as [->|He'].
    + rewrite cmp_refl. lia.
    + rewrite Forall_forall in Hall. specialize (Hall e' He').
      unfold index_before in Hall. lia.
  - specialize (IH Hs). destruct (seek_sorted c f key l) as [|e0 tl].
    + apply Forall_cons. by split.
    + destruct IH as (Hin & Hle & Hmin). split; [by right|]. split; [done|].
      intros e' He' Hk. apply elem_of_cons in He' as [->|He']; [lia|]. by apply Hmin.
Qed.
End Seek.

Section GetMiss.
Context (mtes : nat -> nat -> N) (c : db.Compare) `{!CompareOrder c}.

Lemma indexed_offsets (ops : list op) (b : Batch.Batch) (l : list N) :
  indexed c ops b ->
  Batch.index b = Some l ->
  (forall e, e ∈ l -> exists o, o ∈ ops /\ entry_at (Batch.data b) e o) /\
  (forall o, o ∈ ops -> exists e, e ∈ l /\ entry_at (Batch.data b) e o).
Proof.
  intros [Hc Hhdr (offs & l' & Hents & Hoffs & Hidx & Hmem & Hsort)] Hl.
  rewrite Hl in Hidx. injection Hidx as <-. split.
  - intros e He. apply Hmem in He. apply list_elem_of_lookup in He as [i Hi].
    destruct (Forall2_lookup_l _ _ _ _ _ Hents Hi) as (o & Hoi & Ho).
    exists o. split; [by apply list_elem_of_lookup_2 in Hoi|done].
  - intros o Ho. apply list_elem_of_lookup in Ho as [i Hi].
    destruct (Forall2_lookup_r _ _ _ _ _ Hents Hi) as (e & Hei & He).
    exists e. split; [apply Hmem; by apply list_elem_of_lookup_2 in Hei|done].
Qed.

(** X6: what [Get] does when the key is not in the batch.  It returns
    [ErrNotFound] when every key of the batch is smaller than the one
    sought.  When the batch holds a key that is not smaller, [Get]
    returns without error the value of an entry with the smallest such
    key, whether that key equals the one sought or is larger. *)
Theorem Get_miss (ops : list op) (b : Batch.Batch) (key : bytes) :
  built mtes c ops b ->
  N.of_nat (length (Batch.data b)) < 2^32 ->
  (Forall (fun o => (0 < c key (op_key o))%Z) ops ->
   Batch.Get b key = Ret (None, Some ErrNotFound)) /\
  (Exists (fun o => (c key (op_key o) <= 0)%Z) ops ->
   exists o,
     o ∈ ops /\ (c key (op_key o) <= 0)%Z /\
     (forall o', o' ∈ ops -> (c key (op_key o') <= 0)%Z ->
                 (c (op_key o) (op_key o') <= 0)%Z) /\
     Batch.Get b key = Ret (op_value o, None)).
Proof.
  intros Hb Hlen. pose proof (built_indexed mtes c ops b Hb Hlen) as Hix.
  pose proof Hix as [Hc Hhdr (offs & l & Hents & Hoffs & Hidx & Hmem & Hsort)].
  destruct (indexed_offsets ops b l Hix Hidx) as [Hlo Hol].
  assert (Hgets : Forall (fun e => exists k, Batch.batchStorage_Get b e = Ret k) l).
  { apply Forall_forall. intros e He. destruct (Hlo e He) as (o' & _ & Ho').
    eexists. by apply (entry_at_Get b e o'). }
  pose proof (seek_sorted_spec c (key_at b) key l Hsort) as Hseek.
  unfold Batch.Get. rewrite Hidx, (skl_SeekGE_pure b c key l Hc Hgets).
  cbn [mbind outcome_bind]. split.
  - intros Hall. destruct (seek_sorted c (key_at b) key l) as [|e tl]; [done|].
    destruct Hseek as (He & Hle & _). destruct (Hlo e He) as (o & Ho & Hat).
    rewrite (entry_at_key b e o Hat Hlen) in Hle.
    rewrite Forall_forall in Hall. specialize (Hall o Ho). lia.
  - intros Hex. apply Exists_exists in Hex as (o0 & Ho0 & Hk0).
    destruct (seek_sorted c (key_at b) key l) as [|e tl].
    + destruct (Hol o0 Ho0) as (e0 & He0 & Hat0).
      rewrite Forall_forall in Hseek. specialize (Hseek e0 He0).
      rewrite (entry_at_key b e0 o0 Hat0 Hlen) in Hseek. lia.
    + destruct Hseek as (He & Hle & Hmin). destruct (Hlo e He) as (o & Ho & Hat).
      rewrite (entry_at_key b e o Hat Hlen) in Hle.
      exists o. split; [done|]. split; [done|]. split.
      * intros o' Ho' Hk'. destruct (Hol o' Ho') as (e' & He' & Hat').
        specialize (Hmin e' He').
        rewrite (entry_at_key b e' o' Hat' Hlen), (entry_at_key b e o Hat Hlen) in Hmin.
        by apply Hmin.
      * rewrite (entry_at_decode b e o Hat Hlen). cbn [mbind outcome_bind op_entry].
        unfold Batch.call_cmp. rewrite Hc. cbn [mbind outcome_bind].
        replace (0 <? c key (op_key o))%Z with false by (symmetry; apply Z.ltb_ge; lia).
        done.
Qed.
End GetMiss.

Lemma Get_miss_witness :
  (Forall (fun o => (0 < bytes_Compare ["a"%byte] (op_key o))%Z)
          [OpSet ["k"%byte] ["v"%byte]; OpDelete ["k"%byte]] ->
   Batch.Get batch_set_delete ["a"%byte] = Ret (None, Some ErrNotFound)) /\
  (Exists (fun o => (bytes_Compare ["a"%byte] (op_key o) <= 0)%Z)
          [OpSet ["k"%byte] ["v"%byte]; OpDelete ["k"%byte]] ->
   exists o,
     o ∈ [OpSet ["k"%byte] ["v"%byte]; OpDelete ["k"%byte]] /\
     (bytes_Compare ["a"%byte] (op_key o) <= 0)%Z /\
     (forall o', o' ∈ [OpSet ["k"%byte] ["v"%byte]; OpDelete ["k"%byte]] ->
                 (bytes_Compare ["a"%byte] (op_key o') <= 0)%Z ->
                 (bytes_Compare (op_key o) (op_key o') <= 0)%Z) /\
     Batch.Get batch_set_delete ["a"%byte] = Ret (op_value o, None)).
Proof.
  apply (Get_miss entrySize bytes_Compare
           [OpSet ["k"%byte] ["v"%byte]; OpDelete ["k"%byte]] batch_set_delete ["a"%byte]).
  - apply (built_ok entrySize bytes_Compare [OpSet ["k"%byte] ["v"%byte]] _ (OpDelete ["k"%byte]) _
             (built_ok entrySize bytes_Compare [] _ (OpSet ["k"%byte] ["v"%byte]) _
                (built_new entrySize bytes_Compare) eq_refl)).
    reflexivity.
  - vm_compute. reflexivity.
Defined.

Section ApplyPlain.
Context (mtes : nat -> nat -> N).

Lemma Apply_loop_plain (fuel : nat) : forall (start iter : bytes) (b : Batch.Batch),
  Batch.index b = None ->
  exists b',
    Batch.Apply_loop mtes fuel start iter b = Ret b' /\
    Batch.data b' = Batch.data b /\ Batch.index b' = None /\
    Batch.cmp b' = Batch.cmp b /\
    Batch.memTableSize b'
    = fold_left (size_step mtes) (Batch.read_all fuel iter) (Batch.memTableSize b).
Proof.
  induction fuel as [|fuel IH]; intros start iter b Hix; [by exists b|].
  cbn [Batch.Apply_loop Batch.read_all].
  destruct (Batch.next iter) as [[[[kind key] value]|] iter'] eqn:Hn; [|by exists b].
  rewrite Hix. cbn [mbind outcome_bind].
  destruct (IH start iter' (Batch.add_memTableSize mtes b (length key)
                              (from_option length 0%nat value)) Hix)
    as (b' & Hr & Hd & Hi & Hc & Hm).
  exists b'. split; [done|]. split; [done|]. split; [done|]. split; [done|].
  rewrite Hm. done.
Qed.

Lemma Apply_unfold (b batch : Batch.Batch) :
  (12 <= length (Batch.data batch))%nat ->
  (length (Batch.data b) = 0 \/ 12 <= length (Batch.data b))%nat ->
  let d0 := Batch.data (with_header b) in
  let ext := drop 12 (Batch.data batch) in
  let n1 := binary.le_value (take 4 (drop 8 d0)) in
  let n2 := binary.le_value (take 4 (drop 8 (Batch.data batch))) in
  exists b2,
    Batch.Apply mtes b batch
    = (b' ← Batch.Apply_loop mtes (S (length ext)) ext ext b2; Ret (b', None)) /\
    Batch.index b2 = Batch.index b /\ Batch.cmp b2 = Batch.cmp b /\
    Batch.memTableSize b2 = Batch.memTableSize b /\
    Batch.data b2
    = take 8 d0 ++ binary.le_bytes 4 ((n1 + n2) mod 2^32) ++ drop 12 d0 ++ ext.
Proof.
  intros H12 Hhdr d0 ext n1 n2.
  unfold Batch.Apply, Batch.batchHeaderLen.
  replace (length (Batch.data batch) =? 0)%nat with false
    by (symmetry; apply Nat.eqb_neq; lia).
  replace (length (Batch.data batch) <? 12)%nat with false
    by (symmetry; apply Nat.ltb_ge; lia).
  pose proof (with_header_length b Hhdr) as Hl0.
  set (b0 := with_header b) in *.
  set (off := if (length (Batch.data b) =? 0)%nat then 12%nat else length (Batch.data b)).
  assert (Hb0 : (if (length (Batch.data b) =? 0)%nat
                 then (Batch.init (length (Batch.data b)) b, 12%nat)
                 else (b, length (Batch.data b))) = (b0, off)).
  { subst b0 off. unfold with_header.
    by destruct (length (Batch.data b) =? 0)%nat. }
  rewrite Hb0.
  assert (Hoff : off = length (Batch.data b0)).
  { subst b0 off. unfold with_header.
    by destruct (length (Batch.data b) =? 0)%nat. }
  fold ext.
  set (b1 := Batch.with_data b0 (Batch.data b0 ++ ext)).
  assert (Hf0 : Batch.index b0 = Batch.index b /\ Batch.cmp b0 = Batch.cmp b
                /\ Batch.memTableSize b0 = Batch.memTableSize b).
  { subst b0. unfold with_header. by destruct (length (Batch.data b) =? 0)%nat. }
  destruct Hf0 as (Hix0 & Hcmp0 & Hm0).
  unfold binary.Uint32 at 1.
  rewrite length_take, length_drop.
  replace (4 <=? 4 `min` (length (Batch.data batch) - 8))%nat with true
    by (symmetry; apply Nat.leb_le; lia).
  cbn [mbind outcome_bind]. rewrite take_take. change (4 `min` 4)%nat with 4%nat.
  fold n2.
  assert (Hl1 : (12 <= length (Batch.data b1))%nat)
    by (subst b1; cbn; rewrite length_app; lia).
  assert (Hc1 : Batch.count b1 = Ret n1).
  { rewrite count_Ret by done.
    subst b1 n1 d0. cbn [Batch.data Batch.with_data].
    rewrite drop_app_le, take_app_le by (rewrite ?length_drop; lia). done. }
  rewrite Hc1. cbn [mbind outcome_bind].
  unfold Batch.setCount. rewrite countData_Ret by done. cbn [mbind outcome_bind].
  rewrite N.Div0.mod_mod.
  set (p := binary.le_bytes 4 ((n1 + n2) mod 2^32)).
  assert (Hp : length p = 4%nat) by apply le_bytes_length.
  set (b2 := Batch.set_countData b1 p).
  assert (Hd2 : Batch.data b2
                = take 8 (Batch.data b0) ++ p ++ drop 12 (Batch.data b0) ++ ext).
  { subst b2 b1. unfold Batch.set_countData. cbn [Batch.data Batch.with_data].
    rewrite take_app_le, drop_app_le by lia. done. }
  assert (Hl2 : length (Batch.data b2) = (length (Batch.data b0) + length ext)%nat).
  { rewrite Hd2, !length_app, length_take, length_drop. lia. }
  unfold slice_from.
  replace (off <=? length (Batch.data b2))%nat with true
    by (symmetry; apply Nat.leb_le; lia).
  cbn [mbind outcome_bind].
  assert (Hstart : drop off (Batch.data b2) = ext).
  { rewrite Hoff, Hd2. rewrite !app_assoc.
    apply drop_app_length'. rewrite !length_app, length_take, length_drop. lia. }
  rewrite Hstart.
  exists b2. split; [done|]. split; [by subst b2 b1|]. split; [by subst b2 b1|].
  split; [by subst b2 b1|]. done.
Qed.

(** X8: [Apply] on a receiver without index.  An empty argument changes
    nothing; an argument shorter than a header is refused.  Otherwise
    the entries of the argument are appended to those of the receiver
    (which gets its header first when it is empty), the sequence number
    of the receiver is kept, the counts are added modulo [2^32], and the
    memtable size grows by the sizes of the entries that the reader
    finds in the argument. *)
Theorem Apply_appends (b batch : Batch.Batch) :
  (Batch.data batch = [] -> Batch.Apply mtes b batch = Ret (b, None)) /\
  ((0 < length (Batch.data batch) < 12)%nat ->
   Batch.Apply mtes b batch = Ret (b, Some (Errorf "pebble: invalid batch"))) /\
  ((12 <= length (Batch.data batch))%nat ->
   Batch.index b = None ->
   (length (Batch.data b) = 0 \/ 12 <= length (Batch.data b))%nat ->
   forall n1 n2 es,
     Batch.count (with_header b) = Ret n1 ->
     Batch.count batch = Ret n2 ->
     Batch.entries batch = Ret es ->
     exists b',
       Batch.Apply mtes b batch = Ret (b', None) /\
       take 8 (Batch.data b') = take 8 (Batch.data (with_header b)) /\
       Batch.count b' = Ret ((n1 + n2) mod 2^32) /\
       drop 12 (Batch.data b')
       = drop 12 (Batch.data (with_header b)) ++ drop 12 (Batch.data batch) /\
       Batch.memTableSize b' = fold_left (size_step mtes) es (Batch.memTableSize b)).
Proof.
  split; [|split].
  - intros Hd. unfold Batch.Apply. by rewrite Hd.
  - intros [H0 H12]. unfold Batch.Apply, Batch.batchHeaderLen.
    replace (length (Batch.data batch) =? 0)%nat with false
      by (symmetry; apply Nat.eqb_neq; lia).
    replace (length (Batch.data batch) <? 12)%nat with true
      by (symmetry; apply Nat.ltb_lt; lia).
    done.
  - intros H12 Hix Hhdr n1 n2 es Hn1 Hn2 Hes.
    pose proof (with_header_length b Hhdr) as Hl0.
    destruct (Apply_unfold b batch H12 Hhdr) as (b2 & -> & Hix2 & _ & Hm2 & Hd2).
    rewrite count_Ret in Hn1, Hn2 by done. injection Hn1 as Hn1. injection Hn2 as Hn2.
    rewrite Hn1, Hn2 in Hd2. rewrite Hix in Hix2.
    set (ext := drop 12 (Batch.data batch)) in *.
    destruct (Apply_loop_plain (S (length ext)) ext ext b2 Hix2)
      as (b' & Hr & Hd & Hi & Hc & Hm).
    rewrite Hr. cbn [mbind outcome_bind].
    assert (Hp : length (binary.le_bytes 4 ((n1 + n2) mod 2^32)) = 4%nat)
      by apply le_bytes_length.
    exists b'. split; [done|]. split; [|split; [|split]].
    + rewrite Hd, Hd2. rewrite take_app_length'; [done|]. rewrite length_take. lia.
    + rewrite count_Ret
        by (rewrite Hd, Hd2, !length_app, length_take, length_drop; lia).
      rewrite Hd, Hd2. rewrite count_bytes_replaced by done.
      rewrite le_value_le_bytes. change (256 ^ N.of_nat 4) with (2^32).
      by rewrite !N.Div0.mod_mod.
    + rewrite Hd, Hd2. by apply entries_kept.
    + rewrite Hm, Hm2. f_equal.
      unfold Batch.entries, Batch.iter, slice_from, Batch.batchHeaderLen in Hes.
      replace (12 <=? length (Batch.data batch))%nat with true in Hes
        by (symmetry; apply Nat.leb_le; lia).
      cbn [mbind outcome_bind] in Hes. injection Hes as <-. fold ext.
      apply (proj2 (next_consumes ext)). lia.
Qed.

Lemma Apply_loop_indexed (ops : list op) : forall (fuel : nat) (start : bytes) (b : Batch.Batch),
  ops ≠ [] ->
  Forall (fun o => op_kind o ≠ db.InternalKeyKindMerge) ops ->
  N.of_nat (length (concat (map (fun o => wire_entry (op_entry o)) ops))) < 2^64 ->
  (length ops <= fuel)%nat ->
  is_Some (Batch.index b) ->
  exists msg,
    Batch.Apply_loop mtes fuel start
      (concat (map (fun o => wire_entry (op_entry o)) ops)) b = Panic msg.
Proof.
  induction ops as [|o ops IH]; intros fuel start b Hne Hnm Hsz Hfuel Hix; [done|].
  destruct fuel as [|fuel]; [cbn in Hfuel; lia|].
  apply Forall_cons in Hnm as [Ho Hnm].
  cbn [map concat] in *. rewrite length_app in Hsz.
  cbn [Batch.Apply_loop]. rewrite next_wire_entry by lia.
  assert (Hnext : match o with
                  | OpMerge k v =>
                      (Some (db.InternalKeyKindMerge, k, @None bytes),
                       wire_str v ++ concat (map (fun o => wire_entry (op_entry o)) ops))
                  | _ => (Some (op_entry o), concat (map (fun o => wire_entry (op_entry o)) ops))
                  end
                  = (Some (op_entry o), concat (map (fun o => wire_entry (op_entry o)) ops)))
    by (by destruct o).
  rewrite Hnext. unfold op_entry at 1.
  destruct Hix as [l Hl]. rewrite Hl.
  destruct ops as [|o' ops'].
  - cbn [map concat mbind outcome_bind]. by eexists.
  - remember (o' :: ops') as ops1 eqn:Hops1.
    assert (Hcons : exists x xs, concat (map (fun o => wire_entry (op_entry o)) ops1) = x :: xs).
    { subst ops1. cbn [map concat]. unfold wire_entry at 1.
      destruct (op_entry o') as [[k1 k2] k3]. cbn [app]. by eexists _, _. }
    destruct Hcons as (x & xs & Hxs). rewrite Hxs.
    match goal with |- context [Batch.index_Add ?a ?c] =>
      destruct (Batch.index_Add a c) as [b1|msg] eqn:Hadd end;
      cbn [mbind outcome_bind]; [|by eexists].
    rewrite <- Hxs.
    apply IH; [by subst ops1|done|lia|cbn [length] in Hfuel; lia|].
    apply index_Add_fields in Hadd as (_ & _ & _ & Hs).
    cbn [Batch.add_memTableSize Batch.index]. apply Hs. rewrite Hl. by eexists.
Qed.

(** X10: [Apply] on an indexed receiver.  The offset of an entry is
    computed after the reader has moved past it, from the address of
    the first byte that is left: when the argument holds entries that
    the reader reads to the end of the buffer, as those written by
    [Set], [Delete] and [DeleteRange] are, the call panics. *)
Theorem Apply_indexed_panics (b b2 : Batch.Batch) (ops : list op) :
  is_Some (Batch.index b) ->
  (length (Batch.data b) = 0 \/ 12 <= length (Batch.data b))%nat ->
  apply_ops mtes ops Batch.newBatch = Ret (b2, None) ->
  ops ≠ [] ->
  Forall (fun o => op_kind o ≠ db.InternalKeyKindMerge) ops ->
  N.of_nat (length (Batch.data b2)) < 2^64 ->
  exists msg, Batch.Apply mtes b b2 = Panic msg.
Proof.
  intros Hix Hhdr Hr Hne Hnm Hsz.
  destruct (apply_ops_data mtes ops Batch.newBatch b2 ltac:(by left) eq_refl Hr Hne)
    as [Hl Hd].
  change (drop 12 (Batch.data (with_header Batch.newBatch))) with (@nil byte) in Hd.
  cbn [app] in Hd.
  destruct (Apply_unfold b b2 Hl Hhdr) as (b3 & -> & Hix3 & _).
  rewrite Hd.
  assert (Hcl : length (concat (map (fun o => wire_entry (op_entry o)) ops))
                = (length (Batch.data b2) - 12)%nat)
    by (rewrite <- Hd; apply length_drop).
  destruct (Apply_loop_indexed ops
              (S (length (concat (map (fun o => wire_entry (op_entry o)) ops))))
              (concat (map (fun o => wire_entry (op_entry o)) ops)) b3 Hne Hnm)
    as [msg Hmsg]; [lia| |by rewrite Hix3|].
  - clear -ops. induction ops as [|o ops IH]; cbn [length map concat]; [lia|].
    rewrite length_app. pose proof (wire_entry_length o). lia.
  - rewrite Hmsg. by eexists.
Qed.
End ApplyPlain.

Lemma apply_op_plain (mtes : nat -> nat -> N) (o : op) (b b' : Batch.Batch) (e : option error) :
  Batch.index b = None ->
  apply_op mtes o b = Ret (b', e) ->
  Batch.index b' = None.
Proof.
  intros Hix. rewrite apply_op_mutate. unfold Batch.mutate.
  set (b0 := if (length (Batch.data b) =? 0)%nat then _ else _).
  assert (Hi0 : Batch.index b0 = None)
    by (subst b0; by destruct (length (Batch.data b) =? 0)%nat).
  unfold Batch.increment.
  destruct (Batch.countData b0) as [p|]; cbn [mbind outcome_bind]; [|done].
  destruct (Batch.increment_loop p) as [p'|]; cbn [mbind outcome_bind negb].
  - match goal with |- context [Batch.index_Add ?x ?y] =>
      destruct (Batch.index_Add x y) as [b1|] eqn:Hadd end; cbn [mbind outcome_bind]; [|done].
    intros [= <- <-]. apply index_Add_fields in Hadd as (_ & _ & _ & Hs).
    cbn [Batch.add_memTableSize Batch.index].
    destruct (Batch.index b1); [|done]. exfalso.
    destruct Hs as [Hs _]. specialize (Hs ltac:(eauto)).
    assert (Hn : Batch.index b0 = None -> False); [|by apply Hn].
    intros Hn. destruct (op_value o);
      cbn [Batch.index Batch.appendStr Batch.with_data Batch.set_countData] in Hs;
      rewrite Hn in Hs; by destruct Hs.
  - intros [= <- <-]. by cbn.
Qed.

Lemma apply_ops_plain (mtes : nat -> nat -> N) (ops : list op) :
  forall (b b' : Batch.Batch) (e : option error),
  Batch.index b = None ->
  apply_ops mtes ops b = Ret (b', e) ->
  Batch.index b' = None.
Proof.
  induction ops as [|o ops IH]; intros b b' e Hix Hr.
  - by injection Hr as <- <-.
  - cbn [apply_ops] in Hr.
    destruct (apply_op mtes o b) as [[b1 [e1|]]|] eqn:Ho; cbn [mbind outcome_bind] in Hr;
      try done.
    + injection Hr as <- <-. by eapply apply_op_plain.
    + eapply IH; [|done]. by eapply apply_op_plain.
Qed.

Lemma count_of_bytes (b : Batch.Batch) (n : N) :
  (12 <= length (Batch.data b))%nat ->
  Batch.count b = Ret n ->
  take 4 (drop 8 (Batch.data b)) = binary.le_bytes 4 n.
Proof.
  intros Hl Hn. rewrite count_Ret in Hn by done. injection Hn as <-.
  pose proof (le_bytes_le_value (take 4 (drop 8 (Batch.data b)))) as E.
  rewrite length_take, length_drop in E.
  replace (4 `min` (length (Batch.data b) - 8))%nat with 4%nat in E by lia.
  by rewrite E.
Qed.

Lemma count_Ret_length (b : Batch.Batch) (n : N) :
  Batch.count b = Ret n -> (12 <= length (Batch.data b))%nat.
Proof.
  unfold Batch.count, Batch.countData, Batch.batchHeaderLen.
  destruct (12 <=? length (Batch.data b))%nat eqn:H; [|done].
  intros _. by apply Nat.leb_le.
Qed.

Section ApplyComposes.
Context (mtes : nat -> nat -> N).

Lemma built_plain (ops : list op) :
  N.of_nat (length ops) < 2^32 ->
  exists b,
    apply_ops mtes ops Batch.newBatch = Ret (b, None) /\
    Batch.index b = None /\
    (length (Batch.data b) = 0 \/ 12 <= length (Batch.data b))%nat /\
    (ops ≠ [] -> (12 <= length (Batch.data b))%nat) /\
    Batch.count (with_header b) = Ret (N.of_nat (length ops)) /\
    take 8 (Batch.data (with_header b)) = repeat x00 8 /\
    drop 12 (Batch.data (with_header b))
    = concat (map (fun o => wire_entry (op_entry o)) ops).
Proof.
  intros Hlen. destruct (Repr_wire_format mtes ops Hlen) as (b & Hr & Hrepr).
  exists b. split; [done|]. split; [by apply (apply_ops_plain mtes ops Batch.newBatch b None eq_refl Hr)|].
  unfold Batch.Repr in Hrepr. destruct ops as [|o ops].
  - injection Hr as <-. split; [by left|]. split; [done|]. done.
  - assert (Hl : (12 <= length (Batch.data b))%nat).
    { rewrite Hrepr, !length_app, le_bytes_length. cbn. lia. }
    split; [by right|]. split; [done|].
    rewrite with_header_nonempty by done. rewrite count_Ret by done. rewrite Hrepr.
    split; [|split].
    + f_equal. change (repeat x00 8) with (take 8 (repeat x00 8 ++ [])) at 1.
      replace (drop 8 _) with
        (binary.le_bytes 4 (N.of_nat (length (o :: ops)))
         ++ concat (map (fun o => wire_entry (op_entry o)) (o :: ops))).
      * rewrite take_app_length' by (rewrite le_bytes_length; lia).
        rewrite le_value_le_bytes. change (256 ^ N.of_nat 4) with (2^32).
        by rewrite N.mod_small.
      * symmetry. apply drop_app_length'. cbn. lia.
    + apply take_app_length'. cbn. lia.
    + rewrite app_assoc. apply drop_app_length'.
      rewrite length_app, le_bytes_length. cbn. lia.
Qed.

(** X9: [Apply] composes with the mutators.  Applying the batch that
    the calls [ops2] built to the batch that the calls [ops1] built
    leaves the same representation as making all the calls, [ops1] and
    then [ops2], on one batch. *)
Theorem Apply_composes (ops1 ops2 : list op) :
  N.of_nat (length ops1 + length ops2) < 2^32 ->
  exists b1 b2 b b12,
    apply_ops mtes ops1 Batch.newBatch = Ret (b1, None) /\
    apply_ops mtes ops2 Batch.newBatch = Ret (b2, None) /\
    Batch.Apply mtes b1 b2 = Ret (b, None) /\
    apply_ops mtes (ops1 ++ ops2) Batch.newBatch = Ret (b12, None) /\
    Batch.Repr b = Batch.Repr b12.
Proof.
  intros Hlen.
  destruct (built_plain ops1 ltac:(lia)) as (b1 & Hr1 & Hi1 & Hh1 & _ & Hc1 & Ht1 & Hd1).
  destruct (built_plain ops2 ltac:(lia)) as (b2 & Hr2 & Hi2 & Hh2 & Hl2 & Hc2 & Ht2 & Hd2).
  destruct (built_plain (ops1 ++ ops2) ltac:(rewrite length_app; lia))
    as (b12 & Hr12 & Hi12 & Hh12 & Hl12 & Hc12 & Ht12 & Hd12).
  exists b1, b2.
  destruct ops2 as [|o2 ops2'].
  - injection Hr2 as <-. exists b1, b12. split; [done|]. split; [done|].
    split; [by apply (Apply_appends mtes b1 Batch.newBatch)|]. split; [done|].
    rewrite app_nil_r in Hr12. rewrite Hr1 in Hr12. by injection Hr12 as <-.
  - specialize (Hl2 ltac:(done)).
    rewrite with_header_nonempty in Hc2, Hd2 by done.
    assert (Hes : exists es, Batch.entries b2 = Ret es).
    { unfold Batch.entries, Batch.iter, slice_from, Batch.batchHeaderLen.
      replace (12 <=? length (Batch.data b2))%nat with true
        by (symmetry; apply Nat.leb_le; lia).
      by eexists. }
    destruct Hes as [es Hes].
    destruct (proj2 (proj2 (Apply_appends mtes b1 b2)) Hl2 Hi1 Hh1 _ _ es Hc1 Hc2 Hes)
      as (b & Hr & Ht & Hc & Hd & _).
    exists b, b12. split; [done|]. split; [done|]. split; [done|]. split; [done|].
    specialize (Hl12 ltac:(by destruct ops1)).
    rewrite with_header_nonempty in Hc12, Ht12, Hd12 by done.
    assert (Hl : (12 <= length (Batch.data b))%nat) by (by eapply count_Ret_length).
    unfold Batch.Repr.
    rewrite <- (header_restored (Batch.data b)) by done.
    rewrite <- (header_restored (Batch.data b12)) by done.
    rewrite Ht, Ht1, Ht12, Hd, Hd1, Hd2, Hd12.
    rewrite (count_of_bytes b _ Hl Hc), (count_of_bytes b12 _ Hl12 Hc12).
    rewrite map_app, concat_app. do 2 f_equal.
    rewrite N.mod_small by lia. rewrite length_app. f_equal. lia.
Qed.
End ApplyComposes.

Lemma Apply_composes_witness :
  exists b1 b2 b b12,
    apply_ops entrySize [OpSet ["k"%byte] ["v"%byte]] Batch.newBatch = Ret (b1, None) /\
    apply_ops entrySize [OpMerge ["k"%byte] ["w"%byte]; OpDelete ["j"%byte]] Batch.newBatch
    = Ret (b2, None) /\
    Batch.Apply entrySize b1 b2 = Ret (b, None) /\
    apply_ops entrySize
      ([OpSet ["k"%byte] ["v"%byte]] ++ [OpMerge ["k"%byte] ["w"%byte]; OpDelete ["j"%byte]])
      Batch.newBatch = Ret (b12, None) /\
    Batch.Repr b = Batch.Repr b12.
Proof.
  apply (Apply_composes entrySize [OpSet ["k"%byte] ["v"%byte]]
           [OpMerge ["k"%byte] ["w"%byte]; OpDelete ["j"%byte]]).
  vm_compute. reflexivity.
Defined.

Lemma Apply_indexed_panics_witness :
  exists msg,
    Batch.Apply entrySize (Batch.newIndexedBatch bytes_Compare)
      {| Batch.data := repeat x00 8 ++ [x01; x00; x00; x00; x01; x01; "k"; x01; "v"]%byte;
         Batch.cmp := None; Batch.memTableSize := 10; Batch.index := None |}
    = Panic msg.
Proof.
  apply (Apply_indexed_panics entrySize (Batch.newIndexedBatch bytes_Compare) _
           [OpSet ["k"%byte] ["v"%byte]]).
  - by eexists.
  - left. reflexivity.
  - vm_compute. reflexivity.
  - discriminate.
  - repeat (apply Forall_cons; split; [vm_compute; congruence|]). apply Forall_nil_2.
  - vm_compute. reflexivity.
Defined.

(** X11: the header fields.  [setSeqNum] and [setCount] store a number
    that [seqNum] and [count] read back (modulo [2^64] and [2^32]), and
    each leaves the other field and the entries as they were. *)
Theorem header_fields_round_trip (b : Batch.Batch) (n v : N) :
  (12 <= length (Batch.data b))%nat ->
  (exists b', Batch.setSeqNum b n = Ret b' /\
              Batch.seqNum b' = Ret (n mod 2^64) /\
              Batch.count b' = Batch.count b /\
              drop 12 (Batch.data b') = drop 12 (Batch.data b)) /\
  (exists b', Batch.setCount b v = Ret b' /\
              Batch.count b' = Ret (v mod 2^32) /\
              Batch.seqNum b' = Batch.seqNum b /\
              drop 12 (Batch.data b') = drop 12 (Batch.data b)).
Proof.
  intros Hl. split.
  - unfold Batch.setSeqNum, Batch.seqNumData.
    replace (8 <=? length (Batch.data b))%nat with true by (symmetry; apply Nat.leb_le; lia).
    cbn [mbind outcome_bind]. eexists. split; [done|].
    set (p := binary.le_bytes 8 (n mod 2^64)).
    assert (Hp : length p = 8%nat) by apply le_bytes_length.
    assert (Hlen : length (p ++ drop 8 (Batch.data b)) = length (Batch.data b))
      by (rewrite length_app, length_drop; lia).
    split; [|split].
    + unfold Batch.seqNum, Batch.seqNumData. cbn [Batch.data Batch.with_data].
      rewrite Hlen.
      replace (8 <=? length (Batch.data b))%nat with true by (symmetry; apply Nat.leb_le; lia).
      cbn [mbind outcome_bind]. rewrite take_app_length' by lia.
      unfold binary.Uint64. rewrite Hp. cbn [Nat.leb].
      rewrite <- Hp at 1. rewrite firstn_all. subst p.
      rewrite le_value_le_bytes. change (256 ^ N.of_nat 8) with (2^64).
      by rewrite N.Div0.mod_mod.
    + rewrite !count_Ret by (cbn [Batch.data Batch.with_data]; lia).
      cbn [Batch.data Batch.with_data]. by rewrite drop_app_length' by lia.
    + cbn [Batch.data Batch.with_data].
      rewrite (drop_app_ge p) by lia. rewrite Hp, drop_drop. done.
  - unfold Batch.setCount. rewrite countData_Ret by done. cbn [mbind outcome_bind].
    eexists. split; [done|].
    set (p := binary.le_bytes 4 (v mod 2^32)).
    assert (Hp : length p = 4%nat) by apply le_bytes_length.
    unfold Batch.set_countData.
    assert (Hlen : length (take 8 (Batch.data b) ++ p ++ drop 12 (Batch.data b))
                   = length (Batch.data b)) by (by apply header_replaced_length).
    split; [|split].
    + rewrite count_Ret by (cbn [Batch.data Batch.with_data]; lia).
      cbn [Batch.data Batch.with_data].
      rewrite <- (app_nil_r (drop 12 (Batch.data b))).
      rewrite count_bytes_replaced by done. subst p.
      rewrite le_value_le_bytes. change (256 ^ N.of_nat 4) with (2^32).
      by rewrite N.Div0.mod_mod.
    + unfold Batch.seqNum, Batch.seqNumData. cbn [Batch.data Batch.with_data].
      rewrite Hlen.
      replace (8 <=? length (Batch.data b))%nat with true by (symmetry; apply Nat.leb_le; lia).
      cbn [mbind outcome_bind]. rewrite take_app_length'; [done|].
      rewrite length_take. lia.
    + cbn [Batch.data Batch.with_data].
      rewrite <- (app_nil_r (drop 12 (Batch.data b))).
      rewrite entries_kept by done. by rewrite app_nil_r.
Qed.

Lemma header_fields_round_trip_witness :
  (exists b', Batch.setSeqNum batch_set_delete 258 = Ret b' /\
              Batch.seqNum b' = Ret (258 mod 2^64) /\
              Batch.count b' = Batch.count batch_set_delete /\
              drop 12 (Batch.data b') = drop 12 (Batch.data batch_set_delete)) /\
  (exists b', Batch.setCount batch_set_delete 7 = Ret b' /\
              Batch.count b' = Ret (7 mod 2^32) /\
              Batch.seqNum b' = Batch.seqNum batch_set_delete /\
              drop 12 (Batch.data b') = drop 12 (Batch.data batch_set_delete)).
Proof.
  apply (header_fields_round_trip batch_set_delete 258 7). vm_compute. lia.
Defined.

(** ** Compaction: the iterator, picking, the version edit, obsolete files *)

Section Collapse.
Import compactionIter.
Context (cmp : db.Compare) `{!CompareOrder cmp} (merge : db.Merge).

Lemma skip_ukey_eq (uk uk' : bytes) (l : list (db.InternalKey * bytes)) :
  cmp uk uk' = 0%Z -> skip_ukey cmp uk l = skip_ukey cmp uk' l.
Proof.
  intros E. induction l as [|e l IH]; [done|]. cbn [skip_ukey].
  assert (E' : cmp uk' uk = 0%Z) by (destruct (cmp_cases cmp uk uk'); lia).
  destruct (Z.eqb_spec (cmp uk (db.UserKey (fst e))) 0) as [H|H];
    destruct (Z.eqb_spec (cmp uk' (db.UserKey (fst e))) 0) as [H'|H']; try done.
  - exfalso. apply H'. by apply (cmp_eq_trans cmp _ uk).
  - exfalso. apply H. by apply (cmp_eq_trans cmp _ uk').
Qed.

Lemma skip_ukey_length (uk : bytes) (l : list (db.InternalKey * bytes)) :
  (length (skip_ukey cmp uk l) <= length l)%nat.
Proof.
  induction l as [|e l IH]; [done|]. cbn [skip_ukey].
  destruct (cmp uk (db.UserKey (fst e)) =? 0)%Z; cbn [length]; lia.
Qed.

Lemma mergeNext_loop_spec (l : list (db.InternalKey * bytes)) :
  forall (i : compactionIter) (e0 : db.InternalKey * bytes),
  valid_kinds l ->
  pos i = compactionIterCur ->
  let uk := db.UserKey (key i) in
  let run := merge_run_of cmp uk l in
  let acc := fold_merge merge uk (value i) run in
  let r := mergeNext_loop cmp merge i (e0 :: l) in
  snd r = true /\ err (fst r) = err i /\ valid (fst r) = valid i /\
  all (iter (fst r)) = all (iter i) /\
  pending cmp (fst r) = skip_ukey cmp uk l /\
  (key (fst r), value (fst r))
  = match drop (length run) l with
    | stop :: _ =>
        if (cmp uk (db.UserKey (fst stop)) =? 0)%Z
           && (db.Kind (fst stop) =? db.InternalKeyKindSet)
        then (db.SetKind (key i) db.InternalKeyKindSet, merge uk acc (snd stop))
        else (key i, acc)
    | [] => (key i, acc)
    end.
Proof.
  induction l as [|[k v] l IH]; intros i e0 Hkinds Hpos.
  - cbn. by repeat split.
  - apply Forall_cons in Hkinds as [Hk Hkinds]. cbn [fst] in Hk.
    cbv zeta. cbn [merge_run_of fst].
    destruct (Z.eqb_spec (cmp (db.UserKey (key i)) (db.UserKey k)) 0) as [E|E].
    2:{ cbn [mergeNext_loop].
        replace (cmp (db.UserKey (key i)) (db.UserKey k) =? 0)%Z with false
          by (symmetry; by apply Z.eqb_neq).
        cbn [andb length drop fold_merge fold_left negb fst snd err valid key value iter
             all skip_ukey].
        replace (cmp (db.UserKey (key i)) (db.UserKey k) =? 0)%Z with false
          by (symmetry; by apply Z.eqb_neq).
        unfold pending. cbn [pos iter rest fold_merge fold_left andb]. by repeat split. }
    assert (Hstop : forall i',
               pos i' = compactionIterCur ->
               rest (iter i') = (k, v) :: l ->
               pending cmp i' = skip_ukey cmp (db.UserKey (key i)) ((k, v) :: l)).
    { intros i' Hp Hr. unfold pending, iter_NextUserKey. rewrite Hp, Hr. cbn [rest skip_ukey fst].
      rewrite E. cbn [Z.eqb]. symmetry. by apply skip_ukey_eq. }
    destruct Hk as [Hk|[Hk|Hk]].
    + cbn [mergeNext_loop]. rewrite E, Hk.
      change (db.InternalKeyKindDelete =? db.InternalKeyKindDelete) with true.
      change (db.InternalKeyKindDelete =? db.InternalKeyKindMerge) with false.
      change (db.InternalKeyKindDelete =? db.InternalKeyKindSet) with false.
      cbv iota. cbn [negb Z.eqb andb fst snd err valid key value iter all length drop
                     fold_merge fold_left].
      rewrite ?E, ?Hk.
      change (db.InternalKeyKindDelete =? db.InternalKeyKindSet) with false.
      cbn [Z.eqb andb]. repeat split; try done. by apply Hstop.
    + cbn [mergeNext_loop]. rewrite E, Hk.
      change (db.InternalKeyKindSet =? db.InternalKeyKindDelete) with false.
      change (db.InternalKeyKindSet =? db.InternalKeyKindSet) with true.
      change (db.InternalKeyKindSet =? db.InternalKeyKindMerge) with false.
      cbv iota. cbn [negb Z.eqb andb fst snd err valid key value iter all length drop
                     fold_merge fold_left].
      rewrite ?E, ?Hk.
      change (db.InternalKeyKindSet =? db.InternalKeyKindSet) with true.
      cbn [Z.eqb andb]. repeat split; try done. by apply Hstop.
    + rewrite (mergeNext_loop_merge cmp merge i e0 k v l E Hk).
      destruct (IH (merged merge i k v l) (k, v) Hkinds Hpos)
        as (H1 & H2 & H3 & H4 & H5 & H6).
      cbn [merged err valid key value iter all] in H2, H3, H4, H5, H6.
      rewrite ?E, ?Hk.
      change (db.InternalKeyKindMerge =? db.InternalKeyKindMerge) with true.
      cbn [Z.eqb andb length drop skip_ukey fst].
      rewrite ?E. cbn [Z.eqb].
      repeat split; try done.
Qed.
End Collapse.

Section Collapse2.
Import compactionIter.
Context (cmp : db.Compare) `{!CompareOrder cmp} (merge : db.Merge).

Lemma findNextEntry_spec (i : compactionIter) (k1 : db.InternalKey) (v1 : bytes)
    (l : list (db.InternalKey * bytes)) :
  rest (iter i) = (k1, v1) :: l ->
  valid_kinds ((k1, v1) :: l) ->
  let r := findNextEntry cmp merge i in
  valid (fst r) = true /\ err (fst r) = err i /\
  all (iter (fst r)) = all (iter i) /\
  pending cmp (fst r) = skip_ukey cmp (db.UserKey k1) l /\
  (Key (fst r), Value (fst r)) = collapse cmp merge (k1, v1) l.
Proof.
  intros Hrest Hkinds. apply Forall_cons in Hkinds as [Hk Hkinds]. cbn [fst] in Hk.
  unfold findNextEntry, collapse, Key, Value. cbn [iter fst snd]. rewrite Hrest.
  destruct Hk as [Hk|[Hk|Hk]]; rewrite Hk in *.
  - change ((db.InternalKeyKindDelete =? db.InternalKeyKindDelete) || _) with true.
    change (db.InternalKeyKindDelete =? db.InternalKeyKindMerge) with false.
    cbv iota zeta. cbn [fst valid err key value iter all].
    repeat split; try done.
    unfold pending, iter_NextUserKey. cbn [pos iter]. by rewrite Hrest.
  - change ((db.InternalKeyKindSet =? db.InternalKeyKindDelete)
            || (db.InternalKeyKindSet =? db.InternalKeyKindSet)) with true.
    change (db.InternalKeyKindSet =? db.InternalKeyKindMerge) with false.
    cbv iota zeta. cbn [fst valid err key value iter all].
    repeat split; try done.
    unfold pending, iter_NextUserKey. cbn [pos iter]. by rewrite Hrest.
  - change ((db.InternalKeyKindMerge =? db.InternalKeyKindDelete)
            || (db.InternalKeyKindMerge =? db.InternalKeyKindSet)) with false.
    change (db.InternalKeyKindMerge =? db.InternalKeyKindMerge) with true.
    cbv iota zeta. unfold mergeNext. cbn [iter rest]. rewrite Hrest.
    match goal with
    | |- context [mergeNext_loop cmp merge ?i2 ((k1, v1) :: l)] =>
        destruct (mergeNext_loop_spec cmp merge l i2 (k1, v1) Hkinds eq_refl)
          as (H1 & H2 & H3 & H4 & H5 & H6)
    end.
    cbv zeta in H6.
    split; [by rewrite H3|]. split; [by rewrite H2|]. split; [by rewrite H4|].
    split; [by rewrite H5|].
    rewrite H6. cbn [key value db.UserKey]. by destruct k1.
Qed.

Lemma visit_compacted (n : nat) :
  forall (l : list (db.InternalKey * bytes)) (i : compactionIter),
  (length l <= n)%nat ->
  rest (iter i) = l -> err i = None ->
  valid_kinds l ->
  visit cmp merge (S n) (fst (findNextEntry cmp merge i))
  = Some (compacted cmp merge n l, None).
Proof.
  induction n as [|n IH]; intros l i Hlen Hrest Herr Hkinds.
  - destruct l; [|cbn in Hlen; lia].
    destruct (findNextEntry_end cmp merge i Hrest) as [Hv He].
    cbn [visit compacted]. unfold Valid. by rewrite Hv, He, Herr.
  - destruct l as [|[k1 v1] l].
    { destruct (findNextEntry_end cmp merge i Hrest) as [Hv He].
      cbn [visit compacted]. unfold Valid. by rewrite Hv, He, Herr. }
    destruct (findNextEntry_spec i k1 v1 l Hrest Hkinds) as (Hv & He & Hall & Hp & Hkv).
    set (i' := fst (findNextEntry cmp merge i)) in *.
    rewrite Herr in He.
    assert (Hkinds' : valid_kinds (pending cmp i')).
    { apply Forall_cons in Hkinds as [_ Hkinds]. rewrite Hp.
      destruct (skip_ukey_split cmp (db.UserKey k1) l) as (pre & Hl & _).
      rewrite Hl in Hkinds. by apply Forall_app in Hkinds as [_ ?]. }
    assert (Hes : visit cmp merge (S n) (fst (Next cmp merge i'))
                  = Some (compacted cmp merge n (pending cmp i'), None)).
    { rewrite Next_pending by done. apply IH; [|done|done|done].
      rewrite Hp. pose proof (skip_ukey_length cmp (db.UserKey k1) l).
      cbn in Hlen. lia. }
    remember (S n) as m. cbn [visit]. subst m. unfold Valid at 1. rewrite Hv, Hes.
    cbn [compacted fst]. by rewrite Hkv, Hp.
Qed.

Lemma emitted_compacted (input : list (db.InternalKey * bytes)) :
  valid_kinds input ->
  emitted cmp merge input = Some (compacted cmp merge (length input) input, None).
Proof.
  intros Hkinds. unfold emitted, First. cbn [err newCompactionIter].
  by apply visit_compacted.
Qed.
End Collapse2.

Section Collapse3.
Import compactionIter.
Context (cmp : db.Compare) `{!CompareOrder cmp} (merge : db.Merge).

Lemma collapse_UserKey (e : db.InternalKey * bytes) (l : list (db.InternalKey * bytes)) :
  db.UserKey (fst (collapse cmp merge e l)) = db.UserKey (fst e) /\
  db.SeqNum (fst (collapse cmp merge e l)) = db.SeqNum (fst e).
Proof.
  unfold collapse. destruct (db.Kind (fst e) =? db.InternalKeyKindMerge); [|done].
  cbv zeta. destruct (drop _ l) as [|stop tl]; [done|].
  destruct (_ && _); [|done]. cbn [fst]. split; [done|].
  by apply SeqNum_SetKind.
Qed.

Lemma compacted_covers (n : nat) : forall l : list (db.InternalKey * bytes),
  (length l <= n)%nat ->
  forall x, x ∈ l ->
    exists e, e ∈ compacted cmp merge n l /\
              cmp (db.UserKey (fst e)) (db.UserKey (fst x)) = 0%Z.
Proof.
  induction n as [|n IH]; intros l Hlen x Hx.
  - destruct l; [by apply elem_of_nil in Hx|cbn in Hlen; lia].
  - destruct l as [|h l]; [by apply elem_of_nil in Hx|].
    cbn [compacted]. cbn [length] in Hlen.
    destruct (skip_ukey_split cmp (db.UserKey (fst h)) l) as (pre & Hl & Hpre & _).
    apply elem_of_cons in Hx as [->|Hx].
    + exists (collapse cmp merge h l). split; [by left|].
      rewrite (proj1 (collapse_UserKey h l)). apply (cmp_refl cmp).
    + rewrite Hl in Hx. apply elem_of_app in Hx as [Hx|Hx].
      * exists (collapse cmp merge h l). split; [by left|].
        rewrite (proj1 (collapse_UserKey h l)).
        rewrite Forall_forall in Hpre. by apply Hpre.
      * destruct (IH (skip_ukey cmp (db.UserKey (fst h)) l)) with (x := x)
          as (e & He & Hex); [|done|].
        { pose proof (skip_ukey_length cmp (db.UserKey (fst h)) l). lia. }
        exists e. split; [by right|done].
Qed.

(** X12: what a compaction writes.  On an input of DELETE, SET and MERGE
    entries in the order of the user keys, the loop over the compaction
    iterator ends without error and yields, for each user key of the
    input and in ascending order, one entry: the newest entry of the
    key as it is when that is a SET or a DELETE; when it is a MERGE, its
    key with the values of the MERGE entries that follow it for the same
    user key merged into its value, and into that the value of a SET
    that ends the run, which then makes the kind SET. *)
Theorem compaction_collapses_histories (input : list (db.InternalKey * bytes)) :
  valid_kinds input -> sorted_by_ukey cmp input ->
  emitted cmp merge input = Some (compacted cmp merge (length input) input, None) /\
  one_per_ukey cmp (compacted cmp merge (length input) input) /\
  forall x, x ∈ input ->
    exists e, e ∈ compacted cmp merge (length input) input /\
              cmp (db.UserKey (fst e)) (db.UserKey (fst x)) = 0%Z.
Proof.
  intros Hkinds Hsorted.
  pose proof (emitted_compacted cmp merge input Hkinds) as Hem.
  split; [done|]. split.
  - destruct (emitted_one_per_ukey cmp merge input Hkinds Hsorted) as (es & Hes & Hone & _).
    rewrite Hem in Hes. by injection Hes as <-.
  - by apply compacted_covers.
Qed.
End Collapse3.

Lemma compaction_collapses_histories_witness :
  let input := [(ikey "a" 5 2, ["c"%byte]); (ikey "a" 4 2, ["b"%byte]);
                (ikey "a" 3 1, ["a"%byte]); (ikey "a" 2 1, ["z"%byte]);
                (ikey "b" 7 0, []); (ikey "b" 6 1, ["y"%byte]);
                (ikey "c" 9 2, ["q"%byte]); (ikey "c" 8 0, [])] in
  compactionIter.emitted bytes_Compare concat_merge input
  = Some (compacted bytes_Compare concat_merge (length input) input, None) /\
  one_per_ukey bytes_Compare (compacted bytes_Compare concat_merge (length input) input) /\
  forall x, x ∈ input ->
    exists e, e ∈ compacted bytes_Compare concat_merge (length input) input /\
              bytes_Compare (db.UserKey (fst e)) (db.UserKey (fst x)) = 0%Z.
Proof.
  apply (compaction_collapses_histories bytes_Compare concat_merge).
  - unfold valid_kinds. repeat (apply Forall_cons; split; [vm_compute; auto|]).
    apply Forall_nil_2.
  - unfold sorted_by_ukey.
    repeat (apply SSorted_cons;
            [|repeat (apply Forall_cons; split; [vm_compute; congruence|]); apply Forall_nil_2]).
    apply SSorted_nil.
Defined.

Example compacted_example :
  compacted bytes_Compare concat_merge 8
    [(ikey "a" 5 2, ["c"%byte]); (ikey "a" 4 2, ["b"%byte]);
     (ikey "a" 3 1, ["a"%byte]); (ikey "a" 2 1, ["z"%byte]);
     (ikey "b" 7 0, []); (ikey "b" 6 1, ["y"%byte]);
     (ikey "c" 9 2, ["q"%byte]); (ikey "c" 8 0, [])]
  = [(ikey "a" 5 1, ["a"; "b"; "c"]%byte); (ikey "b" 7 0, []); (ikey "c" 9 2, ["q"%byte])].
Proof. vm_compute. reflexivity. Qed.

Section InvalidKind.
Import compactionIter.
Context (cmp : db.Compare) (merge : db.Merge).

Lemma invalid_kind_tests (k : db.InternalKey) :
  ~ valid_kind k ->
  (db.Kind k =? db.InternalKeyKindDelete) = false /\
  (db.Kind k =? db.InternalKeyKindSet) = false /\
  (db.Kind k =? db.InternalKeyKindMerge) = false.
Proof.
  intros H. unfold valid_kind in H.
  repeat split; apply N.eqb_neq; intros E; apply H; auto.
Qed.

Lemma mergeNext_loop_invalid (run : list (db.InternalKey * bytes)) :
  forall (i : compactionIter) (e0 bad : db.InternalKey * bytes)
         (tl : list (db.InternalKey * bytes)),
  merge_run cmp (key i) run ->
  cmp (db.UserKey (key i)) (db.UserKey (fst bad)) = 0%Z ->
  ~ valid_kind (fst bad) ->
  let r := mergeNext_loop cmp merge i (e0 :: run ++ bad :: tl) in
  snd r = false /\ valid (fst r) = valid i /\
  err (fst r) = Some (Errorf "invalid internal key kind").
Proof.
  induction run as [|[k v] run IH]; intros i e0 bad tl Hrun E Hbad.
  - destruct bad as [kb vb]. cbn [fst] in *.
    destruct (invalid_kind_tests kb Hbad) as (H1 & H2 & H3).
    cbn [app mergeNext_loop]. rewrite E, H1, H2, H3. by cbn.
  - apply Forall_cons in Hrun as [[Ek Hk] Hrun]. cbn [fst] in Ek, Hk.
    cbn [app]. cbv zeta.
    rewrite (mergeNext_loop_merge cmp merge i e0 k v (run ++ bad :: tl) Ek Hk).
    apply (IH (merged merge i k v (run ++ bad :: tl)) (k, v) bad tl); done.
Qed.

Lemma visit_stuck (fuel : nat) (i : compactionIter) (e : error) :
  valid i = true -> err i = Some e -> visit cmp merge fuel i = None.
Proof.
  intros Hv He. induction fuel as [|fuel IH]; [done|].
  cbn [visit]. unfold Valid, Next. rewrite Hv, He. cbn [fst]. by rewrite IH.
Qed.

(** X13: entries of a kind other than DELETE, SET and MERGE.  When such
    an entry is the one the iterator comes to stand on, [findNextEntry]
    reports the error and the iterator is invalid.  When it follows a
    MERGE entry and older MERGE entries for the same user key,
    [mergeNext] reports the error and leaves the iterator valid: [Next]
    then returns false and changes nothing, so a loop
    [for First(); Valid(); Next()] does not end. *)
Theorem invalid_kind_is_reported (bad : db.InternalKey * bytes)
    (tl : list (db.InternalKey * bytes)) :
  ~ valid_kind (fst bad) ->
  (forall i,
     rest (iter i) = bad :: tl ->
     let r := findNextEntry cmp merge i in
     snd r = false /\ Valid (fst r) = false /\
     err (fst r) = Some (Errorf "invalid internal key kind")) /\
  (forall i k0 v0 run,
     rest (iter i) = (k0, v0) :: run ++ bad :: tl ->
     db.Kind k0 = db.InternalKeyKindMerge ->
     merge_run cmp k0 run ->
     cmp (db.UserKey k0) (db.UserKey (fst bad)) = 0%Z ->
     let r := findNextEntry cmp merge i in
     snd r = false /\ Valid (fst r) = true /\
     err (fst r) = Some (Errorf "invalid internal key kind") /\
     Next cmp merge (fst r) = (fst r, false) /\
     forall fuel, visit cmp merge fuel (fst r) = None).
Proof.
  intros Hbad. split.
  - intros i Hrest. destruct bad as [kb vb]. cbn [fst] in Hbad.
    destruct (invalid_kind_tests kb Hbad) as (H1 & H2 & H3).
    unfold findNextEntry, Valid. cbn [iter]. rewrite Hrest, H1, H2, H3. by cbn.
  - intros i k0 v0 run Hrest Hk0 Hrun E.
    unfold findNextEntry. cbn [iter]. rewrite Hrest, Hk0.
    change ((db.InternalKeyKindMerge =? db.InternalKeyKindDelete)
            || (db.InternalKeyKindMerge =? db.InternalKeyKindSet)) with false.
    change (db.InternalKeyKindMerge =? db.InternalKeyKindMerge) with true.
    cbv iota zeta. unfold mergeNext. cbn [iter rest]. rewrite Hrest.
    match goal with |- context [mergeNext_loop cmp merge ?i2 _] =>
      destruct (mergeNext_loop_invalid run i2 (k0, v0) bad tl) as (H1 & H2 & H3);
      [done|done|done|]; set (r := mergeNext_loop cmp merge i2 _) in * end.
    cbn [valid] in H2. unfold Valid.
    split; [done|]. split; [done|]. split; [done|]. split.
    + unfold Next. by rewrite H3.
    + intros fuel. by eapply visit_stuck.
Qed.
End InvalidKind.

Lemma invalid_kind_is_reported_witness :
  let bad := (ikey "k" 3 7, ["x"%byte]) in
  (forall i,
     compactionIter.rest (compactionIter.iter i) = bad :: [] ->
     let r := compactionIter.findNextEntry bytes_Compare concat_merge i in
     snd r = false /\ compactionIter.Valid (fst r) = false /\
     compactionIter.err (fst r) = Some (Errorf "invalid internal key kind")) /\
  (forall i k0 v0 run,
     compactionIter.rest (compactionIter.iter i) = (k0, v0) :: run ++ bad :: [] ->
     db.Kind k0 = db.InternalKeyKindMerge ->
     merge_run bytes_Compare k0 run ->
     bytes_Compare (db.UserKey k0) (db.UserKey (fst bad)) = 0%Z ->
     let r := compactionIter.findNextEntry bytes_Compare concat_merge i in
     snd r = false /\ compactionIter.Valid (fst r) = true /\
     compactionIter.err (fst r) = Some (Errorf "invalid internal key kind") /\
     compactionIter.Next bytes_Compare concat_merge (fst r) = (fst r, false) /\
     forall fuel, compactionIter.visit bytes_Compare concat_merge fuel (fst r) = None).
Proof.
  apply (invalid_kind_is_reported bytes_Compare concat_merge).
  unfold valid_kind. vm_compute. intros [H|[H|H]]; discriminate H.
Defined.

Section Setup.
Import compaction.
Context (numLevels : nat) (opts : Options) (cmp : db.Compare).
Context (overlaps : version -> nat -> db.Compare -> bytes -> bytes -> list fileMetadata).
Context (ikeyRange : db.Compare -> list fileMetadata -> list fileMetadata
                     -> db.InternalKey * db.InternalKey).

(** X14: the inputs that [setupOtherInputs] leaves.  Whether or not
    [grow] has enlarged them, [inputs[1]] are the files of the next
    level that overlap the key range of [inputs[0]], as many as
    overlapped the [inputs[0]] it was called with; [inputs[0]] is as it
    was or has more files; and [inputs[2]] are the files two levels down
    that overlap the key range of both, when there is such a level. *)
Theorem setupOtherInputs_inputs (c : compaction) :
  let c' := setupOtherInputs numLevels opts cmp overlaps ikeyRange c in
  let r0 := ikeyRange cmp (inputs0 c) [] in
  let r0' := ikeyRange cmp (inputs0 c') [] in
  let r01' := ikeyRange cmp (inputs0 c') (inputs1 c') in
  level c' = level c /\ c_version c' = c_version c /\
  inputs1 c'
  = overlaps (c_version c) (level c + 1) cmp (db.UserKey (fst r0')) (db.UserKey (snd r0')) /\
  length (inputs1 c')
  = length (overlaps (c_version c) (level c + 1) cmp
              (db.UserKey (fst r0)) (db.UserKey (snd r0))) /\
  (inputs0 c' = inputs0 c \/ (length (inputs0 c) < length (inputs0 c'))%nat) /\
  inputs2 c'
  = if (level c + 2 <? numLevels)%nat
    then overlaps (c_version c) (level c + 2) cmp
           (db.UserKey (fst r01')) (db.UserKey (snd r01'))
    else inputs2 c.
Proof.
  cbv zeta. unfold setupOtherInputs.
  destruct (ikeyRange cmp (inputs0 c) []) as [smallest0 largest0] eqn:Hr0.
  cbn [fst snd inputs0 inputs1 c_version level].
  set (in1 := overlaps (c_version c) (level c + 1) cmp
                (db.UserKey smallest0) (db.UserKey largest0)).
  destruct (ikeyRange cmp (inputs0 c) in1) as [smallest01 largest01] eqn:Hr01.
  unfold grow. cbn [inputs0 inputs1 inputs2 c_version level].
  destruct (length in1 =? 0)%nat eqn:Hlen.
  { cbn [inputs0 inputs1 inputs2 c_version level].
    destruct (level c + 2 <? numLevels)%nat; cbn [inputs0 inputs1 inputs2 c_version level];
      rewrite ?Hr0, ?Hr01; cbn [fst snd]; repeat split; auto. }
  set (grow0 := overlaps (c_version c) (level c) cmp
                  (db.UserKey smallest01) (db.UserKey largest01)).
  destruct (length grow0 <=? length (inputs0 c))%nat eqn:Hg0.
  { cbn [inputs0 inputs1 inputs2 c_version level].
    destruct (level c + 2 <? numLevels)%nat; cbn [inputs0 inputs1 inputs2 c_version level];
      rewrite ?Hr0, ?Hr01; cbn [fst snd]; repeat split; auto. }
  destruct (expandedCompactionByteSizeLimit opts (level c + 1)
            <=? (totalSize grow0 + totalSize in1) mod 2^64).
  { cbn [inputs0 inputs1 inputs2 c_version level].
    destruct (level c + 2 <? numLevels)%nat; cbn [inputs0 inputs1 inputs2 c_version level];
      rewrite ?Hr0, ?Hr01; cbn [fst snd]; repeat split; auto. }
  destruct (ikeyRange cmp grow0 []) as [sm1 la1] eqn:Hr1.
  set (grow1 := overlaps (c_version c) (level c + 1) cmp (db.UserKey sm1) (db.UserKey la1)).
  destruct (length grow1 =? length in1)%nat eqn:Hg1; cbn [negb].
  2:{ cbn [inputs0 inputs1 inputs2 c_version level].
      destruct (level c + 2 <? numLevels)%nat; cbn [inputs0 inputs1 inputs2 c_version level];
        rewrite ?Hr0, ?Hr01; cbn [fst snd]; repeat split; auto. }
  apply Nat.eqb_eq in Hg1. apply Nat.leb_gt in Hg0.
  cbn [inputs0 inputs1 inputs2 c_version level].
  destruct (ikeyRange cmp grow0 grow1) as [sm2 la2] eqn:Hr2.
  destruct (level c + 2 <? numLevels)%nat; cbn [inputs0 inputs1 inputs2 c_version level];
    rewrite ?Hr1, ?Hr2; cbn [fst snd]; repeat split; auto.
Qed.
End Setup.

Section Pick.
Import compaction.
Context (numLevels : nat) (opts : Options) (cmp : db.Compare) (merge : db.Merge).
Context (overlaps : version -> nat -> db.Compare -> bytes -> bytes -> list fileMetadata).
Context (ikeyRange : db.Compare -> list fileMetadata -> list fileMetadata
                     -> db.InternalKey * db.InternalKey).
Context (parseDBFilename : string -> option (fileType * N)).
Context (dbFilename : fileType -> N -> string).
Context (logAndApply : versionEdit -> versionSet -> versionSet * option error).
Context (compactionIterator : compaction -> list (db.InternalKey * bytes) + error).
Context (tableSize : list (db.InternalKey * bytes) -> N).

(** X15: picking and running a compaction.  Without a score of at least
    1 nothing is picked and [compact1] does nothing.  With it, at a
    level above 0 whose first file overlaps no file of the next level
    and not too much of the level after that, the compaction picked
    consists of that file alone, and [compact1] moves it to the next
    level by a version edit: the version set afterwards is the one
    that [logAndApply] has made of the edit that deletes the file at
    its level and adds it at the next, and nothing else of the
    database has changed. *)
Theorem pick_and_move (cur : version) (d : DB) (L : nat) (f : fileMetadata)
    (others : list fileMetadata) :
  (1 <= L < numLevels)%nat ->
  files cur L = f :: others ->
  let r0 := ikeyRange cmp [f] [] in
  let in2 := if (L + 2 <? numLevels)%nat
             then overlaps cur (L + 2) cmp (db.UserKey (fst r0)) (db.UserKey (snd r0))
             else [] in
  overlaps cur (L + 1) cmp (db.UserKey (fst r0)) (db.UserKey (snd r0)) = [] ->
  (0 <= 10 * TargetFileSize opts (L + 1) < 2^63)%Z ->
  (Z.of_N (totalSize in2) <= 10 * TargetFileSize opts (L + 1))%Z ->
  let run picked :=
    compact1 numLevels opts cmp merge parseDBFilename dbFilename logAndApply
      compactionIterator tableSize picked d in
  let r := logAndApply {| deletedFiles := {[ (L, fileNum f) ]};
                          newFiles := [((L + 1)%nat, f)] |} (vs d) in
  pickCompaction numLevels opts cmp overlaps ikeyRange cur false L = Ret None /\
  run None = Some (Ret (d, None)) /\
  exists c,
    pickCompaction numLevels opts cmp overlaps ikeyRange cur true L = Ret (Some c) /\
    c_version c = cur /\ level c = L /\
    inputs0 c = [f] /\ inputs1 c = [] /\ inputs2 c = in2 /\
    run (Some c)
    = Some (Ret ({| vs := fst r; pendingOutputs := pendingOutputs d; fs := fs d;
                    written := written d; evicted := evicted d |}, snd r)).
Proof.
  intros [HL1 HLn] Hfiles r0 in2 Hov Hrange Hsize run r.
  split; [done|]. split; [done|].
  unfold pickCompaction.
  replace (numLevels <=? L)%nat with false by (symmetry; apply Nat.leb_gt; lia).
  rewrite Hfiles. cbn [level].
  replace (L =? 0)%nat with false by (symmetry; apply Nat.eqb_neq; lia).
  eexists. split; [reflexivity|].
  unfold setupOtherInputs. cbn [inputs0 inputs1 inputs2 c_version level].
  fold r0. destruct r0 as [sm0 la0] eqn:Hr0. cbn [fst snd] in *.
  rewrite Hov. cbn [inputs0 inputs1]. fold r0. rewrite Hr0.
  unfold grow. cbn [inputs0 inputs1 inputs2 c_version level length Nat.eqb].
  subst in2.
  assert (Hlim : (totalSize
                    (if (L + 2 <? numLevels)%nat
                     then overlaps cur (L + 2) cmp (db.UserKey sm0) (db.UserKey la0)
                     else [])
                  <=? maxGrandparentOverlapBytes opts (L + 1)) = true).
  { apply N.leb_le. unfold maxGrandparentOverlapBytes.
    rewrite Z.mod_small by lia. lia. }
  destruct (L + 2 <? numLevels)%nat; cbn [inputs0 inputs1 inputs2 c_version level];
    (split; [done|]; split; [done|]; split; [done|]; split; [done|]; split; [done|]);
    subst run; unfold compact1; cbn [inputs0 inputs1 inputs2 level length Nat.eqb andb];
    rewrite Hlim; subst r;
    by destruct (logAndApply _ _).
Qed.
End Pick.

Lemma pick_and_move_witness :
  let cur := compaction.c_version lone_file_compaction in
  let f := file 1 10 "a" "b" in
  let r0 := compaction.ikeyRange_spec bytes_Compare [f] [] in
  let in2 := if (1 + 2 <? 7)%nat
             then compaction.overlaps_spec cur (1 + 2) bytes_Compare
                    (db.UserKey (fst r0)) (db.UserKey (snd r0))
             else [] in
  let run picked :=
    compaction.compact1 7 small_opts bytes_Compare concat_merge (fun _ => None)
      (fun _ _ => ""%string) (logAndApply_spec bytes_Compare) (fun _ => inl []) (fun _ => 0)
      picked db_lone_file in
  let r := logAndApply_spec bytes_Compare
             {| compaction.deletedFiles := {[ (1%nat, compaction.fileNum f) ]};
                compaction.newFiles := [((1 + 1)%nat, f)] |}
             (compaction.vs db_lone_file) in
  compaction.pickCompaction 7 small_opts bytes_Compare compaction.overlaps_spec
    compaction.ikeyRange_spec cur false 1 = Ret None /\
  run None = Some (Ret (db_lone_file, None)) /\
  exists c,
    compaction.pickCompaction 7 small_opts bytes_Compare compaction.overlaps_spec
      compaction.ikeyRange_spec cur true 1 = Ret (Some c) /\
    compaction.c_version c = cur /\ compaction.level c = 1%nat /\
    compaction.inputs0 c = [f] /\ compaction.inputs1 c = [] /\ compaction.inputs2 c = in2 /\
    run (Some c)
    = Some (Ret ({| compaction.vs := fst r;
                    compaction.pendingOutputs := compaction.pendingOutputs db_lone_file;
                    compaction.fs := compaction.fs db_lone_file;
                    compaction.written := compaction.written db_lone_file;
                    compaction.evicted := compaction.evicted db_lone_file |}, snd r)).
Proof.
  apply (pick_and_move 7 small_opts bytes_Compare concat_merge compaction.overlaps_spec
           compaction.ikeyRange_spec (fun _ => None) (fun _ _ => ""%string)
           (logAndApply_spec bytes_Compare)
           (fun _ => inl []) (fun _ => 0)
           (compaction.c_version lone_file_compaction) db_lone_file 1 (file 1 10 "a" "b") []).
  - lia.
  - reflexivity.
  - vm_compute. reflexivity.
  - vm_compute. split; [discriminate|reflexivity].
  - vm_compute. discriminate.
Defined.

Lemma last_key_cons (d : db.InternalKey) (e : db.InternalKey * bytes)
    (l : list (db.InternalKey * bytes)) :
  last_key d (e :: l) = last_key (fst e) l.
Proof. unfold last_key. rewrite last_cons. by destruct (last l). Qed.

Section Loop.
Import compaction.
Context (numLevels : nat) (cmp : db.Compare) (dbFilename : fileType -> N -> string).

Lemma compactDiskTables_loop_opened (c : compaction) (es : list (db.InternalKey * bytes)) :
  forall (st : output) fn added,
  o_tw st = Some (fn, added) ->
  let st' := compactDiskTables_loop numLevels cmp dbFilename c es st in
  o_db st' = o_db st /\ o_pendingOutputs st' = o_pendingOutputs st /\
  o_smallest st' = o_smallest st /\
  o_largest st' = last_key (o_largest st) (filter (kept numLevels cmp c) es) /\
  o_tw st' = Some (fn, added ++ filter (kept numLevels cmp c) es).
Proof.
  induction es as [|[ik v] es IH]; intros st fn added Htw; cbn [compactDiskTables_loop].
  - cbv zeta. rewrite Htw, app_nil_r. by repeat split.
  - rewrite filter_cons.
    destruct (decide (kept numLevels cmp c (ik, v))) as [E|E];
      unfold kept in E; cbn [fst] in E.
    + rewrite E. unfold open_table. rewrite Htw.
      cbn [o_db o_pendingOutputs o_tw o_smallest]. rewrite Htw. cbn [option_map].
      match goal with |- context [compactDiskTables_loop _ _ _ c es ?s] =>
        destruct (IH s fn (added ++ [(ik, v)]) eq_refl) as (H1 & H2 & H3 & H4 & H5) end.
      cbv zeta. rewrite H1, H2, H3, H4, H5. cbn [o_db o_pendingOutputs o_smallest o_largest].
      rewrite last_key_cons, <- app_assoc. by repeat split.
    + apply not_false_is_true in E. rewrite E. by apply IH.
Qed.

Lemma compactDiskTables_loop_first (c : compaction) (es : list (db.InternalKey * bytes)) :
  forall st : output,
  o_tw st = None ->
  let st' := compactDiskTables_loop numLevels cmp dbFilename c es st in
  match filter (kept numLevels cmp c) es with
  | [] => o_db st' = o_db st /\ o_pendingOutputs st' = o_pendingOutputs st /\ o_tw st' = None
  | e :: out =>
      o_db st' = reserved_table dbFilename (o_db st) /\
      o_pendingOutputs st' = o_pendingOutputs st ++ [nextFileNumber (vs (o_db st))] /\
      o_smallest st' = fst e /\
      o_largest st' = last_key (fst e) out /\
      o_tw st' = Some (nextFileNumber (vs (o_db st)), e :: out)
  end.
Proof.
  induction es as [|[ik v] es IH]; intros st Htw; cbn [compactDiskTables_loop].
  - by rewrite filter_nil.
  - rewrite filter_cons.
    destruct (decide (kept numLevels cmp c (ik, v))) as [E|E];
      unfold kept in E; cbn [fst] in E.
    + rewrite E. unfold open_table. rewrite Htw.
      cbn [o_db o_pendingOutputs o_tw o_smallest option_map app].
      match goal with |- context [compactDiskTables_loop _ _ _ c es ?s] =>
        destruct (compactDiskTables_loop_opened c es s (nextFileNumber (vs (o_db st)))
                    [(ik, v)] eq_refl) as (H1 & H2 & H3 & H4 & H5) end.
      cbv zeta. rewrite H1, H2, H3, H4, H5.
      cbn [o_db o_pendingOutputs o_smallest o_largest fst app]. by repeat split.
    + apply not_false_is_true in E. rewrite E. by apply IH.
Qed.
End Loop.

Lemma pending_given_up (P : gset N) (fn : N) : (P ∪ {[fn]}) ∖ list_to_set [fn] ⊆ P.
Proof.
  intros x Hx. apply elem_of_difference in Hx as [Hx Hn].
  apply elem_of_union in Hx as [Hx|Hx]; [done|].
  exfalso. apply Hn. cbn. apply elem_of_union. by left.
Qed.

Section Edit.
Import compaction.
Context (numLevels : nat) (opts : Options) (cmp : db.Compare) (merge : db.Merge).
Context (parseDBFilename : string -> option (fileType * N)).
Context (dbFilename : fileType -> N -> string).
Context (logAndApply : versionEdit -> versionSet -> versionSet * option error).
Context (compactionIterator : compaction -> list (db.InternalKey * bytes) + error).
Context (tableSize : list (db.InternalKey * bytes) -> N).

(** X16: the version edit of a compaction.  When the compaction
    iterator ends without error and some entry is kept, the entries
    kept go to one table under the next file number, which is reserved,
    marked as a pending output and returned; the edit deletes the files
    of [inputs[0]] at the level and of [inputs[1]] at the next, and adds
    the new file at the next level, with the keys of the first and the
    last entry written as its smallest and largest key. *)
Theorem compactDiskTables_edit (c : compaction) (d : DB)
    (input es : list (db.InternalKey * bytes)) (e0 : db.InternalKey * bytes)
    (out : list (db.InternalKey * bytes)) :
  compactionIterator c = inl input ->
  compactionIter.emitted cmp merge input = Some (es, None) ->
  filter (kept numLevels cmp c) es = e0 :: out ->
  let fn := nextFileNumber (vs d) in
  let d1 := reserved_table dbFilename d in
  compactDiskTables numLevels cmp merge dbFilename compactionIterator tableSize c d
  = Some (Ret ({| vs := vs d1; pendingOutputs := pendingOutputs d ∪ {[fn]};
                  fs := storage.Create (fs d) (dbFilename fileTypeTable fn);
                  written := written d ++ [(fn, e0 :: out)];
                  evicted := evicted d |},
               Some {| deletedFiles :=
                         list_to_set (map (fun f => (level c, fileNum f)) (inputs0 c))
                         ∪ list_to_set (map (fun f => ((level c + 1)%nat, fileNum f))
                                            (inputs1 c));
                       newFiles :=
                         [((level c + 1)%nat,
                           {| fileNum := fn; size := tableSize (e0 :: out);
                              smallest := fst e0;
                              largest := last_key (fst e0) out |})] |},
               [fn], None)).
Proof.
  intros Hin Hem Hout fn d1. unfold compactDiskTables. rewrite Hin, Hem.
  match goal with |- context [compactDiskTables_loop _ _ _ c es ?s] =>
    pose proof (compactDiskTables_loop_first numLevels cmp dbFilename c es s eq_refl) as Hl;
    set (st' := compactDiskTables_loop numLevels cmp dbFilename c es s) in * end.
  cbv zeta in Hl. rewrite Hout in Hl. cbn [o_db o_pendingOutputs app] in Hl.
  destruct Hl as (H1 & H2 & H3 & H4 & H5).
  rewrite H5, H1, H2, H3, H4. done.
Qed.

Lemma deleteObsoleteFiles_pendingOutputs (d0 : DB) :
  pendingOutputs (deleteObsoleteFiles numLevels parseDBFilename d0) = pendingOutputs d0.
Proof.
  unfold deleteObsoleteFiles. destruct (storage.List_ (fs d0)) as [names|]; [|done].
  by destruct (deleteObsoleteFiles_loop_spec parseDBFilename
                 (addLiveFileNums numLevels (vs d0) (pendingOutputs d0))
                 (logNumber (vs d0)) (manifestFileNumber (vs d0)) names d0)
    as (_ & _ & _ & ? & _).
Qed.

(** X17: [compact1] leaves no pending output behind.  Whatever it
    returns, with or without error, the file numbers marked as pending
    outputs afterwards were so before: the number it reserves for its
    table is given up again. *)
Theorem compact1_gives_up_pending_outputs (picked : option compaction) (d d' : DB)
    (e : option error) :
  compact1 numLevels opts cmp merge parseDBFilename dbFilename logAndApply
    compactionIterator tableSize picked d = Some (Ret (d', e)) ->
  pendingOutputs d' ⊆ pendingOutputs d.
Proof.
  unfold compact1. destruct picked as [c|]; [|by intros [= <- <-]].
  destruct (_ && _).
  { destruct (inputs0 c) as [|meta ?]; [done|].
    destruct (logAndApply _ _) as [v err]. by intros [= <- <-]. }
  unfold compactDiskTables.
  destruct (compactionIterator c) as [input|err]; [|by intros [= <- <-]].
  destruct (compactionIter.emitted cmp merge input) as [[es iter_err]|]; [|done].
  match goal with |- context [compactDiskTables_loop _ _ _ c es ?s] =>
    pose proof (compactDiskTables_loop_first numLevels cmp dbFilename c es s eq_refl) as Hl;
    set (st' := compactDiskTables_loop numLevels cmp dbFilename c es s) in * end.
  cbv zeta in Hl. cbn [o_db o_pendingOutputs app] in Hl.
  destruct (filter (kept numLevels cmp c) es) as [|e0 out].
  { destruct Hl as (_ & _ & Htw). by rewrite Htw. }
  destruct Hl as (H1 & H2 & H3 & H4 & H5). rewrite H5, H1, H2.
  cbn [reserved_table pendingOutputs vs fs written evicted].
  destruct iter_err as [ierr|].
  - intros [= <- <-]. cbn [pendingOutputs]. apply pending_given_up.
  - destruct (logAndApply _ _) as [v [err|]].
    + intros [= <- <-]. cbn [pendingOutputs]. apply pending_given_up.
    + intros [= <- <-]. rewrite deleteObsoleteFiles_pendingOutputs.
      cbn [pendingOutputs]. apply pending_given_up.
Qed.
End Edit.

Lemma compactDiskTables_edit_witness :
  let c := level0_compaction in
  let d := empty_db in
  let e0 := (ikey "b" 3 1, ["y"%byte]) in
  let dbFilename := fun (_ : compaction.fileType) (_ : N) => ""%string in
  let fn := compaction.nextFileNumber (compaction.vs d) in
  let d1 := reserved_table dbFilename d in
  compaction.compactDiskTables 7 bytes_Compare concat_merge dbFilename
    (fun _ => inl input_delete_a) (fun _ => 0) c d
  = Some (Ret ({| compaction.vs := compaction.vs d1;
                  compaction.pendingOutputs := compaction.pendingOutputs d ∪ {[fn]};
                  compaction.fs :=
                    storage.Create (compaction.fs d) (dbFilename compaction.fileTypeTable fn);
                  compaction.written := compaction.written d ++ [(fn, e0 :: [])];
                  compaction.evicted := compaction.evicted d |},
               Some {| compaction.deletedFiles :=
                         list_to_set (map (fun f => (compaction.level c, compaction.fileNum f))
                                          (compaction.inputs0 c))
                         ∪ list_to_set (map (fun f => ((compaction.level c + 1)%nat,
                                                       compaction.fileNum f))
                                            (compaction.inputs1 c));
                       compaction.newFiles :=
                         [((compaction.level c + 1)%nat,
                           {| compaction.fileNum := fn;
                              compaction.size := (fun _ => 0) (e0 :: []);
                              compaction.smallest := fst e0;
                              compaction.largest := last_key (fst e0) [] |})] |},
               [fn], None)).
Proof.
  apply (compactDiskTables_edit 7 bytes_Compare concat_merge (fun _ _ => ""%string)
           (fun _ => inl input_delete_a) (fun _ => 0) level0_compaction empty_db
           input_delete_a [(ikey "a" 2 0, []); (ikey "b" 3 1, ["y"%byte])]
           (ikey "b" 3 1, ["y"%byte]) []).
  - reflexivity.
  - vm_compute. reflexivity.
  - vm_compute. reflexivity.
Defined.

Lemma compact1_gives_up_pending_outputs_witness :
  exists d' e,
    compaction.compact1 7 small_opts bytes_Compare concat_merge (fun _ => None)
      (fun _ _ => ""%string) logAndApply_id (fun _ => inl input_delete_a) (fun _ => 0)
      (Some level0_compaction) empty_db = Some (Ret (d', e)) /\
    compaction.pendingOutputs d' ⊆ compaction.pendingOutputs empty_db.
Proof.
  assert (H : exists d' e,
             compaction.compact1 7 small_opts bytes_Compare concat_merge (fun _ => None)
               (fun _ _ => ""%string) logAndApply_id (fun _ => inl input_delete_a)
               (fun _ => 0) (Some level0_compaction) empty_db = Some (Ret (d', e))).
  { eexists _, _. vm_compute. reflexivity. }
  destruct H as (d' & e & H). exists d', e. split; [exact H|].
  exact (compact1_gives_up_pending_outputs 7 small_opts bytes_Compare concat_merge
           (fun _ => None) (fun _ _ => ""%string) logAndApply_id
           (fun _ => inl input_delete_a) (fun _ => 0) (Some level0_compaction)
           empty_db d' e H).
Defined.

Section Complete.
Import compaction storage.
Context (numLevels : nat) (parseDBFilename : string -> option (fileType * N)).

Lemma Remove_Ok (s : Storage) (name : string) :
  RemoveOk (Remove s name) = RemoveOk s.
Proof. unfold Remove. by destruct (RemoveOk s name). Qed.

Lemma loop_prefix (liveFileNums : gset N) (ln mn : N) (pre post : list string)
    (bad : string) :
  parseDBFilename bad = None ->
  forall d : DB,
  deleteObsoleteFiles_loop parseDBFilename liveFileNums ln mn (pre ++ bad :: post) d
  = deleteObsoleteFiles_loop parseDBFilename liveFileNums ln mn pre d.
Proof.
  intros Hbad. induction pre as [|x pre IH]; intros d; cbn [app deleteObsoleteFiles_loop].
  - by rewrite Hbad.
  - destruct (parseDBFilename x) as [[ft fn]|]; [|done].
    destruct (match ft with
              | fileTypeLog => ln <=? fn
              | fileTypeManifest => mn <=? fn
              | fileTypeTable => bool_decide (fn ∈ liveFileNums)
              | _ => true
              end); apply IH.
Qed.

Lemma loop_untouched (liveFileNums : gset N) (ln mn : N) (list : list string) :
  forall (d : DB) (x : string),
  x ∈ names (fs d) -> x ∉ list ->
  x ∈ names (fs (deleteObsoleteFiles_loop parseDBFilename liveFileNums ln mn list d)).
Proof.
  induction list as [|filename list IH]; intros d x Hx Hnl; cbn [deleteObsoleteFiles_loop];
    [done|].
  apply not_elem_of_cons in Hnl as [Hne Hnl].
  destruct (parseDBFilename filename) as [[ft fn]|]; [|done].
  destruct (match ft with
            | fileTypeLog => ln <=? fn
            | fileTypeManifest => mn <=? fn
            | fileTypeTable => bool_decide (fn ∈ liveFileNums)
            | _ => true
            end); [by apply IH|].
  apply IH; [|done]. cbn [fs with_fs].
  replace (fs match ft with
              | fileTypeTable => evict d fn
              | _ => d
              end) with (fs d) by (by destruct ft).
  by apply Remove_other.
Qed.

Lemma loop_complete (liveFileNums : gset N) (ln mn : N) (list : list string) :
  forall d : DB,
  (forall x, x ∈ list -> is_Some (parseDBFilename x)) ->
  (forall x, RemoveOk (fs d) x = true) ->
  let d' := deleteObsoleteFiles_loop parseDBFilename liveFileNums ln mn list d in
  (forall x, x ∈ names (fs d') <->
             x ∈ names (fs d) /\
             ~ (x ∈ list /\ obsoleteb parseDBFilename liveFileNums ln mn x = true)) /\
  evicted d' = evicted d ++ omap (evicted_of parseDBFilename liveFileNums) list.
Proof.
  induction list as [|filename list IH]; intros d Hparse Hok; cbn [deleteObsoleteFiles_loop].
  - cbv zeta. split; [|by rewrite app_nil_r].
    intros x. split; [|tauto]. intros Hx. split; [done|]. intros [H _].
    by apply elem_of_nil in H.
  - destruct (Hparse filename ltac:(by left)) as [[ft fn] Hp]. rewrite Hp.
    assert (Hparse' : forall x, x ∈ list -> is_Some (parseDBFilename x))
      by (intros x Hx; apply Hparse; by right).
    set (keep := match ft with
                 | fileTypeLog => ln <=? fn
                 | fileTypeManifest => mn <=? fn
                 | fileTypeTable => bool_decide (fn ∈ liveFileNums)
                 | _ => true
                 end).
    assert (Hobs : obsoleteb parseDBFilename liveFileNums ln mn filename = negb keep).
    { unfold obsoleteb. rewrite Hp. subst keep. destruct ft; try done.
      - by rewrite N.ltb_antisym.
      - destruct (decide (fn ∈ liveFileNums)) as [H|H].
        + rewrite (bool_decide_eq_true_2 _ H). apply bool_decide_eq_false. tauto.
        + rewrite (bool_decide_eq_false_2 _ H). by apply bool_decide_eq_true.
      - by rewrite N.ltb_antisym. }
    assert (Hev : evicted_of parseDBFilename liveFileNums filename
                  = if keep then None
                    else match ft with fileTypeTable => Some fn | _ => None end).
    { unfold evicted_of. rewrite Hp. subst keep. destruct ft; try done.
      - by destruct (ln <=? fn).
      - by destruct (mn <=? fn). }
    change (omap (evicted_of parseDBFilename liveFileNums) (filename :: list))
      with (match evicted_of parseDBFilename liveFileNums filename with
            | Some y => y :: omap (evicted_of parseDBFilename liveFileNums) list
            | None => omap (evicted_of parseDBFilename liveFileNums) list
            end).
    rewrite Hev. destruct keep eqn:Hkeep.
    + destruct (IH d Hparse' Hok) as [Hn He]. cbv zeta. split; [|done].
      intros x. rewrite Hn. split; intros [Hx Hno]; (split; [done|]);
        intros [Hin Ho]; apply Hno.
      * apply elem_of_cons in Hin as [->|Hin]; [|done].
        rewrite Hobs in Ho. done.
      * split; [by right|done].
    + set (d1 := with_fs _ _).
      assert (Hfs1 : fs d1 = Remove (fs d) filename) by (subst d1; by destruct ft).
      assert (Hev1 : evicted d1
                     = evicted d ++ match ft with fileTypeTable => [fn] | _ => [] end).
      { subst d1. destruct ft; cbn; by rewrite ?app_nil_r. }
      destruct (IH d1 Hparse') as [Hn He].
      { intros x. rewrite Hfs1, Remove_Ok. apply Hok. }
      cbv zeta. split.
      * intros x. rewrite Hn, Hfs1. unfold Remove. rewrite Hok. cbn [names].
        rewrite list_elem_of_filter. split.
        -- intros [[Hne Hx] Hno]. split; [done|]. intros [Hin Ho]. apply Hno.
           apply elem_of_cons in Hin as [->|Hin]; [done|]. done.
        -- intros [Hx Hno]. split; [split; [|done]|].
           ++ intros ->. apply Hno. split; [by left|]. by rewrite Hobs.
           ++ intros [Hin Ho]. apply Hno. split; [by right|done].
      * rewrite He, Hev1, <- app_assoc. by destruct ft.
Qed.
End Complete.

Section Complete2.
Import compaction storage.
Context (numLevels : nat) (parseDBFilename : string -> option (fileType * N)).

Lemma obsoleteb_obsolete (d : DB) (x : string) :
  obsoleteb parseDBFilename (addLiveFileNums numLevels (vs d) (pendingOutputs d))
    (logNumber (vs d)) (manifestFileNumber (vs d)) x = true
  <-> obsolete numLevels parseDBFilename d x.
Proof.
  unfold obsoleteb, obsolete. split.
  - destruct (parseDBFilename x) as [[[] fn]|]; try done; intros H; exists fn.
    + right. left. split; [done|]. by apply N.ltb_lt.
    + left. split; [done|]. apply bool_decide_eq_true in H.
      by rewrite <- elem_of_addLiveFileNums.
    + right. right. split; [done|]. by apply N.ltb_lt.
  - intros (fn & [[-> H]|[[-> H]|[-> H]]]).
    + apply bool_decide_eq_true. by rewrite elem_of_addLiveFileNums.
    + by apply N.ltb_lt.
    + by apply N.ltb_lt.
Qed.

(** X18: [deleteObsoleteFiles] removes what is obsolete.  When the
    directory can be listed, all its names parse and the removals
    succeed, the names left are those that are not obsolete (a table
    whose number is neither pending nor in a live version, a log below
    the log number, a manifest below the manifest number), and the
    table cache is told to evict the numbers of the tables removed,
    and no other. *)
Theorem deleteObsoleteFiles_removes_obsolete (d : DB) :
  ListErr (fs d) = None ->
  (forall x, x ∈ names (fs d) -> is_Some (parseDBFilename x)) ->
  (forall x, RemoveOk (fs d) x = true) ->
  let d' := deleteObsoleteFiles numLevels parseDBFilename d in
  (forall x, x ∈ names (fs d') <->
             x ∈ names (fs d) /\ ~ obsolete numLevels parseDBFilename d x) /\
  (forall fn, fn ∈ evicted d' <->
              fn ∈ evicted d \/
              exists x, x ∈ names (fs d) /\
                        parseDBFilename x = Some (fileTypeTable, fn) /\
                        ~ live numLevels d fn).
Proof.
  intros Hlist Hparse Hok. cbv zeta. unfold deleteObsoleteFiles, List_. rewrite Hlist.
  destruct (loop_complete parseDBFilename
              (addLiveFileNums numLevels (vs d) (pendingOutputs d))
              (logNumber (vs d)) (manifestFileNumber (vs d)) (names (fs d)) d Hparse Hok)
    as [Hn He].
  split.
  - intros x. rewrite Hn, obsoleteb_obsolete. tauto.
  - intros fn. rewrite He, elem_of_app, list_elem_of_omap.
    split; (intros [H|H]; [by left|right]); destruct H as (x & Hx & H); exists x.
    + unfold evicted_of in H. destruct (parseDBFilename x) as [[[] fn']|]; try done.
      destruct (bool_decide (fn' ∈ _)) eqn:Hb; [done|]. injection H as ->.
      apply bool_decide_eq_false in Hb. by rewrite <- elem_of_addLiveFileNums.
    + destruct H as [Hp Hl]. split; [done|]. unfold evicted_of. rewrite Hp.
      rewrite bool_decide_eq_false_2; [done|]. by rewrite elem_of_addLiveFileNums.
Qed.

(** X19: [deleteObsoleteFiles] gives up silently.  When the directory
    cannot be listed it changes nothing.  At the first name that does
    not parse it returns: that name and the names listed only after it
    stay, obsolete or not. *)
Theorem deleteObsoleteFiles_gives_up (d : DB) :
  let d' := deleteObsoleteFiles numLevels parseDBFilename d in
  (forall e, ListErr (fs d) = Some e -> d' = d) /\
  (forall pre bad post,
     ListErr (fs d) = None ->
     names (fs d) = pre ++ bad :: post ->
     parseDBFilename bad = None ->
     forall x, x ∈ bad :: post -> x ∉ pre -> x ∈ names (fs d')).
Proof.
  cbv zeta. unfold deleteObsoleteFiles, List_. split.
  - intros e ->. done.
  - intros pre bad post -> Hnames Hbad x Hx Hpre.
    rewrite Hnames, loop_prefix by done.
    apply loop_untouched; [|done]. rewrite Hnames. apply elem_of_app. by right.
Qed.
End Complete2.

Lemma deleteObsoleteFiles_removes_obsolete_witness :
  let d := db_example in
  let d' := compaction.deleteObsoleteFiles 7 parse_example d in
  (forall x, x ∈ storage.names (compaction.fs d') <->
             x ∈ storage.names (compaction.fs d) /\ ~ obsolete 7 parse_example d x) /\
  (forall fn, fn ∈ compaction.evicted d' <->
              fn ∈ compaction.evicted d \/
              exists x, x ∈ storage.names (compaction.fs d) /\
                        parse_example x = Some (compaction.fileTypeTable, fn) /\
                        ~ live 7 d fn).
Proof.
  apply (deleteObsoleteFiles_removes_obsolete 7 parse_example db_example).
  - reflexivity.
  - intros x Hx. cbn in Hx.
    repeat (apply elem_of_cons in Hx as [->|Hx]; [by eexists|]).
    by apply elem_of_nil in Hx.
  - reflexivity.
Defined.

Example deleteObsoleteFiles_on_example :
  storage.names (compaction.fs (compaction.deleteObsoleteFiles 7 parse_example db_example))
  = ["000001.sst"; "LOCK"]%string /\
  compaction.evicted (compaction.deleteObsoleteFiles 7 parse_example db_example) = [2].
Proof. vm_compute. done. Qed.

(** ** Deleting obsolete files beside a compaction *)

Section Unlocked.
Import compaction storage.
Context (numLevels : nat) (parseDBFilename : string -> option (fileType * N)).
Context (dbFilename : fileType -> N -> string).

(** With nothing done by others while the mutex is released, the call
    is the sequential one. *)
Lemma deleteObsoleteFiles_unlocked_alone (d : DB) :
  deleteObsoleteFiles_unlocked numLevels parseDBFilename (fun d => d) d
  = deleteObsoleteFiles numLevels parseDBFilename d.
Proof. done. Qed.

(** C9 on the code.  [deleteObsoleteFiles] reads the live file numbers
    under [d.mu] and releases the mutex before it lists the directory.
    When meanwhile [compactDiskTables] takes the next file number for
    its output, marks it pending and creates the table file, as
    [open_table] does, the call removes that file: its number is in
    [pendingOutputs] when the file is removed, and was not in the set
    read before. *)
Theorem deleteObsoleteFiles_removes_table_created_meanwhile (d : DB) :
  let fn := nextFileNumber (vs d) in
  let name := dbFilename fileTypeTable fn in
  parseDBFilename name = Some (fileTypeTable, fn) ->
  (~ live numLevels d fn) ->
  ListErr (fs d) = None ->
  (forall x, RemoveOk (fs d) x = true) ->
  (forall x, x ∈ names (fs d) -> is_Some (parseDBFilename x)) ->
  (forall ikey st, o_tw st = None ->
     o_db (open_table dbFilename ikey st) = reserved_table dbFilename (o_db st)) /\
  let d' := deleteObsoleteFiles_unlocked numLevels parseDBFilename
              (reserved_table dbFilename) d in
  name ∈ names (fs (reserved_table dbFilename d)) /\
  fn ∈ pendingOutputs (reserved_table dbFilename d) /\
  fn ∈ pendingOutputs d' /\
  (name ∉ names (fs d')) /\
  (forall x, x ∈ names (fs d') -> x ∈ names (fs d)).
Proof.
  intros fn name Hp Hlive Hlist Hok Hparse. split.
  { intros ikey st Htw. unfold open_table. by rewrite Htw. }
  cbv zeta. unfold deleteObsoleteFiles_unlocked.
  set (d1 := reserved_table dbFilename d).
  assert (Hl : List_ (fs d1) = inl (names (fs d) ++ [name])).
  { unfold List_, d1, reserved_table, Create. cbn [fs ListErr names]. by rewrite Hlist. }
  rewrite Hl.
  set (lv := addLiveFileNums numLevels (vs d) (pendingOutputs d)).
  destruct (deleteObsoleteFiles_loop_spec parseDBFilename lv (logNumber (vs d))
              (manifestFileNumber (vs d)) (names (fs d) ++ [name]) d1)
    as (Hsub & _ & _ & Hpo & _).
  destruct (loop_complete parseDBFilename lv (logNumber (vs d))
              (manifestFileNumber (vs d)) (names (fs d) ++ [name]) d1) as [Hnames _].
  { intros x Hx. apply elem_of_app in Hx as [Hx|Hx]; [by apply Hparse|].
    apply list_elem_of_singleton in Hx as ->. by rewrite Hp. }
  { intros x. apply Hok. }
  assert (Hin : name ∈ names (fs d1))
    by (unfold d1, reserved_table, Create; cbn [fs names]; apply elem_of_app; right; left).
  assert (Hfn : fn ∈ pendingOutputs d1)
    by (unfold d1, reserved_table; cbn [pendingOutputs]; apply elem_of_union; right;
        by apply elem_of_singleton).
  split; [done|]. split; [done|]. split; [by rewrite Hpo|]. 
  assert (Hgone : name ∉ names (fs (deleteObsoleteFiles_loop parseDBFilename lv
                     (logNumber (vs d)) (manifestFileNumber (vs d))
                     (names (fs d) ++ [name]) d1))).
  { rewrite Hnames. intros [_ Hn]. apply Hn. split.
    - apply elem_of_app. right. left.
    - unfold obsoleteb. rewrite Hp. apply bool_decide_eq_true.
      unfold lv. by rewrite (elem_of_addLiveFileNums numLevels d fn). }
  split; [done|].
  intros x Hx. specialize (Hsub x Hx).
  unfold d1, reserved_table, Create in Hsub. cbn [fs names] in Hsub.
  apply elem_of_app in Hsub as [|Hsub]; [done|].
  apply list_elem_of_singleton in Hsub as ->. done.
Qed.
End Unlocked.

Lemma deleteObsoleteFiles_removes_table_created_meanwhile_witness :
  let d := db_lone_file in
  let fn := compaction.nextFileNumber (compaction.vs d) in
  let name := name_example5 compaction.fileTypeTable fn in
  (forall ikey st, compaction.o_tw st = None ->
     compaction.o_db (compaction.open_table name_example5 ikey st)
     = reserved_table name_example5 (compaction.o_db st)) /\
  let d' := compaction.deleteObsoleteFiles_unlocked 7 parse_example5
              (reserved_table name_example5) d in
  name ∈ storage.names (compaction.fs (reserved_table name_example5 d)) /\
  fn ∈ compaction.pendingOutputs (reserved_table name_example5 d) /\
  fn ∈ compaction.pendingOutputs d' /\
  (name ∉ storage.names (compaction.fs d')) /\
  (forall x, x ∈ storage.names (compaction.fs d') -> x ∈ storage.names (compaction.fs d)).
Proof.
  apply (deleteObsoleteFiles_removes_table_created_meanwhile 7 parse_example5 name_example5
           db_lone_file).
  - reflexivity.
  - rewrite <- (elem_of_addLiveFileNums 7 db_lone_file). vm_compute. done.
  - reflexivity.
  - reflexivity.
  - intros x Hx. apply list_elem_of_singleton in Hx as ->. by eexists.
Defined.

(** On [db_lone_file], whose next file number is 5: the live set is read,
    the compaction reserves 5 and creates "000005.sst", and the call
    that then lists the directory removes "000005.sst" and keeps
    "000001.sst", while 5 is a pending output. *)
Example deleteObsoleteFiles_unlocked_on_db_lone_file :
  let d' := compaction.deleteObsoleteFiles_unlocked 7 parse_example5
              (reserved_table name_example5) db_lone_file in
  storage.names (compaction.fs (reserved_table name_example5 db_lone_file))
  = ["000001.sst"; "000005.sst"]%string /\
  storage.names (compaction.fs d') = ["000001.sst"%string] /\
  compaction.evicted d' = [5] /\
  5 ∈ compaction.pendingOutputs d'.
Proof.
  cbv zeta. split; [reflexivity|]. split; [vm_compute; reflexivity|].
  split; [vm_compute; reflexivity|].
  vm_compute. reflexivity.
Qed.

(** ** Replaying the log, block handles and closing a table *)

Section InternalOrder.
Context (c : db.Compare) `{!CompareOrder c}.

Lemma cmp_le_lt_trans (a b d : bytes) :
  (c a b <= 0)%Z -> (c b d < 0)%Z -> (c a d < 0)%Z.
Proof.
  intros H1 H2.
  destruct (Z.lt_ge_cases (c a d) 0) as [|H3]; [done|].
  assert (c d a <= 0)%Z by (destruct (cmp_cases c a d); lia).
  pose proof (cmp_lt_le_trans c b d a H2 ltac:(done)).
  destruct (cmp_cases c a b); lia.
Qed.






End InternalOrder.

Section ReplayOk.
Context (mtes : nat -> nat -> N) (arenaCapacity : N) (cmp : db.Compare).


End ReplayOk.

Section ReplayThm.
Context (mtes : nat -> nat -> N) (arenaCapacity : N) (cmp : db.Compare).


(** X21: a log that cannot be read to its end.  When reading a record
    fails, or a record is shorter than a batch header, [replayWAL]
    returns the error (for the short record, that the log is corrupt)
    with the number zero, and writes no table: what it has replayed of
    the earlier records is dropped. *)
Theorem replayWAL_stops_at_bad_record (before after : list (bytes + error))
    (mem : option memTable.memTable) (maxSeq : N) :
  Replay.replay_records mtes arenaCapacity cmp before None 0 = Ret (mem, maxSeq, None) ->
  (forall e,
     Replay.replayWAL mtes arenaCapacity cmp (before ++ inr e :: after)
     = Ret {| Replay.maxSeqNum := 0; Replay.err := Some e; Replay.level0 := [] |}) /\
  (forall buf,
     (length buf < 12)%nat ->
     Replay.replayWAL mtes arenaCapacity cmp (before ++ inl buf :: after)
     = Ret {| Replay.maxSeqNum := 0;
              Replay.err := Some (Errorf "pebble: corrupt log file");
              Replay.level0 := [] |}).
Proof.
  intros Hbefore. split.
  - intros e. unfold Replay.replayWAL.
    by rewrite (replay_records_app mtes arenaCapacity cmp before _ None mem 0 maxSeq Hbefore).
  - intros buf Hl. unfold Replay.replayWAL.
    rewrite (replay_records_app mtes arenaCapacity cmp before _ None mem 0 maxSeq Hbefore).
    cbn [Replay.replay_records]. unfold Batch.batchHeaderLen.
    replace (length buf <? 12)%nat with true by (symmetry; by apply Nat.ltb_lt).
    done.
Qed.
End ReplayThm.



Lemma replayWAL_stops_at_bad_record_witness :
  (forall e,
     Replay.replayWAL entrySize 100 bytes_Compare ([inl record_set_k_v] ++ inr e :: [])
     = Ret {| Replay.maxSeqNum := 0; Replay.err := Some e; Replay.level0 := [] |}) /\
  (forall buf,
     (length buf < 12)%nat ->
     Replay.replayWAL entrySize 100 bytes_Compare ([inl record_set_k_v] ++ inl buf :: [])
     = Ret {| Replay.maxSeqNum := 0;
              Replay.err := Some (Errorf "pebble: corrupt log file");
              Replay.level0 := [] |}).
Proof.
  apply (replayWAL_stops_at_bad_record entrySize 100 bytes_Compare [inl record_set_k_v] []
           (Some {| memTable.cmp := bytes_Compare; memTable.capacity := 100;
                    memTable.reserved := 10;
                    memTable.refs := 1;
                    memTable.contents := [(db.MakeInternalKey ["k"%byte] 0 1, Some ["v"%byte])] |})
           1).
  vm_compute. reflexivity.
Defined.

(** The log holds [Set("k", "v")] at sequence number 0 and then
    [Delete("j")] at sequence number 1; the table holds "j" before "k". *)
Example replayed_entries_example :
  replayed_entries [record_set_k_v; record_delete_j]
  = [(db.MakeInternalKey ["k"%byte] 0 1, Some ["v"%byte]);
     (db.MakeInternalKey ["j"%byte] 1 0, None)] /\
  key_ordered bytes_Compare (replayed_entries [record_set_k_v; record_delete_j])
  = [(db.MakeInternalKey ["j"%byte] 1 0, None);
     (db.MakeInternalKey ["k"%byte] 0 1, Some ["v"%byte])].
Proof. split; vm_compute; reflexivity. Qed.

Lemma Uvarint_overlong (rest : bytes) (b : byte) :
  binary.Uvarint (repeat x80 10 ++ b :: rest) = (0, (-11)%Z).
Proof. reflexivity. Qed.

Section Handle.
Import sstable.

(** X22: block handles.  [decodeBlockHandle] reads back the handle that
    [encodeBlockHandle] has written at the start of a buffer, and the
    same number of bytes, between 2 and 20; the bytes of the buffer
    after them are left as they were.  Of a buffer that ends within the
    encoding it returns the zero handle and the count 0. *)
Theorem blockHandle_round_trip (dst : bytes) (h : blockHandle) :
  bh_offset h < 2^64 -> bh_length h < 2^64 ->
  (length (binary.PutUvarint (bh_offset h) ++ binary.PutUvarint (bh_length h))
   <= length dst)%nat ->
  exists dst' n,
    encodeBlockHandle dst h = Ret (dst', Z.of_nat n) /\
    (2 <= n <= 20)%nat /\ length dst' = length dst /\ drop n dst' = drop n dst /\
    decodeBlockHandle dst' = Ret (h, Z.of_nat n) /\
    forall k, (k < n)%nat ->
      decodeBlockHandle (take k dst') = Ret ({| bh_offset := 0; bh_length := 0 |}, 0%Z).
Proof.
  intros Ho Hl Hlen. unfold encodeBlockHandle.
  set (e1 := binary.PutUvarint (bh_offset h)) in *.
  set (e2 := binary.PutUvarint (bh_length h)) in *.
  pose proof (PutUvarint_length (bh_offset h)) as H1. fold e1 in H1.
  pose proof (PutUvarint_length (bh_length h)) as H2. fold e2 in H2.
  replace (length (e1 ++ e2) <=? length dst)%nat with true
    by (symmetry; by apply Nat.leb_le).
  rewrite length_app in *.
  exists ((e1 ++ e2) ++ drop (length e1 + length e2) dst), (length e1 + length e2)%nat.
  split; [done|]. split; [lia|]. split.
  { rewrite !length_app, length_drop. lia. }
  split.
  { apply drop_app_length'. rewrite length_app. lia. }
  split.
  - unfold decodeBlockHandle. rewrite <- !app_assoc.
    subst e1. rewrite Uvarint_PutUvarint by done.
    set (e1 := binary.PutUvarint (bh_offset h)) in *.
    replace (Z.of_nat (length e1) <? 0)%Z with false by (symmetry; apply Z.ltb_ge; lia).
    rewrite Nat2Z.id, drop_app_length.
    subst e2. rewrite Uvarint_PutUvarint by done.
    set (e2 := binary.PutUvarint (bh_length h)) in *.
    replace (Z.of_nat (length e1) =? 0)%Z with false by (symmetry; apply Z.eqb_neq; lia).
    replace (Z.of_nat (length e2) =? 0)%Z with false by (symmetry; apply Z.eqb_neq; lia).
    cbn [orb]. destruct h. cbn [bh_offset bh_length]. do 2 f_equal. lia.
  - intros k Hk. unfold decodeBlockHandle. rewrite <- !app_assoc.
    destruct (decide (k < length e1)%nat) as [Hlt|Hge].
    + rewrite take_app_le by lia. subst e1. rewrite Uvarint_truncated by done.
      cbn [Z.ltb Z.compare]. by destruct (binary.Uvarint _).
    + rewrite take_app_ge by lia. subst e1. rewrite Uvarint_PutUvarint by done.
      set (e1 := binary.PutUvarint (bh_offset h)) in *.
      replace (Z.of_nat (length e1) <? 0)%Z with false by (symmetry; apply Z.ltb_ge; lia).
      rewrite Nat2Z.id, drop_app_length.
      rewrite take_app_le by lia. subst e2.
      rewrite Uvarint_truncated by lia.
      by rewrite orb_true_r.
Qed.

(** X23: varints that are too long.  [decodeBlockHandle] panics when
    the first varint of its input goes on for ten bytes and ends with
    an eleventh.  When the second does, it does not return the count 0
    that marks invalid input, but the handle with the length zero and
    the negative count that adding the two results of [Uvarint]
    gives. *)
Theorem decodeBlockHandle_overlong (v : N) (b : byte) (rest : bytes) :
  v < 2^64 ->
  Byte.to_N b < 0x80 ->
  (exists msg, decodeBlockHandle (repeat x80 10 ++ b :: rest) = Panic msg) /\
  decodeBlockHandle (binary.PutUvarint v ++ repeat x80 10 ++ b :: rest)
  = Ret ({| bh_offset := v; bh_length := 0 |},
         (Z.of_nat (length (binary.PutUvarint v)) - 11)%Z).
Proof.
  intros Hv _. split.
  - unfold decodeBlockHandle. rewrite Uvarint_overlong. by eexists.
  - unfold decodeBlockHandle. rewrite Uvarint_PutUvarint by done.
    pose proof (PutUvarint_length v) as H1.
    replace (Z.of_nat (length (binary.PutUvarint v)) <? 0)%Z with false
      by (symmetry; apply Z.ltb_ge; lia).
    rewrite Nat2Z.id, drop_app_length, Uvarint_overlong.
    replace (Z.of_nat (length (binary.PutUvarint v)) =? 0)%Z with false
      by (symmetry; apply Z.eqb_neq; lia).
    cbn [orb Z.eqb]. do 2 f_equal.
Qed.

(** X24: closing a table reader.  After [Close] the reader holds no
    file and is in error, so that a second [Close] closes no file,
    changes nothing and returns an error.  [Close] returns no error
    exactly when the reader was not in error and had no file or a file
    that closed without error; it closes the file it holds, whatever
    state it is in. *)
Theorem Reader_Close_once (r : Reader) :
  let '(r1, closed1, e1) := Close r in
  file r1 = None /\ is_Some (r_err r1) /\
  closed1 = file r /\
  (e1 = None <-> r_err r = None /\ (forall f, file r = Some f -> closeErr f = None)) /\
  exists e2, Close r1 = (r1, None, Some e2).
Proof.
  destruct r as [[f|] [e|]]; unfold Close; cbn [r_err file].
  - repeat split; try done; try by eexists. intros [H _]. done.
  - destruct (closeErr f) as [e|] eqn:Hf; cbn [file r_err Close];
      repeat split; try done; try by eexists.
    + intros [_ H]. specialize (H f eq_refl). congruence.
    + intros f' [= <-]. done.
  - repeat split; try done; try by eexists. intros [H _]. done.
  - repeat split; try done; try by eexists.
Qed.
End Handle.

Lemma blockHandle_round_trip_witness :
  exists dst' n,
    sstable.encodeBlockHandle (repeat x00 5)
      {| sstable.bh_offset := 300; sstable.bh_length := 5 |} = Ret (dst', Z.of_nat n) /\
    (2 <= n <= 20)%nat /\ length dst' = length (repeat x00 5) /\
    drop n dst' = drop n (repeat x00 5) /\
    sstable.decodeBlockHandle dst'
    = Ret ({| sstable.bh_offset := 300; sstable.bh_length := 5 |}, Z.of_nat n) /\
    forall k, (k < n)%nat ->
      sstable.decodeBlockHandle (take k dst')
      = Ret ({| sstable.bh_offset := 0; sstable.bh_length := 0 |}, 0%Z).
Proof.
  apply (blockHandle_round_trip (repeat x00 5)
           {| sstable.bh_offset := 300; sstable.bh_length := 5 |}).
  - vm_compute. reflexivity.
  - vm_compute. reflexivity.
  - vm_compute. lia.
Defined.

Lemma decodeBlockHandle_overlong_witness :
  (exists msg, sstable.decodeBlockHandle (repeat x80 10 ++ x01 :: []) = Panic msg) /\
  sstable.decodeBlockHandle (binary.PutUvarint 300 ++ repeat x80 10 ++ x01 :: [])
  = Ret ({| sstable.bh_offset := 300; sstable.bh_length := 0 |},
         (Z.of_nat (length (binary.PutUvarint 300)) - 11)%Z).
Proof.
  apply (decodeBlockHandle_overlong 300 x01 []); vm_compute; reflexivity.
Defined.

(** ** The raw block iterator on any block *)

Lemma byte_at_app (pre post : bytes) (b : byte) :
  rawBlockIter.byte_at (pre ++ b :: post) (Z.of_nat (length pre)) = Byte.to_N b.
Proof.
  unfold rawBlockIter.byte_at.
  replace (Z.of_nat (length pre) <? 0)%Z with false by (symmetry; apply Z.ltb_ge; lia).
  rewrite Nat2Z.id, lookup_app_r by lia. by rewrite Nat.sub_diag.
Qed.

Lemma mod32_lor (a b : N) : N.lor a (b mod 2^32) mod 2^32 = N.lor a b mod 2^32.
Proof.
  change (2^32) with (2^32). rewrite <- !N.land_ones.
  apply N.bits_inj. intros n.
  rewrite !N.land_spec, !N.lor_spec, !N.land_spec.
  destruct (N.testbit (N.ones 32) n); [by rewrite !andb_true_r|by rewrite !andb_false_r].
Qed.

Lemma decodeVarint_loop_put (f : nat) : forall (g : nat) (x s : N) (pre post : bytes),
  x < 2 ^ (7 * N.of_nat (S f)) ->
  (S f <= g)%nat ->
  rawBlockIter.decodeVarint_loop (S f) (pre ++ binary.PutUvarint_loop g x ++ post)
    (Z.of_nat (length pre)) s
  = (N.shiftl x s mod 2^32,
     (Z.of_nat (length pre) + Z.of_nat (length (binary.PutUvarint_loop g x)))%Z).
Proof.
  induction f as [|f IH]; intros g x s pre post Hx Hg.
  - destruct g as [|g]; [lia|]. cbn [binary.PutUvarint_loop].
    change (2 ^ (7 * N.of_nat 1)) with 128 in Hx.
    replace (128 <=? x) with false by (symmetry; apply N.leb_gt; lia).
    cbn [app rawBlockIter.decodeVarint_loop length].
    rewrite byte_at_app, to_N_byte_of_N, N.mod_small by lia.
    replace (x <? 128) with true by (symmetry; apply N.ltb_lt; lia).
    cbn [orb]. f_equal.
  - destruct g as [|g]; [lia|]. cbn [binary.PutUvarint_loop].
    destruct (N.leb_spec 128 x) as [Hge|Hlt].
    + cbn [app length]. remember (S f) as f1. cbn [rawBlockIter.decodeVarint_loop]. subst f1.
      rewrite byte_at_app, to_N_byte_of_N.
      replace (N.lor x 128 mod 256 <? 128) with false
        by (symmetry; apply N.ltb_ge; apply cont_byte_high).
      cbn [orb Nat.eqb].
      replace (pre ++ byte_of_N (N.lor x 128) :: binary.PutUvarint_loop g (N.shiftr x 7) ++ post)
        with ((pre ++ [byte_of_N (N.lor x 128)]) ++ binary.PutUvarint_loop g (N.shiftr x 7) ++ post)
        by (by rewrite <- app_assoc).
      replace (Z.of_nat (length pre) + 1)%Z
        with (Z.of_nat (length (pre ++ [byte_of_N (N.lor x 128)])))
        by (rewrite length_app; cbn; lia).
      rewrite (IH g (N.shiftr x 7) (s + 7)); [|
        rewrite N.shiftr_div_pow2; apply N.Div0.div_lt_upper_bound;
        rewrite <- N.pow_add_r; replace (7 + 7 * N.of_nat (S f)) with (7 * N.of_nat (S (S f))) by lia;
        done | lia].
      rewrite length_app. cbn [length]. f_equal; [|lia].
      rewrite cont_byte_low, mod32_lor.
      f_equal. rewrite <- (low7_split x) at 3.
      rewrite N.shiftl_lor, N.shiftl_shiftl. f_equal. f_equal. lia.
    + cbn [app length]. remember (S f) as f1. cbn [rawBlockIter.decodeVarint_loop]. subst f1.
      rewrite byte_at_app, to_N_byte_of_N, N.mod_small by lia.
      replace (x <? 128) with true by (symmetry; apply N.ltb_lt; lia).
      cbn [orb]. f_equal.
Qed.

Lemma PutUvarint_small (v : N) :
  v < 2^32 -> (length (binary.PutUvarint v) <= 5)%nat.
Proof.
  intros Hv. unfold binary.PutUvarint. rewrite N.mod_small by lia.
  unfold binary.MaxVarintLen64.
  assert (H : forall f g x, x < 2 ^ (7 * N.of_nat (S f)) -> (S f <= g)%nat ->
            (length (binary.PutUvarint_loop g x) <= S f)%nat).
  { induction f as [|f IH]; intros g x Hx Hg; (destruct g as [|g]; [lia|]);
      cbn [binary.PutUvarint_loop].
    - change (2 ^ (7 * N.of_nat 1)) with 128 in Hx.
      replace (128 <=? x) with false by (symmetry; apply N.leb_gt; lia). done.
    - destruct (128 <=? x); [|cbn; lia]. cbn [length].
      apply le_n_S, IH; [|lia].
      rewrite N.shiftr_div_pow2; apply N.Div0.div_lt_upper_bound.
      rewrite <- N.pow_add_r. replace (7 + 7 * N.of_nat (S f)) with (7 * N.of_nat (S (S f))) by lia.
      done. }
  apply (H 4%nat); [|lia]. change (2 ^ (7 * N.of_nat 5)) with (2^35). lia.
Qed.

Lemma decodeVarint_put (v : N) (pre post : bytes) :
  v < 2^32 ->
  rawBlockIter.decodeVarint (pre ++ binary.PutUvarint v ++ post) (Z.of_nat (length pre))
  = (v, (Z.of_nat (length pre) + Z.of_nat (length (binary.PutUvarint v)))%Z).
Proof.
  intros Hv. unfold rawBlockIter.decodeVarint, binary.PutUvarint.
  rewrite (N.mod_small v) by lia. unfold binary.MaxVarintLen64.
  rewrite (decodeVarint_loop_put 4 10 v 0 pre post);
    [|change (2 ^ (7 * N.of_nat 5)) with (2^35); lia|lia].
  rewrite N.shiftl_0_r, N.mod_small by done. done.
Qed.


Lemma enc_bentry_length (e : bentry) :
  (3 + (length (be_key e) - be_shared e) + length (be_val e) <= length (enc_bentry e))%nat.
Proof.
  unfold enc_bentry. rewrite !length_app, length_drop.
  pose proof (PutUvarint_length (N.of_nat (be_shared e))).
  pose proof (PutUvarint_length (N.of_nat (length (be_key e) - be_shared e))).
  pose proof (PutUvarint_length (N.of_nat (length (be_val e)))). lia.
Qed.

(** [readEntry] at an entry: the key is made of the first [be_shared e]
    bytes of the key that the iterator holds and of the bytes stored. *)
Lemma readEntry_at_any (i : rawBlockIter.rawBlockIter) (pre post : bytes) (e : bentry) :
  rawBlockIter.data i = pre ++ enc_bentry e ++ post ->
  rawBlockIter.offset i = Z.of_nat (length pre) ->
  (be_shared e <= length (be_key e))%nat ->
  N.of_nat (length (be_key e)) < 2^32 -> N.of_nat (length (be_val e)) < 2^32 ->
  rawBlockIter.readEntry i
  = moved i (rawBlockIter.offset i) (Z.of_nat (length pre + length (enc_bentry e)))
      (take (be_shared e) (rawBlockIter.key i) ++ drop (be_shared e) (be_key e))
      (be_val e) (db.UserKey (rawBlockIter.ikey i)).
Proof.
  intros Hd Ho Hs Hk Hv. unfold rawBlockIter.readEntry.
  set (v1 := binary.PutUvarint (N.of_nat (be_shared e))).
  set (v2 := binary.PutUvarint (N.of_nat (length (be_key e) - be_shared e))).
  set (v3 := binary.PutUvarint (N.of_nat (length (be_val e)))).
  assert (Hd1 : rawBlockIter.data i
                = pre ++ v1 ++ (v2 ++ v3 ++ drop (be_shared e) (be_key e) ++ be_val e ++ post)).
  { rewrite Hd. unfold enc_bentry. fold v1 v2 v3. by rewrite <- !app_assoc. }
  assert (Hd2 : rawBlockIter.data i
                = (pre ++ v1) ++ v2 ++ (v3 ++ drop (be_shared e) (be_key e) ++ be_val e ++ post))
    by (rewrite Hd1; by rewrite <- !app_assoc).
  assert (Hd3 : rawBlockIter.data i
                = (pre ++ v1 ++ v2) ++ v3 ++ (drop (be_shared e) (be_key e) ++ be_val e ++ post))
    by (rewrite Hd1; by rewrite <- !app_assoc).
  assert (Hd4 : rawBlockIter.data i
                = (pre ++ v1 ++ v2 ++ v3) ++ drop (be_shared e) (be_key e) ++ be_val e ++ post)
    by (rewrite Hd1; by rewrite <- !app_assoc).
  assert (Hd5 : rawBlockIter.data i
                = (pre ++ v1 ++ v2 ++ v3 ++ drop (be_shared e) (be_key e)) ++ be_val e ++ post)
    by (rewrite Hd1; by rewrite <- !app_assoc).
  rewrite Ho. rewrite Hd1 at 1. subst v1. rewrite decodeVarint_put by lia.
  set (v1 := binary.PutUvarint (N.of_nat (be_shared e))) in *.
  replace (Z.of_nat (length pre) + Z.of_nat (length v1))%Z
    with (Z.of_nat (length (pre ++ v1))) by (rewrite length_app; lia).
  rewrite Hd2 at 1. subst v2. rewrite decodeVarint_put by lia.
  set (v2 := binary.PutUvarint (N.of_nat (length (be_key e) - be_shared e))) in *.
  replace (Z.of_nat (length (pre ++ v1)) + Z.of_nat (length v2))%Z
    with (Z.of_nat (length (pre ++ v1 ++ v2))) by (rewrite !length_app; lia).
  rewrite Hd3 at 1. subst v3. rewrite decodeVarint_put by lia.
  set (v3 := binary.PutUvarint (N.of_nat (length (be_val e)))) in *.
  replace (Z.of_nat (length (pre ++ v1 ++ v2)) + Z.of_nat (length v3))%Z
    with (Z.of_nat (length (pre ++ v1 ++ v2 ++ v3))) by (rewrite !length_app; lia).
  unfold moved, rawBlockIter.getBytes. rewrite !Nat2N.id.
  f_equal.
  - unfold enc_bentry. fold v1 v2 v3. rewrite !length_app, length_drop. lia.
  - rewrite Hd4 at 1. rewrite Nat2Z.id, drop_app_length.
    by rewrite take_app_length' by (rewrite length_drop; lia).
  - replace (Z.of_nat (length (pre ++ v1 ++ v2 ++ v3))
             + Z.of_N (N.of_nat (length (be_key e) - be_shared e)))%Z
      with (Z.of_nat (length (pre ++ v1 ++ v2 ++ v3 ++ drop (be_shared e) (be_key e))))
      by (rewrite !length_app, length_drop; lia).
    rewrite Hd5 at 1. rewrite Nat2Z.id, drop_app_length.
    by rewrite take_app_length'.
  - by destruct (rawBlockIter.ikey i).
Qed.

Lemma readEntry_at (i : rawBlockIter.rawBlockIter) (pre post : bytes) (e : bentry) :
  rawBlockIter.data i = pre ++ enc_bentry e ++ post ->
  rawBlockIter.offset i = Z.of_nat (length pre) ->
  (be_shared e <= length (be_key e))%nat ->
  N.of_nat (length (be_key e)) < 2^32 -> N.of_nat (length (be_val e)) < 2^32 ->
  take (be_shared e) (rawBlockIter.key i) = take (be_shared e) (be_key e) ->
  rawBlockIter.readEntry i
  = moved i (rawBlockIter.offset i) (Z.of_nat (length pre + length (enc_bentry e)))
      (be_key e) (be_val e) (db.UserKey (rawBlockIter.ikey i)).
Proof.
  intros Hd Ho Hs Hk Hv Hpre.
  rewrite (readEntry_at_any i pre post e) by done. by rewrite Hpre, take_drop.
Qed.

Lemma loadEntry_at (i : rawBlockIter.rawBlockIter) (pre post : bytes) (e : bentry) :
  rawBlockIter.data i = pre ++ enc_bentry e ++ post ->
  rawBlockIter.offset i = Z.of_nat (length pre) ->
  (be_shared e <= length (be_key e))%nat ->
  N.of_nat (length (be_key e)) < 2^32 -> N.of_nat (length (be_val e)) < 2^32 ->
  take (be_shared e) (rawBlockIter.key i) = take (be_shared e) (be_key e) ->
  rawBlockIter.loadEntry i
  = moved i (rawBlockIter.offset i) (Z.of_nat (length pre + length (enc_bentry e)))
      (be_key e) (be_val e) (be_key e).
Proof.
  intros. unfold rawBlockIter.loadEntry.
  by rewrite (readEntry_at i pre post e).
Qed.

Lemma entries_bytes_cons e es : entries_bytes (e :: es) = enc_bentry e ++ entries_bytes es.
Proof. done. Qed.

Lemma entries_bytes_app es1 es2 :
  entries_bytes (es1 ++ es2) = entries_bytes es1 ++ entries_bytes es2.
Proof. unfold entries_bytes. by rewrite map_app, concat_app. Qed.

Lemma Next_walk (d tl : bytes) : forall (es2 es1 : list bentry) (i : rawBlockIter.rawBlockIter)
    (fuel : nat),
  d = entries_bytes es1 ++ entries_bytes es2 ++ tl ->
  rawBlockIter.data i = d ->
  rawBlockIter.restarts i
  = Z.of_nat (length (entries_bytes es1) + length (entries_bytes es2)) ->
  rawBlockIter.nextOffset i = Z.of_nat (length (entries_bytes es1)) ->
  wf_entries (rawBlockIter.key i) es2 ->
  (length es2 < fuel)%nat ->
  walk fuel (fst (rawBlockIter.Next i)) = map (fun e => (be_key e, be_val e)) es2.
Proof.
  induction es2 as [|e es2 IH]; intros es1 i fuel Hd Hdi Hr Hn Hwf Hf.
  - destruct fuel as [|fuel]; [done|].
    assert (Hv : rawBlockIter.Valid (rawBlockIter.with_offset i (rawBlockIter.nextOffset i))
                 = false).
    { unfold rawBlockIter.Valid.
      cbn [rawBlockIter.with_offset rawBlockIter.offset rawBlockIter.restarts].
      rewrite Hn, Hr. cbn [entries_bytes map concat length].
      apply andb_false_iff. right. apply Z.ltb_ge. lia. }
    unfold rawBlockIter.Next. rewrite Hv. cbn [negb fst walk]. by rewrite Hv.
  - destruct fuel as [|fuel]; [cbn in Hf; lia|].
    destruct Hwf as (Hs1 & Hs2 & Hpre & Hk & Hv & Hwf).
    pose proof (enc_bentry_length e) as Hlen.
    rewrite entries_bytes_cons, length_app in Hr.
    set (i1 := rawBlockIter.with_offset i (rawBlockIter.nextOffset i)).
    assert (Hval : rawBlockIter.Valid i1 = true).
    { unfold rawBlockIter.Valid, i1.
      cbn [rawBlockIter.with_offset rawBlockIter.offset rawBlockIter.restarts].
      rewrite Hn, Hr. apply andb_true_iff. split; [apply Z.leb_le|apply Z.ltb_lt]; lia. }
    unfold rawBlockIter.Next. fold i1. rewrite Hval. cbn [negb fst].
    rewrite (loadEntry_at i1 (entries_bytes es1) (entries_bytes es2 ++ tl) e);
      [|unfold i1; cbn [rawBlockIter.with_offset rawBlockIter.data];
        by rewrite Hdi, Hd, entries_bytes_cons, <- app_assoc|done|done|done|done|done].
    cbn [walk].
    match goal with
    | |- (if rawBlockIter.Valid ?m then _ else _) = _ =>
        replace (rawBlockIter.Valid m) with true by done
    end.
    cbn [map]. f_equal.
    apply (IH (es1 ++ [e])).
    + rewrite Hd, entries_bytes_app, entries_bytes_cons. cbn [entries_bytes map concat].
      by rewrite app_nil_r, <- !app_assoc.
    + done.
    + cbn [moved rawBlockIter.restarts rawBlockIter.with_offset i1]. unfold i1.
      cbn [rawBlockIter.with_offset rawBlockIter.restarts]. rewrite Hr.
      rewrite entries_bytes_app, length_app. cbn [entries_bytes map concat].
      rewrite app_nil_r. f_equal. lia.
    + cbn [moved rawBlockIter.nextOffset]. rewrite entries_bytes_app, length_app.
      cbn [entries_bytes map concat]. by rewrite app_nil_r.
    + done.
    + cbn in Hf. lia.
Qed.

Lemma restart_bytes_length (rs : list nat) :
  length (concat (map (fun r => binary.le_bytes 4 (N.of_nat r)) rs)) = (4 * length rs)%nat.
Proof.
  induction rs as [|r rs IH]; [done|].
  cbn [map concat]. rewrite length_app, IH, le_bytes_length. cbn [length]. lia.
Qed.

Lemma init_block_of (c : db.Compare) (es : list bentry) (rs : list nat) :
  rs ≠ [] -> N.of_nat (length rs) < 2^32 ->
  rawBlockIter.init c (block_of es rs) = inl (iter_of c es rs).
Proof.
  intros Hrs Hn. unfold rawBlockIter.init.
  assert (Hlen : length (block_of es rs)
                 = (length (entries_bytes es) + 4 * length rs + 4)%nat).
  { unfold block_of. rewrite !length_app, restart_bytes_length, le_bytes_length. lia. }
  assert (Hdrop : drop (length (block_of es rs) - 4) (block_of es rs)
                  = binary.le_bytes 4 (N.of_nat (length rs))).
  { rewrite Hlen. unfold block_of. rewrite app_assoc.
    rewrite drop_app_length'; [done|].
    rewrite length_app, restart_bytes_length. lia. }
  rewrite Hdrop.
  rewrite firstn_all2 by (rewrite le_bytes_length; lia).
  rewrite le_value_le_bytes.
  change (256 ^ N.of_nat 4) with (2^32). rewrite N.mod_small by done.
  destruct (Z.eqb_spec (Z.of_N (N.of_nat (length rs))) 0) as [E|E].
  - destruct rs; [done|]. cbn in E. lia.
  - unfold iter_of. do 2 f_equal; [rewrite Hlen|]; lia.
Qed.

Lemma Valid_loadEntry (i : rawBlockIter.rawBlockIter) :
  rawBlockIter.Valid (rawBlockIter.loadEntry i) = rawBlockIter.Valid i.
Proof.
  unfold rawBlockIter.loadEntry, rawBlockIter.readEntry, rawBlockIter.Valid.
  destruct (rawBlockIter.decodeVarint _ _) as [s1 p1].
  destruct (rawBlockIter.decodeVarint _ p1) as [s2 p2].
  by destruct (rawBlockIter.decodeVarint _ p2) as [s3 p3].
Qed.

Section Forward.
Context (c : db.Compare).

(** X25: reading a block forward.  Of a block that holds the entries
  [es], each with the key bytes it does not share with the entry
  before it, and at least one restart point, [init] makes an
  iterator, and the loop [for i.First(); i.Valid(); i.Next()] visits
  the keys and the values of [es], all of them, in their order, and
  ends there. *)
Theorem First_Next_visit_entries (es : list bentry) (rs : list nat) :
wf_entries [] es -> (0 < length rs)%nat -> N.of_nat (length rs) < 2^32 ->
exists i,
  rawBlockIter.init c (block_of es rs) = inl i /\
  forall fuel, (length es < fuel)%nat ->
    walk fuel (rawBlockIter.First i) = map (fun e => (be_key e, be_val e)) es.
Proof.
intros Hwf Hrs Hn. exists (iter_of c es rs). split.
- apply init_block_of; [by destruct rs; cbn in Hrs; [lia|]|done].
- intros fuel Hf.
  destruct es as [|e es].
  + destruct fuel as [|fuel]; [done|].
    cbn [walk map]. unfold rawBlockIter.First. by rewrite Valid_loadEntry.
  + set (i0 := iter_of c (e :: es) rs).
    assert (HF : rawBlockIter.First i0 = (rawBlockIter.Next i0).1).
    { unfold rawBlockIter.First, rawBlockIter.Next.
      change (rawBlockIter.nextOffset i0) with 0%Z.
      replace (rawBlockIter.Valid (rawBlockIter.with_offset i0 0)) with true; [done|].
      symmetry. unfold rawBlockIter.Valid.
      cbn [rawBlockIter.with_offset rawBlockIter.offset rawBlockIter.restarts i0 iter_of].
      pose proof (enc_bentry_length e). rewrite entries_bytes_cons, length_app.
      apply andb_true_iff. split; [apply Z.leb_le|apply Z.ltb_lt]; lia. }
    rewrite HF.
    apply (Next_walk (block_of (e :: es) rs)
             (concat (map (fun r => binary.le_bytes 4 (N.of_nat r)) rs)
              ++ binary.le_bytes 4 (N.of_nat (length rs))) (e :: es) []); try done.
Qed.
End Forward.

(** [sort.Search] on a predicate that, once true, stays true: the
    smallest index at which it is true, or the bound. *)
Lemma search_loop_spec (f : Z -> bool) : forall (fuel : nat) (lo hi : Z),
  (lo <= hi)%Z -> (hi - lo < Z.of_nat fuel)%Z ->
  (forall a b, (lo <= a <= b)%Z -> (b < hi)%Z -> f a = true -> f b = true) ->
  let r := rawBlockIter.search_loop fuel f lo hi in
  (lo <= r <= hi)%Z /\
  (forall j, (lo <= j < r)%Z -> f j = false) /\
  (forall j, (r <= j < hi)%Z -> f j = true).
Proof.
  induction fuel as [|fuel IH]; intros lo hi Hle Hf Hmono; [lia|].
  cbn [rawBlockIter.search_loop].
  destruct (Z.ltb_spec lo hi) as [Hlt|Hge].
  - assert (Hh : (lo <= (lo + hi) / 2 < hi)%Z).
    { split; [apply Z.div_le_lower_bound|apply Z.div_lt_upper_bound]; lia. }
    destruct (f ((lo + hi) / 2)%Z) eqn:Hfh; cbn [negb].
    + destruct (IH lo ((lo + hi) / 2)%Z) as (H1 & H2 & H3); [lia|lia| |].
      { intros a b Hab Hb. apply Hmono; lia. }
      cbv zeta. split; [lia|]. split; [done|].
      intros j Hj. destruct (Z.lt_ge_cases j ((lo + hi) / 2)) as [Hjh|Hjh].
      * apply H3. lia.
      * apply (Hmono ((lo + hi) / 2)%Z j); [lia|lia|done].
    + destruct (IH ((lo + hi) / 2 + 1)%Z hi) as (H1 & H2 & H3); [lia|lia| |].
      { intros a b Hab Hb. apply Hmono; lia. }
      cbv zeta. split; [lia|]. split; [|done].
      intros j Hj. destruct (Z.lt_ge_cases ((lo + hi) / 2) j) as [Hjh|Hjh].
      * apply H2. lia.
      * destruct (f j) eqn:Hfj; [|done].
        rewrite (Hmono j ((lo + hi) / 2)%Z) in Hfh; [done|lia|lia|done].
  - cbv zeta. split; [lia|]. split; intros j Hj; lia.
Qed.

Lemma search_loop_ext (f g : Z -> bool) : forall (fuel : nat) (lo hi : Z),
  (forall j, (lo <= j < hi)%Z -> f j = g j) ->
  rawBlockIter.search_loop fuel f lo hi = rawBlockIter.search_loop fuel g lo hi.
Proof.
  induction fuel as [|fuel IH]; intros lo hi Hfg; [done|].
  cbn [rawBlockIter.search_loop].
  destruct (Z.ltb_spec lo hi) as [Hlt|Hge]; [|done].
  assert (Hh : (lo <= (lo + hi) / 2 < hi)%Z).
  { split; [apply Z.div_le_lower_bound|apply Z.div_lt_upper_bound]; lia. }
  rewrite (Hfg _ Hh). destruct (g ((lo + hi) / 2)%Z); cbn [negb]; apply IH; intros; apply Hfg; lia.
Qed.

Lemma sorted_lookup_lt {A} (R : A -> A -> Prop) (l : list A) : forall (a b : nat) (x y : A),
  StronglySorted R l -> l !! a = Some x -> l !! b = Some y -> (a < b)%nat -> R x y.
Proof.
  induction l as [|z l IH]; intros a b x y Hs Ha Hb Hab; [done|].
  apply StronglySorted_inv in Hs as [Hs Hall].
  destruct b as [|b]; [lia|]. cbn in Hb.
  destruct a as [|a].
  - cbn in Ha. injection Ha as <-.
    rewrite Forall_forall in Hall. apply Hall. by eapply list_elem_of_lookup_2.
  - cbn in Ha. apply (IH a b); [done..|lia].
Qed.

Lemma sorted_lt_length (l : list nat) : forall (m n : nat),
  StronglySorted lt l -> Forall (fun x => (m <= x < n)%nat) l -> (length l <= n - m)%nat.
Proof.
  induction l as [|x l IH]; intros m n Hs Hall; [cbn; lia|].
  apply StronglySorted_inv in Hs as [Hs Hx].
  apply Forall_cons in Hall as [Hmx Hall].
  specialize (IH (S m) n Hs). cbn [length].
  assert (length l <= n - S m)%nat; [|lia].
  apply IH. rewrite Forall_forall in *. intros y Hy.
  specialize (Hx y Hy). specialize (Hall y Hy). lia.
Qed.


Lemma entries_bytes_length (es : list bentry) :
  (length es <= length (entries_bytes es))%nat.
Proof.
  induction es as [|e es IH]; [done|].
  rewrite entries_bytes_cons, length_app. pose proof (enc_bentry_length e). cbn [length]. lia.
Qed.

Lemma offset_of_le (es : list bentry) (j : nat) :
  (offset_of es j <= length (entries_bytes es))%nat.
Proof.
  unfold offset_of. rewrite <- (take_drop j es) at 2.
  rewrite entries_bytes_app, length_app. lia.
Qed.

Lemma entries_split (es : list bentry) (j : nat) (e : bentry) (tl : bytes) :
  es !! j = Some e ->
  entries_bytes es ++ tl
  = entries_bytes (take j es) ++ enc_bentry e ++ (entries_bytes (drop (S j) es) ++ tl) /\
  length (entries_bytes es)
  = (offset_of es j + length (enc_bentry e) + length (entries_bytes (drop (S j) es)))%nat /\
  offset_of es (S j) = (offset_of es j + length (enc_bentry e))%nat.
Proof.
  intros He. pose proof (take_drop_middle es j e He) as Hes.
  split; [|split].
  - rewrite <- Hes at 1. rewrite entries_bytes_app, entries_bytes_cons.
    by rewrite <- !app_assoc.
  - rewrite <- Hes at 1. rewrite entries_bytes_app, entries_bytes_cons, !length_app.
    unfold offset_of. lia.
  - unfold offset_of. rewrite (take_S_r es j e He), entries_bytes_app, length_app.
    cbn [entries_bytes map concat]. by rewrite app_nil_r.
Qed.

Lemma restart_bytes_lookup (tl : bytes) : forall (rs : list nat) (j r : nat),
  rs !! j = Some r ->
  take 4 (drop (4 * j) (concat (map (fun r => binary.le_bytes 4 (N.of_nat r)) rs) ++ tl))
  = binary.le_bytes 4 (N.of_nat r).
Proof.
  induction rs as [|x rs IH]; intros j r Hj; [done|].
  cbn [map concat]. rewrite <- app_assoc.
  destruct j as [|j].
  - cbn in Hj. injection Hj as ->. replace (4 * 0)%nat with 0%nat by lia.
    rewrite drop_0. by rewrite take_app_length' by (by rewrite le_bytes_length).
  - cbn in Hj. replace (4 * S j)%nat with (4 + 4 * j)%nat by lia.
    rewrite <- drop_drop. rewrite drop_app_length' by (by rewrite le_bytes_length).
    by apply IH.
Qed.

Lemma restart_at_lookup (c : db.Compare) (es : list bentry) (rs : list nat)
    (i : rawBlockIter.rawBlockIter) (j r : nat) :
  iter_over c es rs i -> rs !! j = Some r -> N.of_nat r < 2^32 ->
  rawBlockIter.restart_at i (Z.of_nat j) = Z.of_nat r.
Proof.
  intros (_ & Hd & Hr & _) Hj Hlt. unfold rawBlockIter.restart_at.
  rewrite Hd, Hr. unfold block_of.
  replace (Z.to_nat (Z.of_nat (length (entries_bytes es)) + 4 * Z.of_nat j))
    with (length (entries_bytes es) + 4 * j)%nat by lia.
  rewrite <- drop_drop, drop_app_length.
  rewrite (restart_bytes_lookup _ rs j r Hj).
  rewrite le_value_le_bytes. change (256 ^ N.of_nat 4) with (2^32).
  rewrite N.mod_small by done. lia.
Qed.

(** The key that [SeekGE] reads at a restart point. *)
Lemma restart_key (d pre post : bytes) (e : bentry) :
  d = pre ++ enc_bentry e ++ post -> be_shared e = 0%nat ->
  N.of_nat (length (be_key e)) < 2^32 -> N.of_nat (length (be_val e)) < 2^32 ->
  (let '(v1, p) := rawBlockIter.decodeVarint d (Z.of_nat (length pre) + 1)%Z in
   let '(_, p) := rawBlockIter.decodeVarint d p in
   rawBlockIter.getBytes d p v1) = be_key e.
Proof.
  intros Hd Hs Hk Hv.
  set (v2 := binary.PutUvarint (N.of_nat (length (be_key e)))).
  set (v3 := binary.PutUvarint (N.of_nat (length (be_val e)))).
  assert (He : enc_bentry e = [x00] ++ v2 ++ v3 ++ be_key e ++ be_val e).
  { unfold enc_bentry. rewrite Hs, Nat.sub_0_r. by cbn. }
  rewrite He in Hd.
  assert (Hd2 : d = (pre ++ [x00]) ++ v2 ++ (v3 ++ be_key e ++ be_val e ++ post))
    by (rewrite Hd; by rewrite <- !app_assoc).
  assert (Hd3 : d = (pre ++ [x00] ++ v2) ++ v3 ++ (be_key e ++ be_val e ++ post))
    by (rewrite Hd; by rewrite <- !app_assoc).
  assert (Hd4 : d = (pre ++ [x00] ++ v2 ++ v3) ++ be_key e ++ (be_val e ++ post))
    by (rewrite Hd; by rewrite <- !app_assoc).
  replace (Z.of_nat (length pre) + 1)%Z with (Z.of_nat (length (pre ++ [x00])))
    by (rewrite length_app; cbn; lia).
  rewrite Hd2 at 1. unfold v2. rewrite decodeVarint_put by done. fold v2.
  replace (Z.of_nat (length (pre ++ [x00])) + Z.of_nat (length v2))%Z
    with (Z.of_nat (length (pre ++ [x00] ++ v2))) by (rewrite !length_app; lia).
  rewrite Hd3 at 1. unfold v3. rewrite decodeVarint_put by done. fold v3.
  replace (Z.of_nat (length (pre ++ [x00] ++ v2)) + Z.of_nat (length v3))%Z
    with (Z.of_nat (length (pre ++ [x00] ++ v2 ++ v3))) by (rewrite !length_app; lia).
  unfold rawBlockIter.getBytes. rewrite Hd4 at 1.
  rewrite Nat2Z.id, drop_app_length, Nat2N.id.
  by rewrite take_app_length' by done.
Qed.

Lemma wf_entries_app (p : bytes) (l1 : list bentry) : forall (e : bentry) (l2 : list bentry),
  wf_entries p (l1 ++ e :: l2) ->
  (be_shared e <= length (be_key e))%nat /\
  N.of_nat (length (be_key e)) < 2^32 /\ N.of_nat (length (be_val e)) < 2^32 /\
  wf_entries (be_key e) l2.
Proof.
  revert p. induction l1 as [|x l1 IH]; intros p e l2 Hwf.
  - by destruct Hwf as (_ & ? & _ & ? & ? & ?).
  - destruct Hwf as (_ & _ & _ & _ & _ & Hwf). by apply (IH _ _ _ Hwf).
Qed.

Section Seek.
Context (c : db.Compare) `{!CompareOrder c}.

(** The scan of [SeekGE] from an entry on which the iterator stands. *)
Lemma scan_from (d tl k : bytes) : forall (es2 es1 : list bentry) (e : bentry)
  (i : rawBlockIter.rawBlockIter) (fuel : nat),
d = entries_bytes es1 ++ entries_bytes (e :: es2) ++ tl ->
rawBlockIter.cmp i = c ->
rawBlockIter.data i = d ->
rawBlockIter.restarts i
= Z.of_nat (length (entries_bytes es1) + length (entries_bytes (e :: es2))) ->
rawBlockIter.offset i = Z.of_nat (length (entries_bytes es1)) ->
rawBlockIter.nextOffset i
= Z.of_nat (length (entries_bytes es1) + length (enc_bentry e)) ->
rawBlockIter.key i = be_key e -> rawBlockIter.val i = be_val e ->
db.UserKey (rawBlockIter.ikey i) = be_key e ->
wf_entries (be_key e) es2 ->
(length es2 < fuel)%nat ->
landing (rawBlockIter.scan fuel k i)
= key_val <$> find (fun e => (c k (be_key e) <=? 0)%Z) (e :: es2).
Proof.
induction es2 as [|e' es2 IH]; intros es1 e i fuel Hd Hc Hdi Hr Ho Hn Hk Hv Hu Hwf Hf;
  (destruct fuel as [|fuel]; [cbn in Hf; lia|]);
  pose proof (enc_bentry_length e) as Hlen;
  rewrite entries_bytes_cons, length_app in Hr;
  (assert (Hval : rawBlockIter.Valid i = true)
     by (unfold rawBlockIter.Valid; rewrite Ho, Hr; apply andb_true_iff;
         split; [apply Z.leb_le|apply Z.ltb_lt]; lia));
  cbn [rawBlockIter.scan find]; rewrite Hval, Hc, Hk;
  (destruct (c k (be_key e) <=? 0)%Z eqn:Hcmp;
     [unfold landing, rawBlockIter.Key, rawBlockIter.Value;
      by rewrite Hval, Hu, Hv|]).
- assert (Hv1 : rawBlockIter.Valid (rawBlockIter.with_offset i (rawBlockIter.nextOffset i))
                = false).
  { unfold rawBlockIter.Valid.
    cbn [rawBlockIter.with_offset rawBlockIter.offset rawBlockIter.restarts].
    rewrite Hn, Hr. cbn [entries_bytes map concat length].
    apply andb_false_iff. right. apply Z.ltb_ge. lia. }
  unfold rawBlockIter.Next. rewrite Hv1. cbn [negb fst find fmap option_fmap option_map].
  destruct fuel as [|fuel]; cbn [rawBlockIter.scan]; rewrite ?Hv1;
    unfold landing; by rewrite Hv1.
- destruct Hwf as (Hs1 & Hs2 & Hpre & Hk' & Hv' & Hwf).
  pose proof (enc_bentry_length e') as Hlen'.
  rewrite entries_bytes_cons, length_app in Hr.
  set (i1 := rawBlockIter.with_offset i (rawBlockIter.nextOffset i)).
  assert (Hv1 : rawBlockIter.Valid i1 = true).
  { unfold rawBlockIter.Valid, i1.
    cbn [rawBlockIter.with_offset rawBlockIter.offset rawBlockIter.restarts].
    rewrite Hn, Hr. apply andb_true_iff. split; [apply Z.leb_le|apply Z.ltb_lt]; lia. }
  unfold rawBlockIter.Next. fold i1. rewrite Hv1. cbn [negb fst].
  rewrite (loadEntry_at i1 (entries_bytes es1 ++ enc_bentry e) (entries_bytes es2 ++ tl) e');
    [|unfold i1; cbn [rawBlockIter.with_offset rawBlockIter.data];
      by rewrite Hdi, Hd, !entries_bytes_cons, <- !app_assoc
     |unfold i1; cbn [rawBlockIter.with_offset rawBlockIter.offset];
      by rewrite Hn, length_app
     |done|done|done
     |unfold i1; cbn [rawBlockIter.with_offset rawBlockIter.key]; by rewrite Hk].
  assert (Hsplit : entries_bytes (es1 ++ [e]) = entries_bytes es1 ++ enc_bentry e).
  { rewrite entries_bytes_app. cbn [entries_bytes map concat]. by rewrite app_nil_r. }
  apply (IH (es1 ++ [e])); try done.
  + rewrite Hd, Hsplit, !entries_bytes_cons. by rewrite <- !app_assoc.
  + unfold moved, i1. cbn [rawBlockIter.with_offset rawBlockIter.restarts].
    rewrite Hr, Hsplit, entries_bytes_cons, !length_app. f_equal. lia.
  + unfold moved, i1. cbn [rawBlockIter.with_offset rawBlockIter.offset].
    by rewrite Hn, Hsplit, length_app.
  + unfold moved. cbn [rawBlockIter.nextOffset]. by rewrite Hsplit, !length_app.
  + cbn in Hf. lia.
Qed.
End Seek.

Lemma find_app_false {A} (f : A -> bool) (l1 l2 : list A) :
  (forall x, x ∈ l1 -> f x = false) -> find f (l1 ++ l2) = find f l2.
Proof.
  induction l1 as [|x l1 IH]; intros H; [done|].
  cbn [app find]. rewrite (H x) by left. apply IH. intros y Hy. apply H. by right.
Qed.

Lemma find_split {A} (f : A -> bool) (l : list A) (x : A) :
  find f l = Some x ->
  exists l1 l2, l = l1 ++ x :: l2 /\ forall y, y ∈ l1 -> f y = false.
Proof.
  induction l as [|z l IH]; [done|]. cbn [find].
  destruct (f z) eqn:Hz.
  - intros [= ->]. exists [], l. split; [done|]. intros y Hy. by apply elem_of_nil in Hy.
  - intros Hf. destruct (IH Hf) as (l1 & l2 & -> & Hl1).
    exists (z :: l1), l2. split; [done|].
    intros y Hy. apply elem_of_cons in Hy as [->|Hy]; [done|by apply Hl1].
Qed.

Section SeekGE.
Context (c : db.Compare) `{!CompareOrder c}.

Lemma seek_tail (es : list bentry) (rs : list nat) (k : bytes) (s : nat) (e : bentry)
  (i1 : rawBlockIter.rawBlockIter) :
wf_entries [] es ->
iter_over c es rs i1 ->
rawBlockIter.offset i1 = Z.of_nat (offset_of es s) ->
es !! s = Some e -> be_shared e = 0%nat ->
(forall e', e' ∈ take s es -> (c k (be_key e') <=? 0)%Z = false) ->
landing (rawBlockIter.scan (S (length (rawBlockIter.data (rawBlockIter.loadEntry i1)))) k
           (rawBlockIter.loadEntry i1))
= key_val <$> find (fun e => (c k (be_key e) <=? 0)%Z) es.
Proof.
intros Hwf (Hc & Hd & Hr & Hn) Ho He Hs Hbefore.
set (tl := concat (map (fun r => binary.le_bytes 4 (N.of_nat r)) rs)
           ++ binary.le_bytes 4 (N.of_nat (length rs))).
destruct (entries_split es s e tl He) as (Hsplit & Hlen & Hnext).
pose proof (take_drop_middle es s e He) as Hes.
assert (Hwf' := Hwf). rewrite <- Hes in Hwf'.
apply wf_entries_app in Hwf' as (Hs1 & Hk & Hv & Hwf2).
rewrite (loadEntry_at i1 (entries_bytes (take s es))
           (entries_bytes (drop (S s) es) ++ tl) e);
  [|by rewrite Hd|done|done|done|done|by rewrite Hs].
rewrite <- Hes at 3. rewrite find_app_false by done.
apply (scan_from c (block_of es rs) tl k (drop (S s) es) (take s es)); try done.
- unfold block_of. fold tl. rewrite Hsplit, entries_bytes_cons. by rewrite <- !app_assoc.
- unfold moved. cbn [rawBlockIter.restarts]. rewrite Hr, Hlen, entries_bytes_cons, length_app.
  unfold offset_of. f_equal. lia.
- unfold moved. cbn [rawBlockIter.data]. rewrite Hd.
  pose proof (entries_bytes_length es). 
  assert (length es <= length (block_of es rs))%nat
    by (unfold block_of; rewrite length_app; lia).
  rewrite length_drop. lia.
Qed.

(** The test of the bisection in [SeekGE] at the restart point [j]. *)
Lemma seek_pred (es : list bentry) (ris : list nat) (i0 : rawBlockIter.rawBlockIter)
  (k : bytes) (j s : nat) (e : bentry) :
wf_entries [] es ->
N.of_nat (length (entries_bytes es)) < 2^32 ->
iter_over c es (map (offset_of es) ris) i0 ->
ris !! j = Some s -> es !! s = Some e -> be_shared e = 0%nat ->
(let off := rawBlockIter.restart_at i0 (Z.of_nat j) in
 let '(v1, p) := rawBlockIter.decodeVarint (rawBlockIter.data i0) (off + 1)%Z in
 let '(_, p) := rawBlockIter.decodeVarint (rawBlockIter.data i0) p in
 let s := rawBlockIter.getBytes (rawBlockIter.data i0) p v1 in
 (rawBlockIter.cmp i0 k s <? 0)%Z)
= (c k (be_key e) <? 0)%Z.
Proof.
intros Hwf Hsize Hover Hj He Hs.
pose proof (offset_of_le es s) as Hle.
rewrite (restart_at_lookup c es (map (offset_of es) ris) i0 j (offset_of es s));
  [|done|by rewrite list_lookup_fmap, Hj|lia].
destruct Hover as (Hc & Hd & Hr & Hn).
set (tl := concat (map (fun r => binary.le_bytes 4 (N.of_nat r)) (map (offset_of es) ris))
           ++ binary.le_bytes 4 (N.of_nat (length (map (offset_of es) ris)))).
destruct (entries_split es s e tl He) as (Hsplit & _ & _).
pose proof (take_drop_middle es s e He) as Hes.
assert (Hwf' := Hwf). rewrite <- Hes in Hwf'.
apply wf_entries_app in Hwf' as (_ & Hk & Hv & _).
pose proof (restart_key (rawBlockIter.data i0) (entries_bytes (take s es))
              (entries_bytes (drop (S s) es) ++ tl) e) as HK.
cbv zeta. unfold offset_of in *.
destruct (rawBlockIter.decodeVarint _ _) as [v1 p1].
destruct (rawBlockIter.decodeVarint _ p1) as [v2 p2].
rewrite HK, Hc; [done| |done|done|done].
rewrite Hd. unfold block_of. fold tl. by rewrite Hsplit.
Qed.

(** X26: [SeekGE] on any block.  In a block whose keys ascend and whose
  restart points lie at entries that share nothing with the key
  before them, [SeekGE(k)] leaves the iterator, wherever it stood, on
  the first entry whose key is not below [k], which is the one with
  the smallest such key, and leaves it invalid when every key is
  below [k]. *)
Theorem SeekGE_lands_on_first_ge (es : list bentry) (ris : list nat)
  (i : rawBlockIter.rawBlockIter) (k : bytes) :
wf_entries [] es -> keys_ascend c es ->
(0 < length ris)%nat -> restarts_ok es ris ->
N.of_nat (length (entries_bytes es)) < 2^32 ->
iter_over c es (map (offset_of es) ris) i ->
landing (rawBlockIter.SeekGE i k)
= key_val <$> find (fun e => (c k (be_key e) <=? 0)%Z) es /\
forall e e',
  find (fun e => (c k (be_key e) <=? 0)%Z) es = Some e ->
  e' ∈ es -> (c k (be_key e') <= 0)%Z -> (c (be_key e) (be_key e') <= 0)%Z.
Proof.
intros Hwf Hasc Hris [Hsorted Hrest] Hsize Hover. split.
- set (rs := map (offset_of es) ris) in *.
  assert (Hnrs : length rs = length ris) by apply length_map.
  set (i0 := rawBlockIter.with_offset i 0).
  assert (Hover0 : iter_over c es rs i0) by done.
  destruct Hover as (Hc & Hd & Hr & Hn).
  set (g := fun j : Z =>
              match ris !! Z.to_nat j with
              | Some s => match es !! s with
                          | Some e => (c k (be_key e) <? 0)%Z
                          | None => false
                          end
              | None => false
              end).
  unfold rawBlockIter.SeekGE. fold i0. cbv zeta.
  unfold rawBlockIter.sort_Search.
  change (rawBlockIter.numRestarts i0) with (rawBlockIter.numRestarts i).
  rewrite Hn, Hnrs.
  assert (Hlook : forall j, (0 <= j < Z.of_nat (length ris))%Z ->
            exists s e, ris !! Z.to_nat j = Some s /\ es !! s = Some e /\
                        be_shared e = 0%nat).
  { intros j Hj.
    destruct (lookup_lt_is_Some_2 ris (Z.to_nat j)) as [s Hs]; [lia|].
    rewrite Forall_forall in Hrest.
    destruct (Hrest s) as (e & He & Hsh); [by eapply list_elem_of_lookup_2|].
    by exists s, e. }
  rewrite (search_loop_ext _ g).
  2:{ intros j Hj. destruct (Hlook j Hj) as (s & e & Hs & He & Hsh).
      unfold g. rewrite Hs, He.
      rewrite <- (Z2Nat.id j) at 1 by lia.
      by apply (seek_pred es ris i0 k (Z.to_nat j) s e). }
  destruct (search_loop_spec g (S (Z.to_nat (Z.of_nat (length ris)))) 0
              (Z.of_nat (length ris))) as (Hr1 & Hr2 & Hr3); [lia|lia| |].
  { intros a b Hab Hb Hga.
    destruct (Hlook a ltac:(lia)) as (sa & ea & Hsa & Hea & _).
    destruct (Hlook b ltac:(lia)) as (sb & eb & Hsb & Heb & _).
    unfold g in *. rewrite Hsa, Hea in Hga. rewrite Hsb, Heb.
    destruct (decide (a = b)) as [->|Hne]; [by simplify_eq|].
    assert (Hlt : (sa < sb)%nat)
      by (apply (sorted_lookup_lt lt ris (Z.to_nat a) (Z.to_nat b)); [done..|lia]).
    pose proof (sorted_lookup_lt _ es sa sb ea eb Hasc Hea Heb Hlt) as Hkeys.
    cbv beta in Hkeys.
    apply Z.ltb_lt. apply Z.ltb_lt in Hga.
    apply (cmp_lt_le_trans c k (be_key ea) (be_key eb)); [done|lia]. }
  set (r := rawBlockIter.search_loop _ g 0 _) in *.
  destruct (Z.ltb_spec 0 r) as [Hpos|Hzero].
  + destruct (Hlook (r - 1)%Z ltac:(lia)) as (s & e & Hs & He & Hsh).
    assert (Hg : g (r - 1)%Z = false) by (apply Hr2; lia).
    unfold g in Hg. rewrite Hs, He in Hg. apply Z.ltb_ge in Hg.
    pose proof (offset_of_le es s) as Hle.
    assert (Hoff : rawBlockIter.restart_at i0 (r - 1) = Z.of_nat (offset_of es s)).
    { rewrite <- (Z2Nat.id (r - 1)) by lia.
      apply (restart_at_lookup c es rs); [done|by unfold rs; rewrite list_lookup_fmap, Hs|lia]. }
    rewrite Hoff.
    apply (seek_tail es rs k s e); try done.
    intros e' He'. apply Z.leb_gt.
    destruct (Z.lt_ge_cases 0 (c k (be_key e'))) as [|Hle']; [done|].
    pose proof (take_drop_middle es s e He) as Hes.
    assert (Hkeys : (c (be_key e') (be_key e) < 0)%Z).
    { unfold keys_ascend in Hasc. rewrite <- Hes in Hasc.
      apply (StronglySorted_app_1_elem_of _ _ _ e' e Hasc); [done|left]. }
    pose proof (cmp_le_lt_trans c k (be_key e') (be_key e) ltac:(lia) Hkeys). lia.
  + destruct (Hlook 0%Z ltac:(lia)) as (s0 & e0 & Hs0 & He0 & _).
    destruct es as [|e es']; [done|].
    apply (seek_tail (e :: es') rs k 0 e); try done.
    * destruct Hwf as (Hsh & _). cbn in Hsh. lia.
    * intros e' He'. by apply elem_of_nil in He'.
- intros e e' Hfind He' Hk'.
  destruct (find_split _ es e Hfind) as (l1 & l2 & Hes & Hl1).
  rewrite Hes in He'. apply elem_of_app in He' as [He'|He'].
  + apply Hl1 in He'. apply Z.leb_gt in He'. lia.
  + apply elem_of_cons in He' as [->|He'].
    * rewrite (cmp_refl c). lia.
    * unfold keys_ascend in Hasc. rewrite Hes in Hasc.
      apply StronglySorted_app_1_r, StronglySorted_inv in Hasc as [_ Hall].
      rewrite Forall_forall in Hall. specialize (Hall e' He'). cbv beta in Hall. lia.
Qed.

End SeekGE.

Lemma First_Next_visit_entries_witness :
  exists i,
    rawBlockIter.init bytes_Compare (block_of entries_example [0; 11]%nat) = inl i /\
    forall fuel, (length entries_example < fuel)%nat ->
      walk fuel (rawBlockIter.First i) = map (fun e => (be_key e, be_val e)) entries_example.
Proof.
  apply (First_Next_visit_entries bytes_Compare entries_example [0; 11]%nat).
  - cbn. repeat split; lia.
  - cbn. lia.
  - vm_compute. reflexivity.
Defined.

Lemma SeekGE_lands_on_first_ge_witness :
  landing (rawBlockIter.SeekGE
             (iter_of bytes_Compare entries_example (map (offset_of entries_example) [0; 2]%nat))
             ["a"; "b"; "c"]%byte)
  = key_val <$> find (fun e => (bytes_Compare ["a"; "b"; "c"]%byte (be_key e) <=? 0)%Z)
                  entries_example /\
  forall e e',
    find (fun e => (bytes_Compare ["a"; "b"; "c"]%byte (be_key e) <=? 0)%Z) entries_example
    = Some e ->
    e' ∈ entries_example -> (bytes_Compare ["a"; "b"; "c"]%byte (be_key e') <= 0)%Z ->
    (bytes_Compare (be_key e) (be_key e') <= 0)%Z.
Proof.
  apply (SeekGE_lands_on_first_ge bytes_Compare entries_example [0; 2]%nat).
  - cbn. repeat split; lia.
  - unfold keys_ascend. repeat constructor.
  - cbn. lia.
  - split.
    + repeat constructor.
    + repeat constructor; eexists; split; reflexivity.
  - vm_compute. reflexivity.
  - repeat split.
Defined.

(** On the block of [entries_example] with restart points at the first and
    the third entry, [SeekGE] of "abc" lands on "ac". *)
Example SeekGE_on_entries_example :
  landing (rawBlockIter.SeekGE
             (iter_of bytes_Compare entries_example (map (offset_of entries_example) [0; 2]%nat))
             ["a"; "b"; "c"]%byte)
  = Some (["a"; "c"]%byte, ["2"%byte]).
Proof. vm_compute. reflexivity. Qed.

(** ** The raw block iterator backwards *)

Lemma offset_of_S (es : list bentry) (j : nat) (e : bentry) :
  es !! j = Some e -> offset_of es (S j) = (offset_of es j + length (enc_bentry e))%nat.
Proof. intros He. by destruct (entries_split es j e [] He) as (_ & _ & ?). Qed.

Lemma offset_of_lt (es : list bentry) : forall (a b : nat),
  (a < b <= length es)%nat -> (offset_of es a < offset_of es b)%nat.
Proof.
  intros a b. induction b as [|b IH]; [lia|]. intros Hab.
  destruct (lookup_lt_is_Some_2 es b) as [e He]; [lia|].
  rewrite (offset_of_S es b e He). pose proof (enc_bentry_length e).
  destruct (decide (a = b)) as [->|]; [lia|].
  assert (offset_of es a < offset_of es b)%nat by (apply IH; lia). lia.
Qed.

Lemma offset_of_ge (es : list bentry) (j : nat) :
  (j <= length es)%nat -> (j <= offset_of es j)%nat.
Proof.
  induction j as [|j IH]; [lia|]. intros Hj.
  pose proof (offset_of_lt es j (S j) ltac:(lia)). specialize (IH ltac:(lia)). lia.
Qed.

Lemma offset_of_all (es : list bentry) :
  offset_of es (length es) = length (entries_bytes es).
Proof. unfold offset_of. by rewrite firstn_all. Qed.

Lemma cache_run_one (es : list bentry) (j : nat) : cache_run es j j = [bentry_at es j].
Proof. unfold cache_run. by replace (S j - j)%nat with 1%nat by lia. Qed.

Lemma cache_run_S (es : list bentry) (a j : nat) :
  (a <= S j)%nat -> cache_run es a (S j) = cache_run es a j ++ [bentry_at es (S j)].
Proof.
  intros Ha. unfold cache_run.
  replace (S (S j) - a)%nat with (S (S j - a)) by lia.
  rewrite seq_S, map_app. cbn [map]. do 3 f_equal. lia.
Qed.

Lemma cache_run_length (es : list bentry) (a j : nat) :
  length (cache_run es a j) = (S j - a)%nat.
Proof. unfold cache_run. by rewrite length_map, length_seq. Qed.

Lemma cache_run_lookup (es : list bentry) (a j t : nat) :
  (a + t <= j)%nat -> cache_run es a j !! t = Some (bentry_at es (a + t)).
Proof.
  intros Ht. unfold cache_run. rewrite list_lookup_fmap.
  rewrite lookup_seq_lt by lia. done.
Qed.

(** In a well-formed block an entry shares with the entry before it what
    it says it shares. *)
Lemma wf_entries_lookup (es : list bentry) : forall (p : bytes) (j : nat) (e : bentry),
  wf_entries p es -> es !! j = Some e ->
  (be_shared e <= length (be_key e))%nat /\
  N.of_nat (length (be_key e)) < 2^32 /\ N.of_nat (length (be_val e)) < 2^32 /\
  take (be_shared e) (be_key e)
  = take (be_shared e) (match j with O => p | S j' => bkey_at es j' end).
Proof.
  induction es as [|x es IH]; intros p j e Hwf He; [done|].
  destruct Hwf as (H1 & H2 & H3 & H4 & H5 & Hwf).
  destruct j as [|j].
  - cbn in He. by injection He as <-.
  - cbn in He. destruct (IH (be_key x) j e Hwf He) as (G1 & G2 & G3 & G4).
    repeat split; try done. rewrite G4. by destruct j.
Qed.

Section Backward.
Context (c : db.Compare) (es : list bentry) (rs : list nat).
Context (Hwf : wf_entries [] es).

(** One round of the loops of [Last] and [Prev]: the entry [j] is read
  and put into the cache. *)
Lemma read_entry_index (i1 : rawBlockIter.rawBlockIter) (i0 : rawBlockIter.rawBlockIter)
  (j : nat) (e : bentry) :
iter_over c es rs i0 ->
es !! j = Some e ->
rawBlockIter.cmp i1 = rawBlockIter.cmp i0 ->
rawBlockIter.restarts i1 = rawBlockIter.restarts i0 ->
rawBlockIter.numRestarts i1 = rawBlockIter.numRestarts i0 ->
rawBlockIter.data i1 = rawBlockIter.data i0 ->
rawBlockIter.err i1 = rawBlockIter.err i0 ->
db.Trailer (rawBlockIter.ikey i1) = db.Trailer (rawBlockIter.ikey i0) ->
rawBlockIter.offset i1 = Z.of_nat (offset_of es j) ->
take (be_shared e) (rawBlockIter.key i1) = take (be_shared e) (be_key e) ->
rawBlockIter.cacheEntry (rawBlockIter.readEntry i1)
= {| rawBlockIter.cmp := rawBlockIter.cmp i0;
     rawBlockIter.offset := Z.of_nat (offset_of es j);
     rawBlockIter.nextOffset := Z.of_nat (offset_of es (S j));
     rawBlockIter.restarts := rawBlockIter.restarts i0;
     rawBlockIter.numRestarts := rawBlockIter.numRestarts i0;
     rawBlockIter.data := rawBlockIter.data i0;
     rawBlockIter.key := be_key e;
     rawBlockIter.val := be_val e;
     rawBlockIter.ikey := {| db.UserKey := db.UserKey (rawBlockIter.ikey i1);
                             db.Trailer := db.Trailer (rawBlockIter.ikey i0) |};
     rawBlockIter.cached := rawBlockIter.cached i1 ++ [bentry_at es j];
     rawBlockIter.err := rawBlockIter.err i0 |}.
Proof.
intros (Hc & Hd & Hr & Hn) He E1 E2 E3 E4 E5 E6 Ho Hpre.
set (tl := concat (map (fun r => binary.le_bytes 4 (N.of_nat r)) rs)
           ++ binary.le_bytes 4 (N.of_nat (length rs))).
destruct (entries_split es j e tl He) as (Hsplit & Hlen & Hnext).
destruct (wf_entries_lookup es [] j e Hwf He) as (Hs & Hk & Hv & _).
rewrite (readEntry_at i1 (entries_bytes (take j es))
           (entries_bytes (drop (S j) es) ++ tl) e);
  [|by rewrite E4, Hd|done|done|done|done|done].
unfold rawBlockIter.cacheEntry, moved.
cbn [rawBlockIter.cmp rawBlockIter.offset rawBlockIter.nextOffset rawBlockIter.restarts
     rawBlockIter.numRestarts rawBlockIter.data rawBlockIter.key rawBlockIter.val
     rawBlockIter.ikey rawBlockIter.cached rawBlockIter.err].
rewrite E1, E2, E3, E4, E5, E6, Ho, Hnext.
unfold bentry_at. rewrite He. cbn [from_option].
unfold offset_of. by rewrite Nat2Z.inj_add.
Qed.

Lemma read_next_index (i0 : rawBlockIter.rawBlockIter) (a j : nat) (uk : bytes) :
iter_over c es rs i0 -> (a <= j)%nat -> (S j < length es)%nat ->
rawBlockIter.cacheEntry
  (rawBlockIter.readEntry
     (rawBlockIter.with_offset (bstate i0 es a j (bkey_at es j) uk)
        (Z.of_nat (offset_of es (S j)))))
= bstate i0 es a (S j) (bkey_at es (S j)) uk.
Proof.
intros Hover Ha Hj.
destruct (lookup_lt_is_Some_2 es (S j)) as [e He]; [lia|].
destruct (wf_entries_lookup es [] (S j) e Hwf He) as (_ & _ & _ & Hpre).
rewrite (read_entry_index _ i0 (S j) e Hover He); try done.
unfold bstate, bkey_at. rewrite He. cbn [from_option].
cbn [rawBlockIter.with_offset rawBlockIter.ikey rawBlockIter.cached db.UserKey].
by rewrite (cache_run_S es a j) by lia.
Qed.

(** The loop of [Last] and [Prev] from the entry [j] to the entry
  [j + n]. *)
Lemma read_until_run (i0 : rawBlockIter.rawBlockIter) (a : nat) (uk : bytes) :
iter_over c es rs i0 ->
forall (n j fuel : nat),
  (a <= j)%nat -> (j + n < length es)%nat -> (n <= fuel)%nat ->
  rawBlockIter.read_until fuel (Z.of_nat (offset_of es (S (j + n))))
    (bstate i0 es a j (bkey_at es j) uk)
  = bstate i0 es a (j + n) (bkey_at es (j + n)) uk.
Proof.
intros Hover. induction n as [|n IH]; intros j fuel Ha Hj Hf.
- rewrite Nat.add_0_r.
  destruct fuel as [|fuel]; [done|]. cbn [rawBlockIter.read_until].
  cbn [bstate rawBlockIter.nextOffset]. by rewrite Z.ltb_irrefl.
- destruct fuel as [|fuel]; [lia|]. cbn [rawBlockIter.read_until].
  change (rawBlockIter.nextOffset (bstate i0 es a j (bkey_at es j) uk))
    with (Z.of_nat (offset_of es (S j))).
  pose proof (offset_of_lt es (S j) (S (j + S n)) ltac:(lia)) as Hlt.
  replace (Z.of_nat (offset_of es (S j)) <? Z.of_nat (offset_of es (S (j + S n))))%Z
    with true by (symmetry; apply Z.ltb_lt; lia).
  rewrite read_next_index by (done || lia).
  replace (j + S n)%nat with (S j + n)%nat by lia.
  apply IH; lia.
Qed.

Lemma clearCache_readEntry (i1 : rawBlockIter.rawBlockIter) :
rawBlockIter.clearCache (rawBlockIter.readEntry i1)
= rawBlockIter.readEntry (rawBlockIter.clearCache i1).
Proof.
unfold rawBlockIter.readEntry, rawBlockIter.clearCache.
cbn [rawBlockIter.data rawBlockIter.offset rawBlockIter.key].
destruct (rawBlockIter.decodeVarint _ _) as [s1 p1].
destruct (rawBlockIter.decodeVarint _ p1) as [s2 p2].
by destruct (rawBlockIter.decodeVarint _ p2) as [s3 p3].
Qed.

(** The first entry that [Last] and [Prev] read: one that shares nothing
  with the key before it. *)
Lemma read_first_index (i0 : rawBlockIter.rawBlockIter) (s : nat) (e : bentry) :
iter_over c es rs i0 -> es !! s = Some e -> be_shared e = 0%nat ->
rawBlockIter.cacheEntry
  (rawBlockIter.clearCache
     (rawBlockIter.readEntry (rawBlockIter.with_offset i0 (Z.of_nat (offset_of es s)))))
= bstate i0 es s s (bkey_at es s) (db.UserKey (rawBlockIter.ikey i0)).
Proof.
intros Hover He Hs. rewrite clearCache_readEntry.
rewrite (read_entry_index _ i0 s e Hover He); try done; [|by rewrite Hs].
unfold bstate, bkey_at. rewrite He, cache_run_one. done.
Qed.

End Backward.

Lemma offset_of_mono (es : list bentry) (a b : nat) :
  (a <= b <= length es)%nat -> (offset_of es a <= offset_of es b)%nat.
Proof.
  intros Hab. destruct (decide (a = b)) as [->|]; [done|].
  pose proof (offset_of_lt es a b ltac:(lia)). lia.
Qed.

Section BackwardRestarts.
Context (c : db.Compare) (es : list bentry) (ris : list nat).
Context (Hwf : wf_entries [] es) (Hris : restarts_ok es ris).
Context (Hsize : N.of_nat (length (entries_bytes es)) < 2^32).

Lemma restart_lookup (i : rawBlockIter.rawBlockIter) (t : Z) :
iter_over c es (map (offset_of es) ris) i ->
(0 <= t < Z.of_nat (length ris))%Z ->
exists s e, ris !! Z.to_nat t = Some s /\ es !! s = Some e /\ be_shared e = 0%nat /\
            rawBlockIter.restart_at i t = Z.of_nat (offset_of es s).
Proof.
intros Hover Ht. destruct Hris as [Hsorted Hrest].
destruct (lookup_lt_is_Some_2 ris (Z.to_nat t)) as [s Hs]; [lia|].
rewrite Forall_forall in Hrest.
destruct (Hrest s) as (e & He & Hsh); [by eapply list_elem_of_lookup_2|].
exists s, e. repeat split; try done.
pose proof (offset_of_le es s).
rewrite <- (Z2Nat.id t) at 1 by lia.
apply (restart_at_lookup c es (map (offset_of es) ris));
  [done|by rewrite list_lookup_fmap, Hs|lia].
Qed.

(** [Last] reads from the last restart point to the end of the block. *)
Lemma Last_state (i : rawBlockIter.rawBlockIter) (s : nat) :
iter_over c es (map (offset_of es) ris) i ->
last ris = Some s ->
rawBlockIter.Last i
= bstate i es s (length es - 1) (bkey_at es (length es - 1)) (bkey_at es (length es - 1)).
Proof.
intros Hover Hlast.
assert (Hlen : (0 < length ris)%nat) by (destruct ris; [done|cbn; lia]).
rewrite last_lookup in Hlast.
destruct (restart_lookup i (Z.of_nat (length ris) - 1) Hover ltac:(lia))
  as (s' & e & Hs & He & Hsh & Hat).
replace (Z.to_nat (Z.of_nat (length ris) - 1)) with (pred (length ris)) in Hs by lia.
rewrite Hlast in Hs. injection Hs as <-.
assert (Hsl : (s < length es)%nat) by (by eapply lookup_lt_Some).
destruct Hover as (Hc & Hd & Hr & Hn).
unfold rawBlockIter.Last. rewrite Hn, length_map, Hat. cbv zeta.
rewrite (read_first_index c es _ Hwf i s e) by done.
change (rawBlockIter.restarts (bstate i es s s (bkey_at es s)
                                 (db.UserKey (rawBlockIter.ikey i))))
  with (rawBlockIter.restarts i).
rewrite Hr, <- offset_of_all.
replace (offset_of es (length es)) with (offset_of es (S (s + (length es - 1 - s))))
  by (f_equal; lia).
rewrite (read_until_run c es _ Hwf i s _ ltac:(done)); [|lia|lia|].
- by replace (s + (length es - 1 - s))%nat with (length es - 1)%nat by lia.
- pose proof (offset_of_ge es (S (s + (length es - 1 - s))) ltac:(lia)). lia.
Qed.

(** [Prev] within the cache. *)
Lemma Prev_cached (i0 : rawBlockIter.rawBlockIter) (a j : nat) (k uk : bytes) :
(a <= j)%nat ->
rawBlockIter.Prev (bstate i0 es a (S j) k uk) = (bstate i0 es a j k (bkey_at es j), true).
Proof.
intros Ha. unfold rawBlockIter.Prev.
cbn [bstate rawBlockIter.cached rawBlockIter.offset]. cbv zeta.
rewrite cache_run_length.
replace (Z.to_nat (Z.of_nat (S (S j) - a) - 1)) with (S j - a)%nat by lia.
replace (Z.to_nat (Z.of_nat (S (S j) - a) - 1 - 1)) with (j - a)%nat by lia.
rewrite (cache_run_lookup es a (S j) (S j - a)) by lia.
rewrite (cache_run_lookup es a (S j) (j - a)) by lia.
replace (a + (S j - a))%nat with (S j) by lia.
replace (a + (j - a))%nat with j by lia.
cbn [from_option bentry_at rawBlockIter.e_offset rawBlockIter.e_key rawBlockIter.e_val].
rewrite Z.eqb_refl.
replace (0 <? Z.of_nat (S (S j) - a) - 1)%Z with true by (symmetry; apply Z.ltb_lt; lia).
cbn [andb]. unfold bstate, bkey_at. do 2 f_equal.
rewrite (cache_run_S es a j) by lia.
rewrite take_app_length'; [done|]. rewrite cache_run_length. lia.
Qed.

(** [Prev] on the first entry. *)
Lemma Prev_first (i0 : rawBlockIter.rawBlockIter) (k uk : bytes) :
rawBlockIter.Valid (rawBlockIter.Prev (bstate i0 es 0 0 k uk)).1 = false.
Proof. done. Qed.

(** [Prev] by the search from the restart point before the entry. *)
Lemma Prev_search (i1 : rawBlockIter.rawBlockIter) (j : nat) :
iter_over c es (map (offset_of es) ris) i1 ->
(0 < length ris)%nat ->
rawBlockIter.offset i1 = Z.of_nat (offset_of es (S j)) ->
(S j <= length es)%nat ->
(0 <? Z.of_nat (length (rawBlockIter.cached i1)) - 1)%Z
&& from_option (fun e => (rawBlockIter.e_offset e =? rawBlockIter.offset i1)%Z) false
     (rawBlockIter.cached i1 !! Z.to_nat (Z.of_nat (length (rawBlockIter.cached i1)) - 1))
= false ->
exists s, (s <= j)%nat /\
  rawBlockIter.Prev i1 = (bstate i1 es s j (bkey_at es j) (bkey_at es j), true).
Proof.
intros Hover Hlen Ho Hj Hstale.
pose proof (offset_of_ge es (S j) Hj) as Hge.
unfold rawBlockIter.Prev. cbv zeta. rewrite Hstale.
replace (rawBlockIter.offset i1 =? 0)%Z with false by (symmetry; apply Z.eqb_neq; lia).
set (g := fun t : Z =>
            match ris !! Z.to_nat t with
            | Some s => (offset_of es (S j) <=? offset_of es s)%nat
            | None => false
            end).
unfold rawBlockIter.sort_Search.
destruct Hover as (Hc & Hd & Hr & Hn). rewrite Hn, length_map.
assert (Hover : iter_over c es (map (offset_of es) ris) i1) by done.
rewrite (search_loop_ext _ g).
2:{ intros t Ht. destruct (restart_lookup i1 t Hover Ht) as (s & e & Hs & He & Hsh & Hat).
    unfold g. rewrite Hs, Hat, Ho.
    destruct (Nat.leb_spec (offset_of es (S j)) (offset_of es s));
      [apply Z.leb_le|apply Z.leb_gt]; lia. }
destruct (search_loop_spec g (S (Z.to_nat (Z.of_nat (length ris)))) 0
            (Z.of_nat (length ris))) as (Hr1 & Hr2 & Hr3); [lia|lia| |].
{ intros a b Hab Hb Hga.
  destruct (restart_lookup i1 a Hover ltac:(lia)) as (sa & ea & Hsa & Hea & _).
  destruct (restart_lookup i1 b Hover ltac:(lia)) as (sb & eb & Hsb & Heb & _).
  unfold g in *. rewrite Hsa in Hga. rewrite Hsb.
  destruct (decide (a = b)) as [->|Hne]; [by simplify_eq|].
  destruct Hris as [Hsorted _].
  assert (Hlt : (sa < sb)%nat)
    by (apply (sorted_lookup_lt lt ris (Z.to_nat a) (Z.to_nat b)); [done..|lia]).
  apply lookup_lt_Some in Heb.
  pose proof (offset_of_mono es sa sb ltac:(lia)).
  apply Nat.leb_le. apply Nat.leb_le in Hga. lia. }
set (r := rawBlockIter.search_loop _ g 0 _) in *.
assert (Hstart : exists s e,
          (s <= j)%nat /\ es !! s = Some e /\ be_shared e = 0%nat /\
          (if (0 <? r)%Z
           then rawBlockIter.with_offset (rawBlockIter.with_offset i1 0)
                  (rawBlockIter.restart_at (rawBlockIter.with_offset i1 0) (r - 1))
           else rawBlockIter.with_offset i1 0)
          = rawBlockIter.with_offset i1 (Z.of_nat (offset_of es s))).
{ destruct (Z.ltb_spec 0 r) as [Hpos|Hzero].
  - destruct (restart_lookup i1 (r - 1) Hover ltac:(lia)) as (s & e & Hs & He & Hsh & Hat).
    exists s, e.
    assert (Hg : g (r - 1)%Z = false) by (apply Hr2; lia).
    unfold g in Hg. rewrite Hs in Hg. apply Nat.leb_gt in Hg.
    split; [|split; [done|split; [done|]]].
    + destruct (Nat.le_gt_cases s j) as [|Hgt]; [done|].
      apply lookup_lt_Some in He.
      pose proof (offset_of_mono es (S j) s ltac:(lia)). lia.
    + change (rawBlockIter.restart_at (rawBlockIter.with_offset i1 0) (r - 1))
        with (rawBlockIter.restart_at i1 (r - 1)).
      by rewrite Hat.
  - destruct es as [|e es'] eqn:Ees; [cbn in Hj; lia|].
    exists 0%nat, e. split; [lia|]. split; [done|]. split; [|done].
    destruct Hwf as (Hsh & _). cbn in Hsh. lia. }
destruct Hstart as (s & e & Hsj & He & Hsh & ->).
exists s. split; [done|].
rewrite (read_first_index c es _ Hwf i1 s e) by done.
rewrite Ho.
replace (offset_of es (S j)) with (offset_of es (S (s + (j - s)))) by (f_equal; lia).
rewrite (read_until_run c es _ Hwf i1 s _ ltac:(done)); [|lia|lia|].
- by replace (s + (j - s))%nat with j by lia.
- pose proof (offset_of_ge es (S (s + (j - s))) ltac:(lia)). lia.
Qed.

Lemma Valid_bstate (i0 : rawBlockIter.rawBlockIter) (a j : nat) (k uk : bytes) :
iter_over c es (map (offset_of es) ris) i0 -> (j < length es)%nat ->
rawBlockIter.Valid (bstate i0 es a j k uk) = true.
Proof.
intros (_ & _ & Hr & _) Hj. unfold rawBlockIter.Valid.
cbn [bstate rawBlockIter.offset rawBlockIter.restarts]. rewrite Hr, <- offset_of_all.
pose proof (offset_of_lt es j (length es) ltac:(lia)).
apply andb_true_iff. split; [apply Z.leb_le|apply Z.ltb_lt]; lia.
Qed.

(** The loop [for ; i.Valid(); i.Prev()] from the entry [j]. *)
Lemma walk_back_from (i0 : rawBlockIter.rawBlockIter) :
iter_over c es (map (offset_of es) ris) i0 -> (0 < length ris)%nat ->
forall (j a fuel : nat) (k : bytes),
  (a <= j)%nat -> (j < length es)%nat -> (S j < fuel)%nat ->
  walk_back fuel (bstate i0 es a j k (bkey_at es j))
  = reverse (map key_val (take (S j) es)).
Proof.
intros Hover Hlen. induction j as [|j IH]; intros a fuel k Ha Hj Hf.
- destruct fuel as [|[|fuel]]; [lia|lia|].
  assert (a = 0)%nat as -> by lia.
  cbn [walk_back]. rewrite Valid_bstate by done. rewrite Prev_first.
  destruct es as [|e es']; [cbn in Hj; lia|]. done.
- destruct fuel as [|fuel]; [lia|].
  cbn [walk_back]. rewrite Valid_bstate by done.
  destruct (lookup_lt_is_Some_2 es (S j)) as [e He]; [lia|].
  rewrite (take_S_r es (S j) e He), map_app, reverse_app. cbn [map reverse app].
  unfold rawBlockIter.Key, rawBlockIter.Value.
  cbn [bstate rawBlockIter.ikey rawBlockIter.val db.UserKey].
  unfold bkey_at at 1. rewrite He. cbn [from_option]. unfold key_val at 1.
  rewrite reverse_singleton. cbn [app]. f_equal.
  destruct (decide (a <= j)%nat) as [Haj|Haj].
  + rewrite Prev_cached by done. cbn [fst]. apply IH; lia.
  + assert (a = S j) as -> by lia.
    destruct (Prev_search (bstate i0 es (S j) (S j) k (bkey_at es (S j))) j)
      as (s & Hs & ->); [done|done|done|lia| |].
    * cbn [bstate rawBlockIter.cached]. by rewrite cache_run_one.
    * cbn [fst]. apply (IH s); lia.
Qed.

End BackwardRestarts.

Section BackwardThm.
Context (c : db.Compare).

(** X27: reading a block backwards.  In a block whose restart offsets
  ascend and point at entries that share nothing with the key before
  them, the loop [for i.Last(); i.Valid(); i.Prev()] visits the keys
  and the values of all entries, from the last to the first, and ends
  there, wherever the iterator stood before. *)
Theorem Last_Prev_visit_reverse (es : list bentry) (ris : list nat)
  (i : rawBlockIter.rawBlockIter) :
wf_entries [] es -> (0 < length ris)%nat -> restarts_ok es ris ->
N.of_nat (length (entries_bytes es)) < 2^32 ->
iter_over c es (map (offset_of es) ris) i ->
forall fuel, (length es < fuel)%nat ->
  walk_back fuel (rawBlockIter.Last i) = reverse (map key_val es).
Proof.
intros Hwf Hlen Hris Hsize Hover fuel Hf.
destruct (last ris) as [s|] eqn:Hlast; [|by apply last_None in Hlast; subst ris; cbn in Hlen; lia].
assert (Hes : (0 < length es)%nat).
{ destruct Hris as [_ Hrest]. rewrite Forall_forall in Hrest.
  destruct ris as [|r ris']; [cbn in Hlen; lia|].
  destruct (Hrest r ltac:(left)) as (e & He & _). apply lookup_lt_Some in He. lia. }
rewrite (Last_state c es ris Hwf Hris Hsize i s Hover Hlast).
rewrite (walk_back_from c es ris Hwf Hris Hsize i Hover Hlen); [| |lia|lia].
- replace (S (length es - 1)) with (length es) by lia. by rewrite firstn_all.
- rewrite last_lookup in Hlast. destruct Hris as [_ Hrest].
  rewrite Forall_forall in Hrest.
  destruct (Hrest s) as (e & He & _); [by eapply list_elem_of_lookup_2|].
  apply lookup_lt_Some in He. lia.
Qed.

(** [Next] after [Last] and [Prev]: the entry is read with the key that
  [i.key] holds. *)
Lemma Next_bstate (es : list bentry) (rs : list nat) (i0 : rawBlockIter.rawBlockIter)
  (a j : nat) (k uk : bytes) (e : bentry) :
wf_entries [] es -> iter_over c es rs i0 -> es !! S j = Some e ->
let i1 := (rawBlockIter.Next (bstate i0 es a j k uk)).1 in
rawBlockIter.Valid i1 = true /\
rawBlockIter.offset i1 = Z.of_nat (offset_of es (S j)) /\
rawBlockIter.Value i1 = be_val e /\
db.UserKey (rawBlockIter.Key i1)
= take (be_shared e) k ++ drop (be_shared e) (be_key e).
Proof.
intros Hwf (Hc & Hd & Hr & Hn) He. cbv zeta.
set (tl := concat (map (fun r => binary.le_bytes 4 (N.of_nat r)) rs)
           ++ binary.le_bytes 4 (N.of_nat (length rs))).
destruct (entries_split es (S j) e tl He) as (Hsplit & Hlen & Hnext).
destruct (wf_entries_lookup es [] (S j) e Hwf He) as (Hs & Hk & Hv & _).
pose proof (enc_bentry_length e) as Hel.
unfold rawBlockIter.Next.
change (rawBlockIter.nextOffset (bstate i0 es a j k uk))
  with (Z.of_nat (offset_of es (S j))).
set (i1 := rawBlockIter.with_offset (bstate i0 es a j k uk) (Z.of_nat (offset_of es (S j)))).
assert (Hval : rawBlockIter.Valid i1 = true).
{ unfold rawBlockIter.Valid, i1.
  cbn [rawBlockIter.with_offset bstate rawBlockIter.offset rawBlockIter.restarts].
  rewrite Hr, Hlen. apply andb_true_iff. split; [apply Z.leb_le|apply Z.ltb_lt]; lia. }
rewrite Hval. cbn [negb fst]. unfold rawBlockIter.loadEntry.
rewrite (readEntry_at_any i1 (entries_bytes (take (S j) es))
           (entries_bytes (drop (S (S j)) es) ++ tl) e);
  [|by unfold i1; cbn [rawBlockIter.with_offset bstate rawBlockIter.data]; rewrite Hd
   |done|done|done|done].
repeat split. exact Hval.
Qed.

(** X28: forward after two steps back.  [Prev] within the cache sets the
  key that [Key] returns and leaves [i.key] as it is, the key of the
  last entry read.  So after [Last], [Prev], [Prev] in a block that
  ends with the entries [e1], [e2], [e3] after its last restart point,
  [Next] stands on [e2] and returns its value, but as its key the
  bytes that [e2] stores behind the first [be_shared e2] bytes of the
  key of [e3], not of [e1]: the key of [e2] only if [e3] and [e2] have
  that many bytes in common. *)
Theorem Next_after_Prev_Prev_reads_stale_key (es0 : list bentry) (e1 e2 e3 : bentry)
  (ris : list nat) (s : nat) (i : rawBlockIter.rawBlockIter) :
wf_entries [] (es0 ++ [e1; e2; e3]) ->
restarts_ok (es0 ++ [e1; e2; e3]) ris ->
last ris = Some s -> (s <= length es0)%nat ->
N.of_nat (length (entries_bytes (es0 ++ [e1; e2; e3]))) < 2^32 ->
iter_over c (es0 ++ [e1; e2; e3]) (map (offset_of (es0 ++ [e1; e2; e3])) ris) i ->
(be_shared e2 <= length (be_key e3))%nat ->
let i3 := (rawBlockIter.Next
             (rawBlockIter.Prev (rawBlockIter.Prev (rawBlockIter.Last i)).1).1).1 in
rawBlockIter.Valid i3 = true /\
rawBlockIter.Value i3 = be_val e2 /\
db.UserKey (rawBlockIter.Key i3)
= take (be_shared e2) (be_key e3) ++ drop (be_shared e2) (be_key e2) /\
(db.UserKey (rawBlockIter.Key i3) = be_key e2 <->
 take (be_shared e2) (be_key e3) = take (be_shared e2) (be_key e2)).
Proof.
intros Hwf Hris Hlast Hs Hsize Hover Hcap.
set (es := es0 ++ [e1; e2; e3]) in *.
assert (Hn : length es = S (S (S (length es0))))
  by (unfold es; rewrite length_app; cbn; lia).
assert (H2 : es !! S (length es0) = Some e2).
{ unfold es. rewrite lookup_app_r by lia.
  by replace (S (length es0) - length es0)%nat with 1%nat by lia. }
assert (H3 : bkey_at es (S (S (length es0))) = be_key e3).
{ unfold bkey_at, es. rewrite lookup_app_r by lia.
  by replace (S (S (length es0)) - length es0)%nat with 2%nat by lia. }
rewrite (Last_state c es ris Hwf Hris Hsize i s Hover Hlast).
replace (length es - 1)%nat with (S (S (length es0))) by lia.
rewrite (Prev_cached es) by lia. cbn [fst].
rewrite (Prev_cached es) by lia. cbn [fst]. rewrite H3.
destruct (Next_bstate es _ i s (length es0) (be_key e3) (bkey_at es (length es0)) e2
            Hwf Hover H2) as (G1 & _ & G2 & G3).
cbv zeta. split; [done|]. split; [done|]. split; [done|].
rewrite G3.
destruct (wf_entries_lookup es [] _ e2 Hwf H2) as (Hsh & _).
split.
- intros E. rewrite <- (take_drop (be_shared e2) (be_key e2)) in E at 2.
  apply app_inj_1 in E; [by destruct E|].
  rewrite !length_take. lia.
- intros ->. apply take_drop.
Qed.

End BackwardThm.

Section ForwardBack.
Context (c : db.Compare) (es : list bentry) (rs : list nat).
Context (Hwf : wf_entries [] es).

Lemma load_index (i1 i0 : rawBlockIter.rawBlockIter) (j : nat) (e : bentry) :
iter_over c es rs i0 ->
es !! j = Some e ->
rawBlockIter.cmp i1 = rawBlockIter.cmp i0 ->
rawBlockIter.restarts i1 = rawBlockIter.restarts i0 ->
rawBlockIter.numRestarts i1 = rawBlockIter.numRestarts i0 ->
rawBlockIter.data i1 = rawBlockIter.data i0 ->
rawBlockIter.err i1 = rawBlockIter.err i0 ->
rawBlockIter.cached i1 = rawBlockIter.cached i0 ->
db.Trailer (rawBlockIter.ikey i1) = db.Trailer (rawBlockIter.ikey i0) ->
rawBlockIter.offset i1 = Z.of_nat (offset_of es j) ->
take (be_shared e) (rawBlockIter.key i1) = take (be_shared e) (be_key e) ->
rawBlockIter.loadEntry i1 = fstate i0 es j.
Proof.
intros (Hc & Hd & Hr & Hn) He E1 E2 E3 E4 E5 E6 E7 Ho Hpre.
set (tl := concat (map (fun r => binary.le_bytes 4 (N.of_nat r)) rs)
           ++ binary.le_bytes 4 (N.of_nat (length rs))).
destruct (entries_split es j e tl He) as (Hsplit & Hlen & Hnext).
destruct (wf_entries_lookup es [] j e Hwf He) as (Hs & Hk & Hv & _).
rewrite (loadEntry_at i1 (entries_bytes (take j es))
           (entries_bytes (drop (S j) es) ++ tl) e);
  [|by rewrite E4, Hd|done|done|done|done|done].
unfold moved, fstate, bkey_at. rewrite He. cbn [from_option].
rewrite E1, E2, E3, E4, E5, E6, E7, Ho, Hnext.
unfold offset_of. by rewrite Nat2Z.inj_add.
Qed.

Lemma First_fstate (i0 : rawBlockIter.rawBlockIter) :
iter_over c es rs i0 -> (0 < length es)%nat ->
rawBlockIter.First i0 = fstate i0 es 0.
Proof.
intros Hover Hlen. destruct (lookup_lt_is_Some_2 es 0 Hlen) as [e He].
destruct (wf_entries_lookup es [] 0 e Hwf He) as (Hs & _ & _ & Hpre).
unfold rawBlockIter.First.
apply (load_index _ i0 0 e); try done.
assert (be_shared e = 0)%nat as ->; [|done].
destruct es as [|e' es']; [done|]. cbn in He. injection He as ->.
destruct Hwf as (Hsh & _). cbn in Hsh. lia.
Qed.

Lemma Next_fstate (i0 : rawBlockIter.rawBlockIter) (j : nat) :
iter_over c es rs i0 -> (S j < length es)%nat ->
rawBlockIter.Next (fstate i0 es j) = (fstate i0 es (S j), true).
Proof.
intros Hover Hj. destruct (lookup_lt_is_Some_2 es (S j) Hj) as [e He].
destruct (wf_entries_lookup es [] (S j) e Hwf He) as (_ & _ & _ & Hpre).
unfold rawBlockIter.Next.
change (rawBlockIter.nextOffset (fstate i0 es j)) with (Z.of_nat (offset_of es (S j))).
set (i1 := rawBlockIter.with_offset (fstate i0 es j) (Z.of_nat (offset_of es (S j)))).
assert (Hval : rawBlockIter.Valid i1 = true).
{ destruct Hover as (_ & _ & Hr & _). unfold rawBlockIter.Valid, i1.
  cbn [rawBlockIter.with_offset fstate rawBlockIter.offset rawBlockIter.restarts].
  rewrite Hr, <- offset_of_all.
  pose proof (offset_of_lt es (S j) (length es) ltac:(lia)).
  apply andb_true_iff. split; [apply Z.leb_le|apply Z.ltb_lt]; lia. }
rewrite Hval. cbn [negb]. f_equal.
by apply (load_index _ i0 (S j) e).
Qed.

Lemma Nexts_fstate (i0 : rawBlockIter.rawBlockIter) (m : nat) :
iter_over c es rs i0 -> (m < length es)%nat ->
Nexts m (rawBlockIter.First i0) = fstate i0 es m.
Proof.
intros Hover. induction m as [|m IH]; intros Hm.
- apply First_fstate; [done|lia].
- change (Nexts (S m) (rawBlockIter.First i0))
    with (rawBlockIter.Next (Nexts m (rawBlockIter.First i0))).1.
  rewrite IH by lia. by rewrite Next_fstate.
Qed.

Lemma Next_fstate_offset (i0 : rawBlockIter.rawBlockIter) (j : nat) :
iter_over c es rs i0 -> (j < length es)%nat ->
let i1 := (rawBlockIter.Next (fstate i0 es j)).1 in
iter_over c es rs i1 /\
rawBlockIter.offset i1 = Z.of_nat (offset_of es (S j)) /\
rawBlockIter.cached i1 = rawBlockIter.cached i0.
Proof.
intros Hover Hj. cbv zeta.
destruct (decide (S j < length es)%nat) as [Hlt|Hge].
- by rewrite Next_fstate.
- assert (S j = length es) as Hend by lia.
  unfold rawBlockIter.Next.
  change (rawBlockIter.nextOffset (fstate i0 es j)) with (Z.of_nat (offset_of es (S j))).
  set (i1 := rawBlockIter.with_offset (fstate i0 es j) (Z.of_nat (offset_of es (S j)))).
  assert (Hval : rawBlockIter.Valid i1 = false).
  { destruct Hover as (_ & _ & Hr & _). unfold rawBlockIter.Valid, i1.
    cbn [rawBlockIter.with_offset fstate rawBlockIter.offset rawBlockIter.restarts].
    rewrite Hr, <- offset_of_all, Hend.
    apply andb_false_iff. right. apply Z.ltb_ge. lia. }
  by rewrite Hval.
Qed.

End ForwardBack.

Section PrevNext.
Context (c : db.Compare).

(** X29: [Prev] undoes [Next].  On an iterator whose cache is empty, as
  after [init], [First] and [m] calls of [Next] bring the iterator to
  the entry [m] of the block; from there [Next] and then [Prev]
  bring it back to the same entry, also when [Next] has left the
  block at its end; and [Prev] after [First] leaves the iterator
  invalid. *)
Theorem Prev_undoes_Next (es : list bentry) (ris : list nat)
  (i : rawBlockIter.rawBlockIter) (m : nat) :
wf_entries [] es -> (0 < length ris)%nat -> restarts_ok es ris ->
N.of_nat (length (entries_bytes es)) < 2^32 ->
iter_over c es (map (offset_of es) ris) i ->
rawBlockIter.cached i = [] ->
(m < length es)%nat ->
landing (Nexts m (rawBlockIter.First i)) = key_val <$> es !! m /\
landing (rawBlockIter.Prev (rawBlockIter.Next (Nexts m (rawBlockIter.First i))).1).1
= landing (Nexts m (rawBlockIter.First i)) /\
landing (rawBlockIter.Prev (rawBlockIter.First i)).1 = None.
Proof.
intros Hwf Hlen Hris Hsize Hover Hcache Hm.
destruct (lookup_lt_is_Some_2 es m Hm) as [e He].
rewrite (Nexts_fstate c es _ Hwf i m Hover Hm).
assert (Hland : landing (fstate i es m) = key_val <$> es !! m).
{ unfold landing. destruct Hover as (_ & _ & Hr & _).
  replace (rawBlockIter.Valid (fstate i es m)) with true.
  - unfold rawBlockIter.Key, rawBlockIter.Value, fstate, bkey_at. by rewrite He.
  - symmetry. unfold rawBlockIter.Valid.
    cbn [fstate rawBlockIter.offset rawBlockIter.restarts].
    rewrite Hr, <- offset_of_all.
    pose proof (offset_of_lt es m (length es) ltac:(lia)).
    apply andb_true_iff. split; [apply Z.leb_le|apply Z.ltb_lt]; lia. }
split; [done|]. split.
- rewrite Hland.
  destruct (Next_fstate_offset c es _ Hwf i m Hover Hm) as (Hover1 & Ho1 & Hc1).
  destruct (Prev_search c es ris Hwf Hris Hsize _ m Hover1 Hlen Ho1 ltac:(lia))
    as (s & Hs & ->).
  { by rewrite Hc1, Hcache. }
  cbn [fst]. unfold landing.
  rewrite (Valid_bstate c es ris) by done.
  unfold rawBlockIter.Key, rawBlockIter.Value, bstate, bkey_at. by rewrite He.
- rewrite (First_fstate c es _ Hwf i Hover) by lia.
  unfold rawBlockIter.Prev. cbn [fstate rawBlockIter.cached rawBlockIter.offset].
  rewrite Hcache. done.
Qed.

End PrevNext.

Lemma Last_Prev_visit_reverse_witness :
  walk_back 5
    (rawBlockIter.Last
       (iter_of bytes_Compare entries_example (map (offset_of entries_example) [0; 2]%nat)))
  = reverse (map key_val entries_example).
Proof.
  apply (Last_Prev_visit_reverse bytes_Compare entries_example [0; 2]%nat).
  - cbn. repeat split; lia.
  - cbn. lia.
  - split.
    + repeat constructor.
    + repeat constructor; eexists; split; reflexivity.
  - vm_compute. reflexivity.
  - repeat split.
  - cbn. lia.
Defined.

Lemma Next_after_Prev_Prev_reads_stale_key_witness :
  let i := iter_of bytes_Compare entries_aa_ab_b (map (offset_of entries_aa_ab_b) [0%nat]) in
  let i3 := (rawBlockIter.Next
               (rawBlockIter.Prev (rawBlockIter.Prev (rawBlockIter.Last i)).1).1).1 in
  rawBlockIter.Valid i3 = true /\
  rawBlockIter.Value i3 = ["2"%byte] /\
  db.UserKey (rawBlockIter.Key i3)
  = take 1 ["b"%byte] ++ drop 1 ["a"; "b"]%byte /\
  (db.UserKey (rawBlockIter.Key i3) = ["a"; "b"]%byte <->
   take 1 ["b"%byte] = take 1 ["a"; "b"]%byte).
Proof.
  apply (Next_after_Prev_Prev_reads_stale_key bytes_Compare []
           {| be_shared := 0; be_key := ["a"; "a"]%byte; be_val := ["1"%byte] |}
           {| be_shared := 1; be_key := ["a"; "b"]%byte; be_val := ["2"%byte] |}
           {| be_shared := 0; be_key := ["b"%byte]; be_val := ["3"%byte] |}
           [0%nat] 0%nat).
  - cbn. repeat split; lia.
  - split.
    + repeat constructor.
    + repeat constructor; eexists; split; reflexivity.
  - reflexivity.
  - cbn. lia.
  - vm_compute. reflexivity.
  - repeat split.
  - cbn. lia.
Defined.

(** On the block of [entries_aa_ab_b], [Last], [Prev], [Prev], [Next]
    return the key "bb" for the entry "ab". *)
Example Last_Prev_Prev_Next_on_aa_ab_b :
  landing (rawBlockIter.Next
             (rawBlockIter.Prev
                (rawBlockIter.Prev
                   (rawBlockIter.Last
                      (iter_of bytes_Compare entries_aa_ab_b
                         (map (offset_of entries_aa_ab_b) [0%nat])))).1).1).1
  = Some (["b"; "b"]%byte, ["2"%byte]).
Proof. vm_compute. reflexivity. Qed.

Lemma Prev_undoes_Next_witness :
  let i := iter_of bytes_Compare entries_example (map (offset_of entries_example) [0; 2]%nat) in
  landing (Nexts 3 (rawBlockIter.First i)) = key_val <$> entries_example !! 3%nat /\
  landing (rawBlockIter.Prev (rawBlockIter.Next (Nexts 3 (rawBlockIter.First i))).1).1
  = landing (Nexts 3 (rawBlockIter.First i)) /\
  landing (rawBlockIter.Prev (rawBlockIter.First i)).1 = None.
Proof.
  apply (Prev_undoes_Next bytes_Compare entries_example [0; 2]%nat).
  - cbn. repeat split; lia.
  - cbn. lia.
  - split.
    + repeat constructor.
    + repeat constructor; eexists; split; reflexivity.
  - vm_compute. reflexivity.
  - repeat split.
  - reflexivity.
  - cbn. lia.
Defined.
